(** * Token stream core of cppcheck (lib/token.cpp): a shallow embedding

    The development follows lib/token.cpp: the token record and the heap of
    tokens, the classification of a token from its text, the pattern
    matcher, the stream and AST mutators, and the per-token list of
    ValueFlow values. *)

From Stdlib Require Import ZArith List String Ascii Bool Lia PrimFloat.
From stdpp Require Import gmap.
Import ListNotations.

Set Default Proof Using "Type".

(** ** Outcomes of a call

    A C++ call either returns, throws [InternalError], runs into undefined
    behaviour (a null or dangling pointer is dereferenced), or does not
    come back (a pointer walk over a cyclic chain). *)

Inductive outcome (A : Type) : Type :=
| Ok (a : A)
| InternalError (msg : string)
| Undefined
| Diverges.

Arguments Ok {A} a.
Arguments InternalError {A} msg.
Arguments Undefined {A}.
Arguments Diverges {A}.

Definition bind {A B : Type} (c : outcome A) (k : A -> outcome B) : outcome B :=
  match c with
  | Ok a => k a
  | InternalError msg => InternalError msg
  | Undefined => Undefined
  | Diverges => Diverges
  end.

Notation "'let*' x := c 'in' k" := (bind c (fun x => k))
  (at level 10, x pattern, c at level 100, k at level 200).

Definition is_throw {A : Type} (c : outcome A) : bool :=
  match c with InternalError _ => true | _ => false end.

(** ** C strings

    A [const char*] into a NUL terminated buffer is the suffix it points
    at.  Reading at the end gives the terminator; the model also gives NUL
    for reads past the terminator, which the C++ code must not do. *)

Definition NUL : ascii := Ascii.zero.

Fixpoint char_at (s : string) (i : nat) : ascii :=
  match s, i with
  | EmptyString, _ => NUL
  | String c _, O => c
  | String _ s', S i' => char_at s' i'
  end.

Fixpoint advance (n : nat) (s : string) : string :=
  match n, s with
  | O, _ => s
  | S n', String _ s' => advance n' s'
  | S _, EmptyString => EmptyString
  end.

Definition ascii_eqb (a b : ascii) : bool := Ascii.eqb a b.

Fixpoint str_mem (c : ascii) (s : string) : bool :=
  match s with
  | EmptyString => false
  | String d s' => ascii_eqb c d || str_mem c s'
  end.

(** [std::strchr(s, c) != nullptr]: the terminator counts as a member. *)
Definition strchr_found (s : string) (c : ascii) : bool :=
  ascii_eqb c NUL || str_mem c s.

Definition str_eqb (a b : string) : bool := String.eqb a b.

(** ** Data model *)

(** A [Token*]: an address in the heap of tokens, [None] for [nullptr]. *)
Definition ptr : Type := nat.

(** [Token::Type], the kinds named in token.cpp. *)
Inductive TokType : Type :=
| eVariable | eType | eFunction | eKeyword | eName
| eNumber | eString | eChar | eBoolean
| eArithmeticalOp | eComparisonOp | eAssignmentOp | eLogicalOp | eBitOp
| eIncDecOp | eExtendedOp | eBracket | eLambda | eEllipsis | eOther | eNone.

Definition TokType_eqb (a b : TokType) : bool :=
  match a, b with
  | eVariable, eVariable | eType, eType | eFunction, eFunction
  | eKeyword, eKeyword | eName, eName | eNumber, eNumber
  | eString, eString | eChar, eChar | eBoolean, eBoolean
  | eArithmeticalOp, eArithmeticalOp | eComparisonOp, eComparisonOp
  | eAssignmentOp, eAssignmentOp | eLogicalOp, eLogicalOp | eBitOp, eBitOp
  | eIncDecOp, eIncDecOp | eExtendedOp, eExtendedOp | eBracket, eBracket
  | eLambda, eLambda | eEllipsis, eEllipsis | eOther, eOther
  | eNone, eNone => true
  | _, _ => false
  end.

(** [ValueFlow::Value]: the fields token.cpp reads and writes. *)
Inductive ValueType : Type :=
| INT | TOK | FLOAT | MOVED | UNINIT | CONTAINER_SIZE | LIFETIME
| BUFFER_SIZE | ITERATOR_START | ITERATOR_END | SYMBOLIC.

Inductive ValueKind : Type := Possible | Known | Inconclusive | Impossible.

Inductive Bound : Type := Upper | Lower | Point.

Record Value : Type := mkValue {
  valueType : ValueType;
  valueKind : ValueKind;
  bound : Bound;
  intvalue : Z;
  floatValue : float;
  tokvalue : option ptr;
  varId : Z
}.

(** The flags of [mFlags] that token.cpp's classification sets. *)
Record Flags : Type := mkFlags {
  fIsControlFlowKeyword : bool;
  fIsStandardType : bool;
  fIsLong : bool
}.

(** [TokenImpl], behind [Token::mImpl]. *)
Record TokenImpl : Type := mkImpl {
  mVarId : Z;
  mExprId : Z;
  mAstOperand1 : option ptr;
  mAstOperand2 : option ptr;
  mAstParent : option ptr;
  mValues : option (list Value);
  mProgressValue : Z
}.

Record Token : Type := mkToken {
  mStr : string;
  mTokType : TokType;
  mFlags : Flags;
  mNext : option ptr;
  mPrevious : option ptr;
  mLink : option ptr;
  mImpl : option TokenImpl;
  mIsCpp : bool
}.

(** The tokens alive in one list, with the shared [TokensFrontBack]. *)
Record Heap : Type := mkHeap {
  toks : gmap ptr Token;
  front : option ptr;
  back : option ptr
}.

(** Field updates, written out (C++ assigns the members in place). *)
Definition with_mStr (s : string) (t : Token) : Token :=
  mkToken s (mTokType t) (mFlags t) (mNext t) (mPrevious t) (mLink t) (mImpl t) (mIsCpp t).
Definition with_mTokType (k : TokType) (t : Token) : Token :=
  mkToken (mStr t) k (mFlags t) (mNext t) (mPrevious t) (mLink t) (mImpl t) (mIsCpp t).
Definition with_mFlags (f : Flags) (t : Token) : Token :=
  mkToken (mStr t) (mTokType t) f (mNext t) (mPrevious t) (mLink t) (mImpl t) (mIsCpp t).
Definition with_mNext (n : option ptr) (t : Token) : Token :=
  mkToken (mStr t) (mTokType t) (mFlags t) n (mPrevious t) (mLink t) (mImpl t) (mIsCpp t).
Definition with_mPrevious (n : option ptr) (t : Token) : Token :=
  mkToken (mStr t) (mTokType t) (mFlags t) (mNext t) n (mLink t) (mImpl t) (mIsCpp t).
Definition with_mLink (n : option ptr) (t : Token) : Token :=
  mkToken (mStr t) (mTokType t) (mFlags t) (mNext t) (mPrevious t) n (mImpl t) (mIsCpp t).
Definition with_mImpl (i : option TokenImpl) (t : Token) : Token :=
  mkToken (mStr t) (mTokType t) (mFlags t) (mNext t) (mPrevious t) (mLink t) i (mIsCpp t).

Definition with_mVarId (v : Z) (i : TokenImpl) : TokenImpl :=
  mkImpl v (mExprId i) (mAstOperand1 i) (mAstOperand2 i) (mAstParent i) (mValues i)
    (mProgressValue i).
Definition with_mAstOperand1 (p : option ptr) (i : TokenImpl) : TokenImpl :=
  mkImpl (mVarId i) (mExprId i) p (mAstOperand2 i) (mAstParent i) (mValues i)
    (mProgressValue i).
Definition with_mAstOperand2 (p : option ptr) (i : TokenImpl) : TokenImpl :=
  mkImpl (mVarId i) (mExprId i) (mAstOperand1 i) p (mAstParent i) (mValues i)
    (mProgressValue i).
Definition with_mAstParent (p : option ptr) (i : TokenImpl) : TokenImpl :=
  mkImpl (mVarId i) (mExprId i) (mAstOperand1 i) (mAstOperand2 i) p (mValues i)
    (mProgressValue i).
Definition with_mValues (l : option (list Value)) (i : TokenImpl) : TokenImpl :=
  mkImpl (mVarId i) (mExprId i) (mAstOperand1 i) (mAstOperand2 i) (mAstParent i) l
    (mProgressValue i).
Definition with_mProgressValue (v : Z) (i : TokenImpl) : TokenImpl :=
  mkImpl (mVarId i) (mExprId i) (mAstOperand1 i) (mAstOperand2 i) (mAstParent i)
    (mValues i) v.

Definition with_toks (m : gmap ptr Token) (h : Heap) : Heap :=
  mkHeap m (front h) (back h).
Definition with_front (p : option ptr) (h : Heap) : Heap :=
  mkHeap (toks h) p (back h).
Definition with_back (p : option ptr) (h : Heap) : Heap :=
  mkHeap (toks h) (front h) p.

(** [*p]: undefined when [p] is not a live token. *)
Definition deref (h : Heap) (p : ptr) : outcome Token :=
  match toks h !! p with
  | Some t => Ok t
  | None => Undefined
  end.

(** [t.mImpl->...]: undefined when [mImpl] is null. *)
Definition impl (t : Token) : outcome TokenImpl :=
  match mImpl t with
  | Some i => Ok i
  | None => Undefined
  end.

Definition store (h : Heap) (p : ptr) (t : Token) : Heap :=
  with_toks (<[p := t]> (toks h)) h.

(** [delete p]. *)
Definition free (h : Heap) (p : ptr) : Heap :=
  with_toks (delete p (toks h)) h.

(** Modelled from the spec: token.h is not part of the sources.  Its
    setters [tokType(t)], [isStandardType(b)], [isLong(b)] and
    [setFlag(fIsControlFlowKeyword, b)] store the kind and the flag; the
    spec's data model has [kind] and the flags as plain fields. *)
Definition tokType (k : TokType) (t : Token) : Token := with_mTokType k t.
Definition set_isStandardType (b : bool) (t : Token) : Token :=
  with_mFlags (mkFlags (fIsControlFlowKeyword (mFlags t)) b (fIsLong (mFlags t))) t.
Definition set_isLong (b : bool) (t : Token) : Token :=
  with_mFlags (mkFlags (fIsControlFlowKeyword (mFlags t)) (fIsStandardType (mFlags t)) b) t.
Definition set_fIsControlFlowKeyword (b : bool) (t : Token) : Token :=
  with_mFlags (mkFlags b (fIsStandardType (mFlags t)) (fIsLong (mFlags t))) t.

(** ** Classification (update_property_info) *)

(** The collaborators the classification asks: [TokenList::isKeyword] for
    the active dialect, the literal recognisers of utils.h, simplecpp's
    [isNumberLike] and MathLib's [isInt] and [isFloat]. *)
Record Oracles : Type := mkOracles {
  isKeyword : string -> bool;
  isStringLiteral : string -> bool;
  isCharLiteral : string -> bool;
  isPrefixStringCharLiteral : string -> ascii -> string -> bool;
  isNumberLike : string -> bool;
  isInt : string -> bool;
  isFloat : string -> bool
}.

Definition controlFlowKeywords : list string :=
  ["goto"; "do"; "if"; "else"; "for"; "while"; "switch"; "case"; "break";
   "continue"; "return"]%string.

Definition stdTypes : list string :=
  ["bool"; "_Bool"; "char"; "double"; "float"; "int"; "long"; "short";
   "size_t"; "void"; "wchar_t"; "signed"; "unsigned"]%string.

(** [set.find(s) != set.end()] *)
Definition set_contains (l : list string) (s : string) : bool :=
  existsb (str_eqb s) l.

(** [Token::isStandardType(const std::string&)] *)
Definition isStandardType (str : string) : bool := set_contains stdTypes str.

(** [Token::update_property_isStandardType] *)
Definition update_property_isStandardType (t : Token) : Token :=
  if (String.length (mStr t) <? 3) || (7 <? String.length (mStr t)) then t
  else if isStandardType (mStr t) then tokType eType (set_isStandardType true t)
  else t.

(** [std::isalpha] on an [unsigned char], in the C locale. *)
Definition isalpha (c : ascii) : bool :=
  let n := nat_of_ascii c in
  ((65 <=? n) && (n <=? 90)) || ((97 <=? n) && (n <=? 122)).

Definition size_is (n : nat) (s : string) : bool := String.length s =? n.

(** [s.size() == 1 && s.find_first_of(set) != npos] reads [s[0]]. *)
Definition one_of (set s : string) : bool :=
  size_is 1 s && str_mem (char_at s 0) set.

Definition has_link (t : Token) : bool :=
  match mLink t with Some _ => true | None => false end.

Definition dquote : ascii := ascii_of_nat 34.
Definition squote : ascii := ascii_of_nat 39.

Section Classification.
Variable O : Oracles.

  (** The operator tables of [Token::update_property_info], in its order. *)
Definition classify_operator (t : Token) : TokType :=
    let s := mStr t in
    if str_eqb s "=" || str_eqb s "<<=" || str_eqb s ">>="
       || (size_is 2 s && ascii_eqb (char_at s 1) "="
           && strchr_found "+-*/%&^|" (char_at s 0))
    then eAssignmentOp
    else if one_of ",[]()?:" s then eExtendedOp
    else if str_eqb s "<<" || str_eqb s ">>" || one_of "+-*/%" s
    then eArithmeticalOp
    else if one_of "&|^~" s then eBitOp
    else if (String.length s <=? 2)
            && (str_eqb s "&&" || str_eqb s "||" || str_eqb s "!")
    then eLogicalOp
    else if (String.length s <=? 2) && negb (has_link t)
            && (str_eqb s "==" || str_eqb s "!=" || str_eqb s "<"
                || str_eqb s "<=" || str_eqb s ">" || str_eqb s ">=")
    then eComparisonOp
    else if str_eqb s "<=>" then eComparisonOp
    else if size_is 2 s && (str_eqb s "++" || str_eqb s "--") then eIncDecOp
    else if size_is 1 s
            && (str_mem (char_at s 0) "{}"
                || (has_link t && str_mem (char_at s 0) "<>"))
    then eBracket
    else if str_eqb s "..." then eEllipsis
    else eOther.

  (** [Token::update_property_info].  The two [assert]s of the source are
      compiled out (NDEBUG) and are not part of the outcome. *)
Definition update_property_info (t0 : Token) : outcome Token :=
    let t := set_isStandardType false (set_fIsControlFlowKeyword false t0) in
    let s := mStr t in
    if negb (size_is 0 s) then
      if str_eqb s "true" || str_eqb s "false" then
        let* i := impl t in
        if negb (mVarId i =? 0)%Z then
          if mIsCpp t
          then InternalError "Internal error. VarId set for bool literal."
          else Ok (tokType eVariable t)
        else Ok (tokType eBoolean t)
      else if isStringLiteral O s then
        Ok (set_isLong (isPrefixStringCharLiteral O s dquote "L")
                       (tokType eString t))
      else if isCharLiteral O s then
        Ok (set_isLong (isPrefixStringCharLiteral O s squote "L")
                       (tokType eChar t))
      else if isalpha (char_at s 0) || ascii_eqb (char_at s 0) "_"
              || ascii_eqb (char_at s 0) "$" then
        let* i := impl t in
        if negb (mVarId i =? 0)%Z then Ok (tokType eVariable t)
        else if isKeyword O s then
          let t1 := update_property_isStandardType (tokType eKeyword t) in
          if negb (TokType_eqb (mTokType t1) eType)
          then Ok (set_fIsControlFlowKeyword
                     (set_contains controlFlowKeywords s) t1)
          else Ok t1
        else if str_eqb s "asm" then Ok (tokType eKeyword t)
        else Ok (update_property_isStandardType (tokType eName t))
      else if isNumberLike O s then
        if (isInt O s || isFloat O s) && negb (str_mem "_" s)
        then Ok (tokType eNumber t)
        else Ok (tokType eName t)
      else Ok (tokType (classify_operator t) t)
    else Ok (tokType eNone t).

  (** Modelled from the spec: token.h is not part of the sources.  The
    spec has the classification re-run whenever the text or the bracket
    link changes, so the setter [str(s)] stores the text and calls
    [update_property_info] (whether it touches [mImpl] as well is not in
    the sources, and nothing below depends on it); for [link(p)] the
    comment in [update_property_info] says that [Token::link()] applies
    the link check to the spellings [<] and [>], so the classification is
    re-run for those two. *)
Definition str (s : string) (t : Token) : outcome Token :=
  update_property_info (with_mStr s t).

Definition link (p : option ptr) (t : Token) : outcome Token :=
  let t' := with_mLink p t in
  if str_eqb (mStr t') "<" || str_eqb (mStr t') ">"
  then update_property_info t'
  else Ok t'.

End Classification.

(** The spellings the spec gives for the standard-type check. *)
Definition standard_type_spelling (s : string) : Prop :=
  (3 <= String.length s <= 7)%nat /\
  In s ["bool"; "_Bool"; "char"; "double"; "float"; "int"; "long"; "short";
        "size_t"; "void"; "wchar_t"; "signed"; "unsigned"]%string.

(** ** Pattern matcher *)

(** token.h is not part of the sources: its inline predicates on a token,
    which the wildcards of the pattern language ask, are taken as they
    come. *)
Record Predicates : Type := mkPredicates {
  isName : Token -> bool;
  isNumber : Token -> bool;
  isAssignmentOp : Token -> bool;
  isConstOp : Token -> bool;
  isComparisonOp : Token -> bool;
  isBoolean : Token -> bool;
  isOp : Token -> bool
}.

(** The loop that skips the spaces at [p]. *)
Fixpoint skip_spaces (p : string) : string :=
  match p with
  | String c p' => if ascii_eqb c " " then skip_spaces p' else p
  | EmptyString => p
  end.

(** The loop that moves [p] to the end of the current word. *)
Fixpoint skip_word (p : string) : string :=
  match p with
  | String c p' =>
      if negb (ascii_eqb c NUL) && negb (ascii_eqb c " ") then skip_word p' else p
  | EmptyString => p
  end.

(** [strchr(p, c)] for a [c] other than NUL: the suffix at the first [c]. *)
Fixpoint strchr (p : string) (c : ascii) : option string :=
  match p with
  | String d p' =>
      if ascii_eqb d c then Some p
      else if ascii_eqb d NUL then None
      else strchr p' c
  | EmptyString => None
  end.

(** [Token::firstWordEquals] *)
Fixpoint firstWordEquals (str word : string) : bool :=
  match str with
  | String c str' =>
      if negb (ascii_eqb c (char_at word 0))
      then ascii_eqb c " " && ascii_eqb (char_at word 0) NUL
      else if ascii_eqb c NUL then true
      else firstWordEquals str' (advance 1 word)
  | EmptyString =>
      if negb (ascii_eqb NUL (char_at word 0))
      then ascii_eqb NUL " " && ascii_eqb (char_at word 0) NUL
      else true
  end.

(** [Token::chrInFirstWord(str, c) != nullptr] *)
Fixpoint chrInFirstWord (str : string) (c : ascii) : bool :=
  match str with
  | String d str' =>
      if ascii_eqb d " " || ascii_eqb d NUL then false
      else if ascii_eqb d c then true
      else chrInFirstWord str' c
  | EmptyString => false
  end.

Definition varid_zero_message : string :=
  "Internal error. Token::Match called with varid 0. Please report this to Cppcheck developers".

Section PatternMatcher.
Variable P : Predicates.
Variable h : Heap.

(** The tail of [multiComparePercent], after the [switch]: at a bar the
    position moves past it and 0xFFFF is returned, otherwise -1. *)
Definition percent_no_match (haystack : string) : outcome (Z * string) :=
  if ascii_eqb (char_at haystack 0) "|"
  then Ok (65535%Z, advance 1 haystack)
  else Ok ((-1)%Z, haystack).

Definition percent_result (matched : bool) (haystack : string)
  : outcome (Z * string) :=
  if matched then Ok (1%Z, haystack) else percent_no_match haystack.

(** [multiComparePercent(tok, haystack, varid)]: the returned number and
    the position [haystack] is left at. *)
Definition multiComparePercent (t : Token) (haystack0 : string) (varid : Z)
  : outcome (Z * string) :=
  let haystack := advance 1 haystack0 in
  let c := char_at haystack 0 in
  if ascii_eqb c "v" then
    if ascii_eqb (char_at haystack 3) "%" then
      let* i := impl t in
      percent_result (negb (mVarId i =? 0)%Z) (advance 4 haystack)
    else if (varid =? 0)%Z then InternalError varid_zero_message
    else
      let* i := impl t in
      percent_result (mVarId i =? varid)%Z (advance 6 haystack)
  else if ascii_eqb c "t" then
    if isName P t
    then let* i := impl t in percent_result (mVarId i =? 0)%Z (advance 5 haystack)
    else percent_no_match (advance 5 haystack)
  else if ascii_eqb c "a" then
    if ascii_eqb (char_at haystack 3) "%" then Ok (1%Z, advance 4 haystack)
    else percent_result (isAssignmentOp P t) (advance 7 haystack)
  else if ascii_eqb c "n" then
    if ascii_eqb (char_at haystack 4) "%"
    then percent_result (isName P t) (advance 5 haystack)
    else percent_result (isNumber P t) (advance 4 haystack)
  else if ascii_eqb c "c" then
    let haystack := advance 1 haystack in
    if ascii_eqb (char_at haystack 0) "h"
    then percent_result (TokType_eqb (mTokType t) eChar) (advance 4 haystack)
    else if ascii_eqb (char_at haystack 1) "p"
    then percent_result (isConstOp P t) (advance 3 haystack)
    else percent_result (isComparisonOp P t) (advance 4 haystack)
  else if ascii_eqb c "s" then
    percent_result (TokType_eqb (mTokType t) eString) (advance 4 haystack)
  else if ascii_eqb c "b" then
    percent_result (isBoolean P t) (advance 5 haystack)
  else if ascii_eqb c "o" then
    let haystack := advance 1 haystack in
    if ascii_eqb (char_at haystack 1) "%" then
      if ascii_eqb (char_at haystack 0) "p"
      then percent_result (isOp P t) (advance 2 haystack)
      else percent_result (TokType_eqb (mTokType t) eBitOp && str_eqb (mStr t) "|")
                          (advance 2 haystack)
    else percent_result (TokType_eqb (mTokType t) eLogicalOp && str_eqb (mStr t) "||")
                        (advance 4 haystack)
  else InternalError "Unexpected command".

(** The [do ... while (true)] of [multiCompareImpl] that looks for the
    next bar, entered at the incremented [haystack]; [None] stands for
    its [return -1], otherwise the position after the bar. *)
Fixpoint next_alternative (haystack : string) : option string :=
  match haystack with
  | String c rest =>
      if ascii_eqb c " " || ascii_eqb c NUL then None
      else if ascii_eqb c "|" then Some rest
      else next_alternative rest
  | EmptyString => None
  end.

(** [multiCompareImpl(tok, haystack, varid)]; [np] is the offset of
    [needlePointer] in the needle [tok->str()]. *)
Fixpoint multiCompare_loop (fuel : nat) (t : Token) (np : nat)
    (haystack : string) (varid : Z) : outcome Z :=
  match fuel with
  | O => Diverges
  | S fuel' =>
      let needle := mStr t in
      let h0 := char_at haystack 0 in
      let h1 := char_at haystack 1 in
      if (np =? 0) && ascii_eqb h0 "%" && negb (ascii_eqb h1 "|")
         && negb (ascii_eqb h1 NUL) && negb (ascii_eqb h1 " ") then
        let* r := multiComparePercent t haystack varid in
        if (fst r <? 2)%Z then Ok (fst r)
        else multiCompare_loop fuel' t np (snd r) varid
      else if ascii_eqb h0 "|" then
        if ascii_eqb (char_at needle np) NUL then Ok 1%Z
        else multiCompare_loop fuel' t 0 (advance 1 haystack) varid
      else if ascii_eqb (char_at needle np) h0 then
        if ascii_eqb (char_at needle np) NUL then Ok 1%Z
        else multiCompare_loop fuel' t (S np) (advance 1 haystack) varid
      else if ascii_eqb h0 " " || ascii_eqb h0 NUL then
        if np =? 0 then Ok 0%Z
        else if ascii_eqb (char_at needle np) NUL then Ok 1%Z else Ok (-1)%Z
      else
        match next_alternative (advance 1 haystack) with
        | None => Ok (-1)%Z
        | Some haystack' => multiCompare_loop fuel' t 0 haystack' varid
        end
  end.

Definition multiCompareImpl (t : Token) (haystack : string) (varid : Z)
  : outcome Z :=
  multiCompare_loop (S (String.length haystack)) t 0 haystack varid.

(** The scan of a [[...]] specifier in [Token::Match]: [chrFound], [count]
    and the position [temp] the [while] stops at. *)
Fixpoint bracket_scan (temp : string) (c : ascii) (count : nat)
  : bool * nat * string :=
  match temp with
  | String d temp' =>
      if negb (ascii_eqb d NUL) && negb (ascii_eqb d " ") then
        if ascii_eqb d "]" then bracket_scan temp' c (S count)
        else if ascii_eqb d c then (true, count, temp)
        else bracket_scan temp' c count
      else (false, count, temp)
  | EmptyString => (false, count, temp)
  end.

Definition is_negation (p : string) : bool :=
  ascii_eqb (char_at p 0) "!" && ascii_eqb (char_at p 1) "!"
  && negb (ascii_eqb (char_at p 2) NUL).

(** The loop of [Token::Match]. *)
Fixpoint Match_loop (fuel : nat) (tok : option ptr) (p0 : string) (varid : Z)
  : outcome bool :=
  match fuel with
  | O => Diverges
  | S fuel' =>
      let p := skip_spaces p0 in
      if ascii_eqb (char_at p 0) NUL then Ok true
      else
        match tok with
        | None =>
            if is_negation p then Match_loop fuel' None (skip_word p) varid
            else Ok false
        | Some a =>
            let* t := deref h a in
            let advance_token (p : string) : outcome bool :=
              match strchr p " " with
              | None => Ok true
              | Some p' => Match_loop fuel' (mNext t) p' varid
              end in
            if ascii_eqb (char_at p 0) "[" && chrInFirstWord p "]" then
              if negb (String.length (mStr t) =? 1) then Ok false
              else
                let '(chrFound, count, temp) :=
                  bracket_scan (advance 1 p) (char_at (mStr t) 0) 0 in
                let chrFound :=
                  if (1 <? count) && ascii_eqb (char_at (mStr t) 0) "]"
                  then true else chrFound in
                if negb chrFound then Ok false else advance_token temp
            else if is_negation p then
              if firstWordEquals (advance 2 p) (mStr t) then Ok false
              else advance_token (advance 2 p)
            else
              let* res := multiCompareImpl t p varid in
              if (res =? 0)%Z then Match_loop fuel' tok (skip_word p) varid
              else if (res =? -1)%Z then Ok false
              else advance_token p
        end
  end.

(** [Token::Match(tok, pattern, varid)] *)
Definition Match (tok : option ptr) (pattern : string) (varid : Z)
  : outcome bool :=
  if ascii_eqb (char_at pattern 0) NUL then Ok true
  else Match_loop (S (String.length pattern)) tok pattern varid.

(** [std::strncmp(a, b, n) != 0] *)
Fixpoint strncmp_differs (a b : string) (n : nat) : bool :=
  match n with
  | O => false
  | S n' =>
      if negb (ascii_eqb (char_at a 0) (char_at b 0)) then true
      else if ascii_eqb (char_at a 0) NUL then false
      else strncmp_differs (advance 1 a) (advance 1 b) n'
  end.

(** Offset of the first [c] among the [n] bytes of [p] from [from] on
    ([memchr]), not stopping at a NUL. *)
Fixpoint memchr (p : string) (c : ascii) (from n : nat) : option nat :=
  match n with
  | O => None
  | S n' =>
      if ascii_eqb (char_at p from) c then Some from
      else memchr p c (S from) n'
  end.

(** Offset in [pattern] of the first space from [pattern + from] on. *)
Definition strchr_offset (pattern : string) (from : nat) : option nat :=
  match strchr (advance from pattern) " " with
  | Some rest => Some (String.length pattern - String.length rest)
  | None => None
  end.

(** The [while] loop of [Token::simpleMatch]; [current], [next]
    and [last] are offsets in [pattern] ([last] is the source's [end]).
    [length] is the difference [next - current] as a [size_t] of 64 bits:
    it wraps around when [next] lies before [current], which happens when
    [pattern_len] is shorter than the pattern. *)
Fixpoint simpleMatch_loop (fuel : nat) (tok : option ptr) (pattern : string)
    (last current next : nat) : outcome bool :=
  match fuel with
  | O => Diverges
  | S fuel' =>
      if ascii_eqb (char_at pattern current) NUL then Ok true
      else
        let length :=
          if next <? current then (2 ^ 64 - Z.of_nat (current - next))%Z
          else Z.of_nat (next - current) in
        match tok with
        | None => Ok false
        | Some a =>
            let* t := deref h a in
            if negb (length =? Z.of_nat (String.length (mStr t)))%Z then Ok false
            else if strncmp_differs (advance current pattern) (mStr t)
                      (Z.to_nat length)
            then Ok false
            else
              let current := next in
              if negb (ascii_eqb (char_at pattern next) NUL) then
                let current := S current in
                let next := match strchr_offset pattern current with
                            | Some n => n
                            | None => last
                            end in
                simpleMatch_loop fuel' (mNext t) pattern last current next
              else simpleMatch_loop fuel' (mNext t) pattern last current next
        end
  end.

(** [Token::simpleMatch(tok, pattern, pattern_len)] *)
Definition simpleMatch (tok : option ptr) (pattern : string) (pattern_len : nat)
  : outcome bool :=
  match tok with
  | None => Ok false
  | Some _ =>
      let next := match memchr pattern " " 0 pattern_len with
                  | Some n => n
                  | None => pattern_len
                  end in
      simpleMatch_loop (S (String.length pattern)) tok pattern pattern_len 0 next
  end.

End PatternMatcher.

(** ** Stream mutators *)

Definition ptr_eqb (a b : ptr) : bool := Nat.eqb a b.

Definition optptr_eqb (a b : option ptr) : bool :=
  match a, b with
  | Some x, Some y => ptr_eqb x y
  | None, None => true
  | _, _ => false
  end.

Section Stream.
Variable O : Oracles.

(** [if (n->mLink && n->mLink->mLink == n) n->mLink->link(nullptr);]
    (the lines marked #8154 in [deleteNext] and [deletePrevious]). *)
Definition destroy_link_to (h : Heap) (n : ptr) : outcome Heap :=
  let* tn := deref h n in
  match mLink tn with
  | Some l =>
      let* tl := deref h l in
      if optptr_eqb (mLink tl) (Some n)
      then let* tl' := link O None tl in Ok (store h l tl')
      else Ok h
  | None => Ok h
  end.

(** The [while] loop of [Token::deleteNext]. *)
Fixpoint deleteNext_loop (count : nat) (h : Heap) (this : ptr) : outcome Heap :=
  let* t := deref h this in
  match mNext t, count with
  | Some n, S count' =>
      let* h1 := destroy_link_to h n in
      let* tn := deref h1 n in
      let* t1 := deref h1 this in
      let h2 := store h1 this (with_mNext (mNext tn) t1) in
      deleteNext_loop count' (free h2 n) this
  | _, _ => Ok h
  end.

(** [Token::deleteNext(count)] *)
Definition deleteNext (h : Heap) (this : ptr) (count : nat) : outcome Heap :=
  let* h1 := deleteNext_loop count h this in
  let* t := deref h1 this in
  match mNext t with
  | Some n =>
      let* tn := deref h1 n in
      Ok (store h1 n (with_mPrevious (Some this) tn))
  | None => Ok (with_back (Some this) h1)
  end.

(** The [while] loop of [Token::deletePrevious]. *)
Fixpoint deletePrevious_loop (count : nat) (h : Heap) (this : ptr)
  : outcome Heap :=
  let* t := deref h this in
  match mPrevious t, count with
  | Some p, S count' =>
      let* h1 := destroy_link_to h p in
      let* tp := deref h1 p in
      let* t1 := deref h1 this in
      let h2 := store h1 this (with_mPrevious (mPrevious tp) t1) in
      deletePrevious_loop count' (free h2 p) this
  | _, _ => Ok h
  end.

(** [Token::deletePrevious(count)] *)
Definition deletePrevious (h : Heap) (this : ptr) (count : nat)
  : outcome Heap :=
  let* h1 := deletePrevious_loop count h this in
  let* t := deref h1 this in
  match mPrevious t with
  | Some p =>
      let* tp := deref h1 p in
      Ok (store h1 p (with_mNext (Some this) tp))
  | None => Ok (with_front (Some this) h1)
  end.

(** [p->link(q)] on the heap. *)
Definition link_at (h : Heap) (p : ptr) (q : option ptr) : outcome Heap :=
  let* t := deref h p in
  let* t' := link O q t in
  Ok (store h p t').

(** [Token::takeData(fromToken)].  The old [mImpl] of [this] is deleted
    and the one of [fromToken] moves over; the template simplifier
    pointers behind [mImpl] are not part of the model, but the read of
    [mImpl] for them is.  Taking the data of [this] itself uses a deleted
    [mImpl]. *)
Definition takeData (h : Heap) (this fromToken : ptr) : outcome Heap :=
  if ptr_eqb this fromToken then Undefined
  else
    let* t := deref h this in
    let* f := deref h fromToken in
    let* fi := impl f in
    let t' := mkToken (mStr f) (mTokType f) (mFlags f) (mNext t) (mPrevious t)
                      (mLink f) (Some fi) (mIsCpp t) in
    let h1 := store (store h this t') fromToken (with_mImpl None f) in
    match mLink f with
    | Some l => link_at h1 l (Some this)
    | None => Ok h1
    end.

(** [Token::deleteThis] *)
Definition deleteThis (h : Heap) (this : ptr) : outcome Heap :=
  let* t := deref h this in
  match mNext t with
  | Some n =>
      let* h1 := takeData h this n in
      let* t1 := deref h1 this in
      match mNext t1 with
      | Some n1 =>
          let* h2 := link_at h1 n1 None in
          deleteNext h2 this 1
      | None => Undefined
      end
  | None =>
      match mPrevious t with
      | Some p =>
          let* h1 := takeData h this p in
          let* t1 := deref h1 this in
          match mPrevious t1 with
          | Some p1 =>
              let* h2 := link_at h1 p1 None in
              deletePrevious h2 this 1
          | None => Undefined
          end
      | None =>
          let* t' := str O ";" t in
          Ok (store h this t')
      end
  end.

End Stream.

(** Every bracket link points at a live token that links back. *)
Definition links_symmetric (h : Heap) : Prop :=
  forall (a b : ptr) (ta : Token),
    toks h !! a = Some ta -> mLink ta = Some b ->
    exists tb, toks h !! b = Some tb /\ mLink tb = Some a.

(** ** AST links *)

Definition cyclic_message : string := "Internal error. AST cyclic dependency.".

(** [p->astParent()], the getter. *)
Definition astParent_of (h : Heap) (p : ptr) : outcome (option ptr) :=
  let* t := deref h p in
  let* i := impl t in
  Ok (mAstParent i).

(** The [while (tok2)] walk of the setter [Token::astParent]. *)
Fixpoint cycle_walk (fuel : nat) (h : Heap) (this : ptr) (tok2 : option ptr)
  : outcome unit :=
  match tok2 with
  | None => Ok tt
  | Some p =>
      if ptr_eqb this p then InternalError cyclic_message
      else
        match fuel with
        | O => Diverges
        | S fuel' =>
            let* up := astParent_of h p in
            cycle_walk fuel' h this up
        end
  end.

(** A walk along parent links that takes more steps than there are live
    tokens has come round a cycle, and goes on for ever. *)
Definition walk_fuel (h : Heap) : nat := S (size (toks h)).

Definition update_impl (h : Heap) (p : ptr) (f : TokenImpl -> TokenImpl)
  : outcome Heap :=
  let* t := deref h p in
  let* i := impl t in
  Ok (store h p (with_mImpl (Some (f i)) t)).

(** [Token::astParent(Token* tok)], the setter. *)
Definition astParent (h : Heap) (this : ptr) (tok : option ptr) : outcome Heap :=
  let* _ := cycle_walk (walk_fuel h) h this tok in
  let* up := astParent_of h this in
  let* h2 :=
    match up with
    | Some parent =>
        let* tp := deref h parent in
        let* ip := impl tp in
        let* h1 :=
          if optptr_eqb (mAstOperand1 ip) (Some this)
          then update_impl h parent (with_mAstOperand1 None)
          else Ok h in
        let* tp1 := deref h1 parent in
        let* ip1 := impl tp1 in
        if optptr_eqb (mAstOperand2 ip1) (Some this)
        then update_impl h1 parent (with_mAstOperand2 None)
        else Ok h1
    | None => Ok h
    end in
  update_impl h2 this (with_mAstParent tok).

(** Modelled from the spec: token.h is not part of the sources.
    [astTop()] is the top-most AST ancestor of a token: the walk along
    the parent links up to the token that has no parent. *)
Fixpoint astTop_walk (fuel : nat) (h : Heap) (p : ptr) : outcome ptr :=
  let* up := astParent_of h p in
  match up with
  | None => Ok p
  | Some q =>
      match fuel with
      | O => Diverges
      | S fuel' => astTop_walk fuel' h q
      end
  end.

Definition astTop (h : Heap) (p : ptr) : outcome ptr :=
  astTop_walk (walk_fuel h) h p.

(** The part [Token::astOperand1] and [Token::astOperand2] share: the old
    occupant of the slot is detached, and the top of the new operand is
    attached to [this]. *)
Definition attach_operand (h : Heap) (this : ptr) (old tok : option ptr)
  : outcome (Heap * option ptr) :=
  let* h1 :=
    match old with
    | Some o => astParent h o None
    | None => Ok h
    end in
  match tok with
  | Some c =>
      let* top := astTop h1 c in
      let* h2 := astParent h1 top (Some this) in
      Ok (h2, Some top)
  | None => Ok (h1, None)
  end.

(** [Token::astOperand1(Token* tok)] *)
Definition astOperand1 (h : Heap) (this : ptr) (tok : option ptr) : outcome Heap :=
  let* t := deref h this in
  let* i := impl t in
  let* r := attach_operand h this (mAstOperand1 i) tok in
  update_impl (fst r) this (with_mAstOperand1 (snd r)).

(** [Token::astOperand2(Token* tok)] *)
Definition astOperand2 (h : Heap) (this : ptr) (tok : option ptr) : outcome Heap :=
  let* t := deref h this in
  let* i := impl t in
  let* r := attach_operand h this (mAstOperand2 i) tok in
  update_impl (fst r) this (with_mAstOperand2 (snd r)).

(** [l] lists the proper ancestors of [c] along the parent links, nearest
    first, and the last of [c :: l] has no parent. *)
Fixpoint ancestors (h : Heap) (c : ptr) (l : list ptr) : Prop :=
  match l with
  | [] => astParent_of h c = Ok None
  | x :: l' => astParent_of h c = Ok (Some x) /\ ancestors h x l'
  end.

(** ** Value facts of a token *)

Definition ValueType_eqb (a b : ValueType) : bool :=
  match a, b with
  | INT, INT | TOK, TOK | FLOAT, FLOAT | MOVED, MOVED | UNINIT, UNINIT
  | CONTAINER_SIZE, CONTAINER_SIZE | LIFETIME, LIFETIME
  | BUFFER_SIZE, BUFFER_SIZE | ITERATOR_START, ITERATOR_START
  | ITERATOR_END, ITERATOR_END | SYMBOLIC, SYMBOLIC => true
  | _, _ => false
  end.

Definition ValueKind_eqb (a b : ValueKind) : bool :=
  match a, b with
  | Possible, Possible | Known, Known | Inconclusive, Inconclusive
  | Impossible, Impossible => true
  | _, _ => false
  end.

Definition Bound_eqb (a b : Bound) : bool :=
  match a, b with
  | Upper, Upper | Lower, Lower | Point, Point => true
  | _, _ => false
  end.

(** Modelled from the spec: vfvalue.h is not part of the sources.  A fact
    carries a kind ([valueType]) and a confidence ([valueKind]); the
    queries below compare the two fields with the enumerators they name. *)
Definition isKnown (v : Value) : bool := ValueKind_eqb (valueKind v) Known.
Definition isImpossible (v : Value) : bool := ValueKind_eqb (valueKind v) Impossible.
Definition isInconclusive (v : Value) : bool := ValueKind_eqb (valueKind v) Inconclusive.
Definition isIntValue (v : Value) : bool := ValueType_eqb (valueType v) INT.
Definition isTokValue (v : Value) : bool := ValueType_eqb (valueType v) TOK.
Definition isLifetimeValue (v : Value) : bool := ValueType_eqb (valueType v) LIFETIME.
Definition isSymbolicValue (v : Value) : bool := ValueType_eqb (valueType v) SYMBOLIC.

Definition with_bound (b : Bound) (v : Value) : Value :=
  mkValue (valueType v) (valueKind v) b (intvalue v) (floatValue v)
          (tokvalue v) (varId v).
Definition with_varId (n : Z) (v : Value) : Value :=
  mkValue (valueType v) (valueKind v) (bound v) (intvalue v) (floatValue v)
          (tokvalue v) n.

(** The methods of [ValueFlow::Value] whose bodies are in vfvalue.h, which
    is not part of the sources; they are taken as they come.
    [compareValue_less x y] is [x.compareValue(y, less{})] and [value_eqb]
    is [operator==]. *)
Record ValueOps : Type := mkValueOps {
  isNonValue : Value -> bool;
  equalValue : Value -> Value -> bool;
  compareValue_less : Value -> Value -> bool;
  decreaseRange : Value -> Value;
  sameToken : option ptr -> option ptr -> bool;
  value_eqb : Value -> Value -> bool
}.

(** [std::numeric_limits<MathLib::bigint>::max()] and [min()], of the
    64-bit [long long]. *)
Definition bigint_max : Z := 9223372036854775807.
Definition bigint_min : Z := -9223372036854775808.

(** [isAdjacent(x, y)] *)
Definition isAdjacent (x y : Value) : bool :=
  if negb (Bound_eqb (bound x) Point) && Bound_eqb (bound x) (bound y) then true
  else if ValueType_eqb (valueType x) FLOAT then false
  else (negb (intvalue y =? bigint_max)%Z && (intvalue x =? intvalue y + 1)%Z)
       || (negb (intvalue y =? bigint_min)%Z && (intvalue x =? intvalue y - 1)%Z).

(** [l] without the elements at the positions [idx] ([erase] through the
    iterators collected before). *)
Fixpoint erase_from (pos : nat) (idx : list nat) (l : list Value) : list Value :=
  match l with
  | [] => []
  | v :: l' =>
      if existsb (Nat.eqb pos) idx then erase_from (S pos) idx l'
      else v :: erase_from (S pos) idx l'
  end.

Definition erase_all (idx : list nat) (l : list Value) : list Value :=
  erase_from 0 idx l.

(** The position of the element at [i] once those at [idx] are erased. *)
Definition shifted (idx : list nat) (i : nat) : nat :=
  i - length (List.filter (fun k => existsb (Nat.eqb k) idx) (seq 0 i)).

(** The assignment through an iterator: [fn] applied in place at [i]. *)
Fixpoint update_at (i : nat) (fn : Value -> Value) (l : list Value) : list Value :=
  match l, i with
  | [], _ => []
  | v :: l', O => fn v :: l'
  | v :: l', S i' => v :: update_at i' fn l'
  end.

Section FactStore.
Variable V : ValueOps.
Variable h : Heap.

(** [tok->exprId()] and [tok->str()] through a [tokvalue]; a null
    [tokvalue] is dereferenced all the same.  Modelled from the spec:
    token.h is not part of the sources; the expression id is the one
    stored for the token. *)
Definition tok_exprId (tok : option ptr) : outcome Z :=
  match tok with
  | Some p => let* t := deref h p in let* i := impl t in Ok (mExprId i)
  | None => Undefined
  end.

Definition tok_str (tok : option ptr) : outcome string :=
  match tok with
  | Some p => let* t := deref h p in Ok (mStr t)
  | None => Undefined
  end.

(** [removePointValue(values, x)], [x] at the position [i]: the list and
    [isPoint]. *)
Definition removePointValue (values : list Value) (i : nat) (x : Value)
  : list Value * bool :=
  if negb (Bound_eqb (bound x) Point)
  then (update_at i (decreaseRange V) values, false)
  else (erase_all [i] values, true).

(** How one round of a loop of [removeContradiction] ends: with the
    function returning, or with the next round. *)
Inductive rc_state : Type :=
| Returned (values : list Value) (ret : bool)
| Running (values : list Value) (result : bool).

(** The body of the inner loop of [removeContradiction], [itx] at the
    position [i] and [ity] at [j], with [i < j]. *)
Definition removeContradiction_pair (i j : nat) (values : list Value)
    (result : bool) : rc_state :=
  match values !! i, values !! j with
  | Some x, Some y =>
      if isNonValue V y then Running values result
      else if value_eqb V x y then Running values result
      else if negb (ValueType_eqb (valueType x) (valueType y))
      then Running values result
      else if Bool.eqb (isImpossible x) (isImpossible y)
      then Running values result
      else if isSymbolicValue x && negb (sameToken V (tokvalue x) (tokvalue y))
      then Running values result
      else if negb (equalValue V x y) then
        let '(imax, vmax) := if compareValue_less V x y then (j, y) else (i, x) in
        let '(imin, vmin) := if compareValue_less V y x then (j, y) else (i, x) in
        if isImpossible vmax && Bound_eqb (bound vmax) Upper
        then Returned (erase_all [imin] values) true
        else if isImpossible vmin && Bound_eqb (bound vmin) Lower
        then Returned (erase_all [imax] values) true
        else Running values result
      else
        let removex := negb (isImpossible x) || isKnown y in
        let removey := negb (isImpossible y) || isKnown x in
        if Bound_eqb (bound x) (bound y) then
          Returned (erase_all ((if removex then [i] else [])
                               ++ (if removey then [j] else [])) values) true
        else
          let result := removex || removey in
          let '(values1, bailx) :=
            if removex then removePointValue values i x else (values, false) in
          let j1 := if bailx then j - 1 else j in
          let '(values2, baily) :=
            if removey then removePointValue values1 j1 y else (values1, false) in
          if bailx || baily then Returned values2 true
          else Running values2 result
  | _, _ => Running values result
  end.

Fixpoint removeContradiction_inner (i : nat) (js : list nat)
    (values : list Value) (result : bool) : rc_state :=
  match js with
  | [] => Running values result
  | j :: js' =>
      match removeContradiction_pair i j values result with
      | Returned v r => Returned v r
      | Running v r => removeContradiction_inner i js' v r
      end
  end.

Fixpoint removeContradiction_outer (is_ : list nat) (n : nat)
    (values : list Value) (result : bool) : list Value * bool :=
  match is_ with
  | [] => (values, result)
  | i :: is' =>
      match values !! i with
      | Some x =>
          if isNonValue V x then removeContradiction_outer is' n values result
          else
            match removeContradiction_inner i (seq (S i) (n - S i)) values result with
            | Returned v r => (v, r)
            | Running v r => removeContradiction_outer is' n v r
            end
      | None => (values, result)
      end
  end.

(** [removeContradiction(values)]: the list and the returned flag.  The
    list keeps its length until the function returns, so the two
    iterators are positions in it. *)
Definition removeContradiction (values : list Value) : list Value * bool :=
  removeContradiction_outer (seq 0 (length values)) (length values) values false.

(** The inner [for] of [mergeAdjacent]: the positions pushed on
    [adjValues] for [x] at [xi]; [ys] are the elements still to visit with
    their positions, [acc] the positions pushed so far, last first. *)
Fixpoint collect_adjacent (x : Value) (xi : nat) (ys : list (nat * Value))
    (acc : list nat) : list nat :=
  match ys with
  | [] => rev acc
  | (yi, y) :: ys' =>
      let skip := collect_adjacent x xi ys' acc in
      let ordered :=
        if Bound_eqb (bound x) Lower && negb (compareValue_less V y x) then skip
        else if Bound_eqb (bound x) Upper && negb (compareValue_less V x y) then skip
        else collect_adjacent x xi ys' (yi :: acc) in
      if Nat.eqb xi yi then skip
      else if isNonValue V y then skip
      else if negb (ValueType_eqb (valueType x) (valueType y)) then skip
      else if negb (ValueKind_eqb (valueKind x) (valueKind y)) then skip
      else if isSymbolicValue x && negb (sameToken V (tokvalue x) (tokvalue y))
      then skip
      else if negb (Bound_eqb (bound x) (bound y)) then
        if negb (Bound_eqb (bound y) Point) && isAdjacent x y then []
        else if ValueType_eqb (valueType x) FLOAT then skip
        else if negb (Bound_eqb (bound y) Point) then skip
        else ordered
      else ordered
  end.

Definition indexed (l : list Value) : list (nat * Value) :=
  combine (seq 0 (length l)) l.

(** [std::sort] of the collected positions by [compareValue] with
    [less]; the order it leaves equivalent elements in is not specified,
    the model is an insertion sort that leaves them in the order they
    were collected in, the order of the list. *)
Fixpoint insert_sorted (values : list Value) (i : nat) (sorted : list nat)
  : list nat :=
  match sorted with
  | [] => [i]
  | k :: rest =>
      match values !! i, values !! k with
      | Some vi, Some vk =>
          if compareValue_less V vk vi then k :: insert_sorted values i rest
          else i :: sorted
      | _, _ => i :: sorted
      end
  end.

Definition sort_positions (values : list Value) (idx : list nat) : list nat :=
  fold_right (insert_sorted values) [] idx.

(** [std::adjacent_find(start, last, not isAdjacent)], as the number of
    elements before the one found; with no such pair, [it == last] and the
    source steps back to the last element. *)
Fixpoint adjacent_find (values : list Value) (sq : list nat) : nat :=
  match sq with
  | a :: ((b :: _) as rest) =>
      match values !! a, values !! b with
      | Some va, Some vb =>
          if negb (isAdjacent va vb) then 0 else S (adjacent_find values rest)
      | _, _ => 0
      end
  | _ => 0
  end.

(** [removeAdjacentValues(values, x, start, last)], [x] at [xi] and
    [sq] the range from [start] to [last]: the list and the position of
    the returned iterator. *)
Definition removeAdjacentValues (values : list Value) (xi : nat) (x : Value)
    (sq : list nat) : list Value * nat :=
  match sq with
  | [] => (values, S xi)
  | start :: _ =>
      match values !! start with
      | Some vstart =>
          if negb (isAdjacent x vstart) then (values, S xi)
          else
            let k := adjacent_find values sq in
            let it := nth k sq start in
            let gone := firstn k sq ++ [xi] in
            (erase_all gone (update_at it (with_bound (bound x)) values),
             shifted gone xi)
      | None => (values, S xi)
      end
  end.

(** The loop of [mergeAdjacent], [x] at the position [xi]. *)
Fixpoint mergeAdjacent_loop (fuel : nat) (values : list Value) (xi : nat)
  : list Value :=
  match fuel with
  | O => values
  | S fuel' =>
      match values !! xi with
      | None => values
      | Some x =>
          if isNonValue V x then mergeAdjacent_loop fuel' values (S xi)
          else if Bound_eqb (bound x) Point
          then mergeAdjacent_loop fuel' values (S xi)
          else
            let adjValues := collect_adjacent x xi (indexed values) [] in
            match adjValues with
            | [] => mergeAdjacent_loop fuel' values (S xi)
            | _ :: _ =>
                let sorted := sort_positions values adjValues in
                let sq := if Bound_eqb (bound x) Lower then rev sorted else sorted in
                let '(values', xi') := removeAdjacentValues values xi x sq in
                mergeAdjacent_loop fuel' values' xi'
            end
      end
  end.

(** [mergeAdjacent(values)].  Every round moves [x] on or erases it, so
    the loop ends within as many rounds as the list is long. *)
Definition mergeAdjacent (values : list Value) : list Value :=
  mergeAdjacent_loop (S (length values)) values 0.

(** The predicate of the [remove_if] in [removeOverlaps], for elements
    [y] other than [x] itself. *)
Definition overlaps (x y : Value) : bool :=
  if isNonValue V y then false
  else if negb (ValueType_eqb (valueType x) (valueType y)) then false
  else if negb (ValueKind_eqb (valueKind x) (valueKind y)) then false
  else if negb (equalValue V x y) then false
  else if negb (Bound_eqb (bound x) (bound y)) then false
  else true.

(** The range-[for] of [removeOverlaps]: [done] are the elements before
    [x], [rest] starts at [x]. *)
Fixpoint removeOverlaps_loop (fuel : nat) (done rest : list Value)
  : list Value :=
  match fuel, rest with
  | S fuel', x :: rest' =>
      if isNonValue V x then removeOverlaps_loop fuel' (done ++ [x]) rest'
      else
        let keep := List.filter (fun y => negb (overlaps x y)) in
        removeOverlaps_loop fuel' (keep done ++ [x]) (keep rest')
  | _, _ => done ++ rest
  end.

(** [removeOverlaps(values)] *)
Definition removeOverlaps (values : list Value) : list Value :=
  mergeAdjacent (removeOverlaps_loop (length values) [] values).

(** The [for] loop of [removeContradictions], [n] rounds left. *)
Fixpoint removeContradictions_rounds (n : nat) (values : list Value)
  : list Value :=
  match n with
  | O => values
  | S n' =>
      let '(values1, changed) := removeContradiction values in
      if negb changed then values1
      else removeContradictions_rounds n' (removeOverlaps values1)
  end.

(** [removeContradictions(values)] *)
Definition removeContradictions (values : list Value) : list Value :=
  removeContradictions_rounds 4 (removeOverlaps values).

(** [sameValueType(x, y)] *)
Definition sameValueType (x y : Value) : outcome bool :=
  if negb (ValueType_eqb (valueType x) (valueType y)) then Ok false
  else if isSymbolicValue x then
    let* ex := tok_exprId (tokvalue x) in
    if (ex =? 0)%Z then Ok true
    else let* ey := tok_exprId (tokvalue y) in Ok (ex =? ey)%Z
  else Ok true.

(** [std::list::remove_if] with a predicate that reads the heap. *)
Fixpoint remove_if (p : Value -> outcome bool) (l : list Value)
  : outcome (list Value) :=
  match l with
  | [] => Ok []
  | x :: l' =>
      let* b := p x in
      let* r := remove_if p l' in
      Ok (if b then r else x :: r)
  end.

(** [std::any_of], which stops at the first element found. *)
Fixpoint any_of (p : Value -> outcome bool) (l : list Value) : outcome bool :=
  match l with
  | [] => Ok false
  | x :: l' =>
      let* b := p x in
      if b then Ok true else any_of p l'
  end.

(** The copy of [value] that is stored: [if (v.varId == 0) v.varId = mVarId]. *)
Definition stored (mVarId_ : Z) (value : Value) : Value :=
  if (varId value =? 0)%Z then with_varId mVarId_ value else value.

(** How the search of [addValue] for an equal value ends: with
    [return false], with the old value replaced ([break]), or at the end
    of the list. *)
Inductive scan_result : Type :=
| Duplicate
| Replaced (values : list Value)
| Absent.

(** The [for] loop of [addValue] over the existing values. *)
Fixpoint scan_existing (mVarId_ : Z) (value : Value) (l : list Value)
  : outcome scan_result :=
  match l with
  | [] => Ok Absent
  | it :: rest =>
      let continue :=
        let* r := scan_existing mVarId_ value rest in
        Ok (match r with
            | Replaced rest' => Replaced (it :: rest')
            | Duplicate => Duplicate
            | Absent => Absent
            end) in
      if negb (ValueType_eqb (valueType it) (valueType value)) then continue
      else if negb (Bool.eqb (isImpossible it) (isImpossible value)) then continue
      else if negb (equalValue V it value) then continue
      else
        let* other_token :=
          if (isTokValue value || isLifetimeValue value)
             && negb (optptr_eqb (tokvalue it) (tokvalue value))
          then
            let* s1 := tok_str (tokvalue it) in
            let* s2 := tok_str (tokvalue value) in
            Ok (negb (str_eqb s1 s2))
          else Ok false in
        if other_token then continue
        else if isInconclusive it && negb (isInconclusive value)
                && negb (isImpossible value)
        then Ok (Replaced (stored mVarId_ value :: rest))
        else Ok Duplicate
  end.

(** [Token::addValue] on the members it works on, [mImpl->mVarId] and
    [mImpl->mValues]: the returned flag and the list it leaves. *)
Definition addValue_members (mVarId_ : Z) (mValues_ : option (list Value))
    (value : Value) : outcome (bool * option (list Value)) :=
  let* values1 :=
    match mValues_ with
    | Some l =>
        if isKnown value
        then let* l' := remove_if (fun x => sameValueType x value) l in Ok (Some l')
        else Ok mValues_
    | None => Ok None
    end in
  let* already_known :=
    match values1 with
    | Some l =>
        if negb (isKnown value)
        then any_of (fun x =>
                       if isKnown x
                       then let* same := sameValueType x value in
                            Ok (same && negb (equalValue V x value))
                       else Ok false) l
        else Ok false
    | None => Ok false
    end in
  if already_known then Ok (false, values1)
  else
    match values1 with
    | Some l =>
        if 10 <=? length l then Ok (false, values1)
        else
          let* found := scan_existing mVarId_ value l in
          match found with
          | Duplicate => Ok (false, values1)
          | Replaced l' => Ok (true, Some (removeContradictions l'))
          | Absent =>
              let v := stored mVarId_ value in
              let l' := if isKnown v && isIntValue v then v :: l else l ++ [v] in
              Ok (true, Some (removeContradictions l'))
          end
    | None =>
        Ok (true, Some (removeContradictions [stored mVarId_ value]))
    end.

(** [Token::addValue(value)] on the token at [this]. *)
Definition addValue (this : ptr) (value : Value) : outcome (bool * Heap) :=
  let* t := deref h this in
  let* i := impl t in
  let* r := addValue_members (mVarId i) (mValues i) value in
  Ok (fst r, store h this (with_mImpl (Some (with_mValues (snd r) i)) t)).

End FactStore.

(** ** Concrete tokens and streams for the examples *)

(** Modelled from the spec: token.h is not part of the sources.  An
    instance of its predicates by kind, used to run the matcher on
    examples: a name is an identifier-like kind, a constant operator an
    arithmetical, logical, comparison or bit operator, an operator a
    constant operator, an assignment or an increment/decrement. *)
Definition kind_predicates : Predicates :=
  let kind_in (l : list TokType) (t : Token) :=
    existsb (TokType_eqb (mTokType t)) l in
  mkPredicates
    (kind_in [eName; eType; eVariable; eFunction; eKeyword; eBoolean])
    (kind_in [eNumber])
    (kind_in [eAssignmentOp])
    (kind_in [eArithmeticalOp; eLogicalOp; eComparisonOp; eBitOp])
    (kind_in [eComparisonOp])
    (kind_in [eBoolean])
    (kind_in [eArithmeticalOp; eLogicalOp; eComparisonOp; eBitOp;
              eAssignmentOp; eIncDecOp]).

Definition no_flags : Flags := mkFlags false false false.

Definition plain_impl (varid : Z) : TokenImpl :=
  mkImpl varid 0 None None None None 0.

(** A token of a C++ list with the given text, kind, variable id and
    neighbours, no bracket link, no AST links and no values. *)
Definition plain_token (s : string) (k : TokType) (varid : Z)
    (prev next : option ptr) : Token :=
  mkToken s k no_flags next prev None (Some (plain_impl varid)) true.

(** The stream [x = 42] at the addresses 1, 2, 3; [x] has variable id 7. *)
Definition stream_x_eq_42 : Heap :=
  mkHeap (list_to_map
            [(1, plain_token "x" eVariable 7 None (Some 2));
             (2, plain_token "=" eAssignmentOp 0 (Some 1) (Some 3));
             (3, plain_token "42" eNumber 0 (Some 2) None)])
         (Some 1) (Some 3).

(** Modelled from the spec: utils.h, simplecpp and MathLib are not part of
    the sources.  An instance of the collaborators, used to run the
    examples: the keywords are a few of C's; a string literal is a text
    of at least two characters in double quotes, a character literal one
    in single quotes, [L] being the only prefix; a number-like text
    starts with a digit; an integer is made of digits, and no text is a
    float. *)
Definition is_digit (c : ascii) : bool :=
  (48 <=? nat_of_ascii c) && (nat_of_ascii c <=? 57).

Fixpoint all_chars (f : ascii -> bool) (s : string) : bool :=
  match s with
  | EmptyString => true
  | String c s' => f c && all_chars f s'
  end.

Definition last_char (s : string) : ascii := char_at s (String.length s - 1).

Definition quoted_with (q : ascii) (prefix s : string) : bool :=
  (String.length prefix + 2 <=? String.length s)
  && ascii_eqb (last_char s) q
  && ascii_eqb (char_at s (String.length prefix)) q
  && String.prefix prefix s.

Definition example_oracles : Oracles :=
  mkOracles
    (fun s => set_contains ["if"; "else"; "for"; "while"; "return"; "int";
                            "char"; "void"; "struct"]%string s)
    (fun s => quoted_with dquote "" s || quoted_with dquote "L" s)
    (fun s => quoted_with squote "" s || quoted_with squote "L" s)
    (fun s q prefix => quoted_with q prefix s)
    (fun s => is_digit (char_at s 0))
    (fun s => negb (size_is 0 s) && all_chars is_digit s)
    (fun _ => false).

(** The stream whose only token is [x], at the address 1. *)
Definition stream_sole_x : Heap :=
  mkHeap (list_to_map [(1, plain_token "x" eName 0 None None)])
         (Some 1) (Some 1).

(** ** Notions used in the statements *)

(** The bracket link of the token at [x], when it is live. *)
Definition lnk (h : Heap) (x : ptr) : option (option ptr) :=
  mLink <$> toks h !! x.

(** [links_symmetric] as a check over the live tokens. *)
Definition links_symmetricb (h : Heap) : bool :=
  forallb (fun at_ : ptr * Token =>
             match mLink at_.2 with
             | None => true
             | Some b =>
                 match toks h !! b with
                 | Some tb => optptr_eqb (mLink tb) (Some at_.1)
                 | None => false
                 end
             end)
          (map_to_list (toks h)).

(** From [h] to [h'] no token appeared, and every bracket link is the one
    it was or is cleared. *)
Definition links_kept_or_cleared (h h' : Heap) : Prop :=
  forall (b : ptr) (l' : option ptr),
    lnk h' b = Some l' ->
    exists l, lnk h b = Some l /\ (l' = l \/ l' = None).

(** The links after the token [n] was unlinked from its partner and
    deleted. *)
Definition unlinked (n : ptr) (h h' : Heap) : Prop :=
  forall x : ptr,
    lnk h' x =
    if decide (x = n) then None
    else if decide (lnk h n = Some (Some x) /\ lnk h x = Some (Some n))
         then Some None
         else lnk h x.

(** The stream [f ( x ) ;] at the addresses 1 to 5, the parentheses
    linked to each other. *)
Definition linked_token (s : string) (k : TokType)
    (prev next l : option ptr) : Token :=
  mkToken s k no_flags next prev l (Some (plain_impl 0)) true.

Definition stream_call : Heap :=
  mkHeap (list_to_map
            [(1, linked_token "f" eName None (Some 2) None);
             (2, linked_token "(" eExtendedOp (Some 1) (Some 3) (Some 4));
             (3, linked_token "x" eName (Some 2) (Some 4) None);
             (4, linked_token ")" eExtendedOp (Some 3) (Some 5) (Some 2));
             (5, linked_token ";" eOther (Some 4) None None)])
         (Some 1) (Some 5).

(** Every live token has its [mImpl], and its AST pointers are live. *)
Definition live_or_null (h : Heap) (p : option ptr) : Prop :=
  match p with
  | Some a => is_Some (toks h !! a)
  | None => True
  end.

Definition ast_wf (h : Heap) : Prop :=
  forall (a : ptr) (t : Token),
    toks h !! a = Some t ->
    exists i, mImpl t = Some i /\
              live_or_null h (mAstParent i) /\
              live_or_null h (mAstOperand1 i) /\
              live_or_null h (mAstOperand2 i).

Definition live_or_nullb (h : Heap) (p : option ptr) : bool :=
  match p with
  | Some a => match toks h !! a with Some _ => true | None => false end
  | None => true
  end.

Definition ast_wfb (h : Heap) : bool :=
  forallb (fun at_ : ptr * Token =>
             match mImpl at_.2 with
             | Some i => live_or_nullb h (mAstParent i)
                         && live_or_nullb h (mAstOperand1 i)
                         && live_or_nullb h (mAstOperand2 i)
             | None => false
             end)
          (map_to_list (toks h)).

(** The tree of [a + b]: [+] at 1 with the operands [a] at 2 and [b] at 3. *)
Definition ast_token (s : string) (k : TokType) (op1 op2 parent : option ptr)
  : Token :=
  mkToken s k no_flags None None None (Some (mkImpl 0 0 op1 op2 parent None 0)) true.

Definition ast_a_plus_b : Heap :=
  mkHeap (list_to_map
            [(1, ast_token "+" eArithmeticalOp (Some 2) (Some 3) None);
             (2, ast_token "a" eName None None (Some 1));
             (3, ast_token "b" eName None None (Some 1))])
         None None.

(** Modelled from the spec: vfvalue.h is not part of the sources.  An
    instance of the methods of [ValueFlow::Value], used to run the
    examples.  A moved, uninitialized or lifetime fact is no value; two
    facts have an equal value when they have the same kind and the same
    payload (the integer, the float, or the token); [compareValue] with
    [less] compares the integers, or the floats, of two facts of one
    kind; [decreaseRange] moves a lower bound up and an upper bound down
    by one; [sameToken] holds for the same token, or for two tokens with
    the same expression id other than 0; [operator==] asks for an equal
    value, variable id and confidence. *)
Definition is_int_like (k : ValueType) : bool :=
  match k with
  | INT | SYMBOLIC | BUFFER_SIZE | CONTAINER_SIZE | ITERATOR_START
  | ITERATOR_END => true
  | _ => false
  end.

Definition vf_sameToken (h : Heap) (tok1 tok2 : option ptr) : bool :=
  if optptr_eqb tok1 tok2 then true
  else
    match tok_exprId h tok1, tok_exprId h tok2 with
    | Ok e1, Ok e2 => negb (e1 =? 0)%Z && negb (e2 =? 0)%Z && (e1 =? e2)%Z
    | _, _ => false
    end.

Definition vf_equalValue (h : Heap) (x y : Value) : bool :=
  ValueType_eqb (valueType x) (valueType y)
  && match valueType x with
     | INT | CONTAINER_SIZE | BUFFER_SIZE | ITERATOR_START | ITERATOR_END =>
         (intvalue x =? intvalue y)%Z
     | TOK | LIFETIME => optptr_eqb (tokvalue x) (tokvalue y)
     | FLOAT => negb (PrimFloat.ltb (floatValue x) (floatValue y))
                && negb (PrimFloat.ltb (floatValue y) (floatValue x))
     | MOVED | UNINIT => true
     | SYMBOLIC => vf_sameToken h (tokvalue x) (tokvalue y)
                   && (intvalue x =? intvalue y)%Z
     end.

Definition vf_compareValue_less (x y : Value) : bool :=
  if is_int_like (valueType x) && is_int_like (valueType y)
  then (intvalue x <? intvalue y)%Z
  else if ValueType_eqb (valueType x) FLOAT && ValueType_eqb (valueType y) FLOAT
  then PrimFloat.ltb (floatValue x) (floatValue y)
  else false.

Definition vf_decreaseRange (v : Value) : Value :=
  let step (d : Z) (df : float) :=
    if is_int_like (valueType v)
    then mkValue (valueType v) (valueKind v) (bound v) (intvalue v + d)
                 (floatValue v) (tokvalue v) (varId v)
    else if ValueType_eqb (valueType v) FLOAT
    then mkValue (valueType v) (valueKind v) (bound v) (intvalue v)
                 (PrimFloat.add (floatValue v) df) (tokvalue v) (varId v)
    else v in
  match bound v with
  | Lower => step 1%Z PrimFloat.one
  | Upper => step (-1)%Z (PrimFloat.opp PrimFloat.one)
  | Point => v
  end.

Definition vf_ops (h : Heap) : ValueOps :=
  mkValueOps
    (fun v => match valueType v with
              | MOVED | UNINIT | LIFETIME => true
              | _ => false
              end)
    (vf_equalValue h)
    vf_compareValue_less
    vf_decreaseRange
    (vf_sameToken h)
    (fun x y => vf_equalValue h x y && (varId x =? varId y)%Z
                && ValueKind_eqb (valueKind x) (valueKind y)).

(** An integer fact and a float fact with no token and no variable id. *)
Definition int_fact (k : ValueKind) (b : Bound) (n : Z) : Value :=
  mkValue INT k b n PrimFloat.zero None 0.

Definition float_fact (k : ValueKind) (b : Bound) (f : float) : Value :=
  mkValue FLOAT k b 0 f None 0.

(** The list of facts of the token at [p] ([mImpl->mValues]). *)
Definition facts (h : Heap) (p : ptr) : option (list Value) :=
  match toks h !! p with
  | Some t => match mImpl t with
              | Some i => mValues i
              | None => None
              end
  | None => None
  end.

(** A token holding the given facts, and the stream made of it alone. *)
Definition fact_token (l : option (list Value)) : Token :=
  mkToken "x" eVariable no_flags None None None
          (Some (mkImpl 1 0 None None None l 0)) true.

Definition fact_stream (l : option (list Value)) : Heap :=
  mkHeap (list_to_map [(1, fact_token l)]) (Some 1) (Some 1).

(** Ten possible integer facts, 0, 2, ..., 18. *)
Definition ten_facts : list Value :=
  map (fun n => int_fact Possible Point (2 * Z.of_nat n)) (seq 0 10).

(** A point fact whose value is a float. *)
Definition is_float_point (v : Value) : bool :=
  ValueType_eqb (valueType v) FLOAT && Bound_eqb (bound v) Point.

(** ** Notions used in the proofs *)

(** [t'] has the text, the neighbours, the bracket link and the [mImpl]
    of [t]. *)
Definition same_links (t t' : Token) : Prop :=
  mStr t' = mStr t /\ mNext t' = mNext t /\ mPrevious t' = mPrevious t /\
  mLink t' = mLink t /\ mImpl t' = mImpl t.

(** The list a round of [removeContradiction] ends with. *)
Definition rc_values (s : rc_state) : list Value :=
  match s with Returned v _ | Running v _ => v end.

(** What [mergeAdjacent] collects for a range fact [x]: facts of the kind
    of [x] that have the bound of [x], or, when [x] is no float, are
    points. *)
Definition mergeable_with (x y : Value) : Prop :=
  is_float_point y = false /\ is_float_point (with_bound (bound x) y) = false.

(** How many of the [n] positions from [from] on are among [idx]. *)
Definition erased_among (idx : list nat) (from n : nat) : nat :=
  length (List.filter (fun k => existsb (Nat.eqb k) idx) (seq from n)).

(** The successor of the token at [x], when it is live. *)
Definition nxt (h : Heap) (x : ptr) : option (option ptr) :=
  mNext <$> toks h !! x.

(** ** Cppcheck attributes (TokenImpl::setCppcheckAttribute) *)

(** The singly linked list behind [mCppcheckAttributes]: its nodes in
    their order, each with its [type] and its [value].  token.h, which
    declares the enumeration [CppcheckAttributes::Type], is not part of
    the sources; the two functions only compare its values. *)
Section CppcheckAttributes.
Context {AttrType : Type} `{EqDecision AttrType}.

(** The walk [while (attr && attr->type != type) attr = attr->next] of
    [setCppcheckAttribute] followed by [attr->value = value]: [None] when
    the walk ends at the null pointer. *)
Fixpoint set_existing (attrs : list (AttrType * Z)) (type : AttrType) (value : Z)
  : option (list (AttrType * Z)) :=
  match attrs with
  | [] => None
  | (ty, v) :: rest =>
      if decide (ty = type) then Some ((ty, value) :: rest)
      else cons (ty, v) <$> set_existing rest type value
  end.

(** [TokenImpl::setCppcheckAttribute(type, value)] *)
Definition setCppcheckAttribute (attrs : list (AttrType * Z)) (type : AttrType)
    (value : Z) : list (AttrType * Z) :=
  match set_existing attrs type value with
  | Some attrs' => attrs'
  | None => (type, value) :: attrs
  end.

(** [TokenImpl::getCppcheckAttribute(type, value)]: the returned flag and
    what the reference [value] holds afterwards. *)
Fixpoint getCppcheckAttribute (attrs : list (AttrType * Z)) (type : AttrType)
    (value : Z) : bool * Z :=
  match attrs with
  | [] => (false, value)
  | (ty, v) :: rest =>
      if decide (ty = type) then (true, v)
      else getCppcheckAttribute rest type value
  end.

(** A run of calls of [setCppcheckAttribute], first call first. *)
Definition set_all (attrs : list (AttrType * Z)) (calls : list (AttrType * Z))
  : list (AttrType * Z) :=
  foldl (fun a c => setCppcheckAttribute a c.1 c.2) attrs calls.

End CppcheckAttributes.

(** ** The token list as a sequence of addresses *)

(** The tokens at the addresses [l] are live and chained in this order:
    [mNext] of each is the one after it and [mPrevious] the one before;
    the first has the predecessor [prev], the last the successor [next]. *)
Fixpoint chain (h : Heap) (prev : option ptr) (l : list ptr) (next : option ptr)
  : bool :=
  match l with
  | [] => true
  | a :: l' =>
      match toks h !! a with
      | Some t =>
          optptr_eqb (mPrevious t) prev
          && optptr_eqb (mNext t) (match l' with [] => next | b :: _ => Some b end)
          && chain h (Some a) l' next
      | None => false
      end
  end.

(** The list of [h] is made of the tokens at [l], from [front] to
    [back]. *)
Definition token_list (h : Heap) (l : list ptr) : Prop :=
  NoDup l /\ chain h None l None = true /\ front h = head l /\ back h = last l.

Definition token_listb (h : Heap) (l : list ptr) : bool :=
  bool_decide (NoDup l) && chain h None l None
  && bool_decide (front h = head l) && bool_decide (back h = last l).

(** The text of the token at [x], when it is live. *)
Definition text (h : Heap) (x : ptr) : option string :=
  mStr <$> toks h !! x.

(** The texts of the tokens at [l]. *)
Definition texts (h : Heap) (l : list ptr) : list (option string) :=
  map (text h) l.

(** ** More stream mutators *)

Section Stream2.
Variable O : Oracles.

(** The [while] loop of [Token::eraseTokens]; [deleteNext()] is called
    with its default count, one.  Every round deletes a token, so the loop
    ends within as many rounds as there are live tokens. *)
Fixpoint eraseTokens_loop (fuel : nat) (h : Heap) (begin : ptr)
    (end_ : option ptr) : outcome Heap :=
  let* t := deref h begin in
  match mNext t with
  | None => Ok h
  | Some n =>
      if optptr_eqb (Some n) end_ then Ok h
      else
        match fuel with
        | 0 => Diverges
        | S fuel' =>
            let* h1 := deleteNext O h begin 1 in
            eraseTokens_loop fuel' h1 begin end_
        end
  end.

(** [Token::eraseTokens(begin, end)] *)
Definition eraseTokens (h : Heap) (begin end_ : option ptr) : outcome Heap :=
  match begin with
  | None => Ok h
  | Some b =>
      if optptr_eqb begin end_ then Ok h
      else eraseTokens_loop (size (toks h)) h b end_
  end.

(** [Token::createMutualLinks(begin, end)]; the three [assert]s are
    compiled out. *)
Definition createMutualLinks (h : Heap) (begin end_ : ptr) : outcome Heap :=
  let* h1 := link_at O h begin (Some end_) in
  link_at O h1 end_ (Some begin).

End Stream2.

(** [p->mLink->mLink = q], when [p->mLink] is not null: the member is
    assigned, the setter [link()] is not called. *)
Definition redirect_partner (h : Heap) (p q : ptr) : outcome Heap :=
  let* t := deref h p in
  match mLink t with
  | Some l =>
      let* tl := deref h l in
      Ok (store h l (with_mLink (Some q) tl))
  | None => Ok h
  end.

(** [Token::swapWithNext].  The four [std::swap]s exchange the text, the
    kind, the flags and [mImpl] of the two tokens; the template simplifier
    pointers behind [mImpl] are not part of the model, but the two reads
    of [mImpl] for them are. *)
Definition swapWithNext (h : Heap) (this : ptr) : outcome Heap :=
  let* t := deref h this in
  match mNext t with
  | None => Ok h
  | Some n =>
      let* tn := deref h n in
      let t1 := mkToken (mStr tn) (mTokType tn) (mFlags tn) (mNext t)
                        (mPrevious t) (mLink t) (mImpl tn) (mIsCpp t) in
      let tn1 := mkToken (mStr t) (mTokType t) (mFlags t) (mNext tn)
                         (mPrevious tn) (mLink tn) (mImpl t) (mIsCpp tn) in
      let h1 := if ptr_eqb this n then h else store (store h this t1) n tn1 in
      let* t2 := deref h1 this in
      let* _ := impl t2 in
      let* tn2 := deref h1 n in
      let* _ := impl tn2 in
      let* h2 := redirect_partner h1 n this in
      let* h3 := redirect_partner h2 this n in
      let* t4 := deref h3 this in
      let* tn4 := deref h3 n in
      if ptr_eqb this n then Ok h3
      else Ok (store (store h3 this (with_mLink (mLink tn4) t4))
                     n (with_mLink (mLink t4) tn4))
  end.

(** ** More notions used in the statements and the proofs *)

(** The neighbours of the token at [x], when it is live. *)
Definition nbrs (h : Heap) (x : ptr) : option (option ptr * option ptr) :=
  (fun t => (mPrevious t, mNext t)) <$> toks h !! x.

(** What the token at [x] carries, when it is live: its text and what is
    behind its [mImpl]. *)
Definition payload (h : Heap) (x : ptr) : option (string * option TokenImpl) :=
  (fun t => (mStr t, mImpl t)) <$> toks h !! x.

Definition first_or (l : list ptr) (next : option ptr) : option ptr :=
  match l with [] => next | b :: _ => Some b end.

Definition last_or (l : list ptr) (prev : option ptr) : option ptr :=
  match last l with Some a => Some a | None => prev end.

(** The bracket links of the tokens at [l] point at live tokens that link
    back. *)
Definition sym_on (h : Heap) (l : list ptr) : Prop :=
  forall x b : ptr, x ∈ l -> lnk h x = Some (Some b) -> lnk h b = Some (Some x).

(** The links [k] after [p->mLink->mLink = q]. *)
Definition redirected (k : ptr -> option (option ptr)) (p q : ptr)
  : ptr -> option (option ptr) :=
  fun x => if decide (k p = Some (Some x)) then Some (Some q) else k x.

(** The stream [f ( ) ;] at the addresses 1 to 4, the parentheses linked
    to each other. *)
Definition stream_empty_call : Heap :=
  mkHeap (list_to_map
            [(1, linked_token "f" eName None (Some 2) None);
             (2, linked_token "(" eExtendedOp (Some 1) (Some 3) (Some 3));
             (3, linked_token ")" eExtendedOp (Some 2) (Some 4) (Some 2));
             (4, linked_token ";" eOther (Some 3) None None)])
         (Some 1) (Some 4).

(** ** Patterns made of plain words *)

(** A word of a pattern: not empty, with no space and no NUL in it. *)
Definition is_word (w : string) : bool :=
  negb (size_is 0 w) && negb (str_mem " " w) && negb (str_mem NUL w).

(** The words joined by single spaces. *)
Fixpoint join_words (ws : list string) : string :=
  match ws with
  | [] => EmptyString
  | w :: ws' =>
      match ws' with
      | [] => w
      | _ :: _ => String.append w (String " " (join_words ws'))
      end
  end.

(** The tokens from [tok] on have the texts [ws], one after the other. *)
Fixpoint texts_from (h : Heap) (tok : option ptr) (ws : list string)
  : outcome bool :=
  match ws with
  | [] => Ok true
  | w :: ws' =>
      match tok with
      | None => Ok false
      | Some a =>
          let* t := deref h a in
          if str_eqb (mStr t) w then texts_from h (mNext t) ws' else Ok false
      end
  end.

(** ** Searches along the list (findsimplematch, findmatch) *)

Section Search.
Variable h : Heap.

(** The [for] loop the four [findsimplematchImpl] and [findmatchImpl]
    templates share: [tok] runs along [mNext] while it is not null (and
    is not [end], which [stop] says), and the first token at which
    [matches] holds is returned.  A walk that takes more steps than there
    are live tokens has come round a cycle, and goes on for ever. *)
Fixpoint find_first (fuel : nat) (matches : ptr -> outcome bool)
    (stop : ptr -> bool) (tok : option ptr) : outcome (option ptr) :=
  match tok with
  | None => Ok None
  | Some a =>
      if stop a then Ok None
      else
        let* b := matches a in
        if b then Ok (Some a)
        else
          match fuel with
          | 0 => Diverges
          | S fuel' =>
              let* t := deref h a in
              find_first fuel' matches stop (mNext t)
          end
  end.

(** [Token::findsimplematch(startTok, pattern, pattern_len)] *)
Definition findsimplematch (startTok : option ptr) (pattern : string)
    (pattern_len : nat) : outcome (option ptr) :=
  find_first (walk_fuel h)
    (fun a => simpleMatch h (Some a) pattern pattern_len)
    (fun _ => false) startTok.

(** [Token::findsimplematch(startTok, pattern, pattern_len, end)] *)
Definition findsimplematch_end (startTok : option ptr) (pattern : string)
    (pattern_len : nat) (end_ : option ptr) : outcome (option ptr) :=
  find_first (walk_fuel h)
    (fun a => simpleMatch h (Some a) pattern pattern_len)
    (fun a => optptr_eqb (Some a) end_) startTok.

(** [Token::findmatch(startTok, pattern, varId)] *)
Definition findmatch (P : Predicates) (startTok : option ptr) (pattern : string)
    (varId_ : Z) : outcome (option ptr) :=
  find_first (walk_fuel h)
    (fun a => Match P h (Some a) pattern varId_)
    (fun _ => false) startTok.

(** [Token::findmatch(startTok, pattern, end, varId)] *)
Definition findmatch_end (P : Predicates) (startTok : option ptr)
    (pattern : string) (end_ : option ptr) (varId_ : Z)
  : outcome (option ptr) :=
  find_first (walk_fuel h)
    (fun a => Match P h (Some a) pattern varId_)
    (fun a => optptr_eqb (Some a) end_) startTok.

End Search.

(** A call that returned true. *)
Definition returned_true (c : outcome bool) : bool :=
  match c with Ok true => true | _ => false end.

(** ** Queries on the value facts of a token *)

(** Modelled from the spec: vfvalue.h is not part of the sources; as the
    queries above, this one compares the kind of the fact. *)
Definition isContainerSizeValue (v : Value) : bool :=
  ValueType_eqb (valueType v) CONTAINER_SIZE.

(** The result of [std::find_if] on the list, as the element found. *)
Definition find_if (p : Value -> bool) (l : list Value) : option Value :=
  List.find p l.

(** [Token::hasKnownIntValue], on the member [mImpl->mValues]. *)
Definition hasKnownIntValue_members (mValues_ : option (list Value)) : bool :=
  match mValues_ with
  | None => false
  | Some [] => false
  | Some (value :: _) => isIntValue value && isKnown value
  end.

(** [Token::hasKnownValue()] *)
Definition hasKnownValue_members (mValues_ : option (list Value)) : bool :=
  match mValues_ with
  | None => false
  | Some l => existsb isKnown l
  end.

(** [Token::hasKnownValue(ValueFlow::Value::ValueType t)] *)
Definition hasKnownValue_of_members (mValues_ : option (list Value))
    (t : ValueType) : bool :=
  match mValues_ with
  | None => false
  | Some l => existsb (fun value => isKnown value
                                    && ValueType_eqb (valueType value) t) l
  end.

(** [Token::getKnownValue(t)] *)
Definition getKnownValue_members (mValues_ : option (list Value))
    (t : ValueType) : option Value :=
  match mValues_ with
  | None => None
  | Some [] => None
  | Some ((v :: _) as l) =>
      if ValueType_eqb t INT then
        if negb (isKnown v) || negb (isIntValue v) then None else Some v
      else find_if (fun value => isKnown value
                                 && ValueType_eqb (valueType value) t) l
  end.

(** [Token::getValue(val)] *)
Definition getValue_members (mValues_ : option (list Value)) (val : Z)
  : option Value :=
  match mValues_ with
  | None => None
  | Some l => find_if (fun value => isIntValue value
                                    && negb (isImpossible value)
                                    && (intvalue value =? val)%Z) l
  end.

(** [Token::getValueNE(val)] *)
Definition getValueNE_members (mValues_ : option (list Value)) (val : Z)
  : option Value :=
  match mValues_ with
  | None => None
  | Some l => find_if (fun value => isIntValue value
                                    && negb (isImpossible value)
                                    && negb (intvalue value =? val)%Z) l
  end.

(** [Token::getContainerSizeValue(val)] *)
Definition getContainerSizeValue_members (mValues_ : option (list Value))
    (val : Z) : option Value :=
  match mValues_ with
  | None => None
  | Some l => find_if (fun value => isContainerSizeValue value
                                    && negb (isImpossible value)
                                    && (intvalue value =? val)%Z) l
  end.

(** The queries on the token at [this]: [mImpl] is read. *)
Definition on_values {A : Type} (h : Heap) (this : ptr)
    (query : option (list Value) -> A) : outcome A :=
  let* t := deref h this in
  let* i := impl t in
  Ok (query (mValues i)).

Definition hasKnownIntValue (h : Heap) (this : ptr) : outcome bool :=
  on_values h this hasKnownIntValue_members.

Definition hasKnownValue_of (h : Heap) (this : ptr) (t : ValueType)
  : outcome bool :=
  on_values h this (fun m => hasKnownValue_of_members m t).

Definition getKnownValue (h : Heap) (this : ptr) (t : ValueType)
  : outcome (option Value) :=
  on_values h this (fun m => getKnownValue_members m t).

Definition getValue (h : Heap) (this : ptr) (val : Z) : outcome (option Value) :=
  on_values h this (fun m => getValue_members m val).

(** The kind and the confidence of a fact. *)
Definition kind_of (v : Value) : ValueType * ValueKind :=
  (valueType v, valueKind v).

Definition kinds (l : list Value) : list (ValueType * ValueKind) :=
  map kind_of l.

Definition not_known_int (k : ValueType * ValueKind) : bool :=
  negb (ValueKind_eqb k.2 Known && ValueType_eqb k.1 INT).

(** Every fact after the first one is other than a known integer. *)
Definition known_int_first (l : list Value) : bool :=
  forallb (fun v => negb (isKnown v && isIntValue v)) (tail l).

(** The facts of the token at [p], none when [mValues] is null. *)
Definition facts_list (h : Heap) (p : ptr) : list Value :=
  default [] (facts h p).

(** ** The AST links as a whole *)

(** The AST links of the token at [x], when it is live and has its
    [mImpl]: the parent, the first and the second operand. *)
Definition ast_links (h : Heap) (x : ptr)
  : option (option ptr * option ptr * option ptr) :=
  match toks h !! x with
  | Some t =>
      match mImpl t with
      | Some i => Some (mAstParent i, mAstOperand1 i, mAstOperand2 i)
      | None => None
      end
  | None => None
  end.

(** The operands of a token point back at it as their parent, and a
    token is an operand of its parent. *)
Definition ast_consistent (h : Heap) : Prop :=
  (forall (p c : ptr) (up o1 o2 : option ptr),
      ast_links h p = Some (up, o1, o2) -> o1 = Some c \/ o2 = Some c ->
      exists o1' o2', ast_links h c = Some (Some p, o1', o2')) /\
  (forall (c p : ptr) (o1 o2 : option ptr),
      ast_links h c = Some (Some p, o1, o2) ->
      exists up o1' o2', ast_links h p = Some (up, o1', o2') /\
                         (o1' = Some c \/ o2' = Some c)).

Definition ast_consistentb (h : Heap) : bool :=
  forallb (fun at_ : ptr * Token =>
             match ast_links h at_.1 with
             | Some (up, o1, o2) =>
                 let points_back (o : option ptr) :=
                   match o with
                   | Some c =>
                       match ast_links h c with
                       | Some (Some p', _, _) => ptr_eqb p' at_.1
                       | _ => false
                       end
                   | None => true
                   end in
                 points_back o1 && points_back o2
                 && match up with
                    | Some p =>
                        match ast_links h p with
                        | Some (_, o1', o2') =>
                            optptr_eqb o1' (Some at_.1)
                            || optptr_eqb o2' (Some at_.1)
                        | None => false
                        end
                    | None => true
                    end
             | None => true
             end)
          (map_to_list (toks h)).

(** What the setter [astParent] does to the links of the token at [x]:
    the old parent [up] of [this] loses [this] from its operand slots, and
    [this] gets the parent [tok]. *)
Definition detach_from (this : ptr) (up : option ptr) (x : ptr)
    (a : option ptr * option ptr * option ptr)
  : option ptr * option ptr * option ptr :=
  if decide (up = Some x)
  then (a.1.1,
        if decide (a.1.2 = Some this) then None else a.1.2,
        if decide (a.2 = Some this) then None else a.2)
  else a.

Definition set_parent (this : ptr) (tok : option ptr) (x : ptr)
    (a : option ptr * option ptr * option ptr)
  : option ptr * option ptr * option ptr :=
  if decide (x = this) then (tok, a.1.2, a.2) else a.

(** The tree of [a + b] at 1, 2, 3 beside a token [c] at 4 that is in no
    tree; and what it becomes when [c] is made the first, or the second,
    operand of [+]. *)
Definition ast_a_plus_b_and_c : Heap :=
  mkHeap (list_to_map
            [(1, ast_token "+" eArithmeticalOp (Some 2) (Some 3) None);
             (2, ast_token "a" eName None None (Some 1));
             (3, ast_token "b" eName None None (Some 1));
             (4, ast_token "c" eName None None None)])
         None None.

Definition ast_c_plus_b_and_a : Heap :=
  mkHeap (list_to_map
            [(1, ast_token "+" eArithmeticalOp (Some 4) (Some 3) None);
             (2, ast_token "a" eName None None None);
             (3, ast_token "b" eName None None (Some 1));
             (4, ast_token "c" eName None None (Some 1))])
         None None.

Definition ast_a_plus_c_and_b : Heap :=
  mkHeap (list_to_map
            [(1, ast_token "+" eArithmeticalOp (Some 2) (Some 4) None);
             (2, ast_token "a" eName None None (Some 1));
             (3, ast_token "b" eName None None None);
             (4, ast_token "c" eName None None (Some 1))])
         None None.

(** ** Moving a range of tokens (Token::move) *)

(** Modelled from the spec: token.h is not part of the sources.
    [p->next()] and [p->previous()] read [mNext] and [mPrevious];
    [p->next(q)] and [p->previous(q)], the setters, store [q] there.
    Calling a member on the null pointer is undefined. *)
Definition next_of (h : Heap) (p : ptr) : outcome (option ptr) :=
  let* t := deref h p in Ok (mNext t).

Definition previous_of (h : Heap) (p : ptr) : outcome (option ptr) :=
  let* t := deref h p in Ok (mPrevious t).

Definition set_next (h : Heap) (p : ptr) (q : option ptr) : outcome Heap :=
  let* t := deref h p in Ok (store h p (with_mNext q t)).

Definition set_previous (h : Heap) (p : ptr) (q : option ptr) : outcome Heap :=
  let* t := deref h p in Ok (store h p (with_mPrevious q t)).

Definition nonnull (p : option ptr) : outcome ptr :=
  match p with
  | Some a => Ok a
  | None => Undefined
  end.

(** The loop [for (tok = srcStart; tok != srcEnd->next(); tok = tok->next())]
    with the body [tok->mImpl->mProgressValue =
    newLocation->mImpl->mProgressValue;]: every token it goes through,
    and [newLocation], must have its [mImpl]. *)
Fixpoint progress_loop (fuel : nat) (h : Heap) (tok : option ptr)
    (srcEnd newLocation : ptr) : outcome Heap :=
  let* en := next_of h srcEnd in
  if optptr_eqb tok en then Ok h
  else
    match fuel with
    | 0 => Diverges
    | S fuel' =>
        let* p := nonnull tok in
        let* t := deref h p in
        let* i := impl t in
        let* tn := deref h newLocation in
        let* ni := impl tn in
        let h' := store h p (with_mImpl
                               (Some (with_mProgressValue (mProgressValue ni) i))
                               t) in
        progress_loop fuel' h' (mNext t) srcEnd newLocation
    end.

(** [Token::move(Token* srcStart, Token* srcEnd, Token* newLocation)] *)
Definition move (h : Heap) (srcStart srcEnd newLocation : ptr) : outcome Heap :=
  (* srcStart->previous()->next(srcEnd->next()); *)
  let* sp := previous_of h srcStart in
  let* sp := nonnull sp in
  let* en := next_of h srcEnd in
  let* h1 := set_next h sp en in
  (* srcEnd->next()->previous(srcStart->previous()); *)
  let* en := next_of h1 srcEnd in
  let* en := nonnull en in
  let* sp := previous_of h1 srcStart in
  let* h2 := set_previous h1 en sp in
  (* srcEnd->next(newLocation->next()); *)
  let* nn := next_of h2 newLocation in
  let* h3 := set_next h2 srcEnd nn in
  (* srcStart->previous(newLocation); *)
  let* h4 := set_previous h3 srcStart (Some newLocation) in
  (* newLocation->next()->previous(srcEnd); *)
  let* nn := next_of h4 newLocation in
  let* nn := nonnull nn in
  let* h5 := set_previous h4 nn (Some srcEnd) in
  (* newLocation->next(srcStart); *)
  let* h6 := set_next h5 newLocation (Some srcStart) in
  (* Update _progressValue *)
  progress_loop (walk_fuel h6) h6 (Some srcStart) srcEnd newLocation.

(** The token at [x] is live and has its [mImpl]. *)
Definition has_impl (h : Heap) (x : ptr) : Prop :=
  exists s i, payload h x = Some (s, Some i).

(** [h'] differs from [h] in the neighbours of tokens at most. *)
Definition same_but_neighbours (h h' : Heap) : Prop :=
  (forall x, payload h' x = payload h x) /\
  (forall x, lnk h' x = lnk h x) /\
  front h' = front h /\ back h' = back h.

(** The [mProgressValue] of the token at [x], when it is live and has its
    [mImpl]. *)
Definition progress_of (h : Heap) (x : ptr) : option Z :=
  match payload h x with
  | Some (_, Some i) => Some (mProgressValue i)
  | _ => None
  end.

(** What a token carries once the [mProgressValue] behind its [mImpl] is
    [v]. *)
Definition with_progress (v : Z) (p : string * option TokenImpl)
  : string * option TokenImpl :=
  (p.1, with_mProgressValue v <$> p.2).

(** [h'] differs from [h] in the neighbours of tokens, and in the
    [mProgressValue] of the tokens at [l], which is [v] in [h']. *)
Definition same_but_neighbours_and_progress (l : list ptr) (v : Z) (h h' : Heap)
  : Prop :=
  (forall x, payload h' x = if decide (x ∈ l) then with_progress v <$> payload h x
                            else payload h x) /\
  (forall x, lnk h' x = lnk h x) /\
  front h' = front h /\ back h' = back h.

(** The neighbours of [x] when the tokens at [l] are chained between
    [p'] and [q'], given what they were ([a]) inside the same tokens
    chained between other ends. *)
Definition with_ends (l : list ptr) (p' q' : option ptr) (x : ptr)
    (a : option ptr * option ptr) : option ptr * option ptr :=
  (if decide (head l = Some x) then p' else a.1,
   if decide (last l = Some x) then q' else a.2).

Definition has_implb (h : Heap) (x : ptr) : bool :=
  match payload h x with
  | Some (_, Some _) => true
  | _ => false
  end.

(** A list of five tokens with the progress values 0, 20, 40, 60 and
    80. *)
Definition progress_token (s : string) (previous next : option ptr) (v : Z)
  : Token :=
  mkToken s eName no_flags next previous None
    (Some (mkImpl 0 0 None None None None v)) true.

Definition stream_progress : Heap :=
  mkHeap (list_to_map
            [(1, progress_token "a" None (Some 2) 0);
             (2, progress_token "b" (Some 1) (Some 3) 20);
             (3, progress_token "c" (Some 2) (Some 4) 40);
             (4, progress_token "d" (Some 3) (Some 5) 60);
             (5, progress_token "e" (Some 4) None 80)])
         (Some 1) (Some 5).

(** ** Replacing a token by a range (Token::replace) *)

(** The loop [while (end->next()) end = end->next();]. *)
Fixpoint last_from (fuel : nat) (h : Heap) (end_ : ptr) : outcome ptr :=
  let* en := next_of h end_ in
  match en with
  | None => Ok end_
  | Some p =>
      match fuel with
      | 0 => Diverges
      | S fuel' => last_from fuel' h p
      end
  end.

(** [Token::replace(Token* replaceThis, Token* start, Token* end)].  The
    tokens share one [mTokensFrontBack], the front and back of the heap;
    the last loop is the one of [move], with [replaceThis] as the source
    of [mProgressValue] and [end] as it is after the search for the back;
    [delete replaceThis] frees the token. *)
Definition replace (h : Heap) (replaceThis start end_ : ptr) : outcome Heap :=
  (* if (start->previous()) start->previous()->next(end->next()); *)
  let* sp := previous_of h start in
  let* h1 :=
    match sp with
    | Some p => let* en := next_of h end_ in set_next h p en
    | None => Ok h
    end in
  (* if (end->next()) end->next()->previous(start->previous()); *)
  let* en := next_of h1 end_ in
  let* h2 :=
    match en with
    | Some p => let* sp := previous_of h1 start in set_previous h1 p sp
    | None => Ok h1
    end in
  (* if (replaceThis->previous()) replaceThis->previous()->next(start); *)
  let* rp := previous_of h2 replaceThis in
  let* h3 :=
    match rp with
    | Some p => set_next h2 p (Some start)
    | None => Ok h2
    end in
  (* if (replaceThis->next()) replaceThis->next()->previous(end); *)
  let* rn := next_of h3 replaceThis in
  let* h4 :=
    match rn with
    | Some p => set_previous h3 p (Some end_)
    | None => Ok h3
    end in
  (* start->previous(replaceThis->previous()); *)
  let* rp := previous_of h4 replaceThis in
  let* h5 := set_previous h4 start rp in
  (* end->next(replaceThis->next()); *)
  let* rn := next_of h5 replaceThis in
  let* h6 := set_next h5 end_ rn in
  (* if (end->mTokensFrontBack->back == end) *)
  let* _ := deref h6 end_ in
  let* r :=
    if optptr_eqb (back h6) (Some end_)
    then
      let* e := last_from (walk_fuel h6) h6 end_ in
      Ok (with_back (Some e) h6, e)
    else Ok (h6, end_) in
  (* Update mProgressValue, fileIndex and linenr *)
  let* h7 := progress_loop (walk_fuel (fst r)) (fst r) (Some start) (snd r)
               replaceThis in
  (* delete replaceThis; *)
  Ok (free h7 replaceThis).

(** The token [int] of a C++ list, once as it comes and once classified. *)
Definition int_token : Token := plain_token "int" eName 0 None None.

Definition int_token_classified : Token :=
  mkToken "int" eType (mkFlags false true false) None None None
    (Some (plain_impl 0)) true.

(** ** Patterns that Match reads as plain words *)

(** A word that [Token::Match] compares with the text of a token as it
    is: no bar in it, and it is no [%] command, no set in square brackets
    and no negation with two exclamation marks. *)
Definition plain_word (w : string) : bool :=
  is_word w && negb (str_mem "|" w)
  && negb (ascii_eqb (char_at w 0) "%" && negb (size_is 1 w))
  && negb (ascii_eqb (char_at w 0) "[" && str_mem "]" w)
  && negb (ascii_eqb (char_at w 0) "!" && ascii_eqb (char_at w 1) "!").

(** The text of no live token has a space or a NUL in it. *)
Definition clean_text (s : string) : bool :=
  negb (str_mem " " s) && negb (str_mem NUL s).

Definition clean_texts (h : Heap) : Prop :=
  forall (a : ptr) (t : Token), toks h !! a = Some t -> clean_text (mStr t) = true.

Definition clean_textsb (h : Heap) : bool :=
  forallb (fun at_ : ptr * Token => clean_text (mStr at_.2))
          (map_to_list (toks h)).

(** What may follow a word in a pattern: nothing, or a space. *)
Definition after_word (r : string) : Prop :=
  r = EmptyString \/ exists r', r = String " " r'.


(** ** Prefix operators (Token::isUnaryPreOp) *)

(** The loop [for (distance = 1; distance < 10 && tokbefore; distance++)]:
    [n] is the number of rounds that are left. *)
Fixpoint isUnaryPreOp_loop (n : nat) (h : Heap) (op1 tokbefore tokafter : option ptr)
  : outcome bool :=
  match n with
  | 0 => Ok false
  | S n' =>
      match tokbefore with
      | None => Ok false
      | Some b =>
          if optptr_eqb tokbefore op1 then Ok false
          else if optptr_eqb tokafter op1 then Ok true
          else
            let* tb := deref h b in
            let* a := nonnull tokafter in
            let* ta := deref h a in
            isUnaryPreOp_loop n' h op1 (mPrevious tb) (mPrevious ta)
      end
  end.

(** [Token::isUnaryPreOp] *)
Definition isUnaryPreOp (h : Heap) (this : ptr) : outcome bool :=
  let* t := deref h this in
  let* i := impl t in
  match mAstOperand1 i, mAstOperand2 i with
  | Some _, None =>
      if negb (TokType_eqb (mTokType t) eIncDecOp) then Ok true
      else isUnaryPreOp_loop 9 h (mAstOperand1 i) (mPrevious t) (mNext t)
  | _, _ => Ok false
  end.

(** The stream [x = ++ y ;] at the addresses 1 to 5, and the stream
    [++ y ;] at 3 to 5; in both [y] is the operand of [++]. *)
Definition incdec_token (prev next op1 : option ptr) : Token :=
  mkToken "++" eIncDecOp no_flags next prev None
    (Some (mkImpl 0 0 op1 None None None 0)) true.

Definition stream_x_eq_inc_y : Heap :=
  mkHeap (list_to_map
            [(1, plain_token "x" eVariable 7 None (Some 2));
             (2, plain_token "=" eAssignmentOp 0 (Some 1) (Some 3));
             (3, incdec_token (Some 2) (Some 4) (Some 4));
             (4, plain_token "y" eVariable 8 (Some 3) (Some 5));
             (5, plain_token ";" eOther 0 (Some 4) None)])
         (Some 1) (Some 5).

Definition stream_inc_y : Heap :=
  mkHeap (list_to_map
            [(3, incdec_token None (Some 4) (Some 4));
             (4, plain_token "y" eVariable 8 (Some 3) (Some 5));
             (5, plain_token ";" eOther 0 (Some 4) None)])
         (Some 3) (Some 5).

(** ** Facts that removeContradictions leaves alone *)

(** A fact that [mergeAdjacent] passes over: no value, or a point. *)
Definition point_fact (V : ValueOps) (v : Value) : bool :=
  isNonValue V v || Bound_eqb (bound v) Point.

(** No fact of [rest] that is a value has, among the other facts of
    [done ++ rest], one of its kind, confidence and bound with an equal
    value. *)
Fixpoint no_overlaps (V : ValueOps) (done rest : list Value) : bool :=
  match rest with
  | [] => true
  | x :: rest' =>
      (isNonValue V x
       || forallb (fun y => negb (overlaps V x y)) (done ++ rest'))
      && no_overlaps V (done ++ [x]) rest'
  end.

(** * Properties *)

(** ** Outcomes and C strings *)

Lemma bind_Ok {A B : Type} (c : outcome A) (k : A -> outcome B) (b : B) :
  bind c k = Ok b -> exists a, c = Ok a /\ k a = Ok b.
Proof. destruct c; simpl; intros E; try discriminate. eauto. Qed.

Lemma str_eqb_eq (a b : string) : str_eqb a b = true <-> a = b.
Proof. apply String.eqb_eq. Qed.

Lemma char_at_advance (n i : nat) (s : string) :
  char_at (advance n s) i = char_at s (n + i).
Proof.
  revert s; induction n as [|n IH]; intros s; simpl; [reflexivity|].
  destruct s as [|c s']; simpl; [destruct i; reflexivity | apply IH].
Qed.

Lemma length_advance (n : nat) (s : string) :
  String.length (advance n s) = String.length s - n.
Proof.
  revert s; induction n as [|n IH]; intros s; simpl; [lia|].
  destruct s as [|c s']; simpl; [reflexivity | apply IH].
Qed.

Lemma TokType_eqb_eq (a b : TokType) : TokType_eqb a b = true <-> a = b.
Proof. destruct a, b; simpl; split; intros E; congruence. Qed.

(** ** Classification *)

Lemma set_contains_In (l : list string) (s : string) :
  set_contains l s = true <-> In s l.
Proof.
  unfold set_contains. rewrite existsb_exists. split.
  - intros [x [Hx E]]. apply str_eqb_eq in E. now subst.
  - intros H. exists s. split; [assumption | now apply str_eqb_eq].
Qed.

Lemma standard_type_spelling_dec (s : string) :
  standard_type_spelling s <->
  ((String.length s <? 3) || (7 <? String.length s) = false
   /\ isStandardType s = true).
Proof.
  unfold standard_type_spelling, isStandardType.
  rewrite set_contains_In, orb_false_iff, !Nat.ltb_ge. unfold stdTypes.
  intuition lia.
Qed.

Lemma update_property_isStandardType_cases (t : Token) :
  (standard_type_spelling (mStr t) /\
   update_property_isStandardType t = tokType eType (set_isStandardType true t))
  \/ (~ standard_type_spelling (mStr t) /\ update_property_isStandardType t = t).
Proof.
  unfold update_property_isStandardType.
  destruct ((String.length (mStr t) <? 3) || (7 <? String.length (mStr t))) eqn:Hlen.
  - right. split; [|reflexivity].
    rewrite standard_type_spelling_dec, Hlen. intros [? _]; discriminate.
  - destruct (isStandardType (mStr t)) eqn:Hstd.
    + left. split; [|reflexivity].
      rewrite standard_type_spelling_dec, Hlen, Hstd. now split.
    + right. split; [|reflexivity].
      rewrite standard_type_spelling_dec, Hstd. intros [_ ?]; discriminate.
Qed.

Lemma classify_operator_not_eType (t : Token) : classify_operator t <> eType.
Proof.
  unfold classify_operator.
  repeat match goal with
         | |- context [if ?b then _ else _] => destruct b
         end; discriminate.
Qed.

(** The spelling "unsigned" is in [stdTypes] but has eight characters: the
    length guard keeps it from ever being upgraded. *)
Lemma unsigned_is_not_upgraded (t : Token) :
  mStr t = "unsigned"%string -> update_property_isStandardType t = t.
Proof.
  intros E. unfold update_property_isStandardType. now rewrite E.
Qed.

(** C4: the standard-type step turns the kind into [eType] (and sets the
    standard-type flag) exactly for a spelling of 3 to 7 characters that is
    one of the thirteen listed names, and leaves the token as it is for any
    other spelling; the whole classification yields [eType] only for such a
    spelling. *)
Theorem standard_type_upgrade_only_for_listed_spellings :
  forall (O : Oracles) (t : Token),
    (standard_type_spelling (mStr t) ->
     mTokType (update_property_isStandardType t) = eType /\
     fIsStandardType (mFlags (update_property_isStandardType t)) = true) /\
    (~ standard_type_spelling (mStr t) ->
     update_property_isStandardType t = t) /\
    (forall t', update_property_info O t = Ok t' ->
                mTokType t' = eType -> standard_type_spelling (mStr t)).
Proof.
  intros O t. split; [|split].
  - intros Hs. destruct (update_property_isStandardType_cases t) as [[_ E]|[Hn _]];
      [rewrite E; split; reflexivity | contradiction].
  - intros Hn. destruct (update_property_isStandardType_cases t) as [[Hs _]|[_ E]];
      [contradiction | exact E].
  - intros t' Hrun Hty. unfold update_property_info in Hrun.
    set (t1 := set_isStandardType false (set_fIsControlFlowKeyword false t)) in Hrun.
    assert (Hstr : mStr t1 = mStr t) by reflexivity.
    rewrite Hstr in Hrun.
    assert (Hup : forall k, mTokType (update_property_isStandardType (tokType k t1)) = eType ->
                            k <> eType -> standard_type_spelling (mStr t)).
    { intros k Hk Hne.
      destruct (update_property_isStandardType_cases (tokType k t1)) as [[Hs _]|[_ E]].
      - exact Hs.
      - rewrite E in Hk. simpl in Hk. contradiction. }
    repeat match type of Hrun with
           | context [if ?b then _ else _] => destruct b eqn:?
           | context [bind (impl ?x) _] => destruct (impl x); simpl in Hrun
           end;
      try discriminate; inversion Hrun; subst t'; clear Hrun;
      try (simpl in Hty; discriminate).
    + simpl in Hty. apply (Hup eKeyword); [exact Hty | discriminate].
    + apply (Hup eKeyword); [exact Hty | discriminate].
    + apply (Hup eName); [exact Hty | discriminate].
    + simpl in Hty. now apply classify_operator_not_eType in Hty.
Qed.

(** ** Pattern matcher *)

Lemma skip_spaces_length (p : string) :
  String.length (skip_spaces p) <= String.length p.
Proof.
  induction p as [|c p IH]; simpl; [lia|].
  destruct (ascii_eqb c " "); simpl; lia.
Qed.

Lemma skip_word_length (p : string) :
  String.length (skip_word p) <= String.length p.
Proof.
  induction p as [|c p IH]; simpl; [lia|].
  destruct (negb (ascii_eqb c NUL) && negb (ascii_eqb c " ")); simpl; lia.
Qed.

Lemma ascii_eqb_eq (a b : ascii) : ascii_eqb a b = true <-> a = b.
Proof. apply Ascii.eqb_eq. Qed.

Lemma is_negation_skip_word (p : string) :
  is_negation p = true -> String.length (skip_word p) < String.length p.
Proof.
  unfold is_negation. destruct p as [|c p]; simpl; [discriminate|].
  intros H. apply andb_prop in H as [H _]. apply andb_prop in H as [H _].
  apply ascii_eqb_eq in H. subst c. simpl.
  pose proof (skip_word_length p). lia.
Qed.

Lemma skip_spaces_idem (p : string) : skip_spaces (skip_spaces p) = skip_spaces p.
Proof.
  induction p as [|c p IH]; simpl; [reflexivity|].
  destruct (ascii_eqb c " ") eqn:E; [exact IH | simpl; now rewrite E].
Qed.

(** Past the end of the stream the loop of [Token::Match] does not depend
    on the fuel, once there is more of it than pattern left. *)
Lemma Match_loop_None_fuel (P : Predicates) (h : Heap) (varid : Z) :
  forall (f1 f2 : nat) (p : string),
    String.length p < f1 -> String.length p < f2 ->
    Match_loop P h f1 None p varid = Match_loop P h f2 None p varid.
Proof.
  induction f1 as [|f1 IH]; intros f2 p H1 H2; [lia|].
  destruct f2 as [|f2]; [lia|]. simpl.
  destruct (ascii_eqb (char_at (skip_spaces p) 0) NUL); [reflexivity|].
  destruct (is_negation (skip_spaces p)) eqn:Hneg; [|reflexivity].
  apply is_negation_skip_word in Hneg.
  pose proof (skip_spaces_length p).
  apply IH; lia.
Qed.

Lemma Match_loop_None_S (P : Predicates) (h : Heap) (varid : Z)
    (f : nat) (p : string) :
  Match_loop P h (S f) None p varid =
  if ascii_eqb (char_at (skip_spaces p) 0) NUL then Ok true
  else if is_negation (skip_spaces p)
       then Match_loop P h f None (skip_word (skip_spaces p)) varid
       else Ok false.
Proof. reflexivity. Qed.

Lemma skip_spaces_at_NUL (p : string) :
  ascii_eqb (char_at p 0) NUL = true -> skip_spaces p = p.
Proof.
  destruct p as [|c p]; [reflexivity|]. simpl. intros E.
  apply ascii_eqb_eq in E. now subst c.
Qed.



(** Past the last token of a stream the loop is in the state of [Match]
    on a null token, whatever fuel it has left beyond the pattern. *)
Lemma Match_loop_None_is_Match (P : Predicates) (h : Heap) (varid : Z)
    (fuel : nat) (p : string) :
  String.length p < fuel ->
  Match_loop P h fuel None p varid = Match P h None p varid.
Proof.
  intros Hf. unfold Match.
  destruct (ascii_eqb (char_at p 0) NUL) eqn:E0.
  - destruct fuel as [|fuel]; [lia|].
    rewrite Match_loop_None_S, (skip_spaces_at_NUL p E0). now rewrite E0.
  - apply Match_loop_None_fuel; lia.
Qed.

Example Match_runs_past_the_last_token :
  Match kind_predicates stream_x_eq_42 (Some 3) "%num% !!else" 0 = Ok true /\
  Match kind_predicates stream_x_eq_42 (Some 3) "%num% ;" 0 = Ok false /\
  Match kind_predicates stream_x_eq_42 (Some 1) "%var% = %num% !!;" 0 = Ok true.
Proof. repeat split; vm_compute; reflexivity. Qed.

(** C10: [Token::Match] with the empty pattern is true for every token,
    the null one too, and [Token::simpleMatch] is false for the null token
    whatever the pattern. *)
Theorem Match_empty_pattern_and_simpleMatch_null :
  forall (P : Predicates) (h : Heap) (tok : option ptr) (varid : Z)
         (pattern : string) (pattern_len : nat),
    Match P h tok "" varid = Ok true /\
    simpleMatch h None pattern pattern_len = Ok false.
Proof. intros. split; reflexivity. Qed.

Lemma deref_live (h : Heap) (a : ptr) (t : Token) :
  toks h !! a = Some t -> deref h a = Ok t.
Proof. unfold deref. now intros ->. Qed.

Lemma multiComparePercent_varid (P : Predicates) (t : Token) (i : TokenImpl)
    (rest : string) (varid : Z) :
  varid <> 0%Z -> mImpl t = Some i ->
  multiComparePercent P t ("%varid%" ++ rest) varid
  = percent_result (mVarId i =? varid)%Z rest.
Proof.
  intros Hv Hi. apply Z.eqb_neq in Hv.
  unfold multiComparePercent, impl. cbn [append advance char_at].
  change (ascii_eqb "v" "v") with true. change (ascii_eqb "i" "%") with false.
  cbv iota. rewrite Hv, Hi. reflexivity.
Qed.

Lemma multiCompare_loop_percent (P : Predicates) (f : nat) (t : Token)
    (rest : string) (varid : Z) :
  multiCompare_loop P (S f) t 0 ("%v" ++ rest) varid
  = let* r := multiComparePercent P t ("%v" ++ rest) varid in
    if (fst r <? 2)%Z then Ok (fst r)
    else multiCompare_loop P f t 0 (snd r) varid.
Proof. reflexivity. Qed.

Lemma multiCompareImpl_varid (P : Predicates) (t : Token) (i : TokenImpl)
    (varid : Z) :
  varid <> 0%Z -> mImpl t = Some i ->
  multiCompareImpl P t "%varid%" varid
  = Ok (if (mVarId i =? varid)%Z then 1%Z else (-1)%Z).
Proof.
  intros Hv Hi. unfold multiCompareImpl.
  change (String.length "%varid%") with 7.
  pose proof (multiCompare_loop_percent P 7 t "arid%" varid) as E.
  change ("%v" ++ "arid%")%string with "%varid%"%string in E. rewrite E.
  pose proof (multiComparePercent_varid P t i "" varid Hv Hi) as E'.
  change ("%varid%" ++ "")%string with "%varid%"%string in E'. rewrite E'.
  destruct (mVarId i =? varid)%Z; reflexivity.
Qed.

#[local] Arguments multiCompareImpl : simpl never.

(** The wildcard [%varid%] with the binding 0 throws on a present
    token, whatever follows it in the pattern. *)
Lemma Match_varid_zero (P : Predicates) (h : Heap) (a : ptr) (t : Token)
    (rest : string) :
  toks h !! a = Some t ->
  multiComparePercent P t ("%varid%" ++ rest) 0 = InternalError varid_zero_message /\
  Match P h (Some a) ("%varid%" ++ rest) 0 = InternalError varid_zero_message.
Proof.
  intros Ha. split; [reflexivity|].
  unfold Match. simpl. rewrite (deref_live h a t Ha). reflexivity.
Qed.

(** ** The pattern matcher ends within its fuel *)

Lemma strchr_length (c : ascii) :
  forall p p' : string, strchr p c = Some p' -> String.length p' <= String.length p.
Proof.
  induction p as [|d p IH]; intros p' H; simpl in H; [discriminate|].
  destruct (ascii_eqb d c); [inversion H; subst; simpl; lia|].
  destruct (ascii_eqb d NUL); [discriminate|].
  apply IH in H. simpl. lia.
Qed.

Lemma strchr_strict (c : ascii) (p p' : string) :
  strchr p c = Some p' -> ascii_eqb (char_at p 0) c = false ->
  String.length p' < String.length p.
Proof.
  destruct p as [|d p]; simpl; [discriminate|]. intros H E. rewrite E in H.
  destruct (ascii_eqb d NUL); [discriminate|].
  apply strchr_length in H. lia.
Qed.

Lemma skip_word_strict (p : string) :
  ascii_eqb (char_at p 0) NUL = false -> ascii_eqb (char_at p 0) " " = false ->
  String.length (skip_word p) < String.length p.
Proof.
  destruct p as [|c p]; simpl; [discriminate|]. intros -> ->. simpl.
  pose proof (skip_word_length p). lia.
Qed.

Lemma bracket_scan_length (c : ascii) :
  forall (temp : string) (count : nat),
    String.length (bracket_scan temp c count).2 <= String.length temp.
Proof.
  induction temp as [|d temp IH]; intros count; simpl; [lia|].
  destruct (negb (ascii_eqb d NUL) && negb (ascii_eqb d " ")); simpl; [|lia].
  destruct (ascii_eqb d "]"); [specialize (IH (S count)); lia|].
  destruct (ascii_eqb d c); simpl; [lia|]. specialize (IH count). lia.
Qed.

Lemma next_alternative_length :
  forall hs hs' : string,
    next_alternative hs = Some hs' -> String.length hs' < String.length hs.
Proof.
  induction hs as [|c hs IH]; intros hs' H; simpl in H; [discriminate|].
  destruct (ascii_eqb c " " || ascii_eqb c NUL); [discriminate|].
  destruct (ascii_eqb c "|"); [inversion H; subst; simpl; lia|].
  apply IH in H. simpl. lia.
Qed.

Lemma percent_result_length (b : bool) (hs hs' : string) (r : Z) :
  percent_result b hs = Ok (r, hs') -> String.length hs' <= String.length hs.
Proof.
  unfold percent_result, percent_no_match.
  destruct b; [intros [= _ <-]; lia|].
  destruct (ascii_eqb (char_at hs 0) "|"); intros [= _ <-];
    destruct hs; simpl; lia.
Qed.

Lemma Ok_snd_length (a b : Z) (x y : string) (n : nat) :
  @Ok (Z * string) (a, x) = Ok (b, y) ->
  String.length x <= n -> String.length y <= n.
Proof. intros E. inversion E. subst. trivial. Qed.

Lemma percent_no_match_length (hs hs' : string) (r : Z) :
  percent_no_match hs = Ok (r, hs') -> String.length hs' <= String.length hs.
Proof. apply (percent_result_length false). Qed.

Lemma multiComparePercent_length (P : Predicates) (t : Token) (hs hs' : string)
    (varid r : Z) :
  multiComparePercent P t hs varid = Ok (r, hs') ->
  String.length hs' <= String.length hs - 1.
Proof.
  unfold multiComparePercent. intros H.
  rewrite <- (length_advance 1 hs).
  repeat match type of H with
         | (if ?b then _ else _) = _ => destruct b
         | bind (impl ?x) _ = _ => destruct (impl x); cbn [bind] in H
         end; try discriminate;
    try (apply percent_result_length in H; rewrite ?length_advance in *; lia);
    try (apply percent_no_match_length in H; rewrite ?length_advance in *; lia).
  apply (Ok_snd_length _ _ _ _ _ H). rewrite !length_advance. lia.
Qed.

#[local] Arguments advance : simpl never.

Lemma multiCompare_loop_ends (P : Predicates) (t : Token) (varid : Z) :
  forall (fuel np : nat) (hs : string),
    String.length hs < fuel -> multiCompare_loop P fuel t np hs varid <> Diverges.
Proof.
  induction fuel as [|fuel IH]; intros np hs Hf; [lia|]. simpl.
  destruct ((np =? 0) && ascii_eqb (char_at hs 0) "%"
            && negb (ascii_eqb (char_at hs 1) "|")
            && negb (ascii_eqb (char_at hs 1) NUL)
            && negb (ascii_eqb (char_at hs 1) " ")) eqn:Epc.
  - destruct (multiComparePercent P t hs varid) as [[r hs']| | |] eqn:Hp;
      simpl; try discriminate.
    + destruct (r <? 2)%Z; [discriminate|].
      apply multiComparePercent_length in Hp.
      assert (hs <> EmptyString).
      { intros ->. simpl in Epc. rewrite !andb_false_r in Epc. discriminate. }
      apply IH. destruct hs; [contradiction | simpl in *; lia].
    + unfold multiComparePercent in Hp.
      repeat match type of Hp with
             | (if ?b then _ else _) = _ => destruct b
             | bind (impl ?x) _ = _ =>
                 unfold impl in Hp; destruct (mImpl x); cbn [bind] in Hp
             end; try discriminate Hp;
        unfold percent_result, percent_no_match in Hp;
        repeat match type of Hp with
               | (if ?b then _ else _) = _ => destruct b
               end; discriminate Hp.
  - destruct (ascii_eqb (char_at hs 0) "|") eqn:Ebar.
    + destruct (ascii_eqb (char_at (mStr t) np) NUL); [discriminate|].
      apply IH. rewrite length_advance.
      destruct hs; [discriminate | simpl in *; lia].
    + destruct (ascii_eqb (char_at (mStr t) np) (char_at hs 0)) eqn:Eeq.
      * destruct (ascii_eqb (char_at (mStr t) np) NUL) eqn:En; [discriminate|].
        apply IH. rewrite length_advance.
        destruct hs as [|c hs]; [|simpl in *; lia].
        simpl in Eeq. congruence.
      * destruct (ascii_eqb (char_at hs 0) " " || ascii_eqb (char_at hs 0) NUL).
        -- destruct (np =? 0); [discriminate|].
           destruct (ascii_eqb (char_at (mStr t) np) NUL); discriminate.
        -- destruct (next_alternative (advance 1 hs)) as [hs'|] eqn:Ena;
             [|discriminate].
           apply IH. apply next_alternative_length in Ena.
           rewrite length_advance in Ena. lia.
Qed.

Lemma Match_loop_ends (P : Predicates) (h : Heap) (varid : Z) :
  forall (fuel : nat) (tok : option ptr) (p0 : string),
    String.length p0 < fuel -> Match_loop P h fuel tok p0 varid <> Diverges.
Proof.
  induction fuel as [|fuel IH]; intros tok p0 Hf; [lia|]. simpl.
  pose proof (skip_spaces_length p0) as Hsp.
  set (p := skip_spaces p0) in *.
  destruct (ascii_eqb (char_at p 0) NUL) eqn:Enul; [discriminate|].
  assert (Espace : ascii_eqb (char_at p 0) " " = false).
  { subst p. clear. induction p0 as [|c p0 IH]; [reflexivity|]. simpl.
    destruct (ascii_eqb c " ") eqn:E; [exact IH | simpl; exact E]. }
  pose proof (skip_word_strict p Enul Espace) as Hword.
  assert (Hstep : forall (q : string) (t : Token),
             String.length q <= String.length p ->
             ascii_eqb (char_at q 0) " " = false \/ String.length q < String.length p ->
             match strchr q " " with
             | Some p' => Match_loop P h fuel (mNext t) p' varid
             | None => Ok true
             end <> Diverges).
  { intros q t Hq Hs. destruct (strchr q " ") as [p'|] eqn:Ec; [|discriminate].
    apply IH. destruct Hs as [Hs|Hs].
    - apply (strchr_strict " " q p' Ec) in Hs. lia.
    - apply strchr_length in Ec. lia. }
  destruct tok as [a|].
  - destruct (deref h a) as [t| | |] eqn:Hd; simpl; try discriminate.
    + destruct (ascii_eqb (char_at p 0) "[" && chrInFirstWord p "]").
      * destruct (negb (String.length (mStr t) =? 1)); [discriminate|].
        pose proof (bracket_scan_length (char_at (mStr t) 0) (advance 1 p) 0) as Hb.
        destruct (bracket_scan (advance 1 p) (char_at (mStr t) 0) 0)
          as [[chrFound count] temp]. simpl in Hb.
        rewrite length_advance in Hb.
        assert (Hp : 0 < String.length p).
        { destruct p; [discriminate | simpl; lia]. }
        destruct (negb (if (1 <? count) && ascii_eqb (char_at (mStr t) 0) "]"
                        then true else chrFound)); [discriminate|].
        apply Hstep; [lia | right; lia].
      * destruct (is_negation p) eqn:Eneg.
        -- destruct (firstWordEquals (advance 2 p) (mStr t)); [discriminate|].
           assert (Hp : 0 < String.length p).
           { destruct p; [discriminate | simpl; lia]. }
           apply Hstep; rewrite length_advance; [lia | right; lia].
        -- pose proof (multiCompare_loop_ends P t varid (S (String.length p)) 0 p
                         ltac:(lia)) as Hm.
           fold (multiCompareImpl P t p varid) in Hm.
           destruct (multiCompareImpl P t p varid) as [res| | |]; simpl;
             try discriminate; [|contradiction].
           destruct (res =? 0)%Z; [apply IH; lia|].
           destruct (res =? -1)%Z; [discriminate|].
           apply Hstep; [lia | now left].
    + unfold deref in Hd. destruct (toks h !! a); discriminate.
  - destruct (is_negation p); [apply IH; lia | discriminate].
Qed.

(** [Token::Match] comes back: the fuel of the model, one more than the
    length of the pattern, is never used up. *)
Lemma Match_ends (P : Predicates) (h : Heap) (tok : option ptr)
    (pattern : string) (varid : Z) :
  Match P h tok pattern varid <> Diverges.
Proof.
  unfold Match. destruct (ascii_eqb (char_at pattern 0) NUL); [discriminate|].
  apply Match_loop_ends. lia.
Qed.

(** ** The heap *)

Lemma deref_Ok (h : Heap) (a : ptr) (t : Token) :
  deref h a = Ok t <-> toks h !! a = Some t.
Proof.
  unfold deref. destruct (toks h !! a); split; intros E; congruence.
Qed.

Lemma impl_Ok (t : Token) (i : TokenImpl) : impl t = Ok i <-> mImpl t = Some i.
Proof. unfold impl. destruct (mImpl t); split; intros E; congruence. Qed.

Lemma lookup_store (h : Heap) (a b : ptr) (t : Token) :
  toks (store h a t) !! b = if decide (a = b) then Some t else toks h !! b.
Proof. unfold store. simpl. apply lookup_insert. Qed.

Lemma lookup_free (h : Heap) (a b : ptr) :
  toks (free h a) !! b = if decide (a = b) then None else toks h !! b.
Proof. unfold free. simpl. apply lookup_delete. Qed.

Lemma ptr_eqb_eq (a b : ptr) : ptr_eqb a b = true <-> a = b.
Proof. apply Nat.eqb_eq. Qed.

Lemma ptr_eqb_refl (a : ptr) : ptr_eqb a a = true.
Proof. now apply ptr_eqb_eq. Qed.

Lemma optptr_eqb_eq (a b : option ptr) : optptr_eqb a b = true <-> a = b.
Proof.
  destruct a, b; simpl; rewrite ?ptr_eqb_eq; split; intros E; congruence.
Qed.

(** ** Classification keeps the text and the links *)

Lemma update_property_isStandardType_same_links (t : Token) :
  same_links t (update_property_isStandardType t).
Proof.
  destruct (update_property_isStandardType_cases t) as [[_ E]|[_ E]];
    rewrite E; repeat split.
Qed.

Lemma update_property_info_same_links (O : Oracles) (t t' : Token) :
  update_property_info O t = Ok t' -> same_links t t'.
Proof.
  unfold update_property_info. intros Hrun.
  set (t1 := set_isStandardType false (set_fIsControlFlowKeyword false t)) in Hrun.
  assert (H1 : forall k, same_links t (update_property_isStandardType (tokType k t1))).
  { intros k. apply (update_property_isStandardType_same_links (tokType k t1)). }
  repeat match type of Hrun with
         | context [if ?b then _ else _] => destruct b eqn:?
         | context [bind (impl ?x) _] => destruct (impl x); simpl in Hrun
         end;
    try discriminate; inversion Hrun; subst t'; clear Hrun;
    try (repeat split; fail); apply H1.
Qed.

(** A text that starts with neither a letter, [_] nor [$] and is not a
    boolean literal is classified without a look at [mImpl]. *)
Lemma update_property_info_symbol (O : Oracles) (t : Token) :
  (str_eqb (mStr t) "true" || str_eqb (mStr t) "false") = false ->
  (isalpha (char_at (mStr t) 0) || ascii_eqb (char_at (mStr t) 0) "_"
   || ascii_eqb (char_at (mStr t) 0) "$") = false ->
  exists t', update_property_info O t = Ok t'.
Proof.
  intros Hb Hn. unfold update_property_info.
  change (mStr (set_isStandardType false (set_fIsControlFlowKeyword false t)))
    with (mStr t).
  rewrite Hb, Hn.
  repeat match goal with
         | |- context [if ?b then _ else _] => destruct b
         end; eexists; reflexivity.
Qed.

(** ** Stream mutators *)

(** C2: [deleteThis] on the only token of a stream leaves the token where
    it is, with its links, and sets its text to [;]. *)
Theorem deleteThis_sole_token_becomes_semicolon :
  forall (O : Oracles) (h : Heap) (this : ptr) (t : Token),
    toks h !! this = Some t -> mNext t = None -> mPrevious t = None ->
    exists t',
      deleteThis O h this = Ok (store h this t') /\
      mStr t' = ";"%string /\
      mNext t' = None /\ mPrevious t' = None /\
      mLink t' = mLink t.
Proof.
  intros O h this t Ht Hn Hp.
  destruct (update_property_info_symbol O (with_mStr ";" t) eq_refl eq_refl)
    as [t' Ht'].
  exists t'. unfold deleteThis. rewrite (deref_live h this t Ht). simpl.
  rewrite Hn, Hp. unfold str. rewrite Ht'. simpl.
  destruct (update_property_info_same_links O _ _ Ht') as (Es & En & Ep & El & Ei).
  simpl in *. repeat split; congruence.
Qed.

Lemma deleteThis_sole_token_becomes_semicolon_witness :
  exists t',
    deleteThis example_oracles stream_sole_x 1 = Ok (store stream_sole_x 1 t') /\
    mStr t' = ";"%string.
Proof.
  destruct (deleteThis_sole_token_becomes_semicolon example_oracles
              stream_sole_x 1 (plain_token "x" eName 0 None None)
              eq_refl eq_refl eq_refl) as (t' & Hrun & Hs & _).
  exists t'. split; assumption.
Defined.

(** C2, as the claim has it, fails: the text of the sole token [x] is not
    cleared by [deleteThis], it becomes [;]. *)
Lemma deleteThis_sole_token_text_not_cleared :
  exists h',
    deleteThis example_oracles stream_sole_x 1 = Ok h' /\
    mStr <$> (toks h' !! 1) = Some ";"%string /\
    mStr <$> (toks h' !! 1) <> Some ""%string.
Proof.
  eexists. split; [vm_compute; reflexivity|].
  split; [vm_compute; reflexivity | vm_compute; discriminate].
Qed.

(** ** deleteThis never removes the token it is called on *)

Lemma deleteNext_keeps_this (O : Oracles) (h : Heap) (this : ptr) (count : nat)
    (h' : Heap) :
  deleteNext O h this count = Ok h' -> is_Some (toks h' !! this).
Proof.
  unfold deleteNext. intros Hrun.
  apply bind_Ok in Hrun as (h1 & _ & Hrun).
  apply bind_Ok in Hrun as (t & Ht & Hrun). apply deref_Ok in Ht.
  destruct (mNext t) as [n|].
  - apply bind_Ok in Hrun as (tn & _ & Hrun). inversion Hrun; subst h'.
    rewrite lookup_store. destruct (decide (n = this)); eauto.
  - inversion Hrun; subst h'. simpl. eauto.
Qed.

Lemma deletePrevious_keeps_this (O : Oracles) (h : Heap) (this : ptr)
    (count : nat) (h' : Heap) :
  deletePrevious O h this count = Ok h' -> is_Some (toks h' !! this).
Proof.
  unfold deletePrevious. intros Hrun.
  apply bind_Ok in Hrun as (h1 & _ & Hrun).
  apply bind_Ok in Hrun as (t & Ht & Hrun). apply deref_Ok in Ht.
  destruct (mPrevious t) as [n|].
  - apply bind_Ok in Hrun as (tn & _ & Hrun). inversion Hrun; subst h'.
    rewrite lookup_store. destruct (decide (n = this)); eauto.
  - inversion Hrun; subst h'. simpl. eauto.
Qed.

(** Whichever way [deleteThis] goes, the token it was called on is still
    there when it returns: a stream does not become empty by it. *)
Lemma deleteThis_keeps_this (O : Oracles) (h : Heap) (this : ptr) (h' : Heap) :
  deleteThis O h this = Ok h' -> is_Some (toks h' !! this).
Proof.
  unfold deleteThis. intros Hrun.
  apply bind_Ok in Hrun as (t & Ht & Hrun).
  destruct (mNext t) as [n|].
  - apply bind_Ok in Hrun as (h1 & _ & Hrun).
    apply bind_Ok in Hrun as (t1 & _ & Hrun).
    destruct (mNext t1); [|discriminate].
    apply bind_Ok in Hrun as (h2 & _ & Hrun).
    now apply deleteNext_keeps_this in Hrun.
  - destruct (mPrevious t) as [p|].
    + apply bind_Ok in Hrun as (h1 & _ & Hrun).
      apply bind_Ok in Hrun as (t1 & _ & Hrun).
      destruct (mPrevious t1); [|discriminate].
      apply bind_Ok in Hrun as (h2 & _ & Hrun).
      now apply deletePrevious_keeps_this in Hrun.
    + apply bind_Ok in Hrun as (t' & _ & Hrun). inversion Hrun; subst h'.
      rewrite lookup_store, decide_True by reflexivity. eauto.
Qed.

(** ** Bracket links under deletion *)

Lemma lnk_Some (h : Heap) (a : ptr) (l : option ptr) :
  lnk h a = Some l <-> exists t, toks h !! a = Some t /\ mLink t = l.
Proof.
  unfold lnk. destruct (toks h !! a) as [t|]; simpl; split.
  - intros E. exists t. split; congruence.
  - intros (t' & E & El). congruence.
  - discriminate.
  - intros (t' & E & _). discriminate.
Qed.

Lemma links_symmetric_lnk (h : Heap) :
  links_symmetric h <->
  forall a b, lnk h a = Some (Some b) -> lnk h b = Some (Some a).
Proof.
  unfold links_symmetric. split.
  - intros H a b Ha. apply lnk_Some in Ha as (ta & Ha & Hl).
    apply lnk_Some. eauto.
  - intros H a b ta Ha Hl. apply lnk_Some. apply (H a b).
    apply lnk_Some. eauto.
Qed.

Lemma links_symmetricb_sound (h : Heap) :
  links_symmetricb h = true -> links_symmetric h.
Proof.
  unfold links_symmetricb, links_symmetric. rewrite forallb_forall.
  intros H a b ta Ha Hl.
  specialize (H (a, ta)). simpl in H. rewrite Hl in H.
  assert (Hin : In (a, ta) (map_to_list (toks h))).
  { apply list_elem_of_In. now apply elem_of_map_to_list. }
  specialize (H Hin). destruct (toks h !! b) as [tb|]; [|discriminate].
  exists tb. split; [reflexivity | now apply optptr_eqb_eq].
Qed.

Lemma lnk_store (h : Heap) (a : ptr) (t : Token) (x : ptr) :
  lnk (store h a t) x = if decide (a = x) then Some (mLink t) else lnk h x.
Proof. unfold lnk. rewrite lookup_store. now destruct (decide (a = x)). Qed.

Lemma lnk_free (h : Heap) (a x : ptr) :
  lnk (free h a) x = if decide (a = x) then None else lnk h x.
Proof. unfold lnk. rewrite lookup_free. now destruct (decide (a = x)). Qed.

Lemma lnk_with_back (h : Heap) (p : option ptr) (x : ptr) :
  lnk (with_back p h) x = lnk h x.
Proof. reflexivity. Qed.

Lemma lnk_with_front (h : Heap) (p : option ptr) (x : ptr) :
  lnk (with_front p h) x = lnk h x.
Proof. reflexivity. Qed.

(** Storing a token whose bracket link is the one already there. *)
Lemma lnk_store_same (h : Heap) (a : ptr) (t t' : Token) (x : ptr) :
  toks h !! a = Some t -> mLink t' = mLink t ->
  lnk (store h a t') x = lnk h x.
Proof.
  intros Ha El. rewrite lnk_store. destruct (decide (a = x)) as [<-|]; [|reflexivity].
  unfold lnk. rewrite Ha. simpl. now rewrite El.
Qed.

Lemma link_Ok (O : Oracles) (p : option ptr) (t : Token) :
  exists t', link O p t = Ok t' /\ same_links (with_mLink p t) t'.
Proof.
  unfold link.
  destruct (str_eqb (mStr (with_mLink p t)) "<" || str_eqb (mStr (with_mLink p t)) ">")
    eqn:E.
  - destruct (update_property_info_symbol O (with_mLink p t)) as [t' Ht'].
    + apply orb_prop in E as [E|E]; apply str_eqb_eq in E; now rewrite E.
    + apply orb_prop in E as [E|E]; apply str_eqb_eq in E; now rewrite E.
    + exists t'. split; [exact Ht' | now apply update_property_info_same_links in Ht'].
  - exists (with_mLink p t). split; [reflexivity | repeat split].
Qed.

Lemma destroy_link_to_lnk (O : Oracles) (h h1 : Heap) (n : ptr) :
  destroy_link_to O h n = Ok h1 ->
  forall x, lnk h1 x =
            if decide (lnk h n = Some (Some x) /\ lnk h x = Some (Some n))
            then Some None else lnk h x.
Proof.
  unfold destroy_link_to. intros Hrun x.
  apply bind_Ok in Hrun as (tn & Hn & Hrun). apply deref_Ok in Hn.
  assert (Ln : lnk h n = Some (mLink tn)) by (unfold lnk; now rewrite Hn).
  destruct (mLink tn) as [l|] eqn:El.
  - apply bind_Ok in Hrun as (tl & Hl & Hrun). apply deref_Ok in Hl.
    assert (Ll : lnk h l = Some (mLink tl)) by (unfold lnk; now rewrite Hl).
    destruct (optptr_eqb (mLink tl) (Some n)) eqn:Eb.
    + apply optptr_eqb_eq in Eb.
      destruct (link_Ok O None tl) as (tl' & Hlink & _ & _ & _ & Hl' & _).
      rewrite Hlink in Hrun. simpl in Hrun. inversion Hrun; subst h1.
      rewrite lnk_store. simpl in Hl'.
      destruct (decide (l = x)) as [<-|Hne].
      * rewrite Hl', decide_True; [reflexivity|]. rewrite Ln, Ll, Eb. now split.
      * rewrite decide_False; [reflexivity|]. rewrite Ln. intros [E _]. congruence.
    + inversion Hrun; subst h1. rewrite decide_False; [reflexivity|].
      rewrite Ln. intros [E1 E2]. assert (x = l) by congruence. subst x.
      rewrite Ll in E2. assert (E : mLink tl = Some n) by congruence.
      apply optptr_eqb_eq in E. congruence.
  - inversion Hrun; subst h1. rewrite decide_False; [reflexivity|].
    rewrite Ln. intros [E _]. discriminate.
Qed.

(** One round of the loop of [deleteNext] or [deletePrevious]: [f] is the
    update of the neighbour pointer of [this]. *)
Lemma delete_round_unlinked (O : Oracles) (h h1 : Heap) (this n : ptr)
    (t1 : Token) (f : Token -> Token) :
  destroy_link_to O h n = Ok h1 ->
  toks h1 !! this = Some t1 ->
  mLink (f t1) = mLink t1 ->
  unlinked n h (free (store h1 this (f t1)) n).
Proof.
  intros Hd Ht Hf x. rewrite lnk_free.
  destruct (decide (n = x)) as [<-|Hne].
  - now rewrite decide_True.
  - rewrite decide_False by congruence.
    rewrite (lnk_store_same h1 this t1 (f t1) x Ht Hf).
    apply (destroy_link_to_lnk O h h1 n Hd).
Qed.

Lemma unlinked_symmetric (n : ptr) (h h' : Heap) :
  unlinked n h h' -> links_symmetric h -> links_symmetric h'.
Proof.
  rewrite !links_symmetric_lnk. intros Hu Hs a b Hab.
  pose proof (Hu a) as Ea. rewrite Hab in Ea.
  destruct (decide (a = n)) as [|Han]; [discriminate|].
  destruct (decide (lnk h n = Some (Some a) /\ lnk h a = Some (Some n)))
    as [|Hca]; [discriminate|].
  symmetry in Ea. pose proof (Hs a b Ea) as Eb.
  rewrite (Hu b).
  destruct (decide (b = n)) as [->|Hbn].
  - exfalso. apply Hca. now split.
  - rewrite decide_False; [exact Eb|].
    intros [_ E]. rewrite Eb in E. congruence.
Qed.

Lemma unlinked_kept_or_cleared (n : ptr) (h h' : Heap) :
  unlinked n h h' -> links_kept_or_cleared h h'.
Proof.
  intros Hu b l' Hb. rewrite (Hu b) in Hb.
  destruct (decide (b = n)); [discriminate|].
  destruct (decide (lnk h n = Some (Some b) /\ lnk h b = Some (Some n)))
    as [[_ E]|].
  - inversion Hb; subst l'. eauto.
  - eauto.
Qed.

Lemma links_kept_or_cleared_refl (h : Heap) : links_kept_or_cleared h h.
Proof. intros b l' Hb. eauto. Qed.

Lemma links_kept_or_cleared_trans (h1 h2 h3 : Heap) :
  links_kept_or_cleared h1 h2 -> links_kept_or_cleared h2 h3 ->
  links_kept_or_cleared h1 h3.
Proof.
  intros H12 H23 b l3 Hb.
  destruct (H23 b l3 Hb) as (l2 & Hb2 & H2).
  destruct (H12 b l2 Hb2) as (l1 & Hb1 & H1).
  exists l1. split; [exact Hb1|]. destruct H2 as [->| ->]; auto.
Qed.

Lemma same_lnk_invariants (h h' : Heap) :
  (forall x, lnk h' x = lnk h x) ->
  (links_symmetric h -> links_symmetric h') /\ links_kept_or_cleared h h'.
Proof.
  intros E. split.
  - rewrite !links_symmetric_lnk. intros Hs a b. rewrite !E. apply Hs.
  - intros b l'. rewrite E. eauto.
Qed.

Lemma deleteNext_loop_links (O : Oracles) (count : nat) :
  forall (h : Heap) (this : ptr) (h' : Heap),
    deleteNext_loop O count h this = Ok h' -> links_symmetric h ->
    links_symmetric h' /\ links_kept_or_cleared h h'.
Proof.
  induction count as [|count IH]; intros h this h' Hrun Hs; simpl in Hrun;
    apply bind_Ok in Hrun as (t & Ht & Hrun).
  - destruct (mNext t); inversion Hrun; subst h';
      (split; [assumption | apply links_kept_or_cleared_refl]).
  - destruct (mNext t) as [n|].
    + apply bind_Ok in Hrun as (h1 & Hd & Hrun).
      apply bind_Ok in Hrun as (tn & Hn & Hrun).
      apply bind_Ok in Hrun as (t1 & Ht1 & Hrun).
      apply deref_Ok in Ht1.
      pose proof (delete_round_unlinked O h h1 this n t1 (with_mNext (mNext tn))
                    Hd Ht1 eq_refl) as Hu.
      destruct (IH _ _ _ Hrun (unlinked_symmetric _ _ _ Hu Hs)) as [Hs' Hk'].
      split; [exact Hs'|].
      eapply links_kept_or_cleared_trans; [|exact Hk'].
      now apply unlinked_kept_or_cleared in Hu.
    + inversion Hrun; subst h'.
      split; [assumption | apply links_kept_or_cleared_refl].
Qed.

Lemma deletePrevious_loop_links (O : Oracles) (count : nat) :
  forall (h : Heap) (this : ptr) (h' : Heap),
    deletePrevious_loop O count h this = Ok h' -> links_symmetric h ->
    links_symmetric h' /\ links_kept_or_cleared h h'.
Proof.
  induction count as [|count IH]; intros h this h' Hrun Hs; simpl in Hrun;
    apply bind_Ok in Hrun as (t & Ht & Hrun).
  - destruct (mPrevious t); inversion Hrun; subst h';
      (split; [assumption | apply links_kept_or_cleared_refl]).
  - destruct (mPrevious t) as [n|].
    + apply bind_Ok in Hrun as (h1 & Hd & Hrun).
      apply bind_Ok in Hrun as (tn & Hn & Hrun).
      apply bind_Ok in Hrun as (t1 & Ht1 & Hrun).
      apply deref_Ok in Ht1.
      pose proof (delete_round_unlinked O h h1 this n t1
                    (with_mPrevious (mPrevious tn)) Hd Ht1 eq_refl) as Hu.
      destruct (IH _ _ _ Hrun (unlinked_symmetric _ _ _ Hu Hs)) as [Hs' Hk'].
      split; [exact Hs'|].
      eapply links_kept_or_cleared_trans; [|exact Hk'].
      now apply unlinked_kept_or_cleared in Hu.
    + inversion Hrun; subst h'.
      split; [assumption | apply links_kept_or_cleared_refl].
Qed.

Lemma deleteNext_links (O : Oracles) (h : Heap) (this : ptr) (count : nat)
    (h' : Heap) :
  deleteNext O h this count = Ok h' -> links_symmetric h ->
  links_symmetric h' /\ links_kept_or_cleared h h'.
Proof.
  unfold deleteNext. intros Hrun Hs.
  apply bind_Ok in Hrun as (h1 & Hloop & Hrun).
  destruct (deleteNext_loop_links O count h this h1 Hloop Hs) as [Hs1 Hk1].
  apply bind_Ok in Hrun as (t & Ht & Hrun).
  assert (E : forall x, lnk h' x = lnk h1 x).
  { destruct (mNext t) as [n|].
    - apply bind_Ok in Hrun as (tn & Hn & Hrun). apply deref_Ok in Hn.
      inversion Hrun; subst h'. intros x.
      now apply (lnk_store_same h1 n tn).
    - inversion Hrun; subst h'. intros x. apply lnk_with_back. }
  destruct (same_lnk_invariants h1 h' E) as [Hs' Hk'].
  split; [auto | eapply links_kept_or_cleared_trans; eassumption].
Qed.

Lemma deletePrevious_links (O : Oracles) (h : Heap) (this : ptr) (count : nat)
    (h' : Heap) :
  deletePrevious O h this count = Ok h' -> links_symmetric h ->
  links_symmetric h' /\ links_kept_or_cleared h h'.
Proof.
  unfold deletePrevious. intros Hrun Hs.
  apply bind_Ok in Hrun as (h1 & Hloop & Hrun).
  destruct (deletePrevious_loop_links O count h this h1 Hloop Hs) as [Hs1 Hk1].
  apply bind_Ok in Hrun as (t & Ht & Hrun).
  assert (E : forall x, lnk h' x = lnk h1 x).
  { destruct (mPrevious t) as [n|].
    - apply bind_Ok in Hrun as (tn & Hn & Hrun). apply deref_Ok in Hn.
      inversion Hrun; subst h'. intros x.
      now apply (lnk_store_same h1 n tn).
    - inversion Hrun; subst h'. intros x. apply lnk_with_front. }
  destruct (same_lnk_invariants h1 h' E) as [Hs' Hk'].
  split; [auto | eapply links_kept_or_cleared_trans; eassumption].
Qed.

(** Whenever [deleteNext] or [deletePrevious] returns, the bracket links
    are symmetric again, and the partner of a deleted token, when it
    remains, has its link cleared. *)
Lemma delete_links_invariant :
  forall (O : Oracles) (h : Heap) (this : ptr) (count : nat) (h' : Heap),
    links_symmetric h ->
    deleteNext O h this count = Ok h' \/ deletePrevious O h this count = Ok h' ->
    links_symmetric h' /\
    forall (a b : ptr) (ta tb' : Token),
      toks h !! a = Some ta -> mLink ta = Some b ->
      toks h' !! a = None ->
      toks h' !! b = Some tb' -> mLink tb' = None.
Proof.
  intros O h this count h' Hs Hrun.
  assert (Hinv : links_symmetric h' /\ links_kept_or_cleared h h').
  { destruct Hrun as [Hrun|Hrun];
      [eapply deleteNext_links | eapply deletePrevious_links]; eassumption. }
  destruct Hinv as [Hs' Hk]. split; [exact Hs'|].
  intros a b ta tb' Ha Hl Hgone Hb.
  destruct (Hs a b ta Ha Hl) as (tb & Hb0 & Hlb).
  destruct (Hk b (mLink tb')) as (l & Hl0 & Hcase).
  { unfold lnk. now rewrite Hb. }
  unfold lnk in Hl0. rewrite Hb0 in Hl0. simpl in Hl0.
  destruct Hcase as [E|E]; [|exact E].
  assert (El : mLink tb' = Some a) by congruence.
  destruct (Hs' b a tb' Hb El) as (ta' & Ha' & _). congruence.
Qed.

(** ** deleteNext on a linked bracket returns *)

Lemma nxt_Some (h : Heap) (a : ptr) (n : option ptr) :
  nxt h a = Some n <-> exists t, toks h !! a = Some t /\ mNext t = n.
Proof.
  unfold nxt. destruct (toks h !! a) as [t|]; simpl; split.
  - intros E. exists t. split; congruence.
  - intros (t' & E & En). congruence.
  - discriminate.
  - intros (t' & E & _). discriminate.
Qed.

Lemma destroy_link_to_returns (O : Oracles) (h : Heap) (A B : ptr)
    (tA tB : Token) :
  toks h !! A = Some tA -> mLink tA = Some B ->
  toks h !! B = Some tB -> mLink tB = Some A ->
  exists h1, destroy_link_to O h A = Ok h1 /\
             forall x, nxt h1 x = nxt h x.
Proof.
  intros HA HlA HB HlB. unfold destroy_link_to.
  rewrite (deref_live h A tA HA). simpl bind. rewrite HlA.
  rewrite (deref_live h B tB HB). simpl bind. rewrite HlB.
  simpl optptr_eqb. rewrite ptr_eqb_refl.
  destruct (link_Ok O None tB) as (tB' & -> & _ & Hn & _). simpl bind.
  eexists. split; [reflexivity|]. intros x. unfold nxt. rewrite lookup_store.
  destruct (decide (B = x)) as [<-|]; [|reflexivity].
  rewrite HB. simpl. now rewrite Hn.
Qed.

(** Without an assumption on the other links: the token after [this] is
    a bracket linked with [B]; then
    [deleteNext()] returns, the bracket is gone and the link of [B] is
    cleared. *)
Lemma deleteNext_unlinks_partner (O : Oracles) (h : Heap) (this A B : ptr)
    (t tA tB : Token) :
  toks h !! this = Some t -> mNext t = Some A -> A <> this ->
  toks h !! A = Some tA -> mLink tA = Some B ->
  toks h !! B = Some tB -> mLink tB = Some A -> B <> A ->
  (forall n, mNext tA = Some n -> n <> A /\ is_Some (toks h !! n)) ->
  exists h', deleteNext O h this 1 = Ok h' /\
             toks h' !! A = None /\
             lnk h' B = Some None.
Proof.
  intros Ht Hn Hne HA HlA HB HlB HBA Hnext.
  destruct (destroy_link_to_returns O h A B tA tB HA HlA HB HlB) as (h1 & Hd & Hnx).
  assert (HA1 : exists tA1, toks h1 !! A = Some tA1 /\ mNext tA1 = mNext tA).
  { apply nxt_Some. rewrite Hnx. apply nxt_Some. eauto. }
  destruct HA1 as (tA1 & HA1 & HnA1).
  assert (Ht1 : exists t1, toks h1 !! this = Some t1 /\ mNext t1 = Some A).
  { apply nxt_Some. rewrite Hnx. apply nxt_Some. eauto. }
  destruct Ht1 as (t1 & Ht1 & Hn1).
  set (h3 := free (store h1 this (with_mNext (mNext tA1) t1)) A).
  assert (Hloop : deleteNext_loop O 1 h this = Ok h3).
  { simpl. rewrite (deref_live h this t Ht). simpl bind. rewrite Hn, Hd. simpl bind.
    rewrite (deref_live h1 A tA1 HA1). simpl bind.
    rewrite (deref_live h1 this t1 Ht1). simpl bind.
    fold h3. unfold deref.
    assert (E : toks h3 !! this = Some (with_mNext (mNext tA1) t1)).
    { subst h3. rewrite lookup_free, decide_False by exact Hne.
      now rewrite lookup_store, decide_True. }
    rewrite E. simpl. now destruct (mNext tA1). }
  pose proof (delete_round_unlinked O h h1 this A t1 (with_mNext (mNext tA1))
                Hd Ht1 eq_refl) as Hu. fold h3 in Hu.
  assert (HlB3 : lnk h3 B = Some None).
  { rewrite (Hu B), decide_False by exact HBA. rewrite decide_True; [reflexivity|].
    unfold lnk. rewrite HA, HB. simpl. now rewrite HlA, HlB. }
  assert (Ht3 : toks h3 !! this = Some (with_mNext (mNext tA1) t1)).
  { subst h3. rewrite lookup_free, decide_False by exact Hne.
    now rewrite lookup_store, decide_True. }
  assert (HA3 : toks h3 !! A = None).
  { subst h3. now rewrite lookup_free, decide_True. }
  unfold deleteNext. rewrite Hloop. simpl bind.
  rewrite (deref_live h3 this _ Ht3). simpl bind. rewrite HnA1.
  destruct (mNext tA) as [n|] eqn:HnA.
  - destruct (Hnext n eq_refl) as [HnA' [tn Htn]].
    assert (Hn3 : exists tn3, toks h3 !! n = Some tn3).
    { assert (Hn1' : is_Some (toks h1 !! n)).
      { destruct (nxt h1 n) eqn:E.
        - apply nxt_Some in E as (? & ? & _). eauto.
        - rewrite Hnx in E. unfold nxt in E. rewrite Htn in E. discriminate. }
      destruct Hn1' as [tn1 Htn1]. subst h3.
      rewrite lookup_free, decide_False by congruence. rewrite lookup_store.
      destruct (decide (this = n)); eauto. }
    destruct Hn3 as (tn3 & Htn3). rewrite (deref_live h3 n tn3 Htn3). simpl bind.
    eexists. split; [reflexivity|]. split.
    + rewrite lookup_store, decide_False by exact HnA'. exact HA3.
    + rewrite (lnk_store_same h3 n tn3); [exact HlB3 | exact Htn3 | reflexivity].
  - eexists. split; [reflexivity|]. split; [exact HA3 | exact HlB3].
Qed.

(** ** AST links *)

Lemma ast_wfb_sound (h : Heap) : ast_wfb h = true -> ast_wf h.
Proof.
  unfold ast_wfb, ast_wf. rewrite forallb_forall. intros H a t Ha.
  specialize (H (a, t)). simpl in H.
  assert (Hin : In (a, t) (map_to_list (toks h))).
  { apply list_elem_of_In. now apply elem_of_map_to_list. }
  specialize (H Hin). destruct (mImpl t) as [i|]; [|discriminate].
  exists i. split; [reflexivity|].
  assert (L : forall p, live_or_nullb h p = true -> live_or_null h p).
  { intros [p|]; simpl; [|trivial]. destruct (toks h !! p); [eauto | discriminate]. }
  apply andb_prop in H as [H H2]. apply andb_prop in H as [H0 H1]. auto.
Qed.

Lemma astParent_of_Ok (h : Heap) (p : ptr) (up : option ptr) :
  astParent_of h p = Ok up <->
  exists t i, toks h !! p = Some t /\ mImpl t = Some i /\ mAstParent i = up.
Proof.
  unfold astParent_of, deref, impl. split.
  - destruct (toks h !! p) as [t|]; simpl; [|discriminate].
    destruct (mImpl t) as [i|] eqn:Hi; simpl; [|discriminate].
    intros E. exists t, i. inversion E. repeat split. exact Hi.
  - intros (t & i & -> & Hi & <-). simpl. now rewrite Hi.
Qed.

Lemma ancestors_deterministic (h : Heap) :
  forall (l l' : list ptr) (c : ptr),
    ancestors h c l -> ancestors h c l' -> l = l'.
Proof.
  induction l as [|x l IH]; intros [|x' l'] c H H'; simpl in *;
    try reflexivity; try (destruct H; congruence); try (destruct H'; congruence).
  destruct H as [E H], H' as [E' H']. assert (x = x') by congruence. subst x'.
  f_equal. eapply IH; eassumption.
Qed.

Lemma ancestors_suffix (h : Heap) :
  forall (l1 l2 : list ptr) (c x : ptr),
    ancestors h c (l1 ++ x :: l2) -> ancestors h x l2.
Proof.
  induction l1 as [|y l1 IH]; intros l2 c x H; simpl in H; destruct H as [_ H].
  - exact H.
  - eapply IH. exact H.
Qed.

Lemma ancestors_not_self (h : Heap) (c : ptr) (l : list ptr) :
  ancestors h c l -> c ∉ l.
Proof.
  intros H Hin. apply list_elem_of_split in Hin as (l1 & l2 & ->).
  pose proof (ancestors_suffix h l1 l2 c c H) as H2.
  pose proof (ancestors_deterministic h _ _ c H H2) as E.
  apply (f_equal length) in E. rewrite length_app in E. simpl in E. lia.
Qed.

Lemma ancestors_NoDup (h : Heap) :
  forall (l : list ptr) (c : ptr), ancestors h c l -> NoDup (c :: l).
Proof.
  induction l as [|x l IH]; intros c H.
  - apply NoDup_singleton.
  - apply NoDup_cons. split; [now apply ancestors_not_self in H|].
    destruct H as [_ H]. now apply IH.
Qed.

Lemma ancestors_live (h : Heap) :
  forall (l : list ptr) (c x : ptr),
    ancestors h c l -> x ∈ c :: l -> is_Some (toks h !! x).
Proof.
  induction l as [|y l IH]; intros c x H Hin.
  - apply list_elem_of_singleton in Hin. subst x. simpl in H.
    apply astParent_of_Ok in H as (t & _ & Ht & _). eauto.
  - destruct H as [E H]. apply elem_of_cons in Hin as [->|Hin].
    + apply astParent_of_Ok in E as (t & _ & Ht & _). eauto.
    + eapply IH; eassumption.
Qed.

(** A chain of ancestors is no longer than the heap has tokens. *)
Lemma ancestors_length (h : Heap) (c : ptr) (l : list ptr) :
  ancestors h c l -> length (c :: l) <= size (toks h).
Proof.
  intros H. rewrite <- size_dom.
  rewrite <- (size_list_to_set (C := gset ptr) (c :: l))
    by now apply ancestors_NoDup in H.
  apply subseteq_size. intros x Hx. apply elem_of_list_to_set in Hx.
  apply elem_of_dom. eapply ancestors_live; eassumption.
Qed.

Lemma last_default_irrelevant {A : Type} (l : list A) (a d d' : A) :
  List.last (a :: l) d = List.last (a :: l) d'.
Proof.
  revert a. induction l as [|b l IH]; intros a; [reflexivity|].
  change (List.last (b :: l) d = List.last (b :: l) d'). apply IH.
Qed.

Lemma last_cons_shift {A : Type} (l : list A) (a d : A) :
  List.last (a :: l) d = List.last l a.
Proof.
  destruct l as [|b l]; [reflexivity|].
  change (List.last (b :: l) d = List.last (b :: l) a).
  apply last_default_irrelevant.
Qed.

Lemma astTop_walk_ancestors (h : Heap) :
  forall (l : list ptr) (c : ptr) (fuel : nat),
    ancestors h c l -> length l <= fuel ->
    astTop_walk fuel h c = Ok (List.last l c).
Proof.
  induction l as [|x l IH]; intros c fuel H Hf.
  - simpl in H. destruct fuel; simpl; now rewrite H.
  - destruct H as [E H]. destruct fuel as [|fuel]; [simpl in Hf; lia|].
    simpl astTop_walk. rewrite E. simpl bind.
    rewrite (IH x fuel H) by (simpl in Hf; lia).
    f_equal. symmetry. apply last_cons_shift.
Qed.

Lemma cycle_walk_Some (fuel : nat) (h : Heap) (this p : ptr) :
  cycle_walk fuel h this (Some p) =
  if ptr_eqb this p then InternalError cyclic_message
  else match fuel with
       | O => Diverges
       | S fuel' => let* up := astParent_of h p in cycle_walk fuel' h this up
       end.
Proof. destruct fuel; reflexivity. Qed.

(** The walk of the setter [astParent] throws when [this] is the token
    the walk starts from or one of its ancestors. *)
Lemma cycle_walk_member (h : Heap) (this : ptr) :
  forall (l : list ptr) (x : ptr) (fuel : nat),
    ancestors h x l -> this ∈ x :: l -> length l <= fuel ->
    cycle_walk fuel h this (Some x) = InternalError cyclic_message.
Proof.
  induction l as [|y l IH]; intros x fuel H Hin Hf; rewrite cycle_walk_Some.
  - apply list_elem_of_singleton in Hin. subst x. now rewrite ptr_eqb_refl.
  - destruct (ptr_eqb this x) eqn:E; [reflexivity|].
    apply elem_of_cons in Hin as [->|Hin]; [now rewrite ptr_eqb_refl in E|].
    destruct H as [Ex H]. destruct fuel as [|fuel]; [simpl in Hf; lia|].
    rewrite Ex. simpl bind. apply IH; [exact H | exact Hin | simpl in Hf; lia].
Qed.

Lemma astParent_of_store (h : Heap) (p x : ptr) (t : Token) :
  astParent_of (store h p t) x =
  if decide (p = x) then (let* i := impl t in Ok (mAstParent i))
  else astParent_of h x.
Proof.
  unfold astParent_of at 1, deref. rewrite lookup_store.
  destruct (decide (p = x)); reflexivity.
Qed.

(** An update of [mImpl] that keeps the parent link keeps all the parent
    links of the heap. *)
Lemma update_impl_keeps_parents (h : Heap) (p : ptr) (f : TokenImpl -> TokenImpl)
    (up : option ptr) :
  (forall i, mAstParent (f i) = mAstParent i) ->
  astParent_of h p = Ok up ->
  exists h1, update_impl h p f = Ok h1 /\
             forall x, astParent_of h1 x = astParent_of h x.
Proof.
  intros Hf Hp. pose proof Hp as Hp0.
  apply astParent_of_Ok in Hp as (t & i & Ht & Hi & Hup).
  exists (store h p (with_mImpl (Some (f i)) t)). split.
  - unfold update_impl, deref, impl. rewrite Ht. simpl. now rewrite Hi.
  - intros x. rewrite astParent_of_store.
    destruct (decide (p = x)) as [<-|]; [|reflexivity].
    simpl. rewrite Hf, Hup. now rewrite Hp0.
Qed.

Lemma ast_wf_parent_of (h : Heap) (a : ptr) :
  ast_wf h -> is_Some (toks h !! a) ->
  exists up, astParent_of h a = Ok up /\ live_or_null h up.
Proof.
  intros Hwf [t Ht]. destruct (Hwf a t Ht) as (i & Hi & Hlive & _).
  exists (mAstParent i). split; [|exact Hlive].
  apply astParent_of_Ok. eauto.
Qed.

(** Detaching a token ([astParent(nullptr)]) returns and leaves the parent
    links of all the other tokens as they were. *)
Lemma astParent_detach (h : Heap) (o : ptr) :
  ast_wf h -> is_Some (toks h !! o) ->
  exists h1, astParent h o None = Ok h1 /\
             forall x, x <> o -> astParent_of h1 x = astParent_of h x.
Proof.
  intros Hwf Ho.
  destruct (ast_wf_parent_of h o Hwf Ho) as (up & Hup & Hlive).
  unfold astParent. simpl cycle_walk. simpl bind. rewrite Hup. simpl bind.
  assert (Hclear : exists h2,
    match up with
    | Some parent =>
        let* tp := deref h parent in
        let* ip := impl tp in
        let* h1 :=
          if optptr_eqb (mAstOperand1 ip) (Some o)
          then update_impl h parent (with_mAstOperand1 None)
          else Ok h in
        let* tp1 := deref h1 parent in
        let* ip1 := impl tp1 in
        if optptr_eqb (mAstOperand2 ip1) (Some o)
        then update_impl h1 parent (with_mAstOperand2 None)
        else Ok h1
    | None => Ok h
    end = Ok h2 /\ forall x, astParent_of h2 x = astParent_of h x).
  { destruct up as [parent|]; [|eauto].
    destruct (ast_wf_parent_of h parent Hwf Hlive) as (upp & Hpp & _).
    pose proof Hpp as Hpp0.
    apply astParent_of_Ok in Hpp0 as (tp & ip & Htp & Hip & _).
    rewrite (deref_live h parent tp Htp). simpl bind.
    unfold impl at 1. rewrite Hip. simpl bind.
    assert (H1 : exists h1,
      (if optptr_eqb (mAstOperand1 ip) (Some o)
       then update_impl h parent (with_mAstOperand1 None) else Ok h) = Ok h1
      /\ forall x, astParent_of h1 x = astParent_of h x).
    { destruct (optptr_eqb (mAstOperand1 ip) (Some o)); [|eauto].
      now apply (update_impl_keeps_parents h parent _ upp). }
    destruct H1 as (h1 & -> & E1). simpl bind.
    assert (Hpp1 : astParent_of h1 parent = Ok upp) by now rewrite E1.
    pose proof Hpp1 as Hpp2.
    apply astParent_of_Ok in Hpp2 as (tp1 & ip1 & Htp1 & Hip1 & _).
    rewrite (deref_live h1 parent tp1 Htp1). simpl bind.
    unfold impl at 1. rewrite Hip1. simpl bind.
    destruct (optptr_eqb (mAstOperand2 ip1) (Some o)).
    - destruct (update_impl_keeps_parents h1 parent (with_mAstOperand2 None) upp)
        as (h2 & Hh2 & E2); [reflexivity | exact Hpp1 |].
      exists h2. split; [exact Hh2|]. intros x. now rewrite E2, E1.
    - exists h1. split; [reflexivity | exact E1]. }
  destruct Hclear as (h2 & -> & E2). simpl bind.
  assert (Ho2 : astParent_of h2 o = Ok up) by now rewrite E2.
  apply astParent_of_Ok in Ho2 as (t2 & i2 & Ht2 & Hi2 & _).
  exists (store h2 o (with_mImpl (Some (with_mAstParent None i2)) t2)). split.
  - unfold update_impl, deref, impl. rewrite Ht2. simpl. now rewrite Hi2.
  - intros x Hx. rewrite astParent_of_store, decide_False by congruence. apply E2.
Qed.

Lemma ancestors_ext (h h1 : Heap) :
  forall (l : list ptr) (c : ptr),
    (forall x, x ∈ c :: l -> astParent_of h1 x = astParent_of h x) ->
    ancestors h c l -> ancestors h1 c l.
Proof.
  induction l as [|y l IH]; intros c E H; simpl in *.
  - rewrite E; [exact H | apply list_elem_of_here].
  - destruct H as [Hc H]. split.
    + rewrite E; [exact Hc | apply list_elem_of_here].
    + apply IH; [|exact H]. intros x Hx. apply E. now apply list_elem_of_further.
Qed.

Lemma ancestors_from_member (h : Heap) (this : ptr) :
  forall (l : list ptr) (c : ptr),
    ancestors h c l -> this ∈ c :: l ->
    exists l2, ancestors h this l2 /\ List.last l2 this = List.last l c /\
               length l2 <= length l.
Proof.
  induction l as [|x l IH]; intros c H Hin.
  - apply list_elem_of_singleton in Hin. subst this. exists []. auto.
  - apply elem_of_cons in Hin as [->|Hin].
    + exists (x :: l). auto.
    + destruct H as [_ H]. destruct (IH x H Hin) as (l2 & H2 & El & Hlen).
      exists l2. split; [exact H2|]. split; [|simpl; lia].
      rewrite El. symmetry. apply last_cons_shift.
Qed.

(** The setter [astParent] throws when the token it is called on is the
    proposed parent or is reached from it along the parent links. *)
Lemma astParent_cycle_detected (h : Heap) (this p : ptr) (l : list ptr) :
  ancestors h p l -> this ∈ p :: l ->
  astParent h this (Some p) = InternalError cyclic_message.
Proof.
  intros Hanc Hin. unfold astParent.
  pose proof (ancestors_length h p l Hanc) as Hlen. simpl in Hlen.
  rewrite (cycle_walk_member h this l p) by (trivial; unfold walk_fuel; lia).
  reflexivity.
Qed.

(** With the old occupant of the slot out of the way, attaching a token
    whose top-most ancestor is reached from [this] along the parent links
    throws. *)
Lemma attach_operand_cycle (h : Heap) (this c : ptr) (lc lp : list ptr)
    (old : option ptr) :
  ast_wf h -> live_or_null h old ->
  ancestors h c lc -> ancestors h this lp ->
  List.last lc c ∈ this :: lp ->
  (forall o, old = Some o -> (o ∉ c :: lc) /\ (o ∉ this :: lp)) ->
  attach_operand h this old (Some c) = InternalError cyclic_message.
Proof.
  intros Hwf Hold Hc Hp Htop Hout. unfold attach_operand.
  assert (Hdetach : exists h1,
    match old with Some o => astParent h o None | None => Ok h end = Ok h1 /\
    forall x, (x ∈ c :: lc) \/ (x ∈ this :: lp) ->
              astParent_of h1 x = astParent_of h x).
  { destruct old as [o|]; [|eauto].
    destruct (astParent_detach h o Hwf Hold) as (h1 & Hh1 & E).
    exists h1. split; [exact Hh1|]. intros x Hx. apply E.
    intros ->. destruct (Hout o eq_refl) as [H1 H2]. tauto. }
  destruct Hdetach as (h1 & -> & E). simpl bind.
  assert (Hc1 : ancestors h1 c lc).
  { apply (ancestors_ext h h1); [|exact Hc]. intros x Hx. apply E. now left. }
  assert (Hp1 : ancestors h1 this lp).
  { apply (ancestors_ext h h1); [|exact Hp]. intros x Hx. apply E. now right. }
  pose proof (ancestors_length h1 c lc Hc1) as Hlc. simpl in Hlc.
  pose proof (ancestors_length h1 this lp Hp1) as Hlp. simpl in Hlp.
  unfold astTop.
  rewrite (astTop_walk_ancestors h1 lc c) by (trivial; unfold walk_fuel; lia).
  simpl bind.
  now rewrite (astParent_cycle_detected h1 (List.last lc c) this lp Hp1 Htop).
Qed.

Lemma last_member (l : list ptr) (x : ptr) : List.last l x ∈ x :: l.
Proof.
  revert x. induction l as [|y l IH]; intros x.
  - apply list_elem_of_here.
  - rewrite last_cons_shift. apply list_elem_of_further, IH.
Qed.

(** Attaching a token under itself or under one of its own ancestors is
    the case where the chain of [this] is the end of the chain of [c]. *)
Lemma attach_operand_under_ancestor (h : Heap) (this c : ptr) (l : list ptr)
    (old : option ptr) :
  ast_wf h -> live_or_null h old ->
  ancestors h c l -> this ∈ c :: l ->
  (forall o, old = Some o -> o ∉ c :: l) ->
  attach_operand h this old (Some c) = InternalError cyclic_message.
Proof.
  intros Hwf Hold Hanc Hin Hout.
  destruct (ancestors_from_member h this l c Hanc Hin) as (l2 & Hp & El & _).
  assert (Hsub : forall x, x ∈ this :: l2 -> x ∈ c :: l).
  { apply list_elem_of_split in Hin as (l1 & l3 & E).
    assert (l3 = l2).
    { destruct l1 as [|c' l1]; simpl in E; inversion E; subst.
      - eapply ancestors_deterministic; eassumption.
      - apply (ancestors_suffix h l1 l3 c' this) in Hanc.
        eapply ancestors_deterministic; eassumption. }
    subst l3. intros x Hx. rewrite E. apply elem_of_app. now right. }
  apply (attach_operand_cycle h this c l l2 old); trivial.
  - rewrite <- El. apply last_member.
  - intros o Ho. split; [now apply Hout|].
    intros Hx. apply (Hout o Ho). now apply Hsub.
Qed.

(** C7: [astOperand1] and [astOperand2] throw the cycle error whenever the
    top-most ancestor of the token to attach is reached from the token
    they are called on along the parent links, the old occupant of the
    slot, which is detached first, lying on neither chain of parents. *)
Theorem astOperand_cycle_detected :
  forall (h : Heap) (this c : ptr) (lc lp : list ptr) (t : Token)
         (i : TokenImpl),
    ast_wf h ->
    toks h !! this = Some t -> mImpl t = Some i ->
    ancestors h c lc -> ancestors h this lp ->
    List.last lc c ∈ this :: lp ->
    ((forall o, mAstOperand1 i = Some o -> (o ∉ c :: lc) /\ (o ∉ this :: lp)) ->
     astOperand1 h this (Some c) = InternalError cyclic_message) /\
    ((forall o, mAstOperand2 i = Some o -> (o ∉ c :: lc) /\ (o ∉ this :: lp)) ->
     astOperand2 h this (Some c) = InternalError cyclic_message).
Proof.
  intros h this c lc lp t i Hwf Ht Hi Hc Hp Htop.
  destruct (Hwf this t Ht) as (i' & Hi' & _ & Hl1 & Hl2).
  assert (i' = i) by congruence. subst i'.
  split; intros Hout.
  - unfold astOperand1. rewrite (deref_live h this t Ht). simpl bind.
    unfold impl. rewrite Hi. simpl bind.
    now rewrite (attach_operand_cycle h this c lc lp _ Hwf Hl1 Hc Hp Htop Hout).
  - unfold astOperand2. rewrite (deref_live h this t Ht). simpl bind.
    unfold impl. rewrite Hi. simpl bind.
    now rewrite (attach_operand_cycle h this c lc lp _ Hwf Hl2 Hc Hp Htop Hout).
Qed.

(** In particular the two setters throw when the token they are called on
    is the token to attach or one of its ancestors, the old occupant of
    the slot not being one of these. *)
Lemma astOperand1_under_ancestor (h : Heap) (this c : ptr) (l : list ptr)
    (t : Token) (i : TokenImpl) :
  ast_wf h -> toks h !! this = Some t -> mImpl t = Some i ->
  ancestors h c l -> this ∈ c :: l ->
  (forall o, mAstOperand1 i = Some o -> o ∉ c :: l) ->
  astOperand1 h this (Some c) = InternalError cyclic_message.
Proof.
  intros Hwf Ht Hi Hanc Hin Hout.
  destruct (Hwf this t Ht) as (i' & Hi' & _ & Hl1 & _).
  assert (i' = i) by congruence. subst i'.
  unfold astOperand1. rewrite (deref_live h this t Ht). simpl bind.
  unfold impl. rewrite Hi. simpl bind.
  now rewrite (attach_operand_under_ancestor h this c l _ Hwf Hl1 Hanc Hin Hout).
Qed.

Lemma astOperand_cycle_detected_witness :
  astOperand1 ast_a_plus_b 1 (Some 3) = InternalError cyclic_message /\
  astOperand1 ast_a_plus_b 2 (Some 3) = InternalError cyclic_message.
Proof.
  split.
  - refine (proj1 (astOperand_cycle_detected ast_a_plus_b 1 3 [1] []
                     (ast_token "+" eArithmeticalOp (Some 2) (Some 3) None)
                     (mkImpl 0 0 (Some 2) (Some 3) None None 0)
                     (ast_wfb_sound ast_a_plus_b eq_refl) eq_refl eq_refl
                     (conj eq_refl eq_refl) eq_refl _) _).
    + apply list_elem_of_here.
    + intros o [= <-]. split; intros Hin; apply list_elem_of_In in Hin;
        simpl in Hin; intuition discriminate.
  - refine (proj1 (astOperand_cycle_detected ast_a_plus_b 2 3 [1] [1]
                     (ast_token "a" eName None None (Some 1))
                     (mkImpl 0 0 None None (Some 1) None 0)
                     (ast_wfb_sound ast_a_plus_b eq_refl) eq_refl eq_refl
                     (conj eq_refl eq_refl) (conj eq_refl eq_refl) _) _).
    + apply list_elem_of_further, list_elem_of_here.
    + intros o [=].
Defined.

(** C7, as the claim has it, fails: in the tree of [a + b] the token [+]
    is reached from [a] along the parent link, and attaching [a] as the
    first operand of [+] again returns without an error and leaves the
    tree as it was. *)
Lemma astOperand1_reattach_returns :
  ancestors ast_a_plus_b 2 [1] /\
  astOperand1 ast_a_plus_b 1 (Some 2) = Ok ast_a_plus_b.
Proof. split; [split; reflexivity | vm_compute; reflexivity]. Qed.

(** ** Value facts: the list never grows under contradiction removal *)



Lemma update_at_length (fn : Value -> Value) (l : list Value) :
  forall i, length (update_at i fn l) = length l.
Proof.
  induction l as [|v l IH]; intros [|i]; simpl; try reflexivity.
  now rewrite IH.
Qed.



Lemma removeContradiction_pair_running (V : ValueOps) (i j : nat)
    (values v : list Value) (result r : bool) :
  removeContradiction_pair V i j values result = Running v r ->
  length v = length values.
Proof.
  unfold removeContradiction_pair.
  destruct (values !! i) as [x|]; [|intros [= <- _]; reflexivity].
  destruct (values !! j) as [y|]; [|intros [= <- _]; reflexivity].
  unfold removePointValue.
  repeat match goal with
         | |- context [if ?b then _ else _] => destruct b eqn:?
         end; simpl; try discriminate; intros [= <- _];
    rewrite ?update_at_length; reflexivity.
Qed.







Lemma filter_length_le (f : Value -> bool) (l : list Value) :
  length (List.filter f l) <= length l.
Proof.
  induction l as [|v l IH]; simpl; [lia|]. destruct (f v); simpl; lia.
Qed.





(** The round of [removeOverlaps] never runs out of its fuel: with at
    least as much of it as there are elements left, the result is the
    same. *)
Lemma removeOverlaps_loop_fuel (V : ValueOps) :
  forall (fuel1 fuel2 : nat) (done rest : list Value),
    length rest <= fuel1 -> length rest <= fuel2 ->
    removeOverlaps_loop V fuel1 done rest = removeOverlaps_loop V fuel2 done rest.
Proof.
  induction fuel1 as [|fuel1 IH]; intros fuel2 done rest H1 H2.
  - destruct rest; [|simpl in H1; lia]. destruct fuel2; reflexivity.
  - destruct rest as [|x rest]; [destruct fuel2; reflexivity|].
    destruct fuel2 as [|fuel2]; [simpl in H2; lia|]. simpl in *.
    destruct (isNonValue V x).
    + apply IH; lia.
    + pose proof (filter_length_le (fun y => negb (overlaps V x y)) rest).
      apply IH; lia.
Qed.

(** ** Value facts: addValue *)

Lemma ValueType_eqb_eq (a b : ValueType) : ValueType_eqb a b = true <-> a = b.
Proof. destruct a, b; simpl; split; intros E; congruence. Qed.


Lemma store_same (h : Heap) (p : ptr) (t : Token) :
  toks h !! p = Some t -> store h p t = h.
Proof.
  intros Ht. unfold store, with_toks. rewrite (insert_id _ _ _ Ht).
  now destruct h.
Qed.

Lemma with_mValues_same (t : Token) (i : TokenImpl) :
  mImpl t = Some i -> with_mImpl (Some (with_mValues (mValues i) i)) t = t.
Proof. destruct t, i. simpl. intros ->. reflexivity. Qed.











Lemma any_of_found (p : Value -> outcome bool) (x : Value) :
  forall l : list Value,
    (forall y, In y l -> exists b, p y = Ok b) ->
    In x l -> p x = Ok true -> any_of p l = Ok true.
Proof.
  induction l as [|y l IH]; intros Hall Hin Hx; [contradiction|]. simpl.
  destruct (Hall y (or_introl eq_refl)) as [b Hb]. rewrite Hb. simpl.
  destruct b; [reflexivity|].
  destruct Hin as [->|Hin]; [congruence|].
  apply IH; [|exact Hin | exact Hx].
  intros z Hz. apply Hall. now right.
Qed.

(** C1: a fact that is not known is rejected, and the token left as it
    is, whenever the list holds a known fact of the same kind with a
    different value. *)
Theorem addValue_rejects_fact_contradicting_known_fact :
  forall (V : ValueOps) (h : Heap) (this : ptr) (t : Token) (i : TokenImpl)
         (l : list Value) (value x : Value),
    toks h !! this = Some t -> mImpl t = Some i -> mValues i = Some l ->
    isKnown value = false ->
    (forall y, In y l -> exists b, sameValueType h y value = Ok b) ->
    In x l -> isKnown x = true ->
    sameValueType h x value = Ok true -> equalValue V x value = false ->
    addValue V h this value = Ok (false, h).
Proof.
  intros V h this t i l value x Ht Hi Hl Hk Hall Hin Hkx Hsame Hne.
  unfold addValue. rewrite (deref_live h this t Ht). simpl bind.
  unfold impl. rewrite Hi. simpl bind.
  unfold addValue_members. rewrite Hl, Hk. simpl bind. simpl negb. cbv iota.
  rewrite (any_of_found _ x l).
  - simpl. rewrite <- Hl, (with_mValues_same t i Hi). now rewrite (store_same h this t Ht).
  - intros y Hy. destruct (isKnown y); [|eauto].
    destruct (Hall y Hy) as [b ->]. simpl. eauto.
  - exact Hin.
  - rewrite Hkx, Hsame. simpl. now rewrite Hne.
Qed.

Lemma addValue_rejects_fact_contradicting_known_fact_witness :
  addValue (vf_ops (fact_stream (Some [int_fact Known Point 5])))
           (fact_stream (Some [int_fact Known Point 5]))
           1 (int_fact Possible Point 7)
  = Ok (false, fact_stream (Some [int_fact Known Point 5])).
Proof.
  apply (addValue_rejects_fact_contradicting_known_fact
           (vf_ops (fact_stream (Some [int_fact Known Point 5])))
           (fact_stream (Some [int_fact Known Point 5])) 1
           (fact_token (Some [int_fact Known Point 5]))
           (mkImpl 1 0 None None None (Some [int_fact Known Point 5]) 0)
           [int_fact Known Point 5] (int_fact Possible Point 7)
           (int_fact Known Point 5));
    try reflexivity.
  - intros y [<-|[]]. exists true. reflexivity.
  - now left.
Defined.

(** C1, as the claim has it, fails: with the known integer fact 5 in the
    list, adding the known integer fact 7 returns true, and 7 takes the
    place of 5. *)
Lemma addValue_known_fact_replaces_known_fact :
  exists h',
    addValue (vf_ops (fact_stream (Some [int_fact Known Point 5])))
             (fact_stream (Some [int_fact Known Point 5]))
             1 (int_fact Known Point 7) = Ok (true, h') /\
    facts h' 1 = Some [mkValue INT Known Point 7 PrimFloat.zero None 1].
Proof. eexists. split; vm_compute; reflexivity. Qed.

(** ** addValue returns for facts that carry no token *)

Lemma sameValueType_plain (h : Heap) (x value : Value) :
  isSymbolicValue value = false ->
  sameValueType h x value = Ok (ValueType_eqb (valueType x) (valueType value)).
Proof.
  intros Hs. unfold sameValueType.
  destruct (ValueType_eqb (valueType x) (valueType value)) eqn:E; [|reflexivity].
  apply ValueType_eqb_eq in E. unfold isSymbolicValue in *. rewrite E, Hs.
  reflexivity.
Qed.

Lemma remove_if_total (p : Value -> outcome bool) :
  (forall x, exists b, p x = Ok b) ->
  forall l, exists l', remove_if p l = Ok l'.
Proof.
  intros Hp. induction l as [|x l [l' IH]]; simpl; [eauto|].
  destruct (Hp x) as [b ->]. rewrite IH. simpl. eauto.
Qed.

Lemma any_of_total (p : Value -> outcome bool) :
  (forall x, exists b, p x = Ok b) ->
  forall l, exists b, any_of p l = Ok b.
Proof.
  intros Hp. induction l as [|x l [b' IH]]; simpl; [eauto|].
  destruct (Hp x) as [b ->]. simpl. destruct b; eauto.
Qed.

Lemma scan_existing_total (V : ValueOps) (h : Heap) (vid : Z) (value : Value) :
  isTokValue value = false -> isLifetimeValue value = false ->
  forall l, exists r, scan_existing V h vid value l = Ok r.
Proof.
  intros Ht Hl. induction l as [|it rest [r IH]]; simpl; [eauto|].
  rewrite IH, Ht, Hl. simpl.
  repeat match goal with
         | |- context [if ?b then _ else _] => destruct b
         end; eauto.
Qed.

(** For a fact that is neither symbolic nor a token or lifetime fact,
    [addValue] reads no token through a [tokvalue] and returns. *)
Lemma addValue_returns (V : ValueOps) (h : Heap) (this : ptr) (t : Token)
    (i : TokenImpl) (value : Value) :
  toks h !! this = Some t -> mImpl t = Some i ->
  isSymbolicValue value = false -> isTokValue value = false ->
  isLifetimeValue value = false ->
  exists b h', addValue V h this value = Ok (b, h').
Proof.
  intros Ht Hi Hs Htok Hlife.
  unfold addValue. rewrite (deref_live h this t Ht). cbn [bind].
  unfold impl. rewrite Hi. cbn [bind].
  assert (Hm : exists r, addValue_members V h (mVarId i) (mValues i) value = Ok r).
  { unfold addValue_members.
    assert (Hp : exists values1,
      match mValues i with
      | Some l =>
          if isKnown value
          then let* l' := remove_if (fun x => sameValueType h x value) l in
               Ok (Some l')
          else Ok (mValues i)
      | None => Ok None
      end = Ok values1).
    { destruct (mValues i) as [l|]; [|eauto].
      destruct (isKnown value); [|eauto].
      assert (Hsv : forall x, exists b, sameValueType h x value = Ok b).
      { intros x. rewrite sameValueType_plain by exact Hs. eauto. }
      destruct (remove_if_total _ Hsv l) as [l' ->]. cbn [bind]. eauto. }
    destruct Hp as [values1 ->]. cbn [bind].
    assert (Hk : exists known,
      match values1 with
      | Some l =>
          if negb (isKnown value)
          then any_of (fun x =>
                         if isKnown x
                         then let* same := sameValueType h x value in
                              Ok (same && negb (equalValue V x value))
                         else Ok false) l
          else Ok false
      | None => Ok false
      end = Ok known).
    { destruct values1 as [l|]; [|eauto].
      destruct (negb (isKnown value)); [|eauto].
      apply any_of_total. intros x. destruct (isKnown x); [|eauto].
      rewrite sameValueType_plain by exact Hs. cbn [bind]. eauto. }
    destruct Hk as [known ->]. cbn [bind].
    destruct known; [eauto|].
    destruct values1 as [l|]; [|eexists; reflexivity].
    destruct (10 <=? length l); [eauto|].
    destruct (scan_existing_total V h (mVarId i) value Htok Hlife l) as [r ->].
    cbn [bind]. destruct r; eexists; reflexivity. }
  destruct Hm as [[b mv'] ->]. cbn [bind]. eauto.
Qed.

(** ** Value facts: floats under mergeAdjacent *)

Lemma Bound_eqb_eq (a b : Bound) : Bound_eqb a b = true <-> a = b.
Proof. destruct a, b; simpl; split; intros E; congruence. Qed.

(** Two float facts are left as they are by [mergeAdjacent] unless both
    are lower bounds or both are upper bounds. *)
Lemma mergeAdjacent_float_pair (V : ValueOps) (x y : Value) :
  valueType x = FLOAT -> valueType y = FLOAT ->
  ~ (bound x = bound y /\ bound x <> Point) ->
  mergeAdjacent V [x; y] = [x; y].
Proof.
  destruct x as [tx kx bx ix fx tokx vx], y as [ty ky by_ iy fy toky vy].
  simpl. intros -> -> Hb. unfold mergeAdjacent. simpl.
  destruct bx, by_;
    try (exfalso; apply Hb; split; [reflexivity | discriminate]);
    repeat match goal with
           | |- context [isNonValue V ?v] => destruct (isNonValue V v)
           end; simpl; try reflexivity;
    destruct (ValueKind_eqb kx ky) eqn:Ek; simpl; try reflexivity;
    destruct (ValueKind_eqb ky kx) eqn:Ek'; simpl; reflexivity.
Qed.

Lemma filter_erase_from (P : Value -> bool) (idx : list nat) :
  forall (l : list Value) (pos : nat),
    (forall g v, In g idx -> pos <= g -> l !! (g - pos) = Some v -> P v = false) ->
    List.filter P (erase_from pos idx l) = List.filter P l.
Proof.
  induction l as [|v l IH]; intros pos H; simpl; [reflexivity|].
  assert (IH' : List.filter P (erase_from (S pos) idx l) = List.filter P l).
  { apply IH. intros g w Hg Hle Hw. apply (H g w Hg); [lia|].
    replace (g - pos) with (S (g - S pos)) by lia. exact Hw. }
  destruct (existsb (Nat.eqb pos) idx) eqn:E.
  - apply existsb_exists in E as (g & Hg & Eg). apply Nat.eqb_eq in Eg. subst g.
    rewrite (H pos v Hg); [exact IH' | lia |].
    now replace (pos - pos) with 0 by lia.
  - simpl. now rewrite IH'.
Qed.

Lemma filter_erase_all (P : Value -> bool) (idx : list nat) (l : list Value) :
  (forall g v, In g idx -> l !! g = Some v -> P v = false) ->
  List.filter P (erase_all idx l) = List.filter P l.
Proof.
  intros H. apply filter_erase_from. intros g v Hg _ Hv.
  apply (H g v Hg). now replace (g - 0) with g in Hv by lia.
Qed.

Lemma filter_update_at (P : Value -> bool) (fn : Value -> Value) :
  forall (l : list Value) (i : nat),
    (forall v, l !! i = Some v -> P v = false /\ P (fn v) = false) ->
    List.filter P (update_at i fn l) = List.filter P l.
Proof.
  induction l as [|v l IH]; intros [|i] H; simpl; try reflexivity.
  - destruct (H v eq_refl) as [-> ->]. reflexivity.
  - rewrite (IH i); [reflexivity|]. intros w Hw. now apply H.
Qed.

Lemma lookup_update_at_eq (fn : Value -> Value) :
  forall (l : list Value) (i : nat),
    update_at i fn l !! i = fn <$> (l !! i).
Proof.
  induction l as [|v l IH]; intros [|i]; try reflexivity. apply IH.
Qed.

Lemma lookup_update_at_ne (fn : Value -> Value) :
  forall (l : list Value) (i g : nat),
    g <> i -> update_at i fn l !! g = l !! g.
Proof.
  induction l as [|v l IH]; intros [|i] [|g] Hne; try reflexivity.
  - contradiction.
  - apply IH. congruence.
Qed.

Lemma indexed_lookup_from (l : list Value) :
  forall (start yi : nat) (y : Value),
    In (yi, y) (combine (seq start (length l)) l) ->
    start <= yi /\ l !! (yi - start) = Some y.
Proof.
  induction l as [|v l IH]; intros start yi y Hin; simpl in Hin; [contradiction|].
  destruct Hin as [[= <- <-]|Hin].
  - split; [lia|]. now replace (start - start) with 0 by lia.
  - destruct (IH (S start) yi y Hin) as [Hle Hl]. split; [lia|].
    replace (yi - start) with (S (yi - S start)) by lia. exact Hl.
Qed.

Lemma indexed_lookup (l : list Value) (yi : nat) (y : Value) :
  In (yi, y) (indexed l) -> l !! yi = Some y.
Proof.
  intros Hin. apply indexed_lookup_from in Hin as [_ Hl].
  now replace (yi - 0) with yi in Hl by lia.
Qed.

Lemma insert_sorted_In (V : ValueOps) (values : list Value) (i k : nat) :
  forall sorted : list nat,
    In k (insert_sorted V values i sorted) -> k = i \/ In k sorted.
Proof.
  induction sorted as [|s sorted IH]; simpl; intros Hin.
  - destruct Hin as [<-|[]]. now left.
  - destruct (values !! i) as [vi|], (values !! s) as [vs|];
      try (destruct Hin as [<-|Hin]; [now left | now right]).
    destruct (compareValue_less V vs vi).
    + destruct Hin as [<-|Hin]; [right; now left|].
      destruct (IH Hin) as [->|H]; [now left | right; now right].
    + destruct Hin as [<-|Hin]; [now left | now right].
Qed.

Lemma sort_positions_In (V : ValueOps) (values : list Value) (k : nat) :
  forall idx : list nat, In k (sort_positions V values idx) -> In k idx.
Proof.
  induction idx as [|i idx IH]; simpl; intros Hin; [contradiction|].
  apply insert_sorted_In in Hin as [->|Hin]; [now left | right; now apply IH].
Qed.

Lemma firstn_In (k : nat) :
  forall (l : list nat) (g : nat), In g (firstn k l) -> In g l.
Proof.
  induction k as [|k IH]; intros [|a l] g; simpl; try contradiction.
  intros [<-|Hin]; [now left | right; now apply IH].
Qed.

Lemma collect_adjacent_mergeable (V : ValueOps) (values : list Value)
    (x : Value) (xi : nat) :
  bound x <> Point ->
  forall (ys : list (nat * Value)) (acc : list nat),
    (forall yi y, In (yi, y) ys -> values !! yi = Some y) ->
    (forall i, In i acc -> exists y, values !! i = Some y /\ mergeable_with x y) ->
    forall i, In i (collect_adjacent V x xi ys acc) ->
              exists y, values !! i = Some y /\ mergeable_with x y.
Proof.
  intros Hx. induction ys as [|[yi y] ys IH]; intros acc Hys Hacc i Hin.
  - simpl in Hin. apply Hacc. now apply in_rev.
  - assert (Hys' : forall yi y, In (yi, y) ys -> values !! yi = Some y).
    { intros ? ? ?. apply Hys. now right. }
    assert (Hskip : In i (collect_adjacent V x xi ys acc) ->
                    exists y, values !! i = Some y /\ mergeable_with x y).
    { now apply IH. }
    assert (Hpush : ValueType_eqb (valueType x) (valueType y) = true ->
                    (Bound_eqb (bound x) (bound y) = true
                     \/ ValueType_eqb (valueType x) FLOAT = false) ->
                    In i (collect_adjacent V x xi ys (yi :: acc)) ->
                    exists y, values !! i = Some y /\ mergeable_with x y).
    { intros Ety Hb. apply IH; [exact Hys'|].
      intros k [<-|Hk]; [|now apply Hacc].
      exists y. split; [apply Hys; now left|].
      apply ValueType_eqb_eq in Ety. unfold mergeable_with, is_float_point. simpl.
      rewrite <- Ety. split.
      - destruct Hb as [Hb| ->]; [|reflexivity].
        apply Bound_eqb_eq in Hb. rewrite <- Hb.
        destruct (bound x); [| |contradiction]; apply andb_false_r.
      - destruct (bound x); [| |contradiction]; apply andb_false_r. }
    simpl in Hin.
    repeat match type of Hin with
           | In _ (if ?b then _ else _) => destruct b eqn:?
           end;
      try (now apply Hskip); try contradiction;
      apply Hpush; trivial;
      repeat match goal with
             | H : negb _ = false |- _ => apply negb_false_iff in H
             | H : negb _ = true |- _ => apply negb_true_iff in H
             end; auto.
Qed.

Lemma with_bound_not_point (b : Bound) (v : Value) :
  b <> Point -> is_float_point (with_bound b v) = false.
Proof.
  intros Hb. unfold is_float_point. simpl.
  destruct b; [| |contradiction]; apply andb_false_r.
Qed.

Lemma range_not_float_point (v : Value) :
  bound v <> Point -> is_float_point v = false.
Proof.
  intros Hb. unfold is_float_point.
  destruct (bound v); [| |contradiction]; apply andb_false_r.
Qed.

Lemma erase_update_float_points (values : list Value) (xi it : nat)
    (x : Value) (gone : list nat) :
  bound x <> Point -> values !! xi = Some x ->
  (exists y, values !! it = Some y /\ mergeable_with x y) ->
  (forall g, In g gone ->
             g = xi \/ exists y, values !! g = Some y /\ mergeable_with x y) ->
  List.filter is_float_point
    (erase_all gone (update_at it (with_bound (bound x)) values))
  = List.filter is_float_point values.
Proof.
  intros Hx Hxi (y & Hy & Hm1 & Hm2) Hgone.
  rewrite filter_erase_all.
  - apply filter_update_at. intros v Hv.
    assert (v = y) by congruence. subst v. now split.
  - intros g v Hg Hv. destruct (decide (g = it)) as [->|Hne].
    + rewrite lookup_update_at_eq, Hy in Hv. simpl in Hv.
      inversion Hv. now apply with_bound_not_point.
    + rewrite lookup_update_at_ne in Hv by exact Hne.
      destruct (Hgone g Hg) as [->|(w & Hw & Hw1 & _)].
      * assert (v = x) by congruence. subst v. now apply range_not_float_point.
      * congruence.
Qed.

Lemma removeAdjacentValues_float_points (values : list Value) (xi : nat)
    (x : Value) (sq : list nat) :
  bound x <> Point -> values !! xi = Some x ->
  (forall i, In i sq -> exists y, values !! i = Some y /\ mergeable_with x y) ->
  List.filter is_float_point (removeAdjacentValues values xi x sq).1
  = List.filter is_float_point values.
Proof.
  intros Hx Hxi Hsq. unfold removeAdjacentValues.
  destruct sq as [|start sq'] eqn:Esq; [reflexivity|].
  destruct (values !! start) as [vstart|]; [|reflexivity].
  destruct (negb (isAdjacent x vstart)); [reflexivity|].
  rewrite <- Esq in *. cbv [fst].
  apply (erase_update_float_points values xi); trivial.
  - apply Hsq. destruct (nth_in_or_default (adjacent_find values sq) sq start)
      as [H| ->]; [exact H | rewrite Esq; now left].
  - intros g Hg. apply in_app_or in Hg as [Hg|[<-|[]]]; [right | now left].
    apply Hsq. now apply firstn_In in Hg.
Qed.

Lemma mergeAdjacent_loop_float_points (V : ValueOps) (fuel : nat) :
  forall (values : list Value) (xi : nat),
    List.filter is_float_point (mergeAdjacent_loop V fuel values xi)
    = List.filter is_float_point values.
Proof.
  induction fuel as [|fuel IH]; intros values xi; simpl; [reflexivity|].
  destruct (values !! xi) as [x|] eqn:Hxi; [|reflexivity].
  destruct (isNonValue V x); [apply IH|].
  destruct (Bound_eqb (bound x) Point) eqn:Hb; [apply IH|].
  assert (Hx : bound x <> Point).
  { intros E. apply Bound_eqb_eq in E. congruence. }
  assert (Hadj : forall i, In i (collect_adjacent V x xi (indexed values) []) ->
                           exists y, values !! i = Some y /\ mergeable_with x y).
  { apply (collect_adjacent_mergeable V values x xi Hx).
    - intros yi y. apply indexed_lookup.
    - intros i []. }
  destruct (collect_adjacent V x xi (indexed values) []) as [|a adj] eqn:Hc;
    [apply IH|].
  match goal with
  | |- context [removeAdjacentValues values xi x ?s] =>
      assert (Hsq : forall i, In i s ->
                              exists y, values !! i = Some y /\ mergeable_with x y);
      [| pose proof (removeAdjacentValues_float_points values xi x s Hx Hxi Hsq) as Hr;
         destruct (removeAdjacentValues values xi x s) as [values' xi'] ]
  end.
  { intros i Hi. apply Hadj.
    destruct (Bound_eqb (bound x) Lower); [apply in_rev in Hi|];
      now apply sort_positions_In in Hi. }
  simpl in Hr. now rewrite IH.
Qed.

(** C3: [mergeAdjacent] neither erases nor rewrites a float point fact:
    the float point facts of the list are the same, in the same order,
    after the merge; and two float facts are left as they are unless both
    are lower bounds or both are upper bounds. *)
Theorem mergeAdjacent_keeps_float_points :
  forall (V : ValueOps) (values : list Value),
    List.filter is_float_point (mergeAdjacent V values)
    = List.filter is_float_point values /\
    forall x y : Value,
      valueType x = FLOAT -> valueType y = FLOAT ->
      ~ (bound x = bound y /\ bound x <> Point) ->
      mergeAdjacent V [x; y] = [x; y].
Proof.
  intros V values. split.
  - apply mergeAdjacent_loop_float_points.
  - intros x y. apply mergeAdjacent_float_pair.
Qed.

(** C3, as the claim has it, fails: of the two float facts [>= 5.0] and
    [>= 3.0], both lower bounds, the merge keeps the second only, also
    when the second comes in through [addValue]. *)
Lemma mergeAdjacent_merges_float_lower_bounds :
  mergeAdjacent (vf_ops (fact_stream None))
                [float_fact Possible Lower 5; float_fact Possible Lower 3]
  = [float_fact Possible Lower 3] /\
  addValue_members (vf_ops (fact_stream None)) (fact_stream None) 0
                   (Some [float_fact Possible Lower 5])
                   (float_fact Possible Lower 3)
  = Ok (true, Some [float_fact Possible Lower 3]).
Proof. split; vm_compute; reflexivity. Qed.

(** ** Value facts: the loop of mergeAdjacent ends within its fuel *)

Lemma erase_from_count (idx : list nat) :
  forall (l : list Value) (pos : nat),
    length (erase_from pos idx l) + erased_among idx pos (length l) = length l.
Proof.
  unfold erased_among.
  induction l as [|v l IH]; intros pos; simpl; [reflexivity|].
  specialize (IH (S pos)).
  destruct (existsb (Nat.eqb pos) idx); simpl; lia.
Qed.

Lemma erased_among_split (idx : list nat) (a b : nat) :
  erased_among idx 0 (a + b) = erased_among idx 0 a + erased_among idx a b.
Proof.
  unfold erased_among. rewrite seq_app, List.filter_app, length_app. reflexivity.
Qed.

Lemma erased_among_le (idx : list nat) (from n : nat) :
  erased_among idx from n <= n.
Proof.
  unfold erased_among.
  assert (H : forall l : list nat,
             length (List.filter (fun k => existsb (Nat.eqb k) idx) l) <= length l).
  { induction l as [|k l IH]; simpl; [lia|].
    destruct (existsb (Nat.eqb k) idx); simpl; lia. }
  etransitivity; [apply H|]. now rewrite length_seq.
Qed.

Lemma erased_among_here (idx : list nat) (xi n : nat) :
  In xi idx -> 0 < n -> 1 <= erased_among idx xi n.
Proof.
  intros Hin Hn. unfold erased_among. destruct n as [|n]; [lia|]. simpl.
  assert (E : existsb (Nat.eqb xi) idx = true).
  { apply existsb_exists. exists xi. split; [exact Hin | apply Nat.eqb_refl]. }
  rewrite E. simpl. lia.
Qed.

(** Erasing [x] and some others brings the end of the list nearer to the
    position the loop goes on from. *)
Lemma erase_all_measure (gone : list nat) (l : list Value) (xi : nat) :
  xi < length l -> In xi gone ->
  length (erase_all gone l) - shifted gone xi < length l - xi.
Proof.
  intros Hxi Hin. unfold erase_all, shifted.
  pose proof (erase_from_count gone l 0) as Hc.
  pose proof (erased_among_split gone xi (length l - xi)) as Hs.
  replace (xi + (length l - xi)) with (length l) in Hs by lia.
  pose proof (erased_among_le gone 0 xi).
  pose proof (erased_among_le gone xi (length l - xi)).
  pose proof (erased_among_here gone xi (length l - xi) Hin).
  fold (erased_among gone 0 xi). lia.
Qed.

Lemma removeAdjacentValues_measure (values : list Value) (xi : nat) (x : Value)
    (sq : list nat) :
  xi < length values ->
  length (removeAdjacentValues values xi x sq).1
  - (removeAdjacentValues values xi x sq).2 < length values - xi.
Proof.
  intros Hxi. unfold removeAdjacentValues.
  destruct sq as [|start sq'] eqn:Esq; [simpl; lia|].
  destruct (values !! start) as [vstart|]; [|simpl; lia].
  destruct (negb (isAdjacent x vstart)); [simpl; lia|].
  rewrite <- Esq. cbv [fst snd].
  rewrite <- (update_at_length (with_bound (bound x)) values
                (nth (adjacent_find values sq) sq start)).
  apply erase_all_measure.
  - now rewrite update_at_length.
  - apply in_or_app. right. now left.
Qed.

Lemma mergeAdjacent_loop_fuel (V : ValueOps) :
  forall (fuel1 fuel2 : nat) (values : list Value) (xi : nat),
    length values - xi < fuel1 -> length values - xi < fuel2 ->
    mergeAdjacent_loop V fuel1 values xi = mergeAdjacent_loop V fuel2 values xi.
Proof.
  induction fuel1 as [|fuel1 IH]; intros fuel2 values xi H1 H2; [lia|].
  destruct fuel2 as [|fuel2]; [lia|]. simpl.
  destruct (values !! xi) as [x|] eqn:Hxi; [|reflexivity].
  assert (Hlt : xi < length values) by (apply lookup_lt_Some in Hxi; exact Hxi).
  destruct (isNonValue V x); [apply IH; lia|].
  destruct (Bound_eqb (bound x) Point); [apply IH; lia|].
  destruct (collect_adjacent V x xi (indexed values) []) as [|a adj];
    [apply IH; lia|].
  match goal with
  | |- context [removeAdjacentValues values xi x ?s] =>
      pose proof (removeAdjacentValues_measure values xi x s Hlt) as Hm;
      destruct (removeAdjacentValues values xi x s) as [values' xi']
  end.
  simpl in Hm. apply IH; lia.
Qed.

(** [mergeAdjacent] does not run out of its fuel: more of it gives the
    same list. *)
Lemma mergeAdjacent_fuel_enough (V : ValueOps) (values : list Value) (fuel : nat) :
  length values < fuel ->
  mergeAdjacent_loop V fuel values 0 = mergeAdjacent V values.
Proof.
  intros H. unfold mergeAdjacent. apply mergeAdjacent_loop_fuel; lia.
Qed.

(** ** Cppcheck attributes *)

Lemma set_existing_types {T : Type} `{EqDecision T} (type : T) (value : Z) :
  forall attrs attrs' : list (T * Z),
    set_existing attrs type value = Some attrs' -> attrs'.*1 = attrs.*1.
Proof.
  induction attrs as [|[ty v] rest IH]; intros attrs' H; simpl in H; [discriminate|].
  destruct (decide (ty = type)) as [->|Hne].
  - inversion H; subst. reflexivity.
  - destruct (set_existing rest type value) as [r|] eqn:E; [|discriminate].
    inversion H; subst. rewrite !fmap_cons. f_equal. now apply IH.
Qed.

Lemma set_existing_None {T : Type} `{EqDecision T} (type : T) (value : Z) :
  forall attrs : list (T * Z),
    set_existing attrs type value = None <-> type ∉ attrs.*1.
Proof.
  induction attrs as [|[ty v] rest IH]; simpl.
  - split; [intros _; apply not_elem_of_nil | reflexivity].
  - destruct (decide (ty = type)) as [->|Hne].
    + split; [discriminate | intros Hn; exfalso; apply Hn; left].
    + rewrite not_elem_of_cons, <- IH.
      destruct (set_existing rest type value); simpl; split; intros H1;
        try discriminate; try (destruct H1; discriminate);
        try (split; congruence); reflexivity.
Qed.

(** X1: a value stored by [setCppcheckAttribute] is the one
    [getCppcheckAttribute] gives back for the same type, and the answer
    for every other type is what it was before the call. *)
Theorem getCppcheckAttribute_after_set :
  forall {T : Type} `{EqDecision T} (attrs : list (T * Z)) (type type' : T)
         (value old : Z),
    getCppcheckAttribute (setCppcheckAttribute attrs type value) type' old =
    if decide (type' = type) then (true, value)
    else getCppcheckAttribute attrs type' old.
Proof.
  intros T HT attrs type type' value old. unfold setCppcheckAttribute.
  destruct (set_existing attrs type value) as [attrs'|] eqn:E.
  - revert attrs' E. induction attrs as [|[ty v] rest IH]; intros attrs' E;
      simpl in E; [discriminate|].
    destruct (decide (ty = type)) as [->|Hne].
    + inversion E; subst. simpl.
      destruct (decide (type = type')) as [<-|Hne'].
      * now rewrite decide_True.
      * now rewrite decide_False by congruence.
    + destruct (set_existing rest type value) as [r|] eqn:Er; [|discriminate].
      inversion E; subst. simpl.
      destruct (decide (ty = type')) as [<-|Hne'].
      * now rewrite decide_False by congruence.
      * now apply IH.
  - simpl. destruct (decide (type = type')) as [<-|Hne].
    + now rewrite decide_True.
    + now rewrite decide_False by congruence.
Qed.

Lemma setCppcheckAttribute_NoDup {T : Type} `{EqDecision T}
    (attrs : list (T * Z)) (type : T) (value : Z) :
  NoDup attrs.*1 -> NoDup (setCppcheckAttribute attrs type value).*1.
Proof.
  intros Hnd. unfold setCppcheckAttribute.
  destruct (set_existing attrs type value) as [attrs'|] eqn:E.
  - now rewrite (set_existing_types type value attrs attrs' E).
  - simpl. apply NoDup_cons. split; [now apply set_existing_None in E | exact Hnd].
Qed.

(** X2: however [setCppcheckAttribute] is called on a token that starts
    without attributes, the list never holds two nodes of one type, and it
    holds a node for a type exactly when the type was set. *)
Theorem setCppcheckAttribute_one_node_per_type :
  forall {T : Type} `{EqDecision T} (calls : list (T * Z)),
    NoDup (set_all [] calls).*1 /\
    forall type : T, type ∈ (set_all [] calls).*1 <-> type ∈ calls.*1.
Proof.
  intros T HT calls.
  assert (G : forall attrs : list (T * Z),
             NoDup attrs.*1 ->
             NoDup (set_all attrs calls).*1 /\
             forall type, type ∈ (set_all attrs calls).*1 <->
                          type ∈ attrs.*1 \/ type ∈ calls.*1).
  { induction calls as [|[ty v] calls IH]; intros attrs Hnd; simpl.
    - split; [exact Hnd|]. intros type. rewrite elem_of_nil. tauto.
    - destruct (IH (setCppcheckAttribute attrs ty v)
                  (setCppcheckAttribute_NoDup attrs ty v Hnd)) as [Hn Hm].
      split; [exact Hn|]. intros type. unfold set_all in Hm. rewrite Hm.
      rewrite elem_of_cons. unfold setCppcheckAttribute.
      destruct (set_existing attrs ty v) as [attrs'|] eqn:E.
      + rewrite (set_existing_types ty v attrs attrs' E).
        assert (Hin : ty ∈ attrs.*1).
        { destruct (decide (ty ∈ attrs.*1)) as [|Hn']; [assumption|].
          apply set_existing_None with (value := v) in Hn'. congruence. }
        split; [tauto|]. intros [?|[->|?]]; tauto.
      + simpl. rewrite elem_of_cons. tauto. }
  destruct (G [] (NoDup_nil_2)) as [Hn Hm]. split; [exact Hn|].
  intros type. rewrite Hm, elem_of_nil. tauto.
Qed.

(** X3: [getCppcheckAttribute] returns false exactly when no node has the
    type asked for, and then the reference keeps the value it had. *)
Theorem getCppcheckAttribute_missing :
  forall {T : Type} `{EqDecision T} (attrs : list (T * Z)) (type : T) (old : Z),
    ((getCppcheckAttribute attrs type old).1 = false <-> type ∉ attrs.*1) /\
    ((getCppcheckAttribute attrs type old).1 = false ->
     (getCppcheckAttribute attrs type old).2 = old).
Proof.
  intros T HT attrs type old.
  induction attrs as [|[ty v] rest [IH1 IH2]]; simpl.
  - split; [|reflexivity]. split; [intros _; apply not_elem_of_nil | reflexivity].
  - destruct (decide (ty = type)) as [->|Hne]; simpl.
    + split; [|discriminate]. split; [discriminate|].
      intros Hn. exfalso. apply Hn. left.
    + split; [|exact IH2]. rewrite not_elem_of_cons, IH1. intuition congruence.
Qed.

(** ** The token list as a sequence *)

Lemma nbrs_Some (h : Heap) (x : ptr) (p n : option ptr) :
  nbrs h x = Some (p, n) <->
  exists t, toks h !! x = Some t /\ mPrevious t = p /\ mNext t = n.
Proof.
  unfold nbrs. destruct (toks h !! x) as [t|]; simpl; split.
  - intros E. exists t. inversion E. auto.
  - intros (t' & E & <- & <-). congruence.
  - discriminate.
  - intros (t' & E & _). discriminate.
Qed.

Lemma chain_cons (h : Heap) (p n : option ptr) (a : ptr) (l : list ptr) :
  chain h p (a :: l) n = true <->
  nbrs h a = Some (p, first_or l n) /\ chain h (Some a) l n = true.
Proof.
  simpl. unfold nbrs. destruct (toks h !! a) as [t|]; simpl.
  - rewrite !andb_true_iff, !optptr_eqb_eq. fold (first_or l n).
    split; [intros [[-> ->] ?]; auto | intros [E ?]; inversion E; auto].
  - split; [discriminate | intros [? _]; discriminate].
Qed.

Lemma chain_ext (h h' : Heap) :
  forall (l : list ptr) (p n : option ptr),
    (forall x, x ∈ l -> nbrs h' x = nbrs h x) ->
    chain h' p l n = true -> chain h p l n = true.
Proof.
  induction l as [|a l IH]; intros p n E; [reflexivity|].
  rewrite !chain_cons. intros [Ha Hl]. split.
  - rewrite <- E; [exact Ha | left].
  - apply IH; [|exact Hl]. intros x Hx. apply E. now right.
Qed.

Lemma last_or_cons (a : ptr) (l : list ptr) (p : option ptr) :
  last_or (a :: l) p = last_or l (Some a).
Proof.
  unfold last_or. destruct l as [|b l]; [reflexivity|].
  rewrite last_cons_cons. destruct (last (b :: l)) eqn:E; [reflexivity|].
  apply last_None in E. discriminate.
Qed.

Lemma chain_app (h : Heap) :
  forall (l1 l2 : list ptr) (p n : option ptr),
    chain h p (l1 ++ l2) n = true <->
    chain h p l1 (first_or l2 n) = true /\ chain h (last_or l1 p) l2 n = true.
Proof.
  induction l1 as [|a l1 IH]; intros l2 p n.
  - simpl. unfold last_or. simpl. tauto.
  - rewrite <- app_comm_cons, !chain_cons, IH, last_or_cons.
    assert (E : first_or (l1 ++ l2) n = first_or l1 (first_or l2 n))
      by now destruct l1.
    rewrite E. tauto.
Qed.

Lemma chain_live (h : Heap) :
  forall (l : list ptr) (p n : option ptr) (x : ptr),
    chain h p l n = true -> x ∈ l -> is_Some (toks h !! x).
Proof.
  induction l as [|a l IH]; intros p n x Hc Hx; [now apply elem_of_nil in Hx|].
  apply chain_cons in Hc as [Ha Hl]. apply elem_of_cons in Hx as [->|Hx].
  - unfold nbrs in Ha. destruct (toks h !! a); [eauto | discriminate].
  - eapply IH; eassumption.
Qed.

Lemma nbrs_store (h : Heap) (a : ptr) (t : Token) (x : ptr) :
  nbrs (store h a t) x =
  if decide (a = x) then Some (mPrevious t, mNext t) else nbrs h x.
Proof. unfold nbrs. rewrite lookup_store. now destruct (decide (a = x)). Qed.

Lemma nbrs_free (h : Heap) (a x : ptr) :
  nbrs (free h a) x = if decide (a = x) then None else nbrs h x.
Proof. unfold nbrs. rewrite lookup_free. now destruct (decide (a = x)). Qed.

Lemma payload_store (h : Heap) (a : ptr) (t : Token) (x : ptr) :
  payload (store h a t) x =
  if decide (a = x) then Some (mStr t, mImpl t) else payload h x.
Proof. unfold payload. rewrite lookup_store. now destruct (decide (a = x)). Qed.

Lemma payload_free (h : Heap) (a x : ptr) :
  payload (free h a) x = if decide (a = x) then None else payload h x.
Proof. unfold payload. rewrite lookup_free. now destruct (decide (a = x)). Qed.

Lemma payload_None (h : Heap) (x : ptr) :
  payload h x = None <-> toks h !! x = None.
Proof. unfold payload. destruct (toks h !! x); simpl; split; congruence. Qed.

Lemma chain_store_other (h : Heap) (a : ptr) (t : Token) (l : list ptr)
    (p n : option ptr) :
  a ∉ l -> chain h p l n = true -> chain (store h a t) p l n = true.
Proof.
  intros Ha. apply chain_ext. intros x Hx. rewrite nbrs_store.
  destruct (decide (a = x)) as [->|]; [contradiction | reflexivity].
Qed.

Lemma chain_free (h : Heap) (a : ptr) (l : list ptr) (p n : option ptr) :
  a ∉ l -> chain h p l n = true -> chain (free h a) p l n = true.
Proof.
  intros Ha. apply chain_ext. intros x Hx. rewrite nbrs_free.
  destruct (decide (a = x)) as [->|]; [contradiction | reflexivity].
Qed.

Lemma chain_with_back (h : Heap) (b : option ptr) (l : list ptr)
    (p n : option ptr) :
  chain h p l n = true -> chain (with_back b h) p l n = true.
Proof. apply chain_ext. reflexivity. Qed.

Lemma chain_with_front (h : Heap) (b : option ptr) (l : list ptr)
    (p n : option ptr) :
  chain h p l n = true -> chain (with_front b h) p l n = true.
Proof. apply chain_ext. reflexivity. Qed.

(** The successor of the last token of a chain is set. *)
Lemma chain_set_next (h : Heap) (l : list ptr) (a : ptr) (t : Token)
    (p n n' : option ptr) :
  a ∉ l -> toks h !! a = Some t ->
  chain h p (l ++ [a]) n = true ->
  chain (store h a (with_mNext n' t)) p (l ++ [a]) n' = true.
Proof.
  intros Ha Ht. rewrite !chain_app. intros [H1 H2]. split.
  - now apply chain_store_other.
  - apply chain_cons in H2 as [H2 _]. apply chain_cons. split; [|reflexivity].
    rewrite nbrs_store, decide_True by reflexivity. simpl.
    apply nbrs_Some in H2 as (t' & Ht' & Hp & _).
    assert (t' = t) by congruence. subst t'. now rewrite Hp.
Qed.

(** The predecessor of the first token of a chain is set. *)
Lemma chain_set_prev (h : Heap) (l : list ptr) (a : ptr) (t : Token)
    (p p' n : option ptr) :
  a ∉ l -> toks h !! a = Some t ->
  chain h p (a :: l) n = true ->
  chain (store h a (with_mPrevious p' t)) p' (a :: l) n = true.
Proof.
  intros Ha Ht. rewrite !chain_cons. intros [H1 H2]. split.
  - rewrite nbrs_store, decide_True by reflexivity. simpl.
    apply nbrs_Some in H1 as (t' & Ht' & _ & Hn).
    assert (t' = t) by congruence. subst t'. now rewrite Hn.
  - now apply chain_store_other.
Qed.

(** ** deleteNext and deletePrevious on a token list *)

Lemma link_at_frame (O : Oracles) (h h1 : Heap) (p : ptr) (q : option ptr) :
  link_at O h p q = Ok h1 ->
  front h1 = front h /\ back h1 = back h /\
  forall x, nbrs h1 x = nbrs h x /\ payload h1 x = payload h x.
Proof.
  unfold link_at. intros Hrun.
  apply bind_Ok in Hrun as (t & Ht & Hrun). apply deref_Ok in Ht.
  apply bind_Ok in Hrun as (t' & Hl & Hrun). inversion Hrun; subst h1.
  destruct (link_Ok O q t) as (t'' & Hl' & Es & En & Ep & _ & Ei).
  assert (t'' = t') by congruence. subst t''. simpl in *.
  repeat split; try reflexivity.
  - rewrite nbrs_store. destruct (decide (p = x)) as [<-|]; [|reflexivity].
    unfold nbrs. rewrite Ht. simpl. now rewrite En, Ep.
  - rewrite payload_store. destruct (decide (p = x)) as [<-|]; [|reflexivity].
    unfold payload. rewrite Ht. simpl. now rewrite Es, Ei.
Qed.

Lemma link_at_total (O : Oracles) (h : Heap) (p : ptr) (q : option ptr) :
  is_Some (toks h !! p) -> exists h1, link_at O h p q = Ok h1.
Proof.
  intros [t Ht]. unfold link_at. rewrite (deref_live h p t Ht). simpl.
  destruct (link_Ok O q t) as (t' & -> & _). simpl. eauto.
Qed.

Lemma destroy_link_to_frame (O : Oracles) (h h1 : Heap) (n : ptr) :
  destroy_link_to O h n = Ok h1 ->
  front h1 = front h /\ back h1 = back h /\
  forall x, nbrs h1 x = nbrs h x /\ payload h1 x = payload h x.
Proof.
  unfold destroy_link_to. intros Hrun.
  apply bind_Ok in Hrun as (tn & Hn & Hrun).
  destruct (mLink tn) as [l|].
  - apply bind_Ok in Hrun as (tl & Hl & Hrun).
    destruct (optptr_eqb (mLink tl) (Some n)).
    + apply (link_at_frame O h h1 l None). unfold link_at. now rewrite Hl.
    + inversion Hrun; subst h1. auto.
  - inversion Hrun; subst h1. auto.
Qed.

Lemma destroy_link_to_total (O : Oracles) (h : Heap) (n : ptr) :
  links_symmetric h -> is_Some (toks h !! n) ->
  exists h1, destroy_link_to O h n = Ok h1.
Proof.
  intros Hs [tn Hn]. unfold destroy_link_to.
  rewrite (deref_live h n tn Hn). simpl.
  destruct (mLink tn) as [l|] eqn:El; [|eauto].
  destruct (Hs n l tn Hn El) as (tl & Hl & Hb).
  rewrite (deref_live h l tl Hl). simpl. rewrite Hb. simpl.
  rewrite ptr_eqb_refl.
  destruct (link_Ok O None tl) as (t' & -> & _). simpl. eauto.
Qed.

Lemma destroy_link_to_live (O : Oracles) (h : Heap) (n : ptr) :
  is_Some (toks h !! n) ->
  (forall b, lnk h n = Some (Some b) -> is_Some (toks h !! b)) ->
  exists h1, destroy_link_to O h n = Ok h1.
Proof.
  intros [tn Hn] Hlive. unfold destroy_link_to.
  rewrite (deref_live h n tn Hn). simpl.
  destruct (mLink tn) as [l|] eqn:El; [|eauto].
  destruct (Hlive l) as [tl Hl]; [unfold lnk; rewrite Hn; simpl; now rewrite El|].
  rewrite (deref_live h l tl Hl). simpl.
  destruct (optptr_eqb (mLink tl) (Some n)); [|eauto].
  destruct (link_Ok O None tl) as (t' & -> & _). simpl. eauto.
Qed.

Lemma nbrs_live (h : Heap) (x : ptr) (v : option ptr * option ptr) :
  nbrs h x = Some v -> exists t, toks h !! x = Some t /\ v = (mPrevious t, mNext t).
Proof.
  unfold nbrs. destruct (toks h !! x) as [t|]; [|discriminate].
  intros E. inversion E. eauto.
Qed.

Lemma deleteNext_loop_chain (O : Oracles) (count : nat) :
  forall (h : Heap) (l1 : list ptr) (this : ptr) (l2 : list ptr) (q : option ptr),
    NoDup (l1 ++ this :: l2) ->
    chain h None (l1 ++ [this]) (first_or l2 None) = true ->
    chain h q l2 None = true ->
    sym_on h (take count l2) ->
    exists (h' : Heap) (q' : option ptr),
      deleteNext_loop O count h this = Ok h' /\
      chain h' None (l1 ++ [this]) (first_or (drop count l2) None) = true /\
      chain h' q' (drop count l2) None = true /\
      front h' = front h /\ back h' = back h /\
      forall x, payload h' x = if decide (x ∈ take count l2) then None
                               else payload h x.
Proof.
  induction count as [|count IH]; intros h l1 this l2 q Hnd Hc1 Hc2 Hs.
  - exists h, q. simpl.
    assert (Hlive : is_Some (toks h !! this)).
    { eapply chain_live; [exact Hc1|]. apply elem_of_app. right. left. }
    destruct Hlive as [t Ht]. rewrite (deref_live h this t Ht). simpl.
    rewrite drop_0.
    split; [now destruct (mNext t)|]. repeat split; assumption.
  - assert (Hlive : is_Some (toks h !! this)).
    { eapply chain_live; [exact Hc1|]. apply elem_of_app. right. left. }
    destruct Hlive as [t Ht].
    pose proof Hc1 as Hc1'. apply chain_app in Hc1' as [_ Hlast].
    apply chain_cons in Hlast as [Hlast _]. simpl in Hlast.
    apply nbrs_Some in Hlast as (t0 & Ht0 & _ & Hnext).
    assert (t0 = t) by congruence. subst t0.
    destruct l2 as [|n l2].
    + exists h, q. simpl in Hnext. simpl.
      rewrite (deref_live h this t Ht). simpl. rewrite Hnext.
      repeat split; assumption.
    + simpl in Hnext.
      apply NoDup_app in Hnd as (Hnd1 & Hdis & Hnd2).
      apply NoDup_cons in Hnd2 as [Hthis Hnd2].
      apply NoDup_cons in Hnd2 as [Hn Hnd2].
      assert (Hn_this : n <> this).
      { intros ->. apply Hthis. left. }
      assert (Hn_l1 : n ∉ l1).
      { intros Hin. apply (Hdis n Hin). right. left. }
      assert (Hthis_l1 : this ∉ l1).
      { intros Hin. apply (Hdis this Hin). left. }
      apply chain_cons in Hc2 as [Hnb Hc2].
      apply nbrs_Some in Hnb as (tn & Htn & _ & Hnn).
      assert (Hn_in : n ∈ take (S count) (n :: l2)) by left.
      destruct (destroy_link_to_live O h n) as [h1 Hd]; [eauto | |].
      { intros b Hb. apply (Hs n b Hn_in) in Hb.
        apply lnk_Some in Hb as (tb & Hb & _). eauto. }
      destruct (destroy_link_to_frame O h h1 n Hd) as (Hf1 & Hb1 & Hfr).
      assert (Hn1 : exists tn1, toks h1 !! n = Some tn1 /\ mNext tn1 = first_or l2 None).
      { destruct (Hfr n) as [E _]. unfold nbrs in E. rewrite Htn in E.
        destruct (toks h1 !! n) as [tn1|]; [|discriminate]. simpl in E.
        exists tn1. split; [reflexivity|]. inversion E. congruence. }
      destruct Hn1 as (tn1 & Htn1 & Hnn1).
      assert (Ht1 : exists t1, toks h1 !! this = Some t1).
      { destruct (Hfr this) as [E _]. unfold nbrs in E. rewrite Ht in E.
        destruct (toks h1 !! this) as [t1|]; [eauto | discriminate]. }
      destruct Ht1 as (t1 & Ht1).
      set (h3 := free (store h1 this (with_mNext (mNext tn1) t1)) n).
      assert (Hext1 : forall l p nx, chain h p l nx = true -> chain h1 p l nx = true).
      { intros l p nx. apply chain_ext. intros x _. symmetry. apply Hfr. }
      assert (Hs3 : sym_on h3 (take count l2)).
      { pose proof (delete_round_unlinked O h h1 this n t1
                      (with_mNext (mNext tn1)) Hd Ht1 eq_refl) as Hu.
        fold h3 in Hu. intros x b Hx Hxb.
        assert (Hx' : x ∈ take (S count) (n :: l2)) by now right.
        pose proof (Hu x) as Ex. rewrite Hxb in Ex.
        destruct (decide (x = n)) as [|Hxn]; [discriminate|].
        destruct (decide (lnk h n = Some (Some x) /\ lnk h x = Some (Some n)))
          as [|Hcx]; [discriminate|].
        symmetry in Ex. pose proof (Hs x b Hx' Ex) as Eb.
        rewrite (Hu b). destruct (decide (b = n)) as [->|Hbn].
        - exfalso. apply Hcx. split; [exact Eb|]. now apply (Hs n x Hn_in).
        - rewrite decide_False; [exact Eb|].
          intros [_ E]. rewrite Eb in E. congruence. }
      destruct (IH h3 l1 this l2 (Some n)) as (h' & q' & Hrun & Hc1' & Hc2' & Hf' & Hb' & Hp').
      * apply NoDup_app. repeat split; [exact Hnd1 | | ].
        -- intros x Hx Hin. apply (Hdis x Hx).
           apply elem_of_cons in Hin as [->|Hin]; [left | right; now right].
        -- apply NoDup_cons. split; [|exact Hnd2].
           intros Hin. apply Hthis. now right.
      * subst h3. apply chain_free.
        { intros Hin. apply elem_of_app in Hin as [Hin|Hin]; [contradiction|].
          apply list_elem_of_singleton in Hin. contradiction. }
        rewrite Hnn1. apply (chain_set_next h1 l1 this t1 None (Some n));
          [exact Hthis_l1 | exact Ht1 | now apply Hext1].
      * subst h3. apply chain_free; [exact Hn|].
        apply chain_store_other; [|now apply Hext1].
        intros Hin. apply Hthis. now right.
      * exact Hs3.
      * exists h', q'. split.
        { simpl. rewrite (deref_live h this t Ht). simpl. rewrite Hnext.
          rewrite Hd. simpl. rewrite (deref_live h1 n tn1 Htn1). simpl.
          rewrite (deref_live h1 this t1 Ht1). simpl. exact Hrun. }
        assert (Hf3 : front h3 = front h1) by reflexivity.
        assert (Hb3 : back h3 = back h1) by reflexivity.
        simpl. repeat split; try assumption; try congruence.
        intros x. rewrite Hp'. subst h3.
        rewrite payload_free, payload_store.
        destruct (decide (x ∈ take count l2)) as [Hin|Hnin].
        -- rewrite decide_True; [reflexivity | now right].
        -- destruct (decide (n = x)) as [->|Hne].
           ++ rewrite decide_True; [reflexivity | left].
           ++ assert (Hx : x ∉ n :: take count l2).
              { intros Hin. apply elem_of_cons in Hin as [->|Hin]; contradiction. }
              rewrite (decide_False (P := x ∈ n :: take count l2)) by exact Hx.
              destruct (decide (this = x)) as [<-|]; [|apply Hfr].
              destruct (Hfr this) as [_ E]. rewrite <- E.
              unfold payload. now rewrite Ht1.
Qed.

Lemma token_listb_sound (h : Heap) (l : list ptr) :
  token_listb h l = true -> token_list h l.
Proof.
  unfold token_listb, token_list. rewrite !andb_true_iff.
  intros [[[H1 H2] H3] H4].
  apply bool_decide_eq_true in H1, H3, H4. auto.
Qed.

Lemma last_or_snoc (l : list ptr) (a : ptr) (p : option ptr) :
  last_or (l ++ [a]) p = Some a.
Proof. unfold last_or. now rewrite last_snoc. Qed.

Lemma last_drop_cons (l : list ptr) (this : ptr) (count : nat) :
  drop count l <> [] -> last (this :: drop count l) = last (this :: l).
Proof.
  intros Hne. destruct (drop count l) as [|m r] eqn:E; [contradiction|].
  rewrite <- (take_drop count l) at 1. rewrite E.
  change (this :: take count l ++ m :: r) with ((this :: take count l) ++ m :: r).
  rewrite (last_app_cons (this :: take count l) r m).
  now rewrite last_cons_cons.
Qed.

Lemma deleteNext_on_list_gen :
  forall (O : Oracles) (h : Heap) (l1 : list ptr) (this : ptr) (l2 : list ptr)
         (count : nat),
    token_list h (l1 ++ this :: l2) -> sym_on h (take count l2) ->
    exists h',
      deleteNext O h this count = Ok h' /\
      token_list h' (l1 ++ this :: drop count l2) /\
      forall x, payload h' x = if decide (x ∈ take count l2) then None
                               else payload h x.
Proof.
  intros O h l1 this l2 count (Hnd & Hc & Hf & Hb) Hs.
  rewrite cons_middle, app_assoc in Hc. apply chain_app in Hc as [Hc1 Hc2].
  destruct (deleteNext_loop_chain O count h l1 this l2 _ Hnd Hc1 Hc2 Hs)
    as (h1 & q' & Hloop & Hc1' & Hc2' & Hf1 & Hb1 & Hp1).
  assert (Hlive : is_Some (toks h1 !! this)).
  { eapply chain_live; [exact Hc1'|]. apply elem_of_app. right. left. }
  destruct Hlive as [t Ht].
  pose proof Hc1' as Hlast. apply chain_app in Hlast as [_ Hlast].
  apply chain_cons in Hlast as [Hlast _]. simpl in Hlast.
  apply nbrs_Some in Hlast as (t0 & Ht0 & _ & Hnext).
  assert (t0 = t) by congruence. subst t0.
  assert (Hnd' : NoDup (l1 ++ this :: drop count l2)).
  { eapply sublist_NoDup; [exact Hnd|].
    apply sublist_app; [reflexivity|]. apply sublist_skip, sublist_drop. }
  assert (Hrun : exists h',
             deleteNext O h this count = Ok h' /\
             token_list h' (l1 ++ this :: drop count l2) /\
             forall x, payload h' x = payload h1 x).
  { unfold deleteNext. rewrite Hloop. simpl.
    rewrite (deref_live h1 this t Ht). simpl. rewrite Hnext.
    destruct (drop count l2) as [|m r] eqn:Ed; simpl.
    - eexists. split; [reflexivity|]. split; [|reflexivity].
      split; [exact Hnd'|]. split; [|split].
      + apply chain_with_back. exact Hc1'.
      + simpl. rewrite Hf1, Hf. now rewrite !head_app.
      + simpl. now rewrite last_snoc.
    - assert (Hm : is_Some (toks h1 !! m)).
      { eapply chain_live; [exact Hc2'|]. left. }
      destruct Hm as [tm Htm]. rewrite (deref_live h1 m tm Htm). simpl.
      eexists. split; [reflexivity|].
      assert (Hm_pre : m ∉ l1 ++ [this]).
      { apply NoDup_app in Hnd' as (_ & Hdis & Hnd2).
        apply NoDup_cons in Hnd2 as [Hthis _].
        intros Hin. apply elem_of_app in Hin as [Hin|Hin].
        - apply (Hdis m Hin). right. left.
        - apply list_elem_of_singleton in Hin. subst m. apply Hthis. left. }
      assert (Hm_r : m ∉ r).
      { apply NoDup_app in Hnd' as (_ & _ & Hnd2).
        apply NoDup_cons in Hnd2 as [_ Hnd2].
        now apply NoDup_cons in Hnd2 as [Hm _]. }
      split; [split; [exact Hnd'|split; [|split]]|].
      + rewrite cons_middle, app_assoc. apply chain_app. split.
        * apply chain_store_other; [exact Hm_pre | exact Hc1'].
        * rewrite last_or_snoc.
          apply (chain_set_prev h1 r m tm q' (Some this) None Hm_r Htm Hc2').
      + simpl. rewrite Hf1, Hf. now rewrite !head_app.
      + simpl. rewrite Hb1, Hb. rewrite !last_app_cons.
        rewrite <- Ed. apply eq_sym, last_drop_cons. rewrite Ed. discriminate.
      + intros x. rewrite payload_store.
        destruct (decide (m = x)) as [<-|]; [|reflexivity].
        unfold payload. now rewrite Htm. }
  destruct Hrun as (h' & Hrun & Hl & Hp).
  exists h'. split; [exact Hrun|]. split; [exact Hl|].
  intros x. now rewrite Hp, Hp1.
Qed.

Lemma links_symmetric_sym_on (h : Heap) (l : list ptr) :
  links_symmetric h -> sym_on h l.
Proof. rewrite links_symmetric_lnk. intros Hs x b _. apply Hs. Qed.

Lemma deleteNext_on_list :
  forall (O : Oracles) (h : Heap) (l1 : list ptr) (this : ptr) (l2 : list ptr)
         (count : nat),
    token_list h (l1 ++ this :: l2) -> links_symmetric h ->
    exists h',
      deleteNext O h this count = Ok h' /\
      token_list h' (l1 ++ this :: drop count l2) /\
      links_symmetric h' /\
      forall x, payload h' x = if decide (x ∈ take count l2) then None
                               else payload h x.
Proof.
  intros O h l1 this l2 count Hl Hs.
  destruct (deleteNext_on_list_gen O h l1 this l2 count Hl
              (links_symmetric_sym_on h _ Hs)) as (h' & Hrun & Hl' & Hp).
  exists h'. split; [exact Hrun|]. split; [exact Hl'|]. split; [|exact Hp].
  now apply (deleteNext_links O h this count h' Hrun).
Qed.


(** X4: on a token list with symmetric bracket links, [deleteNext(count)]
    returns; the [count] tokens after [this], or as many as there are, are
    taken out of the list and freed, the list stays chained from [front]
    to [back], the links stay symmetric, and every other token keeps its
    text and what is behind its [mImpl]. *)
Theorem deleteNext_removes_the_next_tokens :
  forall (O : Oracles) (h : Heap) (l1 : list ptr) (this : ptr) (l2 : list ptr)
         (count : nat),
    token_list h (l1 ++ this :: l2) -> links_symmetric h ->
    exists h',
      deleteNext O h this count = Ok h' /\
      token_list h' (l1 ++ this :: drop count l2) /\
      links_symmetric h' /\
      forall x, payload h' x = if decide (x ∈ take count l2) then None
                               else payload h x.
Proof. exact deleteNext_on_list. Qed.

Lemma deleteNext_removes_the_next_tokens_witness :
  exists h',
    deleteNext example_oracles stream_call 1 2 = Ok h' /\
    token_list h' [1; 4; 5] /\
    payload h' 2 = None /\ payload h' 4 = payload stream_call 4.
Proof.
  destruct (deleteNext_removes_the_next_tokens example_oracles stream_call
              [] 1 [2; 3; 4; 5] 2
              (token_listb_sound stream_call [1; 2; 3; 4; 5] eq_refl)
              (links_symmetricb_sound stream_call eq_refl))
    as (h' & Hrun & Hl & _ & Hp).
  exists h'. split; [exact Hrun|]. split; [exact Hl|].
  split; rewrite Hp; reflexivity.
Defined.

Lemma last_or_Some (l : list ptr) (p : option ptr) (a : ptr) :
  last_or l p = Some a -> l = [] /\ p = Some a \/ exists l', l = l' ++ [a].
Proof.
  unfold last_or. destruct l as [|b l] using rev_ind.
  - simpl. auto.
  - rewrite last_snoc. intros [= ->]. right. eauto.
Qed.

Lemma deletePrevious_loop_chain (O : Oracles) (count : nat) :
  forall (h : Heap) (l1 : list ptr) (this : ptr) (l2 : list ptr) (q : option ptr),
    NoDup (l1 ++ this :: l2) ->
    chain h None l1 q = true ->
    chain h (last_or l1 None) (this :: l2) None = true ->
    links_symmetric h ->
    exists (h' : Heap) (q' : option ptr),
      deletePrevious_loop O count h this = Ok h' /\
      chain h' None (take (length l1 - count) l1) q' = true /\
      chain h' (last_or (take (length l1 - count) l1) None) (this :: l2) None
      = true /\
      front h' = front h /\ back h' = back h /\
      forall x, payload h' x =
                if decide (x ∈ drop (length l1 - count) l1) then None
                else payload h x.
Proof.
  induction count as [|count IH]; intros h l1 this l2 q Hnd Hc1 Hc2 Hs.
  - exists h, q. simpl.
    assert (Hlive : is_Some (toks h !! this)).
    { eapply chain_live; [exact Hc2|]. left. }
    destruct Hlive as [t Ht]. rewrite (deref_live h this t Ht). simpl.
    rewrite Nat.sub_0_r, firstn_all, drop_all.
    split; [now destruct (mPrevious t)|]. repeat split; assumption.
  - assert (Hlive : is_Some (toks h !! this)).
    { eapply chain_live; [exact Hc2|]. left. }
    destruct Hlive as [t Ht].
    pose proof Hc2 as Hfirst. apply chain_cons in Hfirst as [Hfirst Hrest].
    apply nbrs_Some in Hfirst as (t0 & Ht0 & Hprev & _).
    assert (t0 = t) by congruence. subst t0.
    destruct l1 as [|p l1 _] using rev_ind.
    + exists h, q. simpl in Hprev. simpl.
      rewrite (deref_live h this t Ht). simpl. rewrite Hprev.
      repeat split; assumption.
    + rewrite last_or_snoc in Hprev.
      rewrite <- app_assoc in Hnd. simpl in Hnd.
      apply NoDup_app in Hnd as (Hnd1 & Hdis & Hnd2).
      apply NoDup_cons in Hnd2 as [Hp Hnd2].
      apply NoDup_cons in Hnd2 as [Hthis Hnd2].
      assert (Hp_this : p <> this).
      { intros ->. apply Hp. left. }
      assert (Hp_l1 : p ∉ l1).
      { intros Hin. apply (Hdis p Hin). left. }
      assert (Hthis_l1 : this ∉ l1).
      { intros Hin. apply (Hdis this Hin). right. left. }
      assert (Hp_l2 : p ∉ l2).
      { intros Hin. apply Hp. now right. }
      apply chain_app in Hc1 as [Hc1 Hcp].
      apply chain_cons in Hcp as [Hpb _].
      apply nbrs_Some in Hpb as (tp & Htp & Hpp & _).
      destruct (destroy_link_to_total O h p Hs) as [h1 Hd]; [eauto|].
      destruct (destroy_link_to_frame O h h1 p Hd) as (Hf1 & Hb1 & Hfr).
      assert (Hp1 : exists tp1, toks h1 !! p = Some tp1 /\
                                mPrevious tp1 = last_or l1 None).
      { destruct (Hfr p) as [E _]. unfold nbrs in E. rewrite Htp in E.
        destruct (toks h1 !! p) as [tp1|]; [|discriminate]. simpl in E.
        exists tp1. split; [reflexivity|]. inversion E. congruence. }
      destruct Hp1 as (tp1 & Htp1 & Hpp1).
      assert (Ht1 : exists t1, toks h1 !! this = Some t1).
      { destruct (Hfr this) as [E _]. unfold nbrs in E. rewrite Ht in E.
        destruct (toks h1 !! this) as [t1|]; [eauto | discriminate]. }
      destruct Ht1 as (t1 & Ht1).
      set (h3 := free (store h1 this (with_mPrevious (mPrevious tp1) t1)) p).
      assert (Hext1 : forall l a nx, chain h a l nx = true -> chain h1 a l nx = true).
      { intros l a nx. apply chain_ext. intros x _. symmetry. apply Hfr. }
      assert (Hs3 : links_symmetric h3).
      { apply (unlinked_symmetric p h h3); [|exact Hs].
        apply (delete_round_unlinked O h h1 this p t1
                 (with_mPrevious (mPrevious tp1)) Hd Ht1).
        reflexivity. }
      destruct (IH h3 l1 this l2 (Some p))
        as (h' & q' & Hrun & Hc1' & Hc2' & Hf' & Hb' & Hp').
      * apply NoDup_app. repeat split; [exact Hnd1 | | ].
        -- intros x Hx Hin. apply (Hdis x Hx). now right.
        -- apply NoDup_cons. split; [exact Hthis | exact Hnd2].
      * subst h3. apply chain_free; [exact Hp_l1|].
        apply chain_store_other; [exact Hthis_l1 | now apply Hext1].
      * subst h3. apply chain_free.
        { intros Hin. apply elem_of_cons in Hin as [Hin|Hin]; contradiction. }
        rewrite Hpp1.
        apply (chain_set_prev h1 l2 this t1 (Some p)); [exact Hthis | exact Ht1|].
        apply Hext1. apply chain_cons. split; [|exact Hrest].
        apply nbrs_Some. exists t. split; [exact Ht|]. split; [exact Hprev|].
        apply chain_cons in Hc2 as [Hx _]. apply nbrs_Some in Hx as (t' & Ht' & _ & Hn').
        congruence.
      * exact Hs3.
      * assert (Hf3 : front h3 = front h1) by reflexivity.
        assert (Hb3 : back h3 = back h1) by reflexivity.
        assert (Elen : length (l1 ++ [p]) - S count = length l1 - count).
        { rewrite length_app. simpl. lia. }
        rewrite Elen.
        assert (Etake : take (length l1 - count) (l1 ++ [p])
                        = take (length l1 - count) l1).
        { apply take_app_le. lia. }
        assert (Edrop : drop (length l1 - count) (l1 ++ [p])
                        = drop (length l1 - count) l1 ++ [p]).
        { apply drop_app_le. lia. }
        rewrite Etake, Edrop.
        exists h', q'. split.
        { simpl. rewrite (deref_live h this t Ht). simpl. rewrite Hprev.
          rewrite Hd. simpl. rewrite (deref_live h1 p tp1 Htp1). simpl.
          rewrite (deref_live h1 this t1 Ht1). simpl. exact Hrun. }
        repeat split; try assumption; try congruence.
        intros x. rewrite Hp'. subst h3.
        rewrite payload_free, payload_store.
        destruct (decide (x ∈ drop (length l1 - count) l1)) as [Hin|Hnin].
        -- rewrite decide_True; [reflexivity|]. apply elem_of_app. now left.
        -- destruct (decide (p = x)) as [->|Hne].
           ++ rewrite decide_True; [reflexivity|]. apply elem_of_app. right. left.
           ++ assert (Hx : x ∉ drop (length l1 - count) l1 ++ [p]).
              { intros Hin. apply elem_of_app in Hin as [Hin|Hin]; [contradiction|].
                apply list_elem_of_singleton in Hin. congruence. }
              rewrite (decide_False (P := x ∈ drop (length l1 - count) l1 ++ [p]))
                by exact Hx.
              destruct (decide (this = x)) as [<-|]; [|apply Hfr].
              destruct (Hfr this) as [_ E]. rewrite <- E.
              unfold payload. now rewrite Ht1.
Qed.

Lemma deletePrevious_on_list :
  forall (O : Oracles) (h : Heap) (l1 : list ptr) (this : ptr) (l2 : list ptr)
         (count : nat),
    token_list h (l1 ++ this :: l2) -> links_symmetric h ->
    exists h',
      deletePrevious O h this count = Ok h' /\
      token_list h' (take (length l1 - count) l1 ++ this :: l2) /\
      links_symmetric h' /\
      forall x, payload h' x =
                if decide (x ∈ drop (length l1 - count) l1) then None
                else payload h x.
Proof.
  intros O h l1 this l2 count (Hnd & Hc & Hf & Hb) Hs.
  apply chain_app in Hc as [Hc1 Hc2].
  destruct (deletePrevious_loop_chain O count h l1 this l2 _ Hnd Hc1 Hc2 Hs)
    as (h1 & q' & Hloop & Hc1' & Hc2' & Hf1 & Hb1 & Hp1).
  set (k := take (length l1 - count) l1) in *.
  assert (Hlive : is_Some (toks h1 !! this)).
  { eapply chain_live; [exact Hc2'|]. left. }
  destruct Hlive as [t Ht].
  pose proof Hc2' as Hfirst. apply chain_cons in Hfirst as [Hfirst Hrest].
  apply nbrs_Some in Hfirst as (t0 & Ht0 & Hprev & Hnext).
  assert (t0 = t) by congruence. subst t0.
  assert (Hnd' : NoDup (k ++ this :: l2)).
  { eapply sublist_NoDup; [exact Hnd|].
    apply sublist_app; [apply sublist_take | reflexivity]. }
  assert (Hrun : exists h',
             deletePrevious O h this count = Ok h' /\
             token_list h' (k ++ this :: l2) /\
             forall x, payload h' x = payload h1 x).
  { unfold deletePrevious. rewrite Hloop. simpl.
    rewrite (deref_live h1 this t Ht). simpl. rewrite Hprev.
    destruct (last_or k None) as [p|] eqn:El.
    - apply last_or_Some in El as [[_ El]|[k' Ek]]; [discriminate|].
      assert (Hp : is_Some (toks h1 !! p)).
      { eapply chain_live; [exact Hc1'|]. rewrite Ek. apply elem_of_app.
        right. left. }
      destruct Hp as [tp Htp]. rewrite (deref_live h1 p tp Htp). simpl.
      eexists. split; [reflexivity|].
      rewrite Ek in *.
      assert (Hp_k : p ∉ k').
      { apply NoDup_app in Hnd' as (Hnd1 & _ & _).
        apply NoDup_app in Hnd1 as (_ & Hdis & _).
        intros Hin. apply (Hdis p Hin). left. }
      assert (Hp_rest : p ∉ this :: l2).
      { apply NoDup_app in Hnd' as (_ & Hdis & _).
        apply Hdis. apply elem_of_app. right. left. }
      split; [split; [exact Hnd'|split; [|split]]|].
      + apply chain_app. split.
        * apply (chain_set_next h1 k' p tp None q' (Some this) Hp_k Htp Hc1').
        * rewrite last_or_snoc. apply chain_store_other; [exact Hp_rest|].
          exact Hc2'.
      + simpl. rewrite Hf1, Hf. rewrite !head_app.
        destruct (head l1) as [a|] eqn:Ea.
        * destruct l1 as [|a' l1]; [discriminate|]. simpl in Ea.
          assert (Hk : head (k' ++ [p]) = Some a).
          { rewrite <- Ek. destruct (length (a' :: l1) - count) eqn:En.
            - simpl in Ek. destruct k'; discriminate.
            - simpl. exact Ea. }
          rewrite !head_app in Hk. now rewrite Hk.
        * destruct l1; [|discriminate]. simpl in Ek. destruct k'; discriminate.
      + simpl. rewrite Hb1, Hb. now rewrite !last_app_cons.
      + intros x. rewrite payload_store.
        destruct (decide (p = x)) as [<-|]; [|reflexivity].
        unfold payload. now rewrite Htp.
    - eexists. split; [reflexivity|]. split; [|reflexivity].
      assert (Ek : k = []).
      { unfold last_or in El. destruct (last k) eqn:E; [discriminate|].
        now apply last_None in E. }
      rewrite Ek in *. simpl.
      split; [exact Hnd'|]. split; [|split].
      + apply chain_with_front. exact Hc2'.
      + reflexivity.
      + simpl. rewrite Hb1, Hb. now rewrite last_app_cons. }
  destruct Hrun as (h' & Hrun & Hl & Hp).
  exists h'. split; [exact Hrun|]. split; [exact Hl|]. split.
  - now apply (deletePrevious_links O h this count h' Hrun).
  - intros x. now rewrite Hp, Hp1.
Qed.

(** X5: on a token list with symmetric bracket links,
    [deletePrevious(count)] returns; the [count] tokens before [this], or
    as many as there are, are taken out of the list and freed, the list
    stays chained from [front] to [back], the links stay symmetric, and
    every other token keeps its text and what is behind its [mImpl]. *)
Theorem deletePrevious_removes_the_previous_tokens :
  forall (O : Oracles) (h : Heap) (l1 : list ptr) (this : ptr) (l2 : list ptr)
         (count : nat),
    token_list h (l1 ++ this :: l2) -> links_symmetric h ->
    exists h',
      deletePrevious O h this count = Ok h' /\
      token_list h' (take (length l1 - count) l1 ++ this :: l2) /\
      links_symmetric h' /\
      forall x, payload h' x =
                if decide (x ∈ drop (length l1 - count) l1) then None
                else payload h x.
Proof. exact deletePrevious_on_list. Qed.

Lemma deletePrevious_removes_the_previous_tokens_witness :
  exists h',
    deletePrevious example_oracles stream_call 4 2 = Ok h' /\
    token_list h' [1; 4; 5] /\
    payload h' 2 = None /\ payload h' 1 = payload stream_call 1.
Proof.
  destruct (deletePrevious_removes_the_previous_tokens example_oracles
              stream_call [1; 2; 3] 4 [5] 2
              (token_listb_sound stream_call [1; 2; 3; 4; 5] eq_refl)
              (links_symmetricb_sound stream_call eq_refl))
    as (h' & Hrun & Hl & _ & Hp).
  exists h'. split; [exact Hrun|]. split; [exact Hl|].
  split; rewrite Hp; reflexivity.
Defined.

(** ** eraseTokens *)

Lemma token_list_size (h : Heap) (l : list ptr) :
  token_list h l -> length l <= size (toks h).
Proof.
  intros (Hnd & Hc & _). rewrite <- size_dom.
  rewrite <- (size_list_to_set (C := gset ptr) l) by exact Hnd.
  apply subseteq_size. intros x Hx. apply elem_of_list_to_set in Hx.
  apply elem_of_dom. eapply chain_live; eassumption.
Qed.

Lemma token_list_next (h : Heap) (l1 : list ptr) (a : ptr) (l2 : list ptr) :
  token_list h (l1 ++ a :: l2) ->
  exists t, toks h !! a = Some t /\ mNext t = head l2.
Proof.
  intros (_ & Hc & _). apply chain_app in Hc as [_ Hc].
  apply chain_cons in Hc as [Hc _].
  apply nbrs_Some in Hc as (t & Ht & _ & Hn). exists t. split; [exact Ht|].
  rewrite Hn. now destruct l2.
Qed.

Lemma eraseTokens_loop_S (O : Oracles) (fuel : nat) (h : Heap) (begin : ptr)
    (e : option ptr) :
  eraseTokens_loop O (S fuel) h begin e =
  let* t := deref h begin in
  match mNext t with
  | None => Ok h
  | Some n =>
      if optptr_eqb (Some n) e then Ok h
      else let* h1 := deleteNext O h begin 1 in
           eraseTokens_loop O fuel h1 begin e
  end.
Proof. reflexivity. Qed.

Lemma eraseTokens_loop_on_list (O : Oracles) (l1 : list ptr) (begin : ptr)
    (l2 : list ptr) :
  forall (mid : list ptr) (fuel : nat) (h : Heap),
    length mid <= fuel ->
    token_list h (l1 ++ begin :: mid ++ l2) -> links_symmetric h ->
    exists h',
      eraseTokens_loop O fuel h begin (head l2) = Ok h' /\
      token_list h' (l1 ++ begin :: l2) /\
      links_symmetric h' /\
      forall x, payload h' x = if decide (x ∈ mid) then None else payload h x.
Proof.
  induction mid as [|m mid IH]; intros fuel h Hfuel Hl Hs.
  - exists h. destruct (token_list_next h l1 begin l2 Hl) as (t & Ht & Hn).
    split.
    + destruct fuel; simpl; rewrite (deref_live h begin t Ht); simpl; rewrite Hn;
        destruct l2 as [|e l2]; simpl; rewrite ?ptr_eqb_refl; reflexivity.
    + split; [exact Hl|]. split; [exact Hs|]. intros x.
      rewrite decide_False; [reflexivity | apply not_elem_of_nil].
  - destruct fuel as [|fuel]; [simpl in Hfuel; lia|].
    destruct (token_list_next h l1 begin ((m :: mid) ++ l2) Hl) as (t & Ht & Hn).
    simpl in Hn.
    assert (Hne : optptr_eqb (Some m) (head l2) = false).
    { destruct l2 as [|e l2]; [reflexivity|]. simpl.
      destruct (ptr_eqb m e) eqn:E; [|reflexivity].
      apply ptr_eqb_eq in E. subst e. destruct Hl as (Hnd & _).
      apply NoDup_app in Hnd as (_ & _ & Hnd).
      apply NoDup_cons in Hnd as [_ Hnd]. simpl in Hnd.
      apply NoDup_cons in Hnd as [Hm _]. exfalso. apply Hm.
      apply elem_of_app. right. left. }
    destruct (deleteNext_on_list O h l1 begin ((m :: mid) ++ l2) 1 Hl Hs)
      as (h1 & Hdel & Hl1 & Hs1 & Hp1).
    simpl in Hl1. rewrite drop_0 in Hl1.
    destruct (IH fuel h1 ltac:(simpl in Hfuel; lia) Hl1 Hs1)
      as (h' & Hrun & Hl' & Hs' & Hp').
    exists h'. split.
    + rewrite eraseTokens_loop_S, (deref_live h begin t Ht). cbn [bind].
      rewrite Hn, Hne, Hdel. cbn [bind]. exact Hrun.
    + split; [exact Hl'|]. split; [exact Hs'|]. intros x. rewrite Hp', Hp1.
      simpl. rewrite take_0.
      destruct (decide (x ∈ mid)) as [Hin|Hnin].
      * rewrite decide_True; [reflexivity | now right].
      * destruct (decide (x = m)) as [->|Hxm].
        -- rewrite !decide_True; [reflexivity | left | left].
        -- rewrite (decide_False (P := x ∈ [m])).
           ++ rewrite decide_False; [reflexivity|].
              intros Hin. apply elem_of_cons in Hin as [?|?]; contradiction.
           ++ intros Hin. apply list_elem_of_singleton in Hin. contradiction.
Qed.

(** X6: on a token list with symmetric bracket links,
    [eraseTokens(begin, end)] with [end] a token after [begin], or null,
    returns; the tokens strictly between the two (all the tokens after
    [begin] when [end] is null) are taken out of the list and freed, the
    list stays chained, and every other token keeps its text and what is
    behind its [mImpl]. *)
Theorem eraseTokens_removes_the_tokens_between :
  forall (O : Oracles) (h : Heap) (l1 : list ptr) (begin : ptr)
         (mid l2 : list ptr),
    token_list h (l1 ++ begin :: mid ++ l2) -> links_symmetric h ->
    exists h',
      eraseTokens O h (Some begin) (head l2) = Ok h' /\
      token_list h' (l1 ++ begin :: l2) /\
      links_symmetric h' /\
      forall x, payload h' x = if decide (x ∈ mid) then None else payload h x.
Proof.
  intros O h l1 begin mid l2 Hl Hs. unfold eraseTokens.
  assert (Hne : optptr_eqb (Some begin) (head l2) = false).
  { destruct l2 as [|e l2]; [reflexivity|]. simpl.
    destruct (ptr_eqb begin e) eqn:E; [|reflexivity].
    apply ptr_eqb_eq in E. subst e. destruct Hl as (Hnd & _).
    apply NoDup_app in Hnd as (_ & _ & Hnd).
    apply NoDup_cons in Hnd as [Hb _]. exfalso. apply Hb.
    apply elem_of_app. right. left. }
  rewrite Hne. apply eraseTokens_loop_on_list; [|exact Hl | exact Hs].
  pose proof (token_list_size h _ Hl) as Hsz.
  rewrite length_app in Hsz. simpl in Hsz. rewrite length_app in Hsz. lia.
Qed.

Lemma eraseTokens_removes_the_tokens_between_witness :
  exists h',
    eraseTokens example_oracles stream_call (Some 1) (Some 5) = Ok h' /\
    token_list h' [1; 5] /\
    payload h' 3 = None /\ payload h' 5 = payload stream_call 5.
Proof.
  destruct (eraseTokens_removes_the_tokens_between example_oracles stream_call
              [] 1 [2; 3; 4] [5]
              (token_listb_sound stream_call [1; 2; 3; 4; 5] eq_refl)
              (links_symmetricb_sound stream_call eq_refl))
    as (h' & Hrun & Hl & _ & Hp).
  exists h'. split; [exact Hrun|]. split; [exact Hl|].
  split; rewrite Hp; reflexivity.
Defined.

(** ** deleteThis on a token list *)

Lemma link_at_lnk (O : Oracles) (h h1 : Heap) (p : ptr) (q : option ptr) :
  link_at O h p q = Ok h1 ->
  forall x, lnk h1 x = if decide (x = p) then Some q else lnk h x.
Proof.
  unfold link_at. intros Hrun x.
  apply bind_Ok in Hrun as (t & Ht & Hrun). apply deref_Ok in Ht.
  apply bind_Ok in Hrun as (t' & Hl & Hrun). inversion Hrun; subst h1.
  destruct (link_Ok O q t) as (t'' & Hl' & _ & _ & _ & El & _).
  assert (t'' = t') by congruence. subst t''. simpl in El.
  rewrite lnk_store. destruct (decide (p = x)) as [<-|Hne].
  - rewrite decide_True by reflexivity. now rewrite El.
  - now rewrite decide_False by congruence.
Qed.

Lemma takeData_on_live (O : Oracles) (h : Heap) (this n : ptr) (t f : Token)
    (fi : TokenImpl) :
  toks h !! this = Some t -> toks h !! n = Some f -> this <> n ->
  mImpl f = Some fi ->
  (forall l, mLink f = Some l -> is_Some (toks h !! l)) ->
  exists h1,
    takeData O h this n = Ok h1 /\
    front h1 = front h /\ back h1 = back h /\
    (forall x, nbrs h1 x = nbrs h x) /\
    (forall x, payload h1 x =
               if decide (x = this) then Some (mStr f, Some fi)
               else if decide (x = n) then Some (mStr f, None)
               else payload h x) /\
    (forall x, lnk h1 x =
               if decide (mLink f = Some x) then Some (Some this)
               else if decide (x = this) then Some (mLink f)
               else lnk h x).
Proof.
  intros Ht Hf Hne Hi Hlive. unfold takeData.
  assert (Eb : ptr_eqb this n = false).
  { destruct (ptr_eqb this n) eqn:E; [|reflexivity].
    apply ptr_eqb_eq in E. contradiction. }
  rewrite Eb, (deref_live h this t Ht). cbn [bind].
  rewrite (deref_live h n f Hf). cbn [bind].
  unfold impl. rewrite Hi. cbn [bind].
  set (t' := mkToken (mStr f) (mTokType f) (mFlags f) (mNext t) (mPrevious t)
                     (mLink f) (Some fi) (mIsCpp t)).
  set (h0 := store (store h this t') n (with_mImpl None f)).
  assert (Hn0 : forall x, nbrs h0 x = nbrs h x).
  { intros x. subst h0. rewrite !nbrs_store.
    destruct (decide (n = x)) as [<-|].
    - unfold nbrs. now rewrite Hf.
    - destruct (decide (this = x)) as [<-|]; [|reflexivity].
      unfold nbrs. now rewrite Ht. }
  assert (Hp0 : forall x, payload h0 x =
                          if decide (x = this) then Some (mStr f, Some fi)
                          else if decide (x = n) then Some (mStr f, None)
                          else payload h x).
  { intros x. subst h0. rewrite !payload_store.
    destruct (decide (n = x)) as [<-|Hnx].
    - rewrite decide_False by congruence. now rewrite decide_True.
    - destruct (decide (this = x)) as [<-|Htx].
      + now rewrite decide_True.
      + rewrite !decide_False by congruence. reflexivity. }
  assert (Hl0 : forall x, lnk h0 x =
                          if decide (x = this) then Some (mLink f) else lnk h x).
  { intros x. subst h0. rewrite !lnk_store.
    destruct (decide (n = x)) as [<-|Hnx].
    - rewrite decide_False by congruence. unfold lnk. now rewrite Hf.
    - destruct (decide (this = x)) as [<-|Htx].
      + now rewrite decide_True.
      + now rewrite decide_False by congruence. }
  destruct (mLink f) as [l|] eqn:El.
  - assert (Hl : is_Some (toks h0 !! l)).
    { destruct (Hlive l eq_refl) as [tl Htl].
      destruct (nbrs h0 l) eqn:E.
      - apply nbrs_live in E as (? & ? & _). eauto.
      - rewrite Hn0 in E. unfold nbrs in E. rewrite Htl in E. discriminate. }
    destruct (link_at_total O h0 l (Some this) Hl) as [h1 Hrun].
    exists h1. split; [exact Hrun|].
    destruct (link_at_frame O h0 h1 l (Some this) Hrun) as (Hf1 & Hb1 & Hfr).
    split; [exact Hf1|]. split; [exact Hb1|]. split; [|split].
    + intros x. destruct (Hfr x) as [E _]. now rewrite E, Hn0.
    + intros x. destruct (Hfr x) as [_ E]. now rewrite E, Hp0.
    + intros x. rewrite (link_at_lnk O h0 h1 l (Some this) Hrun x), Hl0.
      destruct (decide (x = l)) as [->|Hxl].
      * now rewrite decide_True.
      * rewrite (decide_False (P := Some l = Some x)) by congruence. reflexivity.
  - exists h0. split; [reflexivity|]. repeat split; assumption.
Qed.

Lemma nbrs_token_list (h h' : Heap) (l : list ptr) :
  (forall x, nbrs h' x = nbrs h x) -> front h' = front h -> back h' = back h ->
  token_list h l -> token_list h' l.
Proof.
  intros E Ef Eb (Hnd & Hc & Hf & Hb). split; [exact Hnd|]. split; [|split].
  - revert Hc. apply chain_ext. intros x _. symmetry. apply E.
  - congruence.
  - congruence.
Qed.

(** What one call [deleteNext()] does to the bracket links. *)
Lemma deleteNext_one_unlinked (O : Oracles) (h h' : Heap) (this n : ptr)
    (t : Token) :
  toks h !! this = Some t -> mNext t = Some n -> n <> this ->
  deleteNext O h this 1 = Ok h' -> unlinked n h h'.
Proof.
  intros Ht Hn Hne. unfold deleteNext. intros Hrun.
  apply bind_Ok in Hrun as (h3 & Hloop & Hrun).
  simpl in Hloop. rewrite (deref_live h this t Ht) in Hloop. cbn [bind] in Hloop.
  rewrite Hn in Hloop.
  apply bind_Ok in Hloop as (h1 & Hd & Hloop).
  apply bind_Ok in Hloop as (tn1 & Htn1 & Hloop).
  apply bind_Ok in Hloop as (t1 & Ht1 & Hloop). apply deref_Ok in Ht1.
  pose proof (delete_round_unlinked O h h1 this n t1 (with_mNext (mNext tn1))
                Hd Ht1 eq_refl) as Hu.
  apply bind_Ok in Hloop as (t3 & Ht3 & Hloop).
  assert (h3 = free (store h1 this (with_mNext (mNext tn1) t1)) n).
  { destruct (mNext t3); congruence. }
  subst h3.
  apply bind_Ok in Hrun as (t4 & Ht4 & Hrun).
  intros x. rewrite <- (Hu x).
  destruct (mNext t4) as [m|].
  - apply bind_Ok in Hrun as (tm & Hm & Hrun). apply deref_Ok in Hm.
    inversion Hrun; subst h'.
    now apply (lnk_store_same _ m tm).
  - inversion Hrun; subst h'. reflexivity.
Qed.

Lemma deleteThis_with_next (O : Oracles) (h : Heap) (l1 : list ptr)
    (this n : ptr) (l2 : list ptr) (s : string) (i : TokenImpl) :
  token_list h (l1 ++ this :: n :: l2) -> links_symmetric h ->
  payload h n = Some (s, Some i) ->
  exists h',
    deleteThis O h this = Ok h' /\
    token_list h' (l1 ++ this :: l2) /\
    (forall x, payload h' x =
               if decide (x = this) then payload h n
               else if decide (x = n) then None
               else payload h x) /\
    (forall x, lnk h' x =
               if decide (x = n) then None
               else if decide (lnk h n = Some (Some x)) then Some (Some this)
               else if decide (x = this) then lnk h n
               else lnk h x).
Proof.
  intros Hl Hs Hpn.
  destruct (token_list_next h l1 this (n :: l2) Hl) as (t & Ht & Hnext).
  simpl in Hnext.
  assert (Hne : this <> n).
  { destruct Hl as (Hnd & _). apply NoDup_app in Hnd as (_ & _ & Hnd).
    apply NoDup_cons in Hnd as [Hx _]. intros ->. apply Hx. left. }
  assert (Hf : exists f, toks h !! n = Some f /\ mStr f = s /\ mImpl f = Some i).
  { unfold payload in Hpn. destruct (toks h !! n) as [f|]; [|discriminate].
    simpl in Hpn. inversion Hpn. eauto. }
  destruct Hf as (f & Hf & Hfs & Hfi).
  assert (Eln : lnk h n = Some (mLink f)) by (unfold lnk; now rewrite Hf).
  destruct (takeData_on_live O h this n t f i Ht Hf Hne Hfi)
    as (h1 & Htake & Hf1 & Hb1 & Hn1 & Hp1 & Hl1).
  { intros l El. destruct (Hs n l f Hf El) as (tl & Htl & _). eauto. }
  assert (Ht1 : exists t1, toks h1 !! this = Some t1 /\ mNext t1 = Some n).
  { pose proof (Hn1 this) as E. unfold nbrs in E. rewrite Ht in E.
    destruct (toks h1 !! this) as [t1|]; [|discriminate]. simpl in E.
    exists t1. split; [reflexivity|]. inversion E. congruence. }
  destruct Ht1 as (t1 & Ht1 & Hnext1).
  assert (Hn_live1 : is_Some (toks h1 !! n)).
  { destruct (nbrs h1 n) eqn:E.
    - apply nbrs_live in E as (? & ? & _). eauto.
    - rewrite Hn1 in E. unfold nbrs in E. rewrite Hf in E. discriminate. }
  destruct (link_at_total O h1 n None Hn_live1) as [h2 Hlink].
  destruct (link_at_frame O h1 h2 n None Hlink) as (Hf2 & Hb2 & Hfr2).
  pose proof (link_at_lnk O h1 h2 n None Hlink) as Hl2.
  assert (Hlist2 : token_list h2 (l1 ++ this :: n :: l2)).
  { apply (nbrs_token_list h h2); [| congruence | congruence | exact Hl].
    intros x. destruct (Hfr2 x) as [E _]. now rewrite E, Hn1. }
  destruct (deleteNext_on_list_gen O h2 l1 this (n :: l2) 1 Hlist2)
    as (h' & Hdel & Hlist' & Hp').
  { intros x b Hx Hxb. simpl in Hx. rewrite take_0 in Hx.
    apply list_elem_of_singleton in Hx. subst x.
    rewrite Hl2, decide_True in Hxb by reflexivity. discriminate. }
  simpl in Hlist'. rewrite drop_0 in Hlist'.
  assert (Ht2 : exists t2, toks h2 !! this = Some t2 /\ mNext t2 = Some n).
  { destruct (Hfr2 this) as [E _]. unfold nbrs in E. rewrite Ht1 in E.
    destruct (toks h2 !! this) as [t2|]; [|discriminate]. simpl in E.
    exists t2. split; [reflexivity|]. inversion E. congruence. }
  destruct Ht2 as (t2 & Ht2 & Hnext2).
  pose proof (deleteNext_one_unlinked O h2 h' this n t2 Ht2 Hnext2
                ltac:(congruence) Hdel) as Hu.
  exists h'. split; [|split; [exact Hlist'|split]].
  - unfold deleteThis. rewrite (deref_live h this t Ht). cbn [bind].
    rewrite Hnext, Htake. cbn [bind].
    rewrite (deref_live h1 this t1 Ht1). cbn [bind]. rewrite Hnext1, Hlink.
    cbn [bind]. exact Hdel.
  - intros x. rewrite Hp'. simpl. rewrite take_0.
    destruct (Hfr2 x) as [_ E]. rewrite E, Hp1.
    destruct (decide (x = this)) as [->|Hxt].
    + rewrite decide_False.
      * unfold payload. rewrite Hf. simpl. now rewrite Hfi.
      * intros Hin. apply list_elem_of_singleton in Hin. congruence.
    + destruct (decide (x = n)) as [->|Hxn].
      * rewrite decide_True; [reflexivity | left].
      * rewrite decide_False; [reflexivity|].
        intros Hin. apply list_elem_of_singleton in Hin. contradiction.
  - intros x. rewrite (Hu x).
    destruct (decide (x = n)) as [->|Hxn]; [reflexivity|].
    rewrite decide_False.
    + rewrite Hl2, decide_False by exact Hxn. rewrite Hl1, Eln.
      destruct (decide (mLink f = Some x)) as [E|E].
      * rewrite (decide_True (P := Some (mLink f) = Some (Some x))) by congruence.
        reflexivity.
      * rewrite (decide_False (P := Some (mLink f) = Some (Some x))) by congruence.
        reflexivity.
    + intros [E _]. rewrite Hl2, decide_True in E by reflexivity. discriminate.
Qed.

(** X7: [deleteThis] on a token of a list that has a successor returns;
    the token stays where it is and takes over the text, what is behind
    [mImpl] and the bracket link of its successor, and the successor is
    taken out of the list and freed.  When the token had no bracket link
    of its own, the links stay symmetric. *)
Theorem deleteThis_takes_over_the_next_token :
  forall (O : Oracles) (h : Heap) (l1 : list ptr) (this n : ptr)
         (l2 : list ptr) (s : string) (i : TokenImpl),
    token_list h (l1 ++ this :: n :: l2) -> links_symmetric h ->
    payload h n = Some (s, Some i) ->
    lnk h this = Some None -> lnk h n <> Some (Some n) ->
    exists h',
      deleteThis O h this = Ok h' /\
      token_list h' (l1 ++ this :: l2) /\
      (forall x, payload h' x =
                 if decide (x = this) then payload h n
                 else if decide (x = n) then None
                 else payload h x) /\
      lnk h' this = lnk h n /\
      links_symmetric h'.
Proof.
  intros O h l1 this n l2 s i Hl Hs Hpn Hthis Hself.
  destruct (deleteThis_with_next O h l1 this n l2 s i Hl Hs Hpn)
    as (h' & Hrun & Hl' & Hp' & Hk').
  assert (Hne : this <> n).
  { destruct Hl as (Hnd & _). apply NoDup_app in Hnd as (_ & _ & Hnd).
    apply NoDup_cons in Hnd as [Hx _]. intros ->. apply Hx. left. }
  exists h'. split; [exact Hrun|]. split; [exact Hl'|]. split; [exact Hp'|].
  pose proof Hs as Hsl. rewrite links_symmetric_lnk in Hsl.
  assert (Hnot_this : lnk h n <> Some (Some this)).
  { intros E. apply Hsl in E. congruence. }
  split.
  - rewrite Hk', decide_False by exact Hne.
    rewrite decide_False by exact Hnot_this. now rewrite decide_True.
  - apply links_symmetric_lnk. intros a b. rewrite !Hk'.
    destruct (decide (a = n)) as [->|Han]; [discriminate|].
    destruct (decide (lnk h n = Some (Some a))) as [Ena|Ena].
    + intros [= <-]. rewrite decide_False by exact Hne.
      rewrite decide_False by exact Hnot_this. now rewrite decide_True.
    + destruct (decide (a = this)) as [->|Hat].
      * intros Enb. rewrite decide_False by congruence.
        now rewrite decide_True.
      * intros Eab. pose proof (Hsl a b Eab) as Eba.
        rewrite decide_False by congruence.
        rewrite decide_False.
        -- rewrite decide_False by congruence. exact Eba.
        -- intros E. apply Hsl in E. congruence.
Qed.

Lemma deleteThis_takes_over_the_next_token_witness :
  exists h',
    deleteThis example_oracles stream_call 3 = Ok h' /\
    token_list h' [1; 2; 3; 5] /\
    payload h' 3 = payload stream_call 4 /\
    lnk h' 3 = Some (Some 2) /\ links_symmetric h'.
Proof.
  destruct (deleteThis_takes_over_the_next_token example_oracles stream_call
              [1; 2] 3 4 [5] ")" (plain_impl 0)
              (token_listb_sound stream_call [1; 2; 3; 4; 5] eq_refl)
              (links_symmetricb_sound stream_call eq_refl)
              eq_refl eq_refl ltac:(vm_compute; discriminate))
    as (h' & Hrun & Hl & Hp & Hk & Hs).
  exists h'. split; [exact Hrun|]. split; [exact Hl|].
  split; [rewrite Hp; reflexivity|]. split; [rewrite Hk; reflexivity | exact Hs].
Defined.

(** X8: [deleteThis] on a token that is linked with a bracket [q] returns
    with the link of [q] still pointing at the token, while the token now
    carries the link of its former successor: the bracket links are no
    longer symmetric. *)
Theorem deleteThis_on_a_linked_token_leaves_a_stale_link :
  forall (O : Oracles) (h : Heap) (l1 : list ptr) (this n : ptr)
         (l2 : list ptr) (s : string) (i : TokenImpl) (q : ptr),
    token_list h (l1 ++ this :: n :: l2) -> links_symmetric h ->
    payload h n = Some (s, Some i) ->
    lnk h this = Some (Some q) -> q <> this -> q <> n ->
    exists h',
      deleteThis O h this = Ok h' /\
      lnk h' q = Some (Some this) /\
      lnk h' this = lnk h n /\
      lnk h' this <> Some (Some q) /\
      ~ links_symmetric h'.
Proof.
  intros O h l1 this n l2 s i q Hl Hs Hpn Hthis Hqt Hqn.
  destruct (deleteThis_with_next O h l1 this n l2 s i Hl Hs Hpn)
    as (h' & Hrun & Hl' & Hp' & Hk').
  assert (Hne : this <> n).
  { destruct Hl as (Hnd & _). apply NoDup_app in Hnd as (_ & _ & Hnd).
    apply NoDup_cons in Hnd as [Hx _]. intros ->. apply Hx. left. }
  pose proof Hs as Hsl. rewrite links_symmetric_lnk in Hsl.
  pose proof (Hsl this q Hthis) as Hq.
  assert (Hnq : lnk h n <> Some (Some q)).
  { intros E. apply Hsl in E. congruence. }
  assert (Hnt : lnk h n <> Some (Some this)).
  { intros E. apply Hsl in E. congruence. }
  assert (E1 : lnk h' q = Some (Some this)).
  { rewrite Hk', decide_False by exact Hqn.
    rewrite decide_False by exact Hnq. now rewrite decide_False by exact Hqt. }
  assert (E2 : lnk h' this = lnk h n).
  { rewrite Hk', decide_False by exact Hne.
    rewrite decide_False by exact Hnt. now rewrite decide_True. }
  exists h'. split; [exact Hrun|]. split; [exact E1|]. split; [exact E2|].
  split; [congruence|].
  rewrite links_symmetric_lnk. intros Hs'. apply Hs' in E1. congruence.
Qed.

Lemma deleteThis_on_a_linked_token_leaves_a_stale_link_witness :
  exists h',
    deleteThis example_oracles stream_call 2 = Ok h' /\
    lnk h' 4 = Some (Some 2) /\ lnk h' 2 = Some None /\
    ~ links_symmetric h'.
Proof.
  destruct (deleteThis_on_a_linked_token_leaves_a_stale_link example_oracles
              stream_call [1] 2 3 [4; 5] "x" (plain_impl 0) 4
              (token_listb_sound stream_call [1; 2; 3; 4; 5] eq_refl)
              (links_symmetricb_sound stream_call eq_refl)
              eq_refl eq_refl ltac:(lia) ltac:(lia))
    as (h' & Hrun & Hq & Hk & _ & Hs).
  exists h'. split; [exact Hrun|]. split; [exact Hq|].
  split; [rewrite Hk; reflexivity | exact Hs].
Defined.

Lemma token_list_previous (h : Heap) (l1 : list ptr) (a : ptr) (l2 : list ptr) :
  token_list h (l1 ++ a :: l2) ->
  exists t, toks h !! a = Some t /\ mPrevious t = last l1.
Proof.
  intros (_ & Hc & _). apply chain_app in Hc as [_ Hc].
  apply chain_cons in Hc as [Hc _].
  apply nbrs_Some in Hc as (t & Ht & Hp & _). exists t. split; [exact Ht|].
  rewrite Hp. unfold last_or. now destruct (last l1).
Qed.



(** ** swapWithNext *)

Lemma redirect_partner_on_live (h : Heap) (p q : ptr) :
  is_Some (toks h !! p) ->
  (forall l, lnk h p = Some (Some l) -> is_Some (toks h !! l)) ->
  exists h1,
    redirect_partner h p q = Ok h1 /\
    front h1 = front h /\ back h1 = back h /\
    (forall x, nbrs h1 x = nbrs h x) /\
    (forall x, payload h1 x = payload h x) /\
    (forall x, lnk h1 x = redirected (lnk h) p q x).
Proof.
  intros [t Ht] Hlive. unfold redirect_partner.
  rewrite (deref_live h p t Ht). cbn [bind].
  assert (Ep : lnk h p = Some (mLink t)) by (unfold lnk; now rewrite Ht).
  unfold redirected. rewrite Ep.
  destruct (mLink t) as [l|] eqn:El.
  - destruct (Hlive l) as [tl Htl]; [now rewrite Ep|].
    rewrite (deref_live h l tl Htl). cbn [bind].
    eexists. split; [reflexivity|]. repeat split.
    + intros x. rewrite nbrs_store. destruct (decide (l = x)) as [<-|]; [|reflexivity].
      unfold nbrs. now rewrite Htl.
    + intros x. rewrite payload_store.
      destruct (decide (l = x)) as [<-|]; [|reflexivity].
      unfold payload. now rewrite Htl.
    + intros x. rewrite lnk_store. destruct (decide (l = x)) as [<-|Hne].
      * now rewrite decide_True.
      * rewrite decide_False by congruence. reflexivity.
  - exists h. split; [reflexivity|]. repeat split.
Qed.

Lemma swapWithNext_on_list (h : Heap) (l1 : list ptr) (this n : ptr)
    (l2 : list ptr) (s1 s2 : string) (i1 i2 : TokenImpl) :
  token_list h (l1 ++ this :: n :: l2) -> links_symmetric h ->
  payload h this = Some (s1, Some i1) -> payload h n = Some (s2, Some i2) ->
  exists h',
    swapWithNext h this = Ok h' /\
    token_list h' (l1 ++ this :: n :: l2) /\
    (forall x, payload h' x =
               if decide (x = this) then payload h n
               else if decide (x = n) then payload h this
               else payload h x) /\
    (forall x, lnk h' x =
               let k := redirected (redirected (lnk h) n this) this n in
               if decide (x = n) then k this
               else if decide (x = this) then k n
               else k x).
Proof.
  intros Hl Hs Hpt Hpn.
  destruct (token_list_next h l1 this (n :: l2) Hl) as (t & Ht & Hnext).
  simpl in Hnext.
  assert (Hne : this <> n).
  { destruct Hl as (Hnd & _). apply NoDup_app in Hnd as (_ & _ & Hnd).
    apply NoDup_cons in Hnd as [Hx _]. intros ->. apply Hx. left. }
  assert (Eb : ptr_eqb this n = false).
  { destruct (ptr_eqb this n) eqn:E; [|reflexivity].
    apply ptr_eqb_eq in E. contradiction. }
  assert (Hti : mStr t = s1 /\ mImpl t = Some i1).
  { unfold payload in Hpt. rewrite Ht in Hpt. simpl in Hpt. inversion Hpt. auto. }
  destruct Hti as [Hts Hti].
  assert (Hf : exists tn, toks h !! n = Some tn /\ mStr tn = s2 /\ mImpl tn = Some i2).
  { unfold payload in Hpn. destruct (toks h !! n) as [f|]; [|discriminate].
    simpl in Hpn. inversion Hpn. eauto. }
  destruct Hf as (tn & Htn & Htns & Htni).
  pose proof Hs as Hsl. rewrite links_symmetric_lnk in Hsl.
  set (t1 := mkToken (mStr tn) (mTokType tn) (mFlags tn) (Some n)
                     (mPrevious t) (mLink t) (mImpl tn) (mIsCpp t)).
  set (tn1 := mkToken (mStr t) (mTokType t) (mFlags t) (mNext tn)
                      (mPrevious tn) (mLink tn) (mImpl t) (mIsCpp tn)).
  set (h1 := store (store h this t1) n tn1).
  assert (Ht1 : toks h1 !! this = Some t1).
  { subst h1. rewrite lookup_store, decide_False by congruence.
    now rewrite lookup_store, decide_True. }
  assert (Htn1 : toks h1 !! n = Some tn1).
  { subst h1. now rewrite lookup_store, decide_True. }
  assert (Hn1 : forall x, nbrs h1 x = nbrs h x).
  { intros x. subst h1. rewrite !nbrs_store.
    destruct (decide (n = x)) as [<-|].
    - unfold nbrs. now rewrite Htn.
    - destruct (decide (this = x)) as [<-|]; [|reflexivity].
      unfold nbrs. rewrite Ht. simpl. now rewrite Hnext. }
  assert (Hp1 : forall x, payload h1 x =
                          if decide (x = this) then payload h n
                          else if decide (x = n) then payload h this
                          else payload h x).
  { intros x. subst h1. rewrite !payload_store.
    destruct (decide (n = x)) as [<-|Hnx].
    - rewrite decide_False by congruence. rewrite decide_True by reflexivity.
      unfold payload. now rewrite Ht.
    - destruct (decide (this = x)) as [<-|Htx].
      + rewrite decide_True by reflexivity. unfold payload. now rewrite Htn.
      + rewrite !decide_False by congruence. reflexivity. }
  assert (Hk1 : forall x, lnk h1 x = lnk h x).
  { intros x. subst h1. rewrite !lnk_store.
    destruct (decide (n = x)) as [<-|].
    - unfold lnk. now rewrite Htn.
    - destruct (decide (this = x)) as [<-|]; [|reflexivity].
      unfold lnk. now rewrite Ht. }
  assert (Hlv : forall g : Heap, (forall x, nbrs g x = nbrs h x) ->
                                 forall x, is_Some (toks h !! x) -> is_Some (toks g !! x)).
  { intros g Hg x [tx Hx]. pose proof (Hg x) as E. unfold nbrs in E.
    rewrite Hx in E. destruct (toks g !! x); [eauto | discriminate]. }
  assert (Hpartner : forall x l, lnk h x = Some (Some l) -> is_Some (toks h !! l)).
  { intros x l E. apply Hsl in E. apply lnk_Some in E as (tl & Htl & _). eauto. }
  destruct (redirect_partner_on_live h1 n this) as (h2 & Hr2 & Hf2 & Hb2 & Hn2 & Hp2 & Hk2).
  { eauto. }
  { intros l. rewrite Hk1. intros E. apply (Hlv h1 Hn1). eapply Hpartner, E. }
  assert (Hn2' : forall x, nbrs h2 x = nbrs h x).
  { intros x. now rewrite Hn2, Hn1. }
  destruct (redirect_partner_on_live h2 this n) as (h3 & Hr3 & Hf3 & Hb3 & Hn3 & Hp3 & Hk3).
  { apply (Hlv h2 Hn2'). eauto. }
  { intros l. rewrite Hk2. unfold redirected. rewrite !Hk1.
    destruct (decide (lnk h n = Some (Some this))) as [E|E].
    - intros [= <-]. apply (Hlv h2 Hn2'). eauto.
    - intros E'. apply (Hlv h2 Hn2'). eapply Hpartner, E'. }
  assert (Hn3' : forall x, nbrs h3 x = nbrs h x).
  { intros x. now rewrite Hn3, Hn2'. }
  destruct (Hlv h3 Hn3' this ltac:(eauto)) as [t4 Ht4].
  destruct (Hlv h3 Hn3' n ltac:(eauto)) as [tn4 Htn4].
  set (h' := store (store h3 this (with_mLink (mLink tn4) t4))
                   n (with_mLink (mLink t4) tn4)).
  exists h'. split; [|split; [|split]].
  - subst h' h1 t1 tn1. clear Hp1 Hpt Hpn.
    unfold swapWithNext. rewrite (deref_live h this t Ht). cbn [bind].
    rewrite Hnext, (deref_live h n tn Htn). cbn [bind]. cbv zeta. rewrite Eb.
    cbv beta iota.
    rewrite (deref_live _ this _ Ht1). cbn [bind].
    unfold impl at 1. simpl mImpl.
    destruct (mImpl tn) as [itn|]; [|discriminate]. cbn [bind].
    rewrite (deref_live _ n _ Htn1). cbn [bind].
    unfold impl at 1. simpl mImpl.
    destruct (mImpl t) as [it|]; [|discriminate]. cbn [bind].
    rewrite Hr2. cbn [bind]. rewrite Hr3. cbn [bind].
    rewrite (deref_live h3 this t4 Ht4). cbn [bind].
    rewrite (deref_live h3 n tn4 Htn4). cbn [bind]. reflexivity.
  - apply (nbrs_token_list h h'); [| | | exact Hl].
    + intros x. subst h'. rewrite !nbrs_store.
      destruct (decide (n = x)) as [<-|].
      * rewrite <- Hn3'. unfold nbrs. now rewrite Htn4.
      * destruct (decide (this = x)) as [<-|]; [|apply Hn3'].
        rewrite <- Hn3'. unfold nbrs. now rewrite Ht4.
    + assert (Hf1 : front h1 = front h) by reflexivity.
      subst h'. change (front h3 = front h). congruence.
    + assert (Hb1 : back h1 = back h) by reflexivity.
      subst h'. change (back h3 = back h). congruence.
  - intros x. subst h'. rewrite !payload_store.
    destruct (decide (n = x)) as [<-|Hnx].
    + rewrite decide_False by congruence. rewrite decide_True by reflexivity.
      simpl.
      transitivity (payload h3 n); [unfold payload; now rewrite Htn4|].
      rewrite Hp3, Hp2, Hp1. rewrite decide_False by congruence.
      now rewrite decide_True.
    + destruct (decide (this = x)) as [<-|Htx].
      * rewrite decide_True by reflexivity. simpl.
        transitivity (payload h3 this); [unfold payload; now rewrite Ht4|].
        rewrite Hp3, Hp2, Hp1. now rewrite decide_True.
      * rewrite Hp3, Hp2, Hp1. rewrite !decide_False by congruence. reflexivity.
  - intros x. cbn zeta. subst h'. rewrite !lnk_store.
    assert (E3 : forall y, lnk h3 y
                           = redirected (redirected (lnk h) n this) this n y).
    { intros y. rewrite Hk3. unfold redirected. rewrite !Hk2.
      unfold redirected. rewrite !Hk1. reflexivity. }
    destruct (decide (n = x)) as [<-|Hnx].
    + rewrite (decide_True (P := n = n)) by reflexivity. simpl.
      rewrite <- E3. unfold lnk. now rewrite Ht4.
    + rewrite (decide_False (P := x = n)) by congruence.
      destruct (decide (this = x)) as [<-|Htx].
      * rewrite (decide_True (P := this = this)) by reflexivity. simpl.
        rewrite <- E3. unfold lnk. now rewrite Htn4.
      * rewrite (decide_False (P := x = this)) by congruence. apply E3.
Qed.

(** X10: [swapWithNext] on a token of a list that has a successor
    returns; the two tokens stay where they are and exchange their text
    and what is behind [mImpl], every other token keeps its own, and each
    bracket link goes with its text: when the two tokens are not linked
    with each other or with themselves, the links stay symmetric. *)
Theorem swapWithNext_swaps_the_data_and_the_links :
  forall (h : Heap) (l1 : list ptr) (this n : ptr) (l2 : list ptr)
         (s1 s2 : string) (i1 i2 : TokenImpl),
    token_list h (l1 ++ this :: n :: l2) -> links_symmetric h ->
    payload h this = Some (s1, Some i1) -> payload h n = Some (s2, Some i2) ->
    lnk h this <> Some (Some n) -> lnk h this <> Some (Some this) ->
    lnk h n <> Some (Some n) ->
    exists h',
      swapWithNext h this = Ok h' /\
      token_list h' (l1 ++ this :: n :: l2) /\
      (forall x, payload h' x =
                 if decide (x = this) then payload h n
                 else if decide (x = n) then payload h this
                 else payload h x) /\
      lnk h' this = lnk h n /\ lnk h' n = lnk h this /\
      links_symmetric h'.
Proof.
  intros h l1 this n l2 s1 s2 i1 i2 Hl Hs Hpt Hpn Hmut Hst Hsn.
  destruct (swapWithNext_on_list h l1 this n l2 s1 s2 i1 i2 Hl Hs Hpt Hpn)
    as (h' & Hrun & Hl' & Hp' & Hk').
  assert (Hne : this <> n).
  { destruct Hl as (Hnd & _). apply NoDup_app in Hnd as (_ & _ & Hnd).
    apply NoDup_cons in Hnd as [Hx _]. intros ->. apply Hx. left. }
  pose proof Hs as Hsl. rewrite links_symmetric_lnk in Hsl.
  assert (Hnt : lnk h n <> Some (Some this)).
  { intros E. apply Hsl in E. contradiction. }
  assert (E_this : lnk h' this = lnk h n).
  { rewrite Hk'. cbn zeta. rewrite (decide_False (P := this = n)) by exact Hne.
    rewrite (decide_True (P := this = this)) by reflexivity.
    unfold redirected.
    rewrite (decide_False (P := lnk h n = Some (Some this))) by exact Hnt.
    rewrite (decide_False (P := lnk h this = Some (Some n))) by exact Hmut.
    now rewrite (decide_False (P := lnk h n = Some (Some n))) by exact Hsn. }
  assert (E_n : lnk h' n = lnk h this).
  { rewrite Hk'. cbn zeta. rewrite (decide_True (P := n = n)) by reflexivity.
    unfold redirected.
    rewrite (decide_False (P := lnk h n = Some (Some this))) by exact Hnt.
    now rewrite (decide_False (P := lnk h this = Some (Some this))) by exact Hst. }
  assert (E_other : forall x, x <> this -> x <> n ->
                              lnk h' x =
                              if decide (lnk h this = Some (Some x))
                              then Some (Some n)
                              else if decide (lnk h n = Some (Some x))
                                   then Some (Some this)
                                   else lnk h x).
  { intros x Hxt Hxn. rewrite Hk'. cbn zeta.
    rewrite (decide_False (P := x = n)) by exact Hxn.
    rewrite (decide_False (P := x = this)) by exact Hxt.
    unfold redirected.
    now rewrite (decide_False (P := lnk h n = Some (Some this))) by exact Hnt. }
  exists h'. split; [exact Hrun|]. split; [exact Hl'|]. split; [exact Hp'|].
  split; [exact E_this|]. split; [exact E_n|].
  assert (Hcase : forall b, lnk h this = Some (Some b) -> lnk h' b = Some (Some n)).
  { intros b E. pose proof (Hsl _ _ E) as E'.
    rewrite E_other by congruence. now rewrite decide_True. }
  assert (Hcase' : forall b, lnk h n = Some (Some b) -> lnk h' b = Some (Some this)).
  { intros b E. pose proof (Hsl _ _ E) as E'.
    rewrite E_other by congruence.
    rewrite decide_False; [now rewrite decide_True|].
    intros E2. apply Hsl in E2. congruence. }
  apply links_symmetric_lnk. intros a b Hab.
  destruct (decide (a = this)) as [->|Hat].
  { rewrite E_this in Hab. now apply Hcase'. }
  destruct (decide (a = n)) as [->|Han].
  { rewrite E_n in Hab. now apply Hcase. }
  rewrite E_other in Hab by assumption.
  destruct (decide (lnk h this = Some (Some a))) as [E|E].
  { inversion Hab; subst b. now rewrite E_n. }
  destruct (decide (lnk h n = Some (Some a))) as [E2|E2].
  { inversion Hab; subst b. now rewrite E_this. }
  pose proof (Hsl _ _ Hab) as Hba.
  assert (b <> this) by (intros ->; contradiction).
  assert (b <> n) by (intros ->; contradiction).
  rewrite E_other by assumption.
  rewrite decide_False.
  - rewrite decide_False; [exact Hba|]. intros E3. apply Hsl in E3. congruence.
  - intros E3. apply Hsl in E3. congruence.
Qed.

Lemma swapWithNext_swaps_the_data_and_the_links_witness :
  exists h',
    swapWithNext stream_call 3 = Ok h' /\
    token_list h' [1; 2; 3; 4; 5] /\
    payload h' 3 = payload stream_call 4 /\
    lnk h' 3 = Some (Some 2) /\ lnk h' 4 = Some None /\
    links_symmetric h'.
Proof.
  destruct (swapWithNext_swaps_the_data_and_the_links stream_call
              [1; 2] 3 4 [5] "x" ")" (plain_impl 0) (plain_impl 0)
              (token_listb_sound stream_call [1; 2; 3; 4; 5] eq_refl)
              (links_symmetricb_sound stream_call eq_refl)
              eq_refl eq_refl ltac:(vm_compute; discriminate)
              ltac:(vm_compute; discriminate) ltac:(vm_compute; discriminate))
    as (h' & Hrun & Hl & Hp & Ht & Hn & Hs).
  exists h'. split; [exact Hrun|]. split; [exact Hl|].
  split; [rewrite Hp; reflexivity|].
  split; [rewrite Ht; reflexivity|]. split; [rewrite Hn; reflexivity | exact Hs].
Defined.

(** X11: [swapWithNext] on a bracket whose successor is the bracket it is
    linked with returns with each of the two brackets linked to itself. *)
Theorem swapWithNext_on_a_linked_pair_links_each_to_itself :
  forall (h : Heap) (l1 : list ptr) (this n : ptr) (l2 : list ptr)
         (s1 s2 : string) (i1 i2 : TokenImpl),
    token_list h (l1 ++ this :: n :: l2) -> links_symmetric h ->
    payload h this = Some (s1, Some i1) -> payload h n = Some (s2, Some i2) ->
    lnk h this = Some (Some n) ->
    exists h',
      swapWithNext h this = Ok h' /\
      payload h' this = payload h n /\ payload h' n = payload h this /\
      lnk h' this = Some (Some this) /\ lnk h' n = Some (Some n).
Proof.
  intros h l1 this n l2 s1 s2 i1 i2 Hl Hs Hpt Hpn Hmut.
  destruct (swapWithNext_on_list h l1 this n l2 s1 s2 i1 i2 Hl Hs Hpt Hpn)
    as (h' & Hrun & Hl' & Hp' & Hk').
  assert (Hne : this <> n).
  { destruct Hl as (Hnd & _). apply NoDup_app in Hnd as (_ & _ & Hnd).
    apply NoDup_cons in Hnd as [Hx _]. intros ->. apply Hx. left. }
  pose proof Hs as Hsl. rewrite links_symmetric_lnk in Hsl.
  pose proof (Hsl _ _ Hmut) as Hmut'.
  exists h'. split; [exact Hrun|]. split; [|split; [|split]].
  - rewrite Hp'. now rewrite decide_True.
  - rewrite Hp'. rewrite decide_False by congruence. now rewrite decide_True.
  - rewrite Hk'. cbn zeta. rewrite (decide_False (P := this = n)) by exact Hne.
    rewrite (decide_True (P := this = this)) by reflexivity.
    unfold redirected. rewrite Hmut', Hmut.
    rewrite (decide_True (P := Some (Some this) = Some (Some this))) by reflexivity.
    rewrite (decide_False (P := Some (Some this) = Some (Some n))) by congruence.
    now rewrite (decide_False (P := Some (Some this) = Some (Some n))) by congruence.
  - rewrite Hk'. cbn zeta. rewrite (decide_True (P := n = n)) by reflexivity.
    unfold redirected. rewrite Hmut', Hmut.
    rewrite (decide_True (P := Some (Some this) = Some (Some this))) by reflexivity.
    now rewrite decide_True.
Qed.

Lemma swapWithNext_on_a_linked_pair_links_each_to_itself_witness :
  exists h',
    swapWithNext stream_empty_call 2 = Ok h' /\
    lnk h' 2 = Some (Some 2) /\ lnk h' 3 = Some (Some 3).
Proof.
  destruct (swapWithNext_on_a_linked_pair_links_each_to_itself
              stream_empty_call [1] 2 3 [4] "(" ")" (plain_impl 0) (plain_impl 0)
              (token_listb_sound stream_empty_call [1; 2; 3; 4] eq_refl)
              (links_symmetricb_sound stream_empty_call eq_refl)
              eq_refl eq_refl eq_refl)
    as (h' & Hrun & _ & _ & Ht & Hn).
  exists h'. split; [exact Hrun|]. split; assumption.
Defined.

(** ** createMutualLinks *)

(** X12: [createMutualLinks(begin, end)] on two different live tokens
    returns with each linked to the other, and the texts, what is behind
    [mImpl] and the neighbours of all tokens as they were; when neither
    of the two had a bracket link before, the links stay symmetric. *)
Theorem createMutualLinks_links_the_two_tokens :
  forall (O : Oracles) (h : Heap) (b e : ptr),
    links_symmetric h -> lnk h b = Some None -> lnk h e = Some None ->
    b <> e ->
    exists h',
      createMutualLinks O h b e = Ok h' /\
      lnk h' b = Some (Some e) /\ lnk h' e = Some (Some b) /\
      links_symmetric h' /\
      forall x, nbrs h' x = nbrs h x /\ payload h' x = payload h x.
Proof.
  intros O h b e Hs Hb He Hne.
  assert (Hbl : is_Some (toks h !! b)).
  { apply lnk_Some in Hb as (t & Ht & _). eauto. }
  assert (Hel : is_Some (toks h !! e)).
  { apply lnk_Some in He as (t & Ht & _). eauto. }
  destruct (link_at_total O h b (Some e) Hbl) as [h1 H1].
  destruct (link_at_frame O h h1 b (Some e) H1) as (_ & _ & Hfr1).
  pose proof (link_at_lnk O h h1 b (Some e) H1) as Hk1.
  assert (Hel1 : is_Some (toks h1 !! e)).
  { destruct Hel as [te Hte]. destruct (Hfr1 e) as [E _]. unfold nbrs in E.
    rewrite Hte in E. destruct (toks h1 !! e); [eauto | discriminate]. }
  destruct (link_at_total O h1 e (Some b) Hel1) as [h2 H2].
  destruct (link_at_frame O h1 h2 e (Some b) H2) as (_ & _ & Hfr2).
  pose proof (link_at_lnk O h1 h2 e (Some b) H2) as Hk2.
  assert (Hk : forall x, lnk h2 x = if decide (x = e) then Some (Some b)
                                    else if decide (x = b) then Some (Some e)
                                    else lnk h x).
  { intros x. rewrite Hk2. destruct (decide (x = e)); [reflexivity|]. apply Hk1. }
  exists h2. split; [unfold createMutualLinks; rewrite H1; exact H2|].
  split; [|split; [|split]].
  - rewrite Hk, decide_False by exact Hne. now rewrite decide_True.
  - rewrite Hk. now rewrite decide_True.
  - pose proof Hs as Hsl. rewrite links_symmetric_lnk in Hsl.
    apply links_symmetric_lnk. intros x y. rewrite !Hk.
    destruct (decide (x = e)) as [->|Hxe].
    + intros [= <-]. rewrite decide_False by exact Hne. now rewrite decide_True.
    + destruct (decide (x = b)) as [->|Hxb].
      * intros [= <-]. now rewrite decide_True.
      * intros Exy. pose proof (Hsl _ _ Exy) as Eyx.
        rewrite decide_False by congruence.
        rewrite decide_False by congruence. exact Eyx.
  - intros x. destruct (Hfr1 x) as [E1 E2]. destruct (Hfr2 x) as [E3 E4].
    split; congruence.
Qed.

Lemma createMutualLinks_links_the_two_tokens_witness :
  exists h',
    createMutualLinks example_oracles stream_x_eq_42 1 3 = Ok h' /\
    lnk h' 1 = Some (Some 3) /\ lnk h' 3 = Some (Some 1) /\
    links_symmetric h'.
Proof.
  destruct (createMutualLinks_links_the_two_tokens example_oracles
              stream_x_eq_42 1 3
              (links_symmetricb_sound stream_x_eq_42 eq_refl)
              eq_refl eq_refl ltac:(lia))
    as (h' & Hrun & H1 & H3 & Hs & _).
  exists h'. auto.
Defined.

(** ** simpleMatch on patterns made of plain words *)

#[local] Arguments ascii_eqb : simpl never.

Lemma append_cons (c : ascii) (a b : string) :
  String.append (String c a) b = String c (String.append a b).
Proof. reflexivity. Qed.

Lemma append_nil (b : string) : String.append EmptyString b = b.
Proof. reflexivity. Qed.

Lemma length_append (a b : string) :
  String.length (String.append a b) = String.length a + String.length b.
Proof. induction a as [|c a IH]; simpl; [reflexivity | now rewrite IH]. Qed.

Lemma advance_append (a b : string) :
  advance (String.length a) (String.append a b) = b.
Proof. induction a as [|c a IH]; [reflexivity | exact IH]. Qed.

Lemma advance_add (n m : nat) (s : string) :
  advance (n + m) s = advance m (advance n s).
Proof.
  revert s. induction n as [|n IH]; intros s; [reflexivity|].
  destruct s as [|c s]; [now destruct m | apply IH].
Qed.

Lemma char_at_append_r (a b : string) (i : nat) :
  char_at (String.append a b) (String.length a + i) = char_at b i.
Proof. induction a as [|c a IH]; [reflexivity | exact IH]. Qed.

Lemma char_at_append_l (a b : string) (i : nat) :
  i < String.length a -> char_at (String.append a b) i = char_at a i.
Proof.
  revert i. induction a as [|c a IH]; intros i Hi; simpl in Hi; [lia|].
  destruct i as [|i]; [reflexivity|]. simpl. apply IH. lia.
Qed.

Lemma char_at_end (s : string) (i : nat) :
  String.length s <= i -> char_at s i = NUL.
Proof.
  revert i. induction s as [|c s IH]; intros i Hi; [now destruct i|].
  destruct i as [|i]; simpl in Hi; [lia|]. simpl. apply IH. lia.
Qed.

Lemma is_word_inv (w : string) :
  is_word w = true ->
  0 < String.length w /\ str_mem " " w = false /\ str_mem NUL w = false.
Proof.
  unfold is_word, size_is. rewrite !andb_true_iff, !negb_true_iff.
  intros [[H0 H1] H2]. apply Nat.eqb_neq in H0. repeat split; [lia | | ]; assumption.
Qed.

Lemma str_mem_false_char (c : ascii) (w : string) (i : nat) :
  str_mem c w = false -> i < String.length w -> char_at w i <> c.
Proof.
  revert i. induction w as [|d w IH]; intros i Hm Hi; simpl in Hi; [lia|].
  simpl in Hm. apply orb_false_iff in Hm as [Hd Hm].
  destruct i as [|i]; simpl.
  - unfold ascii_eqb in Hd. apply Ascii.eqb_neq in Hd. congruence.
  - apply IH; [exact Hm | lia].
Qed.

(** Comparing a word with a text of its length. *)
Lemma strncmp_differs_word (w rest s : string) :
  str_mem NUL w = false -> String.length s = String.length w ->
  strncmp_differs (String.append w rest) s (String.length w)
  = negb (str_eqb s w).
Proof.
  revert s. induction w as [|c w IH]; intros s Hn Hl.
  - destruct s; [reflexivity | discriminate].
  - destruct s as [|d s]; [discriminate|]. simpl in Hn, Hl.
    apply orb_false_iff in Hn as [Hc Hn].
    change (strncmp_differs (String.append (String c w) rest) (String d s)
              (String.length (String c w)))
      with (if negb (ascii_eqb c d) then true
            else if ascii_eqb c NUL then false
                 else strncmp_differs (String.append w rest) s (String.length w)).
    unfold str_eqb. simpl String.eqb. unfold ascii_eqb in *.
    rewrite (Ascii.eqb_sym d c).
    destruct (Ascii.eqb c d) eqn:E; simpl; [|reflexivity].
    rewrite (Ascii.eqb_sym c NUL), Hc. apply IH; [exact Hn | lia].
Qed.

Lemma strchr_word_space (w rest : string) :
  str_mem " " w = false -> str_mem NUL w = false ->
  strchr (String.append w (String " " rest)) " " = Some (String " " rest).
Proof.
  induction w as [|c w IH]; intros Hs Hn; [reflexivity|].
  simpl in Hs, Hn. apply orb_false_iff in Hs as [Hc Hs].
  apply orb_false_iff in Hn as [Hc' Hn]. simpl.
  unfold ascii_eqb in *. rewrite (Ascii.eqb_sym c " "), Hc.
  rewrite (Ascii.eqb_sym c NUL), Hc'. now apply IH.
Qed.

Lemma strchr_word_end (w : string) :
  str_mem " " w = false -> strchr w " " = None.
Proof.
  induction w as [|c w IH]; intros Hs; [reflexivity|].
  simpl in Hs. apply orb_false_iff in Hs as [Hc Hs]. simpl.
  unfold ascii_eqb in *. rewrite (Ascii.eqb_sym c " "), Hc.
  destruct (Ascii.eqb c NUL); [reflexivity | now apply IH].
Qed.

Lemma memchr_cons (c x : ascii) (p : string) :
  forall n from : nat,
    memchr (String c p) x (S from) n = S <$> memchr p x from n.
Proof.
  induction n as [|n IH]; intros from; [reflexivity|].
  cbn [memchr]. cbn [char_at]. destruct (ascii_eqb (char_at p from) x); [reflexivity|].
  apply IH.
Qed.

(** The first space of a pattern that starts with a word. *)
Lemma memchr_word_space (w rest : string) :
  str_mem " " w = false ->
  memchr (String.append w (String " " rest)) " " 0
         (String.length (String.append w (String " " rest)))
  = Some (String.length w).
Proof.
  induction w as [|c w IH]; intros Hs; [reflexivity|].
  cbn [str_mem] in Hs. apply orb_false_iff in Hs as [Hc Hs].
  rewrite append_cons. cbn [String.length memchr char_at].
  assert (E : ascii_eqb c " " = false).
  { unfold ascii_eqb in *. now rewrite Ascii.eqb_sym. }
  rewrite E, memchr_cons, (IH Hs). reflexivity.
Qed.

Lemma memchr_word_end (w : string) :
  str_mem " " w = false ->
  forall n, memchr w " " 0 n = None.
Proof.
  induction w as [|c w IH]; intros Hs n.
  - generalize 0. induction n as [|n IHn]; intros from; [reflexivity|].
    cbn [memchr char_at]. change (ascii_eqb NUL " ") with false. apply IHn.
  - cbn [str_mem] in Hs. apply orb_false_iff in Hs as [Hc Hs].
    destruct n as [|n]; [reflexivity|]. cbn [memchr char_at].
    assert (E : ascii_eqb c " " = false).
    { unfold ascii_eqb in *. now rewrite Ascii.eqb_sym. }
    rewrite E, memchr_cons, (IH Hs). reflexivity.
Qed.

Lemma append_assoc (a b c : string) :
  String.append (String.append a b) c = String.append a (String.append b c).
Proof. induction a as [|d a IH]; [reflexivity|]. rewrite !append_cons. now rewrite IH. Qed.

Lemma append_nil_r (a : string) : String.append a EmptyString = a.
Proof. induction a as [|d a IH]; [reflexivity|]. rewrite append_cons. now rewrite IH. Qed.

(** What follows the first word of the joined words. *)
Lemma join_words_cons (w : string) (ws : list string) :
  join_words (w :: ws) =
  String.append w (match ws with
                   | [] => EmptyString
                   | _ :: _ => String " " (join_words ws)
                   end).
Proof. destruct ws; [simpl; now rewrite append_nil_r | reflexivity]. Qed.

Lemma simpleMatch_loop_S (h : Heap) (fuel : nat) (tok : option ptr)
    (pattern : string) (last current next : nat) :
  simpleMatch_loop h (S fuel) tok pattern last current next =
  if ascii_eqb (char_at pattern current) NUL then Ok true
  else
    match tok with
    | None => Ok false
    | Some a =>
        let* t := deref h a in
        if negb (Z.eqb (if next <? current
                        then (2 ^ 64 - Z.of_nat (current - next))%Z
                        else Z.of_nat (next - current))
                       (Z.of_nat (String.length (mStr t))))
        then Ok false
        else if strncmp_differs (advance current pattern) (mStr t)
                  (Z.to_nat (if next <? current
                             then (2 ^ 64 - Z.of_nat (current - next))%Z
                             else Z.of_nat (next - current)))
        then Ok false
        else if negb (ascii_eqb (char_at pattern next) NUL) then
               simpleMatch_loop h fuel (mNext t) pattern last (S next)
                 (match strchr_offset pattern (S next) with
                  | Some n => n
                  | None => last
                  end)
             else simpleMatch_loop h fuel (mNext t) pattern last next next
    end.
Proof. reflexivity. Qed.

Lemma str_eqb_length (a b : string) :
  String.length a <> String.length b -> str_eqb a b = false.
Proof.
  intros Hl. unfold str_eqb. apply String.eqb_neq. intros ->. contradiction.
Qed.

Lemma simpleMatch_loop_words (h : Heap) :
  forall (ws : list string) (fuel : nat) (tok : option ptr) (pre : string)
         (next : nat),
    forallb is_word ws = true ->
    String.length (join_words ws) < fuel ->
    next = String.length pre + String.length (hd EmptyString ws) ->
    simpleMatch_loop h fuel tok (String.append pre (join_words ws))
      (String.length (String.append pre (join_words ws)))
      (String.length pre) next
    = texts_from h tok ws.
Proof.
  induction ws as [|w ws IH]; intros fuel tok pre next Hw Hf Hn;
    (destruct fuel as [|fuel]; [simpl in Hf; lia|]); rewrite simpleMatch_loop_S.
  - rewrite <- (Nat.add_0_r (String.length pre)) at 1.
    rewrite char_at_append_r. reflexivity.
  - cbn [forallb] in Hw. apply andb_true_iff in Hw as [Hw Hws].
    destruct (is_word_inv w Hw) as (Hlen & Hsp & Hnul).
    cbn [hd] in Hn. subst next.
    set (R := match ws with
              | [] => EmptyString
              | _ :: _ => String " " (join_words ws)
              end).
    assert (EJ : join_words (w :: ws) = String.append w R)
      by apply join_words_cons.
    rewrite EJ in *. clear EJ.
    assert (E0 : char_at (String.append pre (String.append w R))
                   (String.length pre) = char_at w 0).
    { rewrite <- (Nat.add_0_r (String.length pre)) at 1.
      rewrite char_at_append_r. now apply char_at_append_l. }
    rewrite E0.
    assert (Hc0 : ascii_eqb (char_at w 0) NUL = false).
    { unfold ascii_eqb. apply Ascii.eqb_neq.
      now apply str_mem_false_char. }
    rewrite Hc0. cbn [texts_from]. destruct tok as [a|]; [|reflexivity].
    destruct (deref h a) as [t| | |]; cbn [bind]; try reflexivity.
    replace (String.length pre + String.length w <? String.length pre)
      with false by (symmetry; apply Nat.ltb_ge; lia).
    replace (String.length pre + String.length w - String.length pre)
      with (String.length w) by lia.
    rewrite Nat2Z.id.
    destruct (Z.eqb_spec (Z.of_nat (String.length w))
                (Z.of_nat (String.length (mStr t)))) as [El|El].
    + apply Nat2Z.inj in El. cbn [negb]. rewrite advance_append.
      rewrite strncmp_differs_word by (assumption || lia).
      destruct (str_eqb (mStr t) w) eqn:Eq; cbn [negb]; [|reflexivity].
      assert (E1 : char_at (String.append pre (String.append w R))
                     (String.length pre + String.length w) = char_at R 0).
      { rewrite <- append_assoc, <- length_append.
        rewrite <- (Nat.add_0_r (String.length (String.append pre w))).
        apply char_at_append_r. }
      rewrite E1.
      assert (Hlen_total : String.length (String.append w R)
                           = String.length w + String.length R)
        by apply length_append.
      destruct ws as [|w2 ws].
      * subst R. change (char_at EmptyString 0) with NUL.
        change (ascii_eqb NUL NUL) with true. cbn [negb].
        assert (EP : String.append pre (String.append w EmptyString)
                     = String.append (String.append pre w) (join_words [])).
        { simpl. now rewrite !append_nil_r. }
        assert (EL : String.length pre + String.length w
                     = String.length (String.append pre w))
          by now rewrite length_append.
        rewrite EP, EL. apply IH; [reflexivity | simpl; lia | simpl; lia].
      * subst R. cbn [char_at].
        change (ascii_eqb " " NUL) with false. cbn [negb].
        assert (EP : String.append pre (String.append w (String " " (join_words (w2 :: ws))))
                     = String.append (String.append pre (String.append w " "))
                         (join_words (w2 :: ws))).
        { rewrite !append_assoc. reflexivity. }
        assert (Elen : S (String.length pre + String.length w)
                       = String.length (String.append pre (String.append w " "))).
        { rewrite !length_append. simpl. lia. }
        rewrite Elen, EP.
        cbn [forallb] in Hws. pose proof Hws as Hws'.
        apply andb_true_iff in Hws' as [Hw2 _].
        destruct (is_word_inv w2 Hw2) as (Hlen2 & Hsp2 & Hnul2).
        apply (IH fuel (mNext t) _ _ Hws).
        -- rewrite Hlen_total in Hf. cbn [String.length] in Hf. lia.
        -- unfold strchr_offset. rewrite advance_append. cbn [hd].
           rewrite join_words_cons.
           destruct ws as [|w3 ws].
           ++ rewrite append_nil_r. rewrite strchr_word_end by exact Hsp2.
              rewrite length_append. reflexivity.
           ++ rewrite strchr_word_space by assumption.
              rewrite !length_append. cbn [String.length]. lia.
    + cbn [negb]. rewrite str_eqb_length by congruence. reflexivity.
Qed.

Lemma simpleMatch_compares_the_texts_word_by_word' :
  forall (h : Heap) (a : ptr) (ws : list string),
    forallb is_word ws = true ->
    simpleMatch h (Some a) (join_words ws) (String.length (join_words ws))
    = texts_from h (Some a) ws.
Proof.
  intros h a ws Hw. unfold simpleMatch.
  assert (En : match memchr (join_words ws) " " 0 (String.length (join_words ws)) with
               | Some n => n
               | None => String.length (join_words ws)
               end = String.length (hd EmptyString ws)).
  { destruct ws as [|w ws]; [reflexivity|].
    cbn [forallb] in Hw. apply andb_true_iff in Hw as [Hw _].
    destruct (is_word_inv w Hw) as (_ & Hsp & _).
    rewrite join_words_cons. destruct ws as [|w2 ws].
    - rewrite append_nil_r, memchr_word_end by exact Hsp. reflexivity.
    - rewrite memchr_word_space by exact Hsp. reflexivity. }
  rewrite En.
  apply (simpleMatch_loop_words h ws _ (Some a) EmptyString _ Hw); [lia | reflexivity].
Qed.

(** X13: for a pattern made of words separated by single spaces,
    [simpleMatch] on a token compares the texts of the tokens from it on
    with the words, one after the other: it returns true exactly when
    there are as many tokens and each has the text of its word. *)
Theorem simpleMatch_compares_the_texts_word_by_word :
  forall (h : Heap) (a : ptr) (ws : list string),
    forallb is_word ws = true ->
    simpleMatch h (Some a) (join_words ws) (String.length (join_words ws))
    = texts_from h (Some a) ws.
Proof. exact simpleMatch_compares_the_texts_word_by_word'. Qed.

Lemma simpleMatch_compares_the_texts_word_by_word_witness :
  simpleMatch stream_x_eq_42 (Some 1) "x = 42" 6 = Ok true /\
  simpleMatch stream_x_eq_42 (Some 1) "x = 43" 6 = Ok false.
Proof.
  split.
  - exact (eq_trans (simpleMatch_compares_the_texts_word_by_word
                       stream_x_eq_42 1 ["x"; "="; "42"]%string eq_refl) eq_refl).
  - exact (eq_trans (simpleMatch_compares_the_texts_word_by_word
                       stream_x_eq_42 1 ["x"; "="; "43"]%string eq_refl) eq_refl).
Defined.

(** With a [pattern_len] shorter than the pattern the search for the next
    space falls back to [pattern + pattern_len], behind [current]: the
    length wraps around and the comparison fails. *)
Example simpleMatch_with_a_short_pattern_len :
  simpleMatch stream_x_eq_42 (Some 1) "x = 42" 6 = Ok true /\
  simpleMatch stream_x_eq_42 (Some 1) "x = 42" 1 = Ok false.
Proof. split; vm_compute; reflexivity. Qed.

(** ** Searches along the list *)

Lemma texts_from_on_list (h : Heap) :
  forall (ws : list string) (l1 l2 : list ptr),
    token_list h (l1 ++ l2) -> exists b, texts_from h (head l2) ws = Ok b.
Proof.
  induction ws as [|w ws IH]; intros l1 l2 Hl; [simpl; eauto|].
  destruct l2 as [|a l2]; [simpl; eauto|].
  destruct (token_list_next h l1 a l2 Hl) as (t & Ht & Hn).
  cbn [head texts_from]. rewrite (deref_live h a t Ht). cbn [bind].
  destruct (str_eqb (mStr t) w); [|eauto].
  rewrite Hn. apply (IH (l1 ++ [a]) l2). now rewrite <- app_assoc.
Qed.

Lemma find_first_eq (h : Heap) (fuel : nat) (matches : ptr -> outcome bool)
    (stop : ptr -> bool) (tok : option ptr) :
  find_first h fuel matches stop tok =
  match tok with
  | None => Ok None
  | Some a =>
      if stop a then Ok None
      else
        let* b := matches a in
        if b then Ok (Some a)
        else
          match fuel with
          | 0 => Diverges
          | S fuel' =>
              let* t := deref h a in
              find_first h fuel' matches stop (mNext t)
          end
  end.
Proof. destruct fuel; reflexivity. Qed.

Lemma find_first_on_list (h : Heap) (matches : ptr -> outcome bool)
    (stop : ptr -> bool) (l3 : list ptr) :
  forall (l2 l1 : list ptr) (fuel : nat),
    length l2 <= fuel ->
    token_list h (l1 ++ l2 ++ l3) ->
    (forall a, a ∈ l2 -> exists b, matches a = Ok b) ->
    (forall a, a ∈ l2 -> stop a = false) ->
    match l3 with [] => True | e :: _ => stop e = true end ->
    find_first h fuel matches stop (head (l2 ++ l3))
    = Ok (List.find (fun a => returned_true (matches a)) l2).
Proof.
  induction l2 as [|a l2 IH]; intros l1 fuel Hf Hl Hm Hs He.
  - rewrite find_first_eq. simpl. destruct l3 as [|e l3]; [reflexivity|]. simpl.
    now rewrite He.
  - cbn [app head List.find].
    assert (Hsa : stop a = false) by (apply Hs; left).
    destruct (Hm a ltac:(left)) as [b Hb].
    destruct (token_list_next h l1 a (l2 ++ l3) Hl) as (t & Ht & Hn).
    assert (Hrec : find_first h (pred fuel) matches stop (head (l2 ++ l3))
                   = Ok (List.find (fun a => returned_true (matches a)) l2)).
    { apply (IH (l1 ++ [a])).
      - simpl in Hf. lia.
      - now rewrite <- app_assoc.
      - intros x Hx. apply Hm. now right.
      - intros x Hx. apply Hs. now right.
      - exact He. }
    destruct fuel as [|fuel]; [simpl in Hf; lia|].
    rewrite find_first_eq. rewrite Hsa, Hb. cbn [bind]. simpl returned_true.
    destruct b; [reflexivity|].
    rewrite (deref_live h a t Ht). cbn [bind]. rewrite Hn. exact Hrec.
Qed.

Lemma find_first_on_list_walk (h : Heap) (matches : ptr -> outcome bool)
    (stop : ptr -> bool) (l1 l2 l3 : list ptr) :
  token_list h (l1 ++ l2 ++ l3) ->
  (forall a, a ∈ l2 -> exists b, matches a = Ok b) ->
  (forall a, a ∈ l2 -> stop a = false) ->
  match l3 with [] => True | e :: _ => stop e = true end ->
  find_first h (walk_fuel h) matches stop (head (l2 ++ l3))
  = Ok (List.find (fun a => returned_true (matches a)) l2).
Proof.
  intros Hl. apply find_first_on_list with (l1 := l1); [|exact Hl].
  pose proof (token_list_size h _ Hl) as Hsz. unfold walk_fuel.
  rewrite !length_app in Hsz. lia.
Qed.

Lemma stop_at_end (l1 l2 l3 : list ptr) :
  NoDup (l1 ++ l2 ++ l3) ->
  (forall a, a ∈ l2 -> optptr_eqb (Some a) (head l3) = false) /\
  match l3 with [] => True | e :: _ => optptr_eqb (Some e) (head l3) = true end.
Proof.
  intros Hnd. split.
  - intros a Ha. destruct l3 as [|e l3]; [reflexivity|]. simpl.
    destruct (ptr_eqb a e) eqn:E; [|reflexivity].
    apply ptr_eqb_eq in E. subst e.
    apply NoDup_app in Hnd as (_ & _ & Hnd).
    apply NoDup_app in Hnd as (_ & Hdis & _).
    exfalso. apply (Hdis a Ha). left.
  - destruct l3 as [|e l3]; [exact I|]. simpl. apply ptr_eqb_refl.
Qed.

(** X14: on a token list and for a pattern made of words,
    [findsimplematch] returns the first token, from the start token on,
    from which the texts of the tokens are the words of the pattern, and
    null when there is none; with an [end] token the search stops before
    it. *)
Theorem findsimplematch_returns_the_first_match :
  forall (h : Heap) (l1 l2 l3 : list ptr) (ws : list string),
    token_list h (l1 ++ l2 ++ l3) -> forallb is_word ws = true ->
    findsimplematch h (head (l2 ++ l3)) (join_words ws)
      (String.length (join_words ws))
    = Ok (List.find (fun a => returned_true (texts_from h (Some a) ws))
            (l2 ++ l3)) /\
    findsimplematch_end h (head (l2 ++ l3)) (join_words ws)
      (String.length (join_words ws)) (head l3)
    = Ok (List.find (fun a => returned_true (texts_from h (Some a) ws)) l2).
Proof.
  intros h l1 l2 l3 ws Hl Hw.
  assert (Hm : forall a, a ∈ l2 ++ l3 ->
                         exists b, simpleMatch h (Some a) (join_words ws)
                                     (String.length (join_words ws)) = Ok b).
  { intros a Ha. rewrite simpleMatch_compares_the_texts_word_by_word' by exact Hw.
    apply list_elem_of_split in Ha as (k1 & k2 & Ek).
    rewrite Ek in Hl. rewrite app_assoc in Hl.
    apply (texts_from_on_list h ws _ (a :: k2) Hl). }
  assert (Ef : forall l, List.find (fun a => returned_true
                                     (simpleMatch h (Some a) (join_words ws)
                                        (String.length (join_words ws)))) l
                         = List.find (fun a => returned_true
                                        (texts_from h (Some a) ws)) l).
  { intros l. induction l as [|a l IH]; [reflexivity|]. cbn [List.find].
    rewrite simpleMatch_compares_the_texts_word_by_word' by exact Hw.
    now rewrite IH. }
  split.
  - unfold findsimplematch. rewrite <- Ef.
    rewrite <- (app_nil_r (l2 ++ l3)) at 1.
    apply (find_first_on_list_walk h _ _ l1 (l2 ++ l3) []).
    + now rewrite app_nil_r.
    + exact Hm.
    + reflexivity.
    + exact I.
  - unfold findsimplematch_end. rewrite <- Ef.
    destruct Hl as (Hnd & Hrest). destruct (stop_at_end l1 l2 l3 Hnd) as [Hs He].
    apply (find_first_on_list_walk h _ _ l1 l2 l3).
    + split; assumption.
    + intros a Ha. apply Hm. apply elem_of_app. now left.
    + exact Hs.
    + exact He.
Qed.

Lemma findsimplematch_returns_the_first_match_witness :
  findsimplematch stream_call (Some 1) ") ;" 3 = Ok (Some 4) /\
  findsimplematch_end stream_call (Some 1) ") ;" 3 (Some 4) = Ok None.
Proof.
  destruct (findsimplematch_returns_the_first_match stream_call
              [] [1; 2; 3] [4; 5] [")"; ";"]%string
              (token_listb_sound stream_call [1; 2; 3; 4; 5] eq_refl) eq_refl)
    as [H1 H2].
  split; [exact H1 | exact H2].
Defined.

(** X15: on a token list, when [Match] returns at every token of the
    range, [findmatch] returns the first token, from the start token on,
    at which [Match] returns true, and null when there is none; with an
    [end] token the search stops before it. *)
Theorem findmatch_returns_the_first_match :
  forall (P : Predicates) (h : Heap) (l1 l2 l3 : list ptr) (pattern : string)
         (varid : Z),
    token_list h (l1 ++ l2 ++ l3) ->
    (forall a, a ∈ l2 ++ l3 -> exists b, Match P h (Some a) pattern varid = Ok b) ->
    findmatch h P (head (l2 ++ l3)) pattern varid
    = Ok (List.find (fun a => returned_true (Match P h (Some a) pattern varid))
            (l2 ++ l3)) /\
    findmatch_end h P (head (l2 ++ l3)) pattern (head l3) varid
    = Ok (List.find (fun a => returned_true (Match P h (Some a) pattern varid))
            l2).
Proof.
  intros P h l1 l2 l3 pattern varid Hl Hm. split.
  - unfold findmatch. rewrite <- (app_nil_r (l2 ++ l3)) at 1.
    apply (find_first_on_list_walk h _ _ l1 (l2 ++ l3) []).
    + now rewrite app_nil_r.
    + exact Hm.
    + reflexivity.
    + exact I.
  - unfold findmatch_end.
    destruct Hl as (Hnd & Hrest). destruct (stop_at_end l1 l2 l3 Hnd) as [Hs He].
    apply (find_first_on_list_walk h _ _ l1 l2 l3).
    + split; assumption.
    + intros a Ha. apply Hm. apply elem_of_app. now left.
    + exact Hs.
    + exact He.
Qed.

Lemma findmatch_returns_the_first_match_witness :
  findmatch stream_x_eq_42 kind_predicates (Some 1) "%num%" 0 = Ok (Some 3) /\
  findmatch_end stream_x_eq_42 kind_predicates (Some 1) "%num%" (Some 3) 0
  = Ok None.
Proof.
  destruct (findmatch_returns_the_first_match kind_predicates stream_x_eq_42
              [] [1; 2] [3] "%num%" 0
              (token_listb_sound stream_x_eq_42 [1; 2; 3] eq_refl))
    as [H1 H2].
  - intros a Ha.
    repeat (apply elem_of_cons in Ha as [->|Ha];
            [eexists; vm_compute; reflexivity|]).
    now apply elem_of_nil in Ha.
  - split; [exact H1 | exact H2].
Defined.

(** ** Value facts: contradiction removal keeps the kinds in their order *)

Section KindsKept.
Variable V : ValueOps.
Hypothesis decreaseRange_kind : forall v, kind_of (decreaseRange V v) = kind_of v.
#[local] Set Default Proof Using "Type*".

Lemma erase_from_kinds (idx : list nat) (l : list Value) :
  forall pos, kinds (erase_from pos idx l) `sublist_of` kinds l.
Proof.
  induction l as [|v l IH]; intros pos; simpl; [reflexivity|].
  destruct (existsb (Nat.eqb pos) idx); simpl.
  - apply sublist_cons, IH.
  - apply sublist_skip, IH.
Qed.

Lemma erase_all_kinds (idx : list nat) (l : list Value) :
  kinds (erase_all idx l) `sublist_of` kinds l.
Proof. apply erase_from_kinds. Qed.

Lemma update_at_kinds (fn : Value -> Value) (l : list Value) :
  (forall v, kind_of (fn v) = kind_of v) ->
  forall i, kinds (update_at i fn l) = kinds l.
Proof.
  intros Hfn. induction l as [|v l IH]; intros [|i]; simpl; try reflexivity.
  - now rewrite Hfn.
  - now rewrite IH.
Qed.

Lemma removePointValue_kinds (values : list Value) (i : nat) (x : Value) :
  kinds (removePointValue V values i x).1 `sublist_of` kinds values.
Proof.
  unfold removePointValue. destruct (negb (Bound_eqb (bound x) Point)); simpl.
  - now rewrite update_at_kinds.
  - apply erase_all_kinds.
Qed.

Lemma removeContradiction_pair_kinds (i j : nat) (values : list Value)
    (result : bool) :
  kinds (rc_values (removeContradiction_pair V i j values result))
  `sublist_of` kinds values.
Proof.
  unfold removeContradiction_pair.
  destruct (values !! i) as [x|]; [|reflexivity].
  destruct (values !! j) as [y|]; [|reflexivity].
  repeat match goal with
         | |- context [if ?b then _ else _] =>
             lazymatch b with
             | context [removePointValue] => fail
             | _ => destruct b eqn:?
             end
         end; simpl; try reflexivity; try apply erase_all_kinds.
  all: repeat match goal with
         | |- context [removePointValue V ?v ?k ?z] =>
             let H := fresh "Hk" in
             pose proof (removePointValue_kinds v k z) as H;
             destruct (removePointValue V v k z) as [? ?]; simpl in H
         end; simpl;
       repeat match goal with
         | |- context [if ?b then _ else _] => destruct b
         end; simpl; try reflexivity; try assumption;
       try (etransitivity; eassumption).
Qed.

Lemma removeContradiction_inner_kinds (i : nat) (js : list nat) :
  forall (values : list Value) (result : bool),
    kinds (rc_values (removeContradiction_inner V i js values result))
    `sublist_of` kinds values.
Proof.
  induction js as [|j js IH]; intros values result; simpl; [reflexivity|].
  pose proof (removeContradiction_pair_kinds i j values result) as Hp.
  destruct (removeContradiction_pair V i j values result) as [v r|v r];
    simpl in *; [exact Hp|].
  etransitivity; [apply IH | exact Hp].
Qed.

Lemma removeContradiction_outer_kinds (n : nat) (is_ : list nat) :
  forall (values : list Value) (result : bool),
    kinds (removeContradiction_outer V is_ n values result).1
    `sublist_of` kinds values.
Proof.
  induction is_ as [|i is_ IH]; intros values result; simpl; [reflexivity|].
  destruct (values !! i) as [x|]; [|reflexivity].
  destruct (isNonValue V x); [apply IH|].
  pose proof (removeContradiction_inner_kinds i (seq (S i) (n - S i))
                values result) as Hi.
  destruct (removeContradiction_inner V i (seq (S i) (n - S i)) values result)
    as [v r|v r]; simpl in *; [exact Hi|].
  etransitivity; [apply IH | exact Hi].
Qed.

Lemma removeContradiction_kinds (values : list Value) :
  kinds (removeContradiction V values).1 `sublist_of` kinds values.
Proof. apply removeContradiction_outer_kinds. Qed.

Lemma removeAdjacentValues_kinds (values : list Value) (xi : nat) (x : Value)
    (sq : list nat) :
  kinds (removeAdjacentValues values xi x sq).1 `sublist_of` kinds values.
Proof.
  unfold removeAdjacentValues. destruct sq as [|start sq']; [reflexivity|].
  destruct (values !! start) as [vstart|]; [|reflexivity].
  destruct (negb (isAdjacent x vstart)); simpl; [reflexivity|].
  etransitivity; [apply erase_all_kinds|]. now rewrite update_at_kinds.
Qed.

Lemma mergeAdjacent_loop_kinds (fuel : nat) :
  forall (values : list Value) (xi : nat),
    kinds (mergeAdjacent_loop V fuel values xi) `sublist_of` kinds values.
Proof.
  induction fuel as [|fuel IH]; intros values xi; simpl; [reflexivity|].
  destruct (values !! xi) as [x|]; [|reflexivity].
  destruct (isNonValue V x); [apply IH|].
  destruct (Bound_eqb (bound x) Point); [apply IH|].
  destruct (collect_adjacent V x xi (indexed values) []) as [|a adj]; [apply IH|].
  match goal with
  | |- context [removeAdjacentValues ?v ?k ?z ?s] =>
      pose proof (removeAdjacentValues_kinds v k z s) as Hr;
      destruct (removeAdjacentValues v k z s) as [values' xi']
  end.
  simpl in Hr. etransitivity; [apply IH | exact Hr].
Qed.

Lemma filter_kinds (f : Value -> bool) (l : list Value) :
  kinds (List.filter f l) `sublist_of` kinds l.
Proof.
  induction l as [|v l IH]; simpl; [reflexivity|].
  destruct (f v); simpl; [apply sublist_skip | apply sublist_cons]; exact IH.
Qed.

Lemma kinds_app (a b : list Value) : kinds (a ++ b) = kinds a ++ kinds b.
Proof. apply map_app. Qed.

Lemma removeOverlaps_loop_kinds (fuel : nat) :
  forall (done rest : list Value),
    kinds (removeOverlaps_loop V fuel done rest)
    `sublist_of` kinds (done ++ rest).
Proof.
  induction fuel as [|fuel IH]; intros done rest; simpl; [reflexivity|].
  destruct rest as [|x rest]; [reflexivity|].
  destruct (isNonValue V x).
  - etransitivity; [apply IH|]. now rewrite <- app_assoc.
  - etransitivity; [apply IH|]. rewrite <- app_assoc. simpl.
    rewrite !kinds_app. apply sublist_app; [apply filter_kinds|].
    simpl. apply sublist_skip, filter_kinds.
Qed.

Lemma removeOverlaps_kinds (values : list Value) :
  kinds (removeOverlaps V values) `sublist_of` kinds values.
Proof.
  unfold removeOverlaps. etransitivity; [apply mergeAdjacent_loop_kinds|].
  apply (removeOverlaps_loop_kinds _ [] values).
Qed.

Lemma removeContradictions_rounds_kinds (n : nat) :
  forall values : list Value,
    kinds (removeContradictions_rounds V n values) `sublist_of` kinds values.
Proof.
  induction n as [|n IH]; intros values; simpl; [reflexivity|].
  pose proof (removeContradiction_kinds values) as Hc.
  destruct (removeContradiction V values) as [values1 changed]. simpl in Hc.
  destruct (negb changed); [exact Hc|].
  etransitivity; [apply IH|].
  etransitivity; [apply removeOverlaps_kinds | exact Hc].
Qed.

Lemma removeContradictions_kinds (values : list Value) :
  kinds (removeContradictions V values) `sublist_of` kinds values.
Proof.
  unfold removeContradictions.
  etransitivity; [apply removeContradictions_rounds_kinds|].
  apply removeOverlaps_kinds.
Qed.

End KindsKept.

(** ** Value facts: a known integer stays in front *)

Lemma forallb_sublist {A : Type} (f : A -> bool) (l' l : list A) :
  l' `sublist_of` l -> forallb f l = true -> forallb f l' = true.
Proof.
  induction 1 as [|x l1 l2 Hs IH|x l1 l2 Hs IH]; simpl; [reflexivity| |].
  - rewrite !andb_true_iff. intros [Hx Hl]. auto.
  - rewrite andb_true_iff. intros [_ Hl]. auto.
Qed.

Lemma sublist_tail {A : Type} (l' l : list A) :
  l' `sublist_of` l -> tail l' `sublist_of` tail l.
Proof.
  induction 1 as [|x l1 l2 Hs IH|x l1 l2 Hs IH]; simpl; [reflexivity|exact Hs|].
  etransitivity; [|exact Hs]. destruct l1; [reflexivity|]. simpl.
  apply sublist_cons. reflexivity.
Qed.

Lemma known_int_first_kinds (l : list Value) :
  known_int_first l = forallb not_known_int (tail (kinds l)).
Proof.
  unfold known_int_first. destruct l as [|v l]; [reflexivity|]. simpl.
  induction l as [|x l IH]; [reflexivity|]. simpl. now rewrite IH.
Qed.

Lemma known_int_first_sublist (l' l : list Value) :
  kinds l' `sublist_of` kinds l ->
  known_int_first l = true -> known_int_first l' = true.
Proof.
  rewrite !known_int_first_kinds. intros Hs.
  apply forallb_sublist. now apply sublist_tail.
Qed.

Lemma remove_if_sublist (p : Value -> outcome bool) :
  forall l l' : list Value, remove_if p l = Ok l' -> l' `sublist_of` l.
Proof.
  induction l as [|x l IH]; intros l' H; simpl in H.
  - inversion H. reflexivity.
  - apply bind_Ok in H as (b & Hb & H). apply bind_Ok in H as (r & Hr & H).
    inversion H; subst l'. specialize (IH r Hr).
    destruct b; [apply sublist_cons | apply sublist_skip]; exact IH.
Qed.

Lemma sublist_kinds (l' l : list Value) :
  l' `sublist_of` l -> kinds l' `sublist_of` kinds l.
Proof.
  induction 1 as [|x l1 l2 Hs IH|x l1 l2 Hs IH]; simpl; [reflexivity| |].
  - now apply sublist_skip.
  - now apply sublist_cons.
Qed.

(** After the purge for a known integer fact no integer fact is left. *)
Lemma remove_if_sameValueType_int (h : Heap) (value : Value) :
  isIntValue value = true ->
  forall l l' : list Value,
    remove_if (fun x => sameValueType h x value) l = Ok l' ->
    forallb (fun x => negb (isIntValue x)) l' = true.
Proof.
  intros Hv. induction l as [|x l IH]; intros l' H; simpl in H.
  - inversion H. reflexivity.
  - apply bind_Ok in H as (b & Hb & H). apply bind_Ok in H as (r & Hr & H).
    inversion H; subst l'. specialize (IH r Hr).
    destruct b; [exact IH|]. simpl. rewrite IH, andb_true_r.
    unfold sameValueType in Hb. unfold isIntValue in *.
    apply ValueType_eqb_eq in Hv.
    destruct (ValueType_eqb (valueType x) (valueType value)) eqn:E.
    + apply ValueType_eqb_eq in E. simpl in Hb.
      unfold isSymbolicValue in Hb. rewrite E, Hv in Hb. simpl in Hb.
      discriminate.
    + rewrite Hv in E. now rewrite E.
Qed.

Lemma scan_existing_Replaced (V : ValueOps) (h : Heap) (vid : Z) (value : Value) :
  forall l l' : list Value,
    scan_existing V h vid value l = Ok (Replaced l') ->
    exists pre it post,
      l = pre ++ it :: post /\ l' = pre ++ stored vid value :: post /\
      valueType it = valueType value.
Proof.
  induction l as [|it rest IH]; intros l' H; simpl in H; [discriminate|].
  assert (Hcont : forall l0,
             (let* r := scan_existing V h vid value rest in
              Ok match r with
                 | Replaced rest' => Replaced (it :: rest')
                 | Duplicate => Duplicate
                 | Absent => Absent
                 end) = Ok (Replaced l0) ->
             exists pre it0 post,
               it :: rest = pre ++ it0 :: post /\
               l0 = pre ++ stored vid value :: post /\
               valueType it0 = valueType value).
  { intros l0 H0. apply bind_Ok in H0 as (r & Hr & H0).
    destruct r as [|rest'|]; try discriminate. inversion H0; subst l0.
    destruct (IH rest' Hr) as (pre & it0 & post & E1 & E2 & E3).
    exists (it :: pre), it0, post. subst. auto. }
  destruct (negb (ValueType_eqb (valueType it) (valueType value))) eqn:Et;
    [now apply Hcont|].
  destruct (negb (Bool.eqb (isImpossible it) (isImpossible value)));
    [now apply Hcont|].
  destruct (negb (equalValue V it value)); [now apply Hcont|].
  apply bind_Ok in H as (other & _ & H).
  destruct other; [now apply Hcont|].
  destruct (isInconclusive it && negb (isInconclusive value)
            && negb (isImpossible value)); [|discriminate].
  inversion H; subst l'. exists [], it, rest. repeat split.
  apply negb_false_iff in Et. now apply ValueType_eqb_eq.
Qed.

Lemma kind_of_stored (vid : Z) (value : Value) :
  kind_of (stored vid value) = kind_of value.
Proof. unfold stored. now destruct (varId value =? 0)%Z. Qed.

Lemma not_known_int_kind (v : Value) :
  not_known_int (kind_of v) = negb (isKnown v && isIntValue v).
Proof. reflexivity. Qed.

Lemma known_int_first_no_int (v : Value) (l : list Value) :
  forallb (fun x => negb (isIntValue x)) l = true ->
  known_int_first (v :: l) = true.
Proof.
  unfold known_int_first. simpl. intros H.
  rewrite forallb_forall in *. intros x Hx. specialize (H x Hx).
  apply negb_true_iff in H. rewrite H. now rewrite andb_false_r.
Qed.

Lemma known_int_first_snoc (l : list Value) (v : Value) :
  isKnown v && isIntValue v = false ->
  known_int_first l = true -> known_int_first (l ++ [v]) = true.
Proof.
  unfold known_int_first. intros Hv. destruct l as [|x l]; [reflexivity|].
  simpl. rewrite forallb_app. intros ->. simpl. now rewrite Hv.
Qed.

Lemma known_int_first_replace (pre post : list Value) (it v : Value) :
  isKnown v && isIntValue v = false ->
  known_int_first (pre ++ it :: post) = true ->
  known_int_first (pre ++ v :: post) = true.
Proof.
  unfold known_int_first. intros Hv. destruct pre as [|x pre]; [trivial|].
  simpl. rewrite !forallb_app. simpl. rewrite !andb_true_iff.
  intros (H1 & _ & H2). rewrite Hv. auto.
Qed.

Lemma addValue_members_known_int_first (V : ValueOps) (h : Heap) (vid : Z)
    (m m' : option (list Value)) (value : Value) (r : bool) :
  (forall v, kind_of (decreaseRange V v) = kind_of v) ->
  known_int_first (default [] m) = true ->
  addValue_members V h vid m value = Ok (r, m') ->
  known_int_first (default [] m') = true.
Proof.
  intros Hdr Hk Hrun. unfold addValue_members in Hrun.
  apply bind_Ok in Hrun as (values1 & H1 & Hrun).
  apply bind_Ok in Hrun as (already & _ & Hrun).
  pose proof (removeContradictions_kinds V Hdr) as Hrc.
  assert (Hsv : kind_of (stored vid value) = kind_of value)
    by apply kind_of_stored.
  assert (Hsk : isKnown (stored vid value) && isIntValue (stored vid value)
                = isKnown value && isIntValue value).
  { unfold isKnown, isIntValue. now inversion Hsv. }
  destruct m as [l|]; simpl in Hk.
  - (* a list is there *)
    assert (H1' : exists l1, values1 = Some l1 /\ known_int_first l1 = true /\
                             (isKnown value && isIntValue value = true ->
                              forallb (fun x => negb (isIntValue x)) l1 = true)).
    { destruct (isKnown value) eqn:Ekn.
      - apply bind_Ok in H1 as (l1 & Hrem & H1). inversion H1; subst values1.
        exists l1. split; [reflexivity|]. split.
        + eapply known_int_first_sublist; [|exact Hk].
          apply sublist_kinds. eapply remove_if_sublist, Hrem.
        + simpl. intros Hi.
          eapply remove_if_sameValueType_int; [exact Hi | exact Hrem].
      - inversion H1; subst values1. exists l. split; [reflexivity|].
        split; [exact Hk | discriminate]. }
    destruct H1' as (l1 & -> & Hk1 & Hint).
    destruct already; [inversion Hrun; subst; exact Hk1|].
    destruct (10 <=? length l1); [inversion Hrun; subst; exact Hk1|].
    apply bind_Ok in Hrun as (found & Hscan & Hrun).
    destruct found as [|l2|].
    + inversion Hrun; subst. exact Hk1.
    + inversion Hrun; subst. simpl.
      eapply known_int_first_sublist; [apply Hrc|].
      apply scan_existing_Replaced in Hscan as (pre & it & post & E1 & E2 & Et).
      subst l1 l2.
      destruct (isKnown value && isIntValue value) eqn:Eki.
      * specialize (Hint eq_refl). rewrite forallb_app in Hint.
        apply andb_true_iff in Hint as [_ Hint]. simpl in Hint.
        apply andb_true_iff in Hint as [Hit _].
        apply andb_true_iff in Eki as [_ Ei]. unfold isIntValue in *.
        rewrite Et, Ei in Hit. discriminate.
      * eapply known_int_first_replace; [|exact Hk1]. now rewrite Hsk.
    + inversion Hrun; subst. simpl.
      eapply known_int_first_sublist; [apply Hrc|].
      rewrite Hsk. destruct (isKnown value && isIntValue value) eqn:Eki.
      * apply known_int_first_no_int. now apply Hint.
      * apply known_int_first_snoc; [now rewrite Hsk | exact Hk1].
  - (* mValues is null *)
    inversion H1; subst values1. destruct already; [inversion Hrun; now subst|].
    inversion Hrun; subst. simpl.
    eapply known_int_first_sublist; [apply Hrc | reflexivity].
Qed.

Lemma vf_decreaseRange_kind (h : Heap) (v : Value) :
  kind_of (decreaseRange (vf_ops h) v) = kind_of v.
Proof.
  simpl. unfold vf_decreaseRange.
  destruct (bound v); try reflexivity;
    destruct (is_int_like (valueType v)); try reflexivity;
    destruct (ValueType_eqb (valueType v) FLOAT); reflexivity.
Qed.

(** X16: contradiction removal neither adds a fact nor changes the order
    of the facts, and the kind and the confidence of a fact stay what
    they are: the kinds of the facts left are a subsequence of the kinds
    before (for a [decreaseRange] that keeps kind and confidence). *)
Theorem removeContradictions_keeps_kinds_in_order :
  forall (V : ValueOps) (values : list Value),
    (forall v, kind_of (decreaseRange V v) = kind_of v) ->
    kinds (removeContradictions V values) `sublist_of` kinds values.
Proof. intros V values Hdr. now apply removeContradictions_kinds. Qed.

Lemma removeContradictions_keeps_kinds_in_order_witness :
  kinds (removeContradictions (vf_ops (fact_stream None))
           [int_fact Possible Point 1; int_fact Impossible Point 1;
            int_fact Possible Point 3])
  `sublist_of`
  kinds [int_fact Possible Point 1; int_fact Impossible Point 1;
         int_fact Possible Point 3].
Proof.
  apply (removeContradictions_keeps_kinds_in_order
           (vf_ops (fact_stream None))).
  apply vf_decreaseRange_kind.
Defined.

(** X17: the comment of [hasKnownIntValue], a known integer fact is always
    the first entry, is an invariant of [addValue]: when no fact after the
    first one is a known integer fact before the call, none is after it
    (for a [decreaseRange] that keeps kind and confidence). *)
Theorem addValue_keeps_a_known_integer_in_front :
  forall (V : ValueOps) (h : Heap) (this : ptr) (value : Value) (r : bool)
         (h' : Heap),
    (forall v, kind_of (decreaseRange V v) = kind_of v) ->
    known_int_first (facts_list h this) = true ->
    addValue V h this value = Ok (r, h') ->
    known_int_first (facts_list h' this) = true.
Proof.
  intros V h this value r h' Hdr Hk Hrun. unfold addValue in Hrun.
  apply bind_Ok in Hrun as (t & Ht & Hrun). apply deref_Ok in Ht.
  apply bind_Ok in Hrun as (i & Hi & Hrun). apply impl_Ok in Hi.
  apply bind_Ok in Hrun as ([r0 m'] & Hm & Hrun). inversion Hrun; subst r h'.
  unfold facts_list, facts in *. rewrite Ht, Hi in Hk.
  rewrite lookup_store, decide_True by reflexivity. simpl.
  eapply addValue_members_known_int_first; eassumption.
Qed.

Lemma addValue_keeps_a_known_integer_in_front_witness :
  exists (r : bool) (h' : Heap),
    addValue (vf_ops (fact_stream (Some [int_fact Possible Point 1])))
      (fact_stream (Some [int_fact Possible Point 1])) 1
      (int_fact Known Point 5) = Ok (r, h') /\
    known_int_first (facts_list h' 1) = true.
Proof.
  eexists. eexists. split; [vm_compute; reflexivity|].
  eapply (addValue_keeps_a_known_integer_in_front
            (vf_ops (fact_stream (Some [int_fact Possible Point 1])))
            (fact_stream (Some [int_fact Possible Point 1])) 1
            (int_fact Known Point 5)).
  - apply vf_decreaseRange_kind.
  - reflexivity.
  - vm_compute. reflexivity.
Defined.

(** X18: when no fact after the first one is a known integer fact,
    [getKnownValue(t)] is the first known fact of the kind [t], also for
    integers, where it looks at the first entry only; and
    [hasKnownIntValue] agrees with [hasKnownValue(INT)]. *)
Theorem getKnownValue_is_the_first_known_fact_of_the_kind :
  forall (l : list Value) (t : ValueType),
    known_int_first l = true ->
    getKnownValue_members (Some l) t
    = find_if (fun v => isKnown v && ValueType_eqb (valueType v) t) l /\
    hasKnownIntValue_members (Some l) = hasKnownValue_of_members (Some l) INT.
Proof.
  intros l t Hk. destruct l as [|v l]; [split; reflexivity|].
  unfold known_int_first in Hk. simpl in Hk.
  assert (Hnone : List.find (fun v => isKnown v && ValueType_eqb (valueType v) INT) l
                  = None /\
                  existsb (fun v => isKnown v && ValueType_eqb (valueType v) INT) l
                  = false).
  { induction l as [|x l IH]; [split; reflexivity|]. simpl in Hk.
    apply andb_true_iff in Hk as [Hx Hl]. apply negb_true_iff in Hx.
    unfold isIntValue in Hx. simpl. rewrite Hx. now apply IH. }
  destruct Hnone as [Hfind Hex]. split.
  - unfold getKnownValue_members, find_if.
    destruct (ValueType_eqb t INT) eqn:Et; [|reflexivity].
    apply ValueType_eqb_eq in Et. subst t. simpl.
    unfold isIntValue. destruct (isKnown v); simpl;
      [destruct (ValueType_eqb (valueType v) INT); simpl|]; auto.
  - simpl. rewrite Hex, orb_false_r. unfold isIntValue. apply andb_comm.
Qed.

Lemma getKnownValue_is_the_first_known_fact_of_the_kind_witness :
  getKnownValue_members
    (Some [int_fact Known Point 5; float_fact Known Point PrimFloat.one]) FLOAT
  = Some (float_fact Known Point PrimFloat.one) /\
  hasKnownIntValue_members
    (Some [int_fact Known Point 5; float_fact Known Point PrimFloat.one])
  = true.
Proof.
  destruct (getKnownValue_is_the_first_known_fact_of_the_kind
              [int_fact Known Point 5; float_fact Known Point PrimFloat.one]
              FLOAT eq_refl) as [H1 H2].
  split; [rewrite H1 | rewrite H2]; reflexivity.
Defined.

(** ** Value facts: the first fact of a token *)

Lemma removeContradictions_singleton (V : ValueOps) (x : Value) :
  removeContradictions V [x] = [x].
Proof.
  unfold removeContradictions, removeOverlaps.
  assert (E1 : removeOverlaps_loop V 1 [] [x] = [x]).
  { simpl. now destruct (isNonValue V x). }
  simpl length. rewrite E1.
  assert (E2 : mergeAdjacent V [x] = [x]).
  { unfold mergeAdjacent. simpl.
    destruct (isNonValue V x); [reflexivity|].
    destruct (Bound_eqb (bound x) Point); reflexivity. }
  rewrite E2. simpl.
  unfold removeContradiction. simpl.
  destruct (isNonValue V x); reflexivity.
Qed.

(** X19: on a token that has no facts yet ([mValues] is null, or the list
    is empty) [addValue] returns true for every fact, and the token then
    holds this fact alone, with the variable id of the token when the fact
    came without one. *)
Theorem addValue_stores_the_first_fact :
  forall (V : ValueOps) (h : Heap) (this : ptr) (t : Token) (i : TokenImpl)
         (value : Value),
    toks h !! this = Some t -> mImpl t = Some i ->
    mValues i = None \/ mValues i = Some [] ->
    exists h',
      addValue V h this value = Ok (true, h') /\
      facts h' this = Some [stored (mVarId i) value] /\
      forall x, x <> this -> toks h' !! x = toks h !! x.
Proof.
  intros V h this t i value Ht Hi Hm. unfold addValue.
  rewrite (deref_live h this t Ht). cbn [bind].
  unfold impl. rewrite Hi. cbn [bind].
  assert (Hrun : addValue_members V h (mVarId i) (mValues i) value
                 = Ok (true, Some [stored (mVarId i) value])).
  { unfold addValue_members. destruct Hm as [-> | ->]; cbn [bind].
    - now rewrite removeContradictions_singleton.
    - destruct (isKnown value) eqn:Ek; simpl;
        rewrite ?Ek; simpl;
        destruct (isKnown (stored (mVarId i) value)
                  && isIntValue (stored (mVarId i) value));
        now rewrite removeContradictions_singleton. }
  rewrite Hrun. cbn [bind]. eexists. split; [reflexivity|]. split.
  - unfold facts. rewrite lookup_store, decide_True by reflexivity. reflexivity.
  - intros x Hx. rewrite lookup_store. now rewrite decide_False by congruence.
Qed.

Lemma addValue_stores_the_first_fact_witness :
  exists h',
    addValue (vf_ops (fact_stream None)) (fact_stream None) 1
      (int_fact Possible Point 5) = Ok (true, h') /\
    facts h' 1 = Some [with_varId 1 (int_fact Possible Point 5)].
Proof.
  destruct (addValue_stores_the_first_fact (vf_ops (fact_stream None))
              (fact_stream None) 1 (fact_token None)
              (mkImpl 1 0 None None None None 0) (int_fact Possible Point 5)
              eq_refl eq_refl (or_introl eq_refl))
    as (h' & Hrun & Hf & _).
  exists h'. split; [exact Hrun | exact Hf].
Defined.

(** ** AST links: parents and operands stay consistent *)

Lemma ast_links_store (h : Heap) (p x : ptr) (t : Token) :
  ast_links (store h p t) x =
  if decide (x = p)
  then match mImpl t with
       | Some i => Some (mAstParent i, mAstOperand1 i, mAstOperand2 i)
       | None => None
       end
  else ast_links h x.
Proof.
  unfold ast_links. rewrite lookup_store.
  destruct (decide (p = x)) as [->|Hne].
  - now rewrite decide_True.
  - now rewrite decide_False by congruence.
Qed.

Lemma update_impl_links (h h' : Heap) (p : ptr) (f : TokenImpl -> TokenImpl) :
  update_impl h p f = Ok h' ->
  exists i,
    ast_links h p = Some (mAstParent i, mAstOperand1 i, mAstOperand2 i) /\
    forall x, ast_links h' x =
              if decide (x = p)
              then Some (mAstParent (f i), mAstOperand1 (f i), mAstOperand2 (f i))
              else ast_links h x.
Proof.
  unfold update_impl. intros Hrun.
  apply bind_Ok in Hrun as (t & Ht & Hrun). apply deref_Ok in Ht.
  apply bind_Ok in Hrun as (i & Hi & Hrun). apply impl_Ok in Hi.
  inversion Hrun; subst h'. exists i. split.
  - unfold ast_links. now rewrite Ht, Hi.
  - intros x. now rewrite ast_links_store.
Qed.

Lemma astParent_of_links (h : Heap) (x : ptr) (up : option ptr) :
  astParent_of h x = Ok up <->
  exists o1 o2, ast_links h x = Some (up, o1, o2).
Proof.
  rewrite astParent_of_Ok. unfold ast_links. split.
  - intros (t & i & -> & -> & <-). eauto.
  - intros (o1 & o2 & E). destruct (toks h !! x) as [t|]; [|discriminate].
    destruct (mImpl t) as [i|] eqn:Hi; [|discriminate].
    inversion E. eauto.
Qed.

(** What a call of the setter [astParent] that returns has done. *)
Lemma astParent_effect (h h' : Heap) (this : ptr) (tok : option ptr) :
  astParent h this tok = Ok h' ->
  exists up,
    astParent_of h this = Ok up /\
    forall x, ast_links h' x =
              set_parent this tok x <$> (detach_from this up x <$> ast_links h x).
Proof.
  unfold astParent. intros Hrun.
  apply bind_Ok in Hrun as (_ & _ & Hrun).
  apply bind_Ok in Hrun as (up & Hup & Hrun).
  apply bind_Ok in Hrun as (h2 & H2 & Hrun).
  exists up. split; [exact Hup|].
  assert (E2 : forall x, ast_links h2 x = detach_from this up x <$> ast_links h x).
  { destruct up as [parent|].
    - apply bind_Ok in H2 as (tp & Htp & H2). apply deref_Ok in Htp.
      apply bind_Ok in H2 as (ip & Hip & H2). apply impl_Ok in Hip.
      apply bind_Ok in H2 as (h1 & H1 & H2).
      apply bind_Ok in H2 as (tp1 & Htp1 & H2). apply deref_Ok in Htp1.
      apply bind_Ok in H2 as (ip1 & Hip1 & H2). apply impl_Ok in Hip1.
      assert (Lp : ast_links h parent
                   = Some (mAstParent ip, mAstOperand1 ip, mAstOperand2 ip)).
      { unfold ast_links. now rewrite Htp, Hip. }
      assert (E1 : forall x, ast_links h1 x =
                             if decide (x = parent)
                             then Some (mAstParent ip,
                                        if decide (mAstOperand1 ip = Some this)
                                        then None else mAstOperand1 ip,
                                        mAstOperand2 ip)
                             else ast_links h x).
      { destruct (optptr_eqb (mAstOperand1 ip) (Some this)) eqn:Eo.
        - apply optptr_eqb_eq in Eo.
          apply update_impl_links in H1 as (i & Li & E1).
          rewrite Lp in Li. inversion Li as [[Ea Eb Ec]].
          intros x. rewrite E1. destruct (decide (x = parent)); [|reflexivity].
          simpl. rewrite <- Ea, <- Ec. now rewrite decide_True.
        - inversion H1; subst h1. intros x.
          destruct (decide (x = parent)) as [->|]; [|reflexivity].
          rewrite Lp. rewrite decide_False; [reflexivity|].
          intros E. apply optptr_eqb_eq in E. congruence. }
      assert (Lp1 : ast_links h1 parent
                    = Some (mAstParent ip1, mAstOperand1 ip1, mAstOperand2 ip1)).
      { unfold ast_links. now rewrite Htp1, Hip1. }
      rewrite E1, decide_True in Lp1 by reflexivity.
      inversion Lp1 as [[Ea Eb Ec]].
      intros x. unfold detach_from.
      destruct (decide (Some parent = Some x)) as [Ex|Ex].
      + assert (x = parent) by congruence. subst x. rewrite Lp. simpl.
        destruct (optptr_eqb (mAstOperand2 ip1) (Some this)) eqn:Eo.
        * apply optptr_eqb_eq in Eo.
          apply update_impl_links in H2 as (i & Li & E2).
          rewrite E1, decide_True in Li by reflexivity.
          inversion Li as [[Ea' Eb' Ec']].
          rewrite E2, decide_True by reflexivity. simpl.
          rewrite <- Ea', <- Eb'.
          rewrite (decide_True (P := mAstOperand2 ip = Some this)) by congruence.
          reflexivity.
        * inversion H2; subst h2. rewrite E1, decide_True by reflexivity.
          rewrite (decide_False (P := mAstOperand2 ip = Some this)); [reflexivity|].
          intros E. rewrite Ec in E. apply optptr_eqb_eq in E. congruence.
      + assert (Hx : x <> parent) by congruence.
        destruct (optptr_eqb (mAstOperand2 ip1) (Some this)).
        * apply update_impl_links in H2 as (i & Li & E2).
          rewrite E2, decide_False by exact Hx.
          rewrite E1, decide_False by exact Hx.
          now destruct (ast_links h x).
        * inversion H2; subst h2. rewrite E1, decide_False by exact Hx.
          now destruct (ast_links h x).
    - inversion H2; subst h2. intros x. unfold detach_from.
      destruct (ast_links h x); reflexivity. }
  apply update_impl_links in Hrun as (i & Li & E).
  intros x. rewrite E, <- E2. unfold set_parent.
  destruct (decide (x = this)) as [->|]; [|now destruct (ast_links h2 x)].
  rewrite Li. reflexivity.
Qed.

Lemma astTop_walk_no_parent (fuel : nat) (h : Heap) (c top : ptr) :
  astTop_walk fuel h c = Ok top -> astParent_of h top = Ok None.
Proof.
  revert c. induction fuel as [|fuel IH]; intros c Hrun; simpl in Hrun;
    apply bind_Ok in Hrun as (up & Hup & Hrun); destruct up as [q|];
    try discriminate;
    try (inversion Hrun; subst; exact Hup).
  eapply IH. exact Hrun.
Qed.

Lemma astParent_not_self (h h' : Heap) (this p : ptr) :
  astParent h this (Some p) = Ok h' -> this <> p.
Proof.
  unfold astParent. intros Hrun. apply bind_Ok in Hrun as (u & Hc & _).
  unfold walk_fuel in Hc. simpl in Hc.
  destruct (ptr_eqb this p) eqn:E; [discriminate|].
  intros ->. rewrite ptr_eqb_refl in E. discriminate.
Qed.

(** Detaching a token from its parent keeps the links consistent. *)
Lemma detach_links_consistent (h h1 : Heap) (o : ptr) (up : option ptr) :
  ast_consistent h ->
  (exists a b, ast_links h o = Some (up, a, b)) ->
  (forall x, ast_links h1 x =
             set_parent o None x <$> (detach_from o up x <$> ast_links h x)) ->
  ast_consistent h1.
Proof.
  intros [C1 C2] (a & b & Lo) E. split.
  - intros p c u o1 o2 Lp Hc. rewrite E in Lp.
    destruct (ast_links h p) as [[[u0 a0] b0]|] eqn:Lp0; [|discriminate].
    assert (Hc0 : (a0 = Some c \/ b0 = Some c) /\ ~ (up = Some p /\ c = o)).
    { unfold set_parent, detach_from in Lp. simpl in Lp.
      repeat case_decide; simplify_eq/=; intuition congruence. }
    destruct Hc0 as [Hc0 Hno].
    destruct (C1 _ _ _ _ _ Lp0 Hc0) as (x & y & Lc).
    rewrite E, Lc. unfold set_parent, detach_from. simpl.
    repeat case_decide; simplify_eq/=;
      try (do 2 eexists; reflexivity); exfalso; intuition congruence.
  - intros c p o1 o2 Lc. rewrite E in Lc.
    destruct (ast_links h c) as [[[u0 a0] b0]|] eqn:Lc0; [|discriminate].
    assert (Hc0 : u0 = Some p /\ c <> o).
    { unfold set_parent, detach_from in Lc. simpl in Lc.
      repeat case_decide; simplify_eq/=; intuition congruence. }
    destruct Hc0 as [-> Hne].
    destruct (C2 _ _ _ _ Lc0) as (u & x & y & Lp & Hxy).
    rewrite E, Lp. unfold set_parent, detach_from. simpl.
    repeat case_decide; simplify_eq/=;
      (do 3 eexists; split; [reflexivity|]); intuition congruence.
Qed.

Lemma ast_consistent_ext (h h' : Heap) :
  (forall x, ast_links h' x = ast_links h x) ->
  ast_consistent h -> ast_consistent h'.
Proof.
  intros E [C1 C2]. split.
  - intros p c up o1 o2. rewrite !E. apply C1.
  - intros c p o1 o2. rewrite E. intros L.
    destruct (C2 _ _ _ _ L) as (up & a & b & Lp & Hab).
    exists up, a, b. now rewrite E.
Qed.

(** Making a token without a parent the operand of [this], in a slot that
    is empty, keeps the links consistent. *)
Lemma attach_links_consistent (h1 h' : Heap) (this top : ptr)
    (a b up o1 o2 n1 n2 : option ptr) :
  ast_consistent h1 ->
  ast_links h1 top = Some (None, a, b) ->
  ast_links h1 this = Some (up, o1, o2) ->
  this <> top ->
  (o1 = None /\ n1 = Some top /\ n2 = o2) \/
  (o2 = None /\ n1 = o1 /\ n2 = Some top) ->
  (forall x, ast_links h' x =
             if decide (x = this) then Some (up, n1, n2)
             else if decide (x = top) then Some (Some this, a, b)
                  else ast_links h1 x) ->
  ast_consistent h'.
Proof.
  intros [C1 C2] Lk Lt Hne Hslot E. split.
  - intros p c u x y Lp Hc. rewrite E in Lp. rewrite E.
    destruct (decide (p = this)) as [->|Hp].
    + inversion Lp; subst u x y; clear Lp.
      destruct (decide (c = top)) as [->|Hct].
      * repeat case_decide; try congruence; eauto.
      * assert (Hold : o1 = Some c \/ o2 = Some c) by (intuition congruence).
        destruct (C1 _ _ _ _ _ Lt Hold) as (x' & y' & Lc).
        destruct (decide (c = this)) as [->|Hcth].
        -- rewrite Lt in Lc. inversion Lc; subst. eauto.
        -- eauto.
    + destruct (decide (p = top)) as [->|Hpt].
      * inversion Lp; subst u x y; clear Lp.
        destruct (C1 _ _ _ _ _ Lk Hc) as (x' & y' & Lc).
        destruct (decide (c = this)) as [->|Hcth].
        -- rewrite Lt in Lc. inversion Lc; subst. eauto.
        -- destruct (decide (c = top)) as [->|]; [congruence|]. eauto.
      * destruct (C1 _ _ _ _ _ Lp Hc) as (x' & y' & Lc).
        destruct (decide (c = this)) as [->|Hcth].
        -- rewrite Lt in Lc. inversion Lc; subst. eauto.
        -- destruct (decide (c = top)) as [->|]; [congruence|]. eauto.
  - intros c p x y Lc. rewrite E in Lc. rewrite E.
    destruct (decide (c = this)) as [->|Hc].
    + inversion Lc; subst up x y; clear Lc.
      destruct (C2 _ _ _ _ Lt) as (u & x' & y' & Lp & Hxy).
      destruct (decide (p = this)) as [->|Hp].
      * rewrite Lt in Lp. inversion Lp; subst.
        do 3 eexists. split; [reflexivity|]. intuition congruence.
      * destruct (decide (p = top)) as [->|Hpt].
        -- rewrite Lk in Lp. inversion Lp; subst. eauto 10.
        -- eauto 10.
    + destruct (decide (c = top)) as [->|Hct].
      * inversion Lc; subst p x y; clear Lc.
        rewrite decide_True by reflexivity.
        do 3 eexists. split; [reflexivity|]. intuition congruence.
      * destruct (C2 _ _ _ _ Lc) as (u & x' & y' & Lp & Hxy).
        destruct (decide (p = this)) as [->|Hp].
        -- rewrite Lt in Lp. inversion Lp; subst.
           do 3 eexists. split; [reflexivity|]. intuition congruence.
        -- destruct (decide (p = top)) as [->|Hpt].
           ++ rewrite Lk in Lp. inversion Lp; subst. eauto 10.
           ++ eauto 10.
Qed.

(** What the shared part of [astOperand1] and [astOperand2] has done when
    it returns: the slot of the old occupant is empty, and the top of the
    new operand, which had no parent, has [this] as its parent. *)
Lemma attach_operand_links (h h2 : Heap) (this : ptr)
    (up o1 o2 old tok r : option ptr) :
  ast_consistent h ->
  ast_links h this = Some (up, o1, o2) ->
  old = o1 \/ old = o2 ->
  attach_operand h this old tok = Ok (h2, r) ->
  exists h1 up' o1' o2',
    ast_consistent h1 /\
    ast_links h1 this = Some (up', o1', o2') /\
    (old = o1 -> o1' = None) /\ (old = o2 -> o2' = None) /\
    match tok with
    | None => r = None /\ forall x, ast_links h2 x = ast_links h1 x
    | Some _ =>
        exists top a b,
          r = Some top /\ this <> top /\
          ast_links h1 top = Some (None, a, b) /\
          forall x, ast_links h2 x =
                    if decide (x = top) then Some (Some this, a, b)
                    else ast_links h1 x
    end.
Proof.
  intros Hc Lt Hold Hrun. unfold attach_operand in Hrun.
  apply bind_Ok in Hrun as (h1 & H1 & Hrun).
  assert (Hh1 : ast_consistent h1 /\
                exists up' o1' o2',
                  ast_links h1 this = Some (up', o1', o2') /\
                  (old = o1 -> o1' = None) /\ (old = o2 -> o2' = None)).
  { destruct old as [o|].
    - apply astParent_effect in H1 as (upo & Hupo & E).
      apply astParent_of_links in Hupo as (a & b & Lo).
      split.
      + eapply detach_links_consistent; [exact Hc| |exact E]. eauto.
      + assert (Hup : upo = Some this).
        { destruct Hc as [C1 _].
          destruct (C1 this o up o1 o2 Lt) as (x & y & Lo');
            [intuition congruence|]. congruence. }
        subst upo. rewrite E, Lt. simpl. unfold set_parent, detach_from. simpl.
        rewrite (decide_True (P := Some this = Some this)) by reflexivity.
        destruct (decide (this = o)); do 3 eexists;
          (split; [reflexivity|]); split; intros <-; simpl;
          now rewrite decide_True.
    - inversion H1; subst h1. split; [exact Hc|].
      exists up, o1, o2. split; [exact Lt|]. split; congruence. }
  destruct Hh1 as (Hc1 & up' & o1' & o2' & Lt1 & Ho1 & Ho2).
  exists h1, up', o1', o2'.
  split; [exact Hc1|]. split; [exact Lt1|].
  split; [exact Ho1|]. split; [exact Ho2|].
  destruct tok as [c|].
  - apply bind_Ok in Hrun as (top & Htop & Hrun).
    apply bind_Ok in Hrun as (h2' & H2 & Hrun).
    inversion Hrun; subst h2' r; clear Hrun.
    apply astTop_walk_no_parent in Htop.
    apply astParent_of_links in Htop as (a & b & Lk).
    pose proof (astParent_not_self _ _ _ _ H2) as Hne.
    apply astParent_effect in H2 as (upk & Hupk & E).
    apply astParent_of_links in Hupk as (a' & b' & Lk').
    rewrite Lk in Lk'. inversion Lk'; subst upk a' b'.
    exists top, a, b.
    split; [reflexivity|]. split; [congruence|]. split; [exact Lk|].
    intros x. rewrite E. unfold set_parent, detach_from.
    destruct (decide (x = top)) as [->|].
    + rewrite Lk. reflexivity.
    + now destruct (ast_links h1 x).
  - inversion Hrun; subst. split; reflexivity.
Qed.

Lemma astOperand1_consistent (h h' : Heap) (this : ptr) (tok : option ptr) :
  ast_consistent h -> astOperand1 h this tok = Ok h' ->
  ast_consistent h' /\
  exists up o1 o2, ast_links h' this = Some (up, o1, o2) /\
                   (is_Some o1 <-> is_Some tok).
Proof.
  intros Hc Hrun. unfold astOperand1 in Hrun.
  apply bind_Ok in Hrun as (t & Ht & Hrun). apply deref_Ok in Ht.
  apply bind_Ok in Hrun as (i & Hi & Hrun). apply impl_Ok in Hi.
  apply bind_Ok in Hrun as ([h2 r] & Hat & Hrun). simpl in Hrun.
  assert (Lt : ast_links h this
               = Some (mAstParent i, mAstOperand1 i, mAstOperand2 i)).
  { unfold ast_links. now rewrite Ht, Hi. }
  destruct (attach_operand_links _ _ _ _ _ _ _ _ _ Hc Lt (or_introl eq_refl) Hat)
    as (h1 & up' & o1' & o2' & Hc1 & Lt1 & Ho1 & _ & Htok).
  specialize (Ho1 eq_refl). subst o1'.
  apply update_impl_links in Hrun as (i2 & L2 & E).
  destruct tok as [c|].
  - destruct Htok as (top & a & b & -> & Hne & Lk & E2).
    rewrite E2, decide_False, Lt1 in L2 by exact Hne.
    inversion L2 as [[Ea Eb Ec]].
    assert (E' : forall x, ast_links h' x =
                           if decide (x = this) then Some (up', Some top, o2')
                           else if decide (x = top) then Some (Some this, a, b)
                                else ast_links h1 x).
    { intros x. rewrite E, E2. simpl. now rewrite <- Ea, <- Ec. }
    split.
    + eapply attach_links_consistent;
        [exact Hc1|exact Lk|exact Lt1|exact Hne| |exact E'].
      left. repeat split.
    + rewrite E', decide_True by reflexivity. do 3 eexists.
      split; [reflexivity|]. split; eauto.
  - destruct Htok as (-> & E2).
    rewrite E2, Lt1 in L2. inversion L2 as [[Ea Eb Ec]].
    assert (E' : forall x, ast_links h' x = ast_links h1 x).
    { intros x. rewrite E, E2. simpl. rewrite <- Ea, <- Ec.
      destruct (decide (x = this)) as [->|]; [now rewrite Lt1|reflexivity]. }
    split.
    + eapply ast_consistent_ext; [exact E'|exact Hc1].
    + rewrite E', Lt1. do 3 eexists. split; [reflexivity|].
      split; intros [? ?]; discriminate.
Qed.

Lemma astOperand2_consistent (h h' : Heap) (this : ptr) (tok : option ptr) :
  ast_consistent h -> astOperand2 h this tok = Ok h' ->
  ast_consistent h' /\
  exists up o1 o2, ast_links h' this = Some (up, o1, o2) /\
                   (is_Some o2 <-> is_Some tok).
Proof.
  intros Hc Hrun. unfold astOperand2 in Hrun.
  apply bind_Ok in Hrun as (t & Ht & Hrun). apply deref_Ok in Ht.
  apply bind_Ok in Hrun as (i & Hi & Hrun). apply impl_Ok in Hi.
  apply bind_Ok in Hrun as ([h2 r] & Hat & Hrun). simpl in Hrun.
  assert (Lt : ast_links h this
               = Some (mAstParent i, mAstOperand1 i, mAstOperand2 i)).
  { unfold ast_links. now rewrite Ht, Hi. }
  destruct (attach_operand_links _ _ _ _ _ _ _ _ _ Hc Lt (or_intror eq_refl) Hat)
    as (h1 & up' & o1' & o2' & Hc1 & Lt1 & _ & Ho2 & Htok).
  specialize (Ho2 eq_refl). subst o2'.
  apply update_impl_links in Hrun as (i2 & L2 & E).
  destruct tok as [c|].
  - destruct Htok as (top & a & b & -> & Hne & Lk & E2).
    rewrite E2, decide_False, Lt1 in L2 by exact Hne.
    inversion L2 as [[Ea Eb Ec]].
    assert (E' : forall x, ast_links h' x =
                           if decide (x = this) then Some (up', o1', Some top)
                           else if decide (x = top) then Some (Some this, a, b)
                                else ast_links h1 x).
    { intros x. rewrite E, E2. simpl. now rewrite <- Ea, <- Eb. }
    split.
    + eapply attach_links_consistent;
        [exact Hc1|exact Lk|exact Lt1|exact Hne| |exact E'].
      right. repeat split.
    + rewrite E', decide_True by reflexivity. do 3 eexists.
      split; [reflexivity|]. split; eauto.
  - destruct Htok as (-> & E2).
    rewrite E2, Lt1 in L2. inversion L2 as [[Ea Eb Ec]].
    assert (E' : forall x, ast_links h' x = ast_links h1 x).
    { intros x. rewrite E, E2. simpl. rewrite <- Ea, <- Eb.
      destruct (decide (x = this)) as [->|]; [now rewrite Lt1|reflexivity]. }
    split.
    + eapply ast_consistent_ext; [exact E'|exact Hc1].
    + rewrite E', Lt1. do 3 eexists. split; [reflexivity|].
      split; intros [? ?]; discriminate.
Qed.

Lemma ast_consistentb_sound (h : Heap) :
  ast_consistentb h = true -> ast_consistent h.
Proof.
  unfold ast_consistentb. rewrite forallb_forall. intros H.
  assert (Hat : forall p a, ast_links h p = Some a ->
                            exists t, In (p, t) (map_to_list (toks h))).
  { intros p a Lp. unfold ast_links in Lp.
    destruct (toks h !! p) as [t|] eqn:Hp; [|discriminate].
    exists t. apply list_elem_of_In. now apply elem_of_map_to_list. }
  split.
  - intros p c up o1 o2 Lp Hc. destruct (Hat _ _ Lp) as (t & Hin).
    specialize (H _ Hin). simpl in H. rewrite Lp in H.
    apply andb_prop in H as [H _]. apply andb_prop in H as [H1 H2].
    assert (Hb : match ast_links h c with
                 | Some (Some p', _, _) => ptr_eqb p' p
                 | _ => false
                 end = true).
    { destruct Hc as [->| ->]; assumption. }
    destruct (ast_links h c) as [[[[p'|] x] y]|]; try discriminate.
    apply ptr_eqb_eq in Hb. subst p'. eauto.
  - intros c p o1 o2 Lc. destruct (Hat _ _ Lc) as (t & Hin).
    specialize (H _ Hin). simpl in H. rewrite Lc in H.
    apply andb_prop in H as [_ H].
    destruct (ast_links h p) as [[[u x] y]|]; [|discriminate].
    exists u, x, y. split; [reflexivity|].
    apply orb_prop in H as [H|H]; apply optptr_eqb_eq in H; auto.
Qed.

(** X20: when the tokens' AST links are consistent (every operand of a
    token has that token as its parent, and every token with a parent is
    an operand of it), a call of [astOperand1] that returns leaves them
    consistent; the first operand of [this] is then set exactly when a
    token was given. *)
Theorem astOperand1_keeps_the_ast_consistent :
  forall (h h' : Heap) (this : ptr) (tok : option ptr),
    ast_consistent h -> astOperand1 h this tok = Ok h' ->
    ast_consistent h' /\
    exists up o1 o2, ast_links h' this = Some (up, o1, o2) /\
                     (is_Some o1 <-> is_Some tok).
Proof. exact astOperand1_consistent. Qed.

Lemma astOperand1_keeps_the_ast_consistent_witness :
  astOperand1 ast_a_plus_b_and_c 1 (Some 4) = Ok ast_c_plus_b_and_a /\
  ast_consistent ast_c_plus_b_and_a.
Proof.
  split; [reflexivity|].
  exact (proj1 (astOperand1_keeps_the_ast_consistent
                  ast_a_plus_b_and_c ast_c_plus_b_and_a 1 (Some 4)
                  (ast_consistentb_sound ast_a_plus_b_and_c eq_refl) eq_refl)).
Defined.

(** X21: when the tokens' AST links are consistent, a call of
    [astOperand2] that returns leaves them consistent; the second operand
    of [this] is then set exactly when a token was given. *)
Theorem astOperand2_keeps_the_ast_consistent :
  forall (h h' : Heap) (this : ptr) (tok : option ptr),
    ast_consistent h -> astOperand2 h this tok = Ok h' ->
    ast_consistent h' /\
    exists up o1 o2, ast_links h' this = Some (up, o1, o2) /\
                     (is_Some o2 <-> is_Some tok).
Proof. exact astOperand2_consistent. Qed.

Lemma astOperand2_keeps_the_ast_consistent_witness :
  astOperand2 ast_a_plus_b_and_c 1 (Some 4) = Ok ast_a_plus_c_and_b /\
  ast_consistent ast_a_plus_c_and_b.
Proof.
  split; [reflexivity|].
  exact (proj1 (astOperand2_keeps_the_ast_consistent
                  ast_a_plus_b_and_c ast_a_plus_c_and_b 1 (Some 4)
                  (ast_consistentb_sound ast_a_plus_b_and_c eq_refl) eq_refl)).
Defined.

(** ** Moving a range of tokens *)

Lemma same_but_neighbours_refl (h : Heap) : same_but_neighbours h h.
Proof. repeat split. Qed.

Lemma same_but_neighbours_trans (h1 h2 h3 : Heap) :
  same_but_neighbours h1 h2 -> same_but_neighbours h2 h3 ->
  same_but_neighbours h1 h3.
Proof.
  intros (P1 & L1 & F1 & B1) (P2 & L2 & F2 & B2). repeat split.
  - intros x. now rewrite P2.
  - intros x. now rewrite L2.
  - congruence.
  - congruence.
Qed.

Lemma next_of_nbrs (h : Heap) (p : ptr) (a b : option ptr) :
  nbrs h p = Some (a, b) -> next_of h p = Ok b.
Proof.
  intros H. apply nbrs_Some in H as (t & Ht & _ & <-).
  unfold next_of, deref. now rewrite Ht.
Qed.

Lemma previous_of_nbrs (h : Heap) (p : ptr) (a b : option ptr) :
  nbrs h p = Some (a, b) -> previous_of h p = Ok a.
Proof.
  intros H. apply nbrs_Some in H as (t & Ht & <- & _).
  unfold previous_of, deref. now rewrite Ht.
Qed.

Lemma set_next_nbrs (h : Heap) (p : ptr) (q : option ptr) :
  is_Some (toks h !! p) ->
  exists h', set_next h p q = Ok h' /\
             (forall x, nbrs h' x =
                        if decide (x = p) then (fun a => (a.1, q)) <$> nbrs h x
                        else nbrs h x) /\
             same_but_neighbours h h'.
Proof.
  intros [t Ht].
  exists (store h p (with_mNext q t)). split.
  { unfold set_next, deref. now rewrite Ht. }
  split.
  { intros x. rewrite nbrs_store.
    destruct (decide (p = x)) as [->|].
    - rewrite decide_True by reflexivity. unfold nbrs. now rewrite Ht.
    - now rewrite decide_False by congruence. }
  repeat split.
  - intros x. rewrite payload_store. destruct (decide (p = x)) as [<-|]; [|reflexivity].
    unfold payload. now rewrite Ht.
  - intros x. eapply lnk_store_same; [exact Ht|reflexivity].
Qed.

Lemma set_previous_nbrs (h : Heap) (p : ptr) (q : option ptr) :
  is_Some (toks h !! p) ->
  exists h', set_previous h p q = Ok h' /\
             (forall x, nbrs h' x =
                        if decide (x = p) then (fun a => (q, a.2)) <$> nbrs h x
                        else nbrs h x) /\
             same_but_neighbours h h'.
Proof.
  intros [t Ht].
  exists (store h p (with_mPrevious q t)). split.
  { unfold set_previous, deref. now rewrite Ht. }
  split.
  { intros x. rewrite nbrs_store.
    destruct (decide (p = x)) as [->|].
    - rewrite decide_True by reflexivity. unfold nbrs. now rewrite Ht.
    - now rewrite decide_False by congruence. }
  repeat split.
  - intros x. rewrite payload_store. destruct (decide (p = x)) as [<-|]; [|reflexivity].
    unfold payload. now rewrite Ht.
  - intros x. eapply lnk_store_same; [exact Ht|reflexivity].
Qed.

Lemma nbrs_fmap_live (h h' : Heap) (x : ptr) (f : option ptr * option ptr -> option ptr * option ptr) :
  nbrs h' x = f <$> nbrs h x -> is_Some (toks h !! x) -> is_Some (toks h' !! x).
Proof.
  unfold nbrs. intros E [t Ht]. rewrite Ht in E. simpl in E.
  destruct (toks h' !! x); [eauto|discriminate].
Qed.

Lemma chain_head_prev (h : Heap) (l : list ptr) (p q : option ptr) (x : ptr) :
  chain h p l q = true -> head l = Some x ->
  exists nx, nbrs h x = Some (p, nx).
Proof.
  destruct l as [|a l]; [discriminate|]. intros Hc [= ->].
  apply chain_cons in Hc as [Ha _]. eauto.
Qed.

Lemma chain_last_next (h : Heap) :
  forall (l : list ptr) (p q : option ptr) (x : ptr),
    chain h p l q = true -> last l = Some x ->
    exists pr, nbrs h x = Some (pr, q).
Proof.
  induction l as [|a l IH]; intros p q x Hc Hl; [discriminate|].
  apply chain_cons in Hc as [Ha Hc]. destruct l as [|b l].
  - inversion Hl; subst. eauto.
  - eapply IH; [exact Hc|exact Hl].
Qed.

(** The tokens at [l], chained between [p] and [q], are chained between
    [p'] and [q'] once the first has [p'] before it and the last [q']
    after it. *)
Lemma chain_ends (h h' : Heap) :
  forall (l : list ptr) (p q p' q' : option ptr),
    NoDup l -> chain h p l q = true ->
    (forall x, x ∈ l -> nbrs h' x = with_ends l p' q' x <$> nbrs h x) ->
    chain h' p' l q' = true.
Proof.
  induction l as [|a l IH]; intros p q p' q' Hnd Hc He; [reflexivity|].
  apply chain_cons in Hc as [Ha Hc]. apply NoDup_cons in Hnd as [Hal Hnd].
  apply chain_cons. split.
  - rewrite He, Ha by left. unfold with_ends. simpl.
    rewrite decide_True by reflexivity. f_equal. f_equal.
    destruct l as [|b l]; simpl.
    + now rewrite decide_True.
    + rewrite decide_False; [reflexivity|].
      intros E. apply Hal.
      change (last (b :: l) = Some a) in E.
      apply last_Some_elem_of in E. exact E.
  - apply (IH (Some a) q (Some a) q' Hnd Hc).
    intros x Hx. rewrite He by now right.
    assert (Hxa : x <> a) by (intros ->; contradiction).
    destruct (nbrs h x) as [[pr nx]|] eqn:Hnx; [|reflexivity].
    unfold with_ends. simpl. f_equal. f_equal.
    + rewrite decide_False by congruence.
      destruct (decide (head l = Some x)) as [E|]; [|reflexivity].
      destruct l as [|b l]; [discriminate|]. inversion E; subst b.
      apply chain_cons in Hc as [Hb _]. congruence.
    + destruct l as [|b l]; [inversion Hx|]. reflexivity.
Qed.

Lemma chain_new_next (h h' : Heap) (l : list ptr) (p q q' : option ptr) :
  NoDup l -> chain h p l q = true ->
  (forall x, x ∈ l ->
             nbrs h' x = if decide (last l = Some x)
                         then (fun a => (a.1, q')) <$> nbrs h x
                         else nbrs h x) ->
  chain h' p l q' = true.
Proof.
  intros Hnd Hc He. apply (chain_ends h h' l p q p q' Hnd Hc).
  intros x Hx. rewrite He by exact Hx.
  destruct (nbrs h x) as [[pr nx]|] eqn:Hnx;
    [|now destruct (decide (last l = Some x))].
  unfold with_ends.
  assert (Hp : (if decide (head l = Some x) then p else pr) = pr).
  { destruct (decide (head l = Some x)) as [E|]; [|reflexivity].
    destruct (chain_head_prev _ _ _ _ _ Hc E) as (nx' & E'). congruence. }
  simpl. rewrite Hp. now destruct (decide (last l = Some x)).
Qed.

Lemma chain_new_prev (h h' : Heap) (l : list ptr) (p p' q : option ptr) :
  NoDup l -> chain h p l q = true ->
  (forall x, x ∈ l ->
             nbrs h' x = if decide (head l = Some x)
                         then (fun a => (p', a.2)) <$> nbrs h x
                         else nbrs h x) ->
  chain h' p' l q = true.
Proof.
  intros Hnd Hc He. apply (chain_ends h h' l p q p' q Hnd Hc).
  intros x Hx. rewrite He by exact Hx.
  destruct (nbrs h x) as [[pr nx]|] eqn:Hnx;
    [|now destruct (decide (head l = Some x))].
  unfold with_ends.
  assert (Hq : (if decide (last l = Some x) then q else nx) = nx).
  { destruct (decide (last l = Some x)) as [E|]; [|reflexivity].
    destruct (chain_last_next _ _ _ _ _ Hc E) as (pr' & E'). congruence. }
  simpl. rewrite Hq. now destruct (decide (head l = Some x)).
Qed.

Lemma progress_of_payload (h h' : Heap) (x : ptr) :
  payload h' x = payload h x -> progress_of h' x = progress_of h x.
Proof. unfold progress_of. now intros ->. Qed.

Lemma has_impl_payload (h h' : Heap) (x : ptr) :
  payload h' x = payload h x -> has_impl h x -> has_impl h' x.
Proof. unfold has_impl. now intros ->. Qed.

(** The loop over the tokens at [l], which are chained up to what follows
    [srcEnd]: it returns, and has written the progress value of
    [newLocation] into each of them. *)
Lemma progress_loop_chain (srcEnd newLocation : ptr) (qo : option ptr) (v : Z) :
  forall (l : list ptr) (h : Heap) (fuel : nat) (p : option ptr),
    (exists pe, nbrs h srcEnd = Some (pe, qo)) ->
    progress_of h newLocation = Some v ->
    newLocation ∉ l -> NoDup l ->
    length l <= fuel -> (forall x, x ∈ l -> qo <> Some x) ->
    (forall x, x ∈ l -> has_impl h x) ->
    chain h p l qo = true ->
    exists h', progress_loop fuel h (first_or l qo) srcEnd newLocation = Ok h' /\
               (forall x, nbrs h' x = nbrs h x) /\
               same_but_neighbours_and_progress l v h h'.
Proof.
  assert (Hrefl : optptr_eqb qo qo = true) by now apply optptr_eqb_eq.
  induction l as [|a l IH]; intros h fuel p (pe & He) Hv Hnl Hnd Hf Hq Hi Hc;
    assert (Hen : next_of h srcEnd = Ok qo) by (eapply next_of_nbrs; exact He).
  - exists h. split.
    { simpl. destruct fuel; simpl; rewrite Hen; simpl; now rewrite Hrefl. }
    split; [reflexivity|]. repeat split.
  - apply chain_cons in Hc as [Ha Hc].
    apply NoDup_cons in Hnd as [Hal Hnd].
    destruct fuel as [|fuel]; [simpl in Hf; lia|].
    cbn [first_or progress_loop]. rewrite Hen. cbn [bind].
    destruct (optptr_eqb (Some a) qo) eqn:Eq.
    { apply optptr_eqb_eq in Eq. exfalso. apply (Hq a); [left|congruence]. }
    destruct (Hi a) as (sa & ia & Hpa); [left|].
    pose proof Ha as Ha0.
    apply nbrs_Some in Ha as (t & Ht & Hp & Hnx).
    unfold payload in Hpa. rewrite Ht in Hpa. inversion Hpa as [[Es Ei]].
    assert (Hdn : exists tn imn, deref h newLocation = Ok tn /\ impl tn = Ok imn /\
                                 mProgressValue imn = v).
    { unfold progress_of, payload in Hv.
      destruct (toks h !! newLocation) as [tn|] eqn:E; [|discriminate].
      simpl in Hv. destruct (mImpl tn) as [imn|] eqn:Ei'; [|discriminate].
      exists tn, imn. split; [now apply deref_Ok|].
      split; [now apply impl_Ok | congruence]. }
    destruct Hdn as (tn & imn & Hdn & Hin & Hvn).
    cbn [nonnull bind].
    unfold deref at 1. rewrite Ht. cbn [bind]. unfold impl at 1. rewrite Ei.
    cbn [bind]. rewrite Hdn. cbn [bind]. rewrite Hin. cbn [bind]. rewrite Hnx, Hvn.
    set (h1 := store h a (with_mImpl (Some (with_mProgressValue v ia)) t)).
    assert (N1 : forall x, nbrs h1 x = nbrs h x).
    { intros x. subst h1. rewrite nbrs_store.
      destruct (decide (a = x)) as [<-|]; [|reflexivity].
      rewrite Ha0. simpl. now rewrite Hp, Hnx. }
    assert (P1 : forall x, payload h1 x
                           = if decide (a = x)
                             then Some (mStr t, Some (with_mProgressValue v ia))
                             else payload h x).
    { intros x. subst h1. now rewrite payload_store. }
    assert (Hna : newLocation <> a) by (intros ->; apply Hnl; left).
    destruct (IH h1 fuel (Some a)) as (h' & Hrun & N' & P' & L' & F' & B').
    + exists pe. now rewrite N1.
    + rewrite <- Hv. apply progress_of_payload.
      rewrite P1, decide_False by congruence. reflexivity.
    + intros Hx. apply Hnl. now right.
    + exact Hnd.
    + simpl in Hf. lia.
    + intros x Hx. apply Hq. now right.
    + intros x Hx. apply (has_impl_payload h); [|apply Hi; now right].
      rewrite P1, decide_False; [reflexivity|]. intros <-. contradiction.
    + eapply chain_ext; [|exact Hc]. intros x _. symmetry. apply N1.
    + exists h'. split; [exact Hrun|]. split.
      { intros x. now rewrite N', N1. }
      split; [|split; [|split]].
      * intros x. rewrite P', P1.
        destruct (decide (a = x)) as [<-|Hax].
        -- rewrite decide_False by exact Hal.
           rewrite decide_True by left.
           unfold payload. rewrite Ht. simpl. unfold with_progress. simpl.
           now rewrite Ei.
        -- destruct (decide (x ∈ l)) as [Hx|Hx].
           ++ rewrite decide_True by now right. reflexivity.
           ++ rewrite decide_False; [reflexivity|].
              intros Hx'. apply elem_of_cons in Hx' as [->|Hx']; congruence.
      * intros x. rewrite L'. subst h1.
        eapply lnk_store_same; [exact Ht|reflexivity].
      * rewrite F'. reflexivity.
      * rewrite B'. reflexivity.
Qed.

Lemma head_app_nonempty {A : Type} (l1 l2 : list A) :
  l1 <> [] -> head (l1 ++ l2) = head l1.
Proof. destruct l1; [congruence|reflexivity]. Qed.

Lemma last_app_nonempty {A : Type} (l1 l2 : list A) :
  l2 <> [] -> last (l1 ++ l2) = last l2.
Proof.
  intros H. destruct l2 as [|b l2] using rev_ind; [congruence|].
  now rewrite app_assoc, !last_snoc.
Qed.

Lemma first_or_app_head (l l' : list ptr) (q : option ptr) (s : ptr) :
  head l = Some s -> first_or (l ++ l') q = Some s.
Proof. destruct l; [discriminate|]. simpl. congruence. Qed.

Lemma last_or_last (l : list ptr) (p : option ptr) (e : ptr) :
  last l = Some e -> last_or l p = Some e.
Proof. unfold last_or. now intros ->. Qed.

Lemma nbrs_is_Some (h : Heap) (x : ptr) (v : option ptr * option ptr) :
  nbrs h x = Some v -> is_Some (toks h !! x).
Proof. intros H. apply nbrs_live in H as (t & Ht & _). eauto. Qed.

Lemma move_on_list (h : Heap) (X S Y L1 L2 : list ptr) (s e n : ptr) :
  token_list h (X ++ S ++ Y) -> X <> [] -> Y <> [] ->
  head S = Some s -> last S = Some e ->
  X ++ Y = L1 ++ n :: L2 -> L2 <> [] ->
  (forall x, x ∈ n :: S -> has_impl h x) ->
  exists h' v, move h s e n = Ok h' /\
               token_list h' (L1 ++ n :: S ++ L2) /\
               progress_of h n = Some v /\
               same_but_neighbours_and_progress S v h h'.
Proof.
  intros (Hnd & Hc & Hfr & Hbk) HX HY Hs He HL HL2 Himpl.
  destruct X as [|a X' _] using rev_ind; [congruence|]. clear HX.
  destruct Y as [|f Y']; [congruence|]. clear HY.
  destruct L2 as [|q L2']; [congruence|]. clear HL2.
  (* the tokens are all different *)
  assert (Hperm : L1 ++ n :: S ++ q :: L2' ≡ₚ (X' ++ [a]) ++ S ++ f :: Y').
  { change (L1 ++ n :: S ++ q :: L2') with (L1 ++ [n] ++ S ++ q :: L2').
    rewrite (app_assoc L1 [n]).
    rewrite (Permutation_app_swap_app (L1 ++ [n]) S).
    rewrite <- (app_assoc L1 [n]). simpl. rewrite <- HL.
    apply Permutation_app_swap_app. }
  assert (Hnd' : NoDup (L1 ++ n :: S ++ q :: L2')) by now rewrite Hperm.
  pose proof Hnd as Hnd0.
  apply NoDup_app in Hnd0 as (HndX & HXSY & HndSY).
  apply NoDup_app in HndSY as (HndS & HSY & HndY).
  assert (HsS : s ∈ S) by (apply head_Some_elem_of; exact Hs).
  assert (HeS : e ∈ S) by (apply last_Some_elem_of; exact He).
  assert (HSX : forall x, x ∈ S -> x ∉ X' ++ [a]).
  { intros x Hx Hx'. apply (HXSY x Hx'). apply elem_of_app. now left. }
  assert (HXY : forall x, x ∈ X' ++ [a] -> x ∉ f :: Y').
  { intros x Hx Hx'. apply (HXSY x Hx). apply elem_of_app. now right. }
  assert (HndXY : NoDup ((X' ++ [a]) ++ f :: Y')).
  { apply NoDup_app. repeat split; assumption. }
  assert (HSXY : forall x, x ∈ S -> x ∉ L1 ++ n :: q :: L2').
  { intros x Hx. rewrite <- HL. intros Hx'. apply elem_of_app in Hx' as [Hx'|Hx'].
    - exact (HSX x Hx Hx').
    - exact (HSY x Hx Hx'). }
  pose proof HndXY as HndL. rewrite HL in HndL.
  assert (Hsa : forall x, x ∈ S -> x <> a).
  { intros x Hx ->. apply (HSX a Hx). apply elem_of_app. right. left. }
  assert (Hsf : forall x, x ∈ S -> x <> f).
  { intros x Hx ->. apply (HSY f Hx). left. }
  assert (Hsn : forall x, x ∈ S -> x <> n).
  { intros x Hx ->. apply (HSXY n Hx). apply elem_of_app. right. left. }
  assert (Hsq : forall x, x ∈ S -> x <> q).
  { intros x Hx ->. apply (HSXY q Hx). apply elem_of_app. right. right. left. }
  assert (Haf : forall x, x ∈ X' ++ [a] -> x <> f).
  { intros x Hx ->. apply (HXY f Hx). left. }
  assert (Hfa : forall x, x ∈ f :: Y' -> x <> a).
  { intros x Hx ->. apply (HXY a); [|exact Hx]. apply elem_of_app. right. left. }
  (* the neighbours before the call *)
  apply chain_app in Hc as [HcX HcSY].
  rewrite (first_or_app_head S _ None s Hs) in HcX.
  rewrite last_or_snoc in HcSY.
  apply chain_app in HcSY as [HcS HcY].
  simpl in HcS. rewrite (last_or_last S _ e He) in HcY.
  destruct (chain_head_prev _ _ _ _ _ HcS Hs) as (ns & Hns).
  destruct (chain_last_next _ _ _ _ _ HcS He) as (pe & Hne).
  destruct (chain_last_next _ _ _ _ a HcX (last_snoc _ _)) as (pa & Hna).
  destruct (chain_head_prev _ _ _ _ f HcY eq_refl) as (nf & Hnf).
  (* the gap is closed *)
  unfold move. rewrite (previous_of_nbrs _ _ _ _ Hns). cbn [bind nonnull].
  rewrite (next_of_nbrs _ _ _ _ Hne). cbn [bind nonnull].
  destruct (set_next_nbrs h a (Some f) (nbrs_is_Some _ _ _ Hna))
    as (h1 & R1 & E1 & SB1).
  rewrite R1. cbn [bind nonnull].
  assert (H1e : nbrs h1 e = Some (pe, Some f)).
  { rewrite E1, decide_False by (apply Hsa; exact HeS). exact Hne. }
  assert (H1s : nbrs h1 s = Some (Some a, ns)).
  { rewrite E1, decide_False by (apply Hsa; exact HsS). exact Hns. }
  assert (H1f : nbrs h1 f = Some (Some e, nf)).
  { rewrite E1, decide_False by (apply Hfa; left). exact Hnf. }
  rewrite (next_of_nbrs _ _ _ _ H1e). cbn [bind nonnull].
  rewrite (previous_of_nbrs _ _ _ _ H1s). cbn [bind nonnull].
  destruct (set_previous_nbrs h1 f (Some a) (nbrs_is_Some _ _ _ H1f))
    as (h2 & R2 & E2 & SB2).
  rewrite R2. cbn [bind nonnull].
  assert (HS2 : forall x, x ∈ S -> nbrs h2 x = nbrs h x).
  { intros x Hx. rewrite E2, decide_False by (apply Hsf; exact Hx).
    rewrite E1, decide_False by (apply Hsa; exact Hx). reflexivity. }
  assert (HcX2 : chain h2 None (X' ++ [a]) (Some f) = true).
  { apply (chain_new_next h h2 _ None (Some s) (Some f) HndX HcX).
    intros x Hx. rewrite E2, decide_False by (apply Haf; exact Hx).
    rewrite E1, last_snoc.
    destruct (decide (x = a)) as [->|Hxa].
    - now rewrite decide_True.
    - now rewrite decide_False by congruence. }
  assert (HcY2 : chain h2 (Some a) (f :: Y') None = true).
  { apply (chain_new_prev h h2 _ (Some e) (Some a) None HndY HcY).
    intros x Hx. rewrite E2. simpl.
    destruct (decide (x = f)) as [->|Hxf].
    - rewrite decide_True by reflexivity.
      rewrite E1, decide_False by (apply Hfa; left). reflexivity.
    - rewrite decide_False by congruence.
      rewrite E1, decide_False by (apply Hfa; exact Hx). reflexivity. }
  assert (Hc2 : chain h2 None ((X' ++ [a]) ++ f :: Y') None = true).
  { apply chain_app. split; [exact HcX2|]. now rewrite last_or_snoc. }
  rewrite HL in Hc2.
  change (L1 ++ n :: q :: L2') with (L1 ++ [n] ++ q :: L2') in Hc2.
  rewrite app_assoc in Hc2.
  apply chain_app in Hc2 as [HcA HcB]. simpl in HcA.
  rewrite last_or_snoc in HcB.
  destruct (chain_last_next _ _ _ _ n HcA (last_snoc _ _)) as (pn & H2n).
  destruct (chain_head_prev _ _ _ _ q HcB eq_refl) as (nq & H2q).
  (* the range is put after newLocation *)
  rewrite (next_of_nbrs _ _ _ _ H2n). cbn [bind nonnull].
  assert (H2e : nbrs h2 e = Some (pe, Some f)) by (rewrite HS2; assumption).
  destruct (set_next_nbrs h2 e (Some q) (nbrs_is_Some _ _ _ H2e))
    as (h3 & R3 & E3 & SB3).
  rewrite R3. cbn [bind nonnull].
  assert (L3 : forall x, is_Some (toks h2 !! x) -> is_Some (toks h3 !! x)).
  { intros x Hx. specialize (E3 x).
    destruct (decide (x = e)); [eapply nbrs_fmap_live; eassumption|].
    unfold nbrs in E3. destruct Hx as [t Ht]. rewrite Ht in E3.
    destruct (toks h3 !! x); [eauto|discriminate]. }
  assert (H2s : is_Some (toks h2 !! s)).
  { eapply nbrs_is_Some. rewrite HS2; eassumption. }
  destruct (set_previous_nbrs h3 s (Some n) (L3 _ H2s)) as (h4 & R4 & E4 & SB4).
  rewrite R4. cbn [bind nonnull].
  assert (Hne_s : n <> s) by (intros ->; now apply (Hsn s HsS)).
  assert (Hne_e : n <> e) by (intros ->; now apply (Hsn e HeS)).
  assert (Hqe_s : q <> s) by (intros ->; now apply (Hsq s HsS)).
  assert (Hqe_e : q <> e) by (intros ->; now apply (Hsq e HeS)).
  assert (Hnq : n <> q).
  { intros ->. apply NoDup_app in HndL as (_ & _ & Hd).
    apply NoDup_cons in Hd as [Hd _]. apply Hd. left. }
  assert (H4n : nbrs h4 n = Some (pn, Some q)).
  { rewrite E4, decide_False by exact Hne_s.
    rewrite E3, decide_False by exact Hne_e. exact H2n. }
  assert (H4q : nbrs h4 q = Some (Some n, nq)).
  { rewrite E4, decide_False by exact Hqe_s.
    rewrite E3, decide_False by exact Hqe_e. exact H2q. }
  rewrite (next_of_nbrs _ _ _ _ H4n). cbn [bind nonnull].
  destruct (set_previous_nbrs h4 q (Some e) (nbrs_is_Some _ _ _ H4q))
    as (h5 & R5 & E5 & SB5).
  rewrite R5. cbn [bind nonnull].
  assert (H5n : nbrs h5 n = Some (pn, Some q)).
  { rewrite E5, decide_False by exact Hnq. exact H4n. }
  destruct (set_next_nbrs h5 n (Some s) (nbrs_is_Some _ _ _ H5n))
    as (h6 & R6 & E6 & SB6).
  rewrite R6. cbn [bind].
  assert (SB : same_but_neighbours h h6).
  { repeat (eapply same_but_neighbours_trans; [|eassumption]).
    apply same_but_neighbours_refl. }
  (* the chain after the call *)
  assert (HcS6 : chain h6 (Some n) S (Some q) = true).
  { apply (chain_ends h h6 S (Some a) (Some f) (Some n) (Some q) HndS HcS).
    intros x Hx.
    rewrite E6, decide_False by (apply Hsn; exact Hx).
    rewrite E5, decide_False by (apply Hsq; exact Hx).
    rewrite E4, E3, (HS2 x Hx). unfold with_ends. rewrite Hs, He.
    destruct (nbrs h x) as [[pr nx]|]; simpl;
      destruct (decide (x = s)) as [Hxs|Hxs];
      destruct (decide (x = e)) as [Hxe|Hxe]; simpl;
      repeat case_decide; try congruence; reflexivity. }
  assert (HnL : forall x, x ∈ L1 ++ [n] -> x ∉ S).
  { intros x Hx HxS. apply (HSXY x HxS).
    change (L1 ++ n :: q :: L2') with (L1 ++ [n] ++ q :: L2').
    rewrite app_assoc. apply elem_of_app. now left. }
  assert (HqL : forall x, x ∈ q :: L2' -> x ∉ S).
  { intros x Hx HxS. apply (HSXY x HxS).
    change (L1 ++ n :: q :: L2') with (L1 ++ [n] ++ q :: L2').
    rewrite app_assoc. apply elem_of_app. now right. }
  change (L1 ++ n :: q :: L2') with (L1 ++ [n] ++ q :: L2') in HndL.
  rewrite app_assoc in HndL.
  apply NoDup_app in HndL as (HndA & HAB & HndB).
  assert (HcA6 : chain h6 None (L1 ++ [n]) (Some s) = true).
  { apply (chain_new_next h2 h6 _ None (Some q) (Some s) HndA HcA).
    intros x Hx. rewrite last_snoc, E6.
    assert (Hxq : x <> q) by (intros ->; apply (HAB q Hx); left).
    assert (Hxs : x <> s) by (intros ->; now apply (HnL s Hx)).
    assert (Hxe : x <> e) by (intros ->; now apply (HnL e Hx)).
    assert (E : nbrs h5 x = nbrs h2 x).
    { rewrite E5, decide_False by exact Hxq.
      rewrite E4, decide_False by exact Hxs.
      rewrite E3, decide_False by exact Hxe. reflexivity. }
    rewrite E. destruct (decide (x = n)) as [->|Hxn].
    - now rewrite decide_True.
    - now rewrite decide_False by congruence. }
  assert (HcB6 : chain h6 (Some e) (q :: L2') None = true).
  { apply (chain_new_prev h2 h6 _ (Some n) (Some e) None HndB HcB).
    intros x Hx. simpl.
    assert (Hxn : x <> n).
    { intros ->. apply (HAB n); [|exact Hx]. apply elem_of_app. right. left. }
    assert (Hxs : x <> s) by (intros ->; now apply (HqL s Hx)).
    assert (Hxe : x <> e) by (intros ->; now apply (HqL e Hx)).
    assert (E : nbrs h4 x = nbrs h2 x).
    { rewrite E4, decide_False by exact Hxs.
      rewrite E3, decide_False by exact Hxe. reflexivity. }
    rewrite E6, decide_False by exact Hxn. rewrite E5, E.
    destruct (decide (x = q)) as [->|Hxq].
    - now rewrite decide_True.
    - now rewrite decide_False by congruence. }
  assert (Hl6 : token_list h6 (L1 ++ n :: S ++ q :: L2')).
  { destruct SB as (_ & _ & Hf6 & Hb6).
    split; [exact Hnd'|]. split; [|split].
    - change (L1 ++ n :: S ++ q :: L2') with (L1 ++ [n] ++ S ++ q :: L2').
      rewrite app_assoc. apply chain_app. split.
      + now rewrite (first_or_app_head S _ None s Hs).
      + rewrite last_or_snoc. apply chain_app. split; [exact HcS6|].
        now rewrite (last_or_last S _ e He).
    - rewrite Hf6, Hfr.
      rewrite (head_app_nonempty (X' ++ [a])) by (now destruct X').
      rewrite <- (head_app_nonempty (X' ++ [a]) (f :: Y')) by (now destruct X').
      rewrite HL.
      change (L1 ++ n :: q :: L2') with (L1 ++ [n] ++ q :: L2').
      change (L1 ++ n :: S ++ q :: L2') with (L1 ++ [n] ++ S ++ q :: L2').
      rewrite !app_assoc, <- !app_assoc.
      rewrite !(app_assoc L1 [n]).
      rewrite !(head_app_nonempty (L1 ++ [n])) by (now destruct L1).
      reflexivity.
    - rewrite Hb6, Hbk.
      rewrite app_assoc, (last_app_nonempty _ (f :: Y')) by discriminate.
      rewrite <- (last_app_nonempty (X' ++ [a]) (f :: Y')) by discriminate.
      rewrite HL.
      assert (Hmid : forall R, L1 ++ n :: R = (L1 ++ [n]) ++ R)
        by (intros R; now rewrite <- app_assoc).
      rewrite (Hmid (q :: L2')), (Hmid (S ++ q :: L2')).
      rewrite (app_assoc (L1 ++ [n]) S).
      rewrite !(last_app_nonempty _ (q :: L2')) by discriminate.
      reflexivity. }
  (* the loop over the moved tokens *)
  destruct (chain_last_next _ _ _ _ e HcS6 He) as (pe6 & H6e).
  assert (Himpl6 : forall x, x ∈ n :: S -> has_impl h6 x).
  { intros x Hx. destruct (Himpl x Hx) as (sx & ix & Hp).
    exists sx, ix. destruct SB as (Hp6 & _). now rewrite Hp6. }
  assert (Hv : exists v, progress_of h n = Some v).
  { destruct (Himpl n) as (sn & imn & Hpn); [left|].
    exists (mProgressValue imn). unfold progress_of. now rewrite Hpn. }
  destruct Hv as (v & Hv).
  assert (Hloop : exists h7,
             progress_loop (walk_fuel h6) h6 (Some s) e n = Ok h7 /\
             (forall x, nbrs h7 x = nbrs h6 x) /\
             same_but_neighbours_and_progress S v h6 h7).
  { rewrite <- (first_or_app_head S [] (Some q) s Hs). rewrite app_nil_r.
    apply (progress_loop_chain e n (Some q) v S h6 (walk_fuel h6) (Some n)).
    - eauto.
    - rewrite <- Hv. apply progress_of_payload. now destruct SB as (Hp6 & _).
    - intros Hx. now apply (Hsn n Hx).
    - exact HndS.
    - pose proof (token_list_size _ _ Hl6) as Hsz. unfold walk_fuel.
      rewrite length_app in Hsz. simpl in Hsz. rewrite length_app in Hsz. lia.
    - intros x Hx [= ->]. now apply (Hsq x Hx).
    - intros x Hx. apply Himpl6. now right.
    - exact HcS6. }
  destruct Hloop as (h7 & Hloop & N7 & P7 & K7 & F7 & B7).
  rewrite Hloop.
  destruct SB as (Hp6 & Hk6 & Hf6 & Hb6).
  exists h7, v. split; [reflexivity|]. split; [|split; [exact Hv|]].
  - destruct Hl6 as (Hnd6 & Hc6 & Hfr6 & Hbk6).
    split; [exact Hnd6|]. split; [|split; congruence].
    eapply chain_ext; [|exact Hc6]. intros x _. symmetry. apply N7.
  - split; [|split; [|split]].
    + intros x. rewrite P7. now rewrite Hp6.
    + intros x. now rewrite K7.
    + congruence.
    + congruence.
Qed.

Lemma has_implb_sound (h : Heap) (l : list ptr) :
  forallb (has_implb h) l = true -> Forall (has_impl h) l.
Proof.
  intros H. apply Forall_forall. intros x Hx.
  rewrite forallb_forall in H. specialize (H x (proj1 (list_elem_of_In _ _) Hx)).
  unfold has_implb in H. unfold has_impl.
  destruct (payload h x) as [[s [i|]]|]; try discriminate. eauto.
Qed.

Lemma move_at_an_end (h : Heap) (X S Y : list ptr) (s e n : ptr) :
  token_list h (X ++ S ++ Y) ->
  head S = Some s -> last S = Some e ->
  X = [] \/ Y = [] ->
  move h s e n = Undefined.
Proof.
  intros (Hnd & Hc & _) Hs He Hends.
  apply chain_app in Hc as [HcX HcSY].
  apply chain_app in HcSY as [HcS HcY].
  destruct (chain_head_prev _ _ _ _ _ HcS Hs) as (ns & Hns).
  destruct (chain_last_next _ _ _ _ _ HcS He) as (pe & Hne).
  unfold move. rewrite (previous_of_nbrs _ _ _ _ Hns).
  destruct X as [|a X' _] using rev_ind; [reflexivity|].
  destruct Hends as [HX|HY]; [now destruct X'|]. subst Y.
  rewrite last_or_snoc. cbn [bind nonnull].
  rewrite (next_of_nbrs _ _ _ _ Hne). cbn [bind first_or].
  rewrite (first_or_app_head S _ None s Hs) in HcX.
  destruct (chain_last_next _ _ _ _ a HcX (last_snoc _ _)) as (pa & Hna).
  destruct (set_next_nbrs h a None (nbrs_is_Some _ _ _ Hna))
    as (h1 & R1 & E1 & _).
  rewrite R1. cbn [bind].
  assert (Hea : e <> a).
  { intros ->. apply NoDup_app in Hnd as (_ & Hd & _).
    apply (Hd a).
    - apply elem_of_app. right. left.
    - rewrite app_nil_r. apply last_Some_elem_of. exact He. }
  assert (H1e : nbrs h1 e = Some (pe, None)).
  { rewrite E1, decide_False by exact Hea. exact Hne. }
  rewrite (next_of_nbrs _ _ _ _ H1e). reflexivity.
Qed.

(** X22: [move(srcStart, srcEnd, newLocation)] takes the tokens from
    [srcStart] to [srcEnd] out of the list and puts them, in their order,
    right after [newLocation]: when the range has a token before it and
    one after it, and [newLocation] is a token outside the range that is
    not the last one, the call returns and the list is again correctly
    chained from front to back.  Each moved token has the
    [mProgressValue] of [newLocation] afterwards; the texts and the rest of
    the [mImpl] data of the moved tokens, the texts and [mImpl] data of all
    other tokens, all bracket links, and the front and the back of the
    list are unchanged. *)
Theorem move_puts_the_range_after_newLocation :
  forall (h : Heap) (X S Y L1 L2 : list ptr) (srcStart srcEnd newLocation : ptr),
    token_list h (X ++ S ++ Y) -> X <> [] -> Y <> [] ->
    head S = Some srcStart -> last S = Some srcEnd ->
    X ++ Y = L1 ++ newLocation :: L2 -> L2 <> [] ->
    Forall (has_impl h) (newLocation :: S) ->
    exists h' v, move h srcStart srcEnd newLocation = Ok h' /\
                 token_list h' (L1 ++ newLocation :: S ++ L2) /\
                 progress_of h newLocation = Some v /\
                 same_but_neighbours_and_progress S v h h'.
Proof.
  intros h X S Y L1 L2 s e n Hl HX HY Hs He HL HL2 Hi.
  apply (move_on_list h X S Y L1 L2 s e n Hl HX HY Hs He HL HL2).
  apply Forall_forall. exact Hi.
Qed.

Lemma move_puts_the_range_after_newLocation_witness :
  exists h', move stream_progress 2 3 4 = Ok h' /\
             token_list h' [1; 4; 2; 3; 5] /\
             same_but_neighbours_and_progress [2; 3] 60 stream_progress h'.
Proof.
  destruct (move_puts_the_range_after_newLocation stream_progress
              [1] [2; 3] [4; 5] [1] [5] 2 3 4
              (token_listb_sound stream_progress [1; 2; 3; 4; 5] eq_refl))
    as (h' & v & Hrun & Hl & Hv & Hsame).
  - discriminate.
  - discriminate.
  - reflexivity.
  - reflexivity.
  - reflexivity.
  - discriminate.
  - apply has_implb_sound. reflexivity.
  - assert (Ev : v = 60%Z) by (vm_compute in Hv; congruence).
    subst v. exists h'. split; [exact Hrun|]. split; [exact Hl|exact Hsame].
Defined.

(** X23: [move] does not check for the ends of the list: on a
    well-formed list, when the range starts at the first token or ends at
    the last one, the call dereferences a null neighbour, which is
    undefined behaviour. *)
Theorem move_at_an_end_of_the_list_is_undefined :
  forall (h : Heap) (X S Y : list ptr) (srcStart srcEnd newLocation : ptr),
    token_list h (X ++ S ++ Y) ->
    head S = Some srcStart -> last S = Some srcEnd ->
    X = [] \/ Y = [] ->
    move h srcStart srcEnd newLocation = Undefined.
Proof. exact move_at_an_end. Qed.

Lemma move_at_an_end_of_the_list_is_undefined_witness :
  move stream_call 1 2 4 = Undefined /\ move stream_call 4 5 1 = Undefined.
Proof.
  split.
  - apply (move_at_an_end_of_the_list_is_undefined stream_call
             [] [1; 2] [3; 4; 5] 1 2 4
             (token_listb_sound stream_call [1; 2; 3; 4; 5] eq_refl)
             eq_refl eq_refl).
    left. reflexivity.
  - apply (move_at_an_end_of_the_list_is_undefined stream_call
             [1; 2; 3] [4; 5] [] 4 5 1
             (token_listb_sound stream_call [1; 2; 3; 4; 5] eq_refl)
             eq_refl eq_refl).
    right. reflexivity.
Defined.

(** ** Replacing a token by a range *)

Lemma set_next_opt (h : Heap) (p q : option ptr) :
  (forall a, p = Some a -> is_Some (toks h !! a)) ->
  exists h', match p with Some a => set_next h a q | None => Ok h end = Ok h' /\
             (forall x, nbrs h' x =
                        if decide (p = Some x) then (fun a => (a.1, q)) <$> nbrs h x
                        else nbrs h x) /\
             same_but_neighbours h h'.
Proof.
  intros Hl. destruct p as [a|].
  - destruct (set_next_nbrs h a q (Hl a eq_refl)) as (h' & R & E & SB).
    exists h'. split; [exact R|]. split; [|exact SB].
    intros x. rewrite E. destruct (decide (x = a)) as [->|].
    + now rewrite decide_True.
    + now rewrite decide_False by congruence.
  - exists h. split; [reflexivity|]. split; [|apply same_but_neighbours_refl].
    intros x. now rewrite decide_False.
Qed.

Lemma set_previous_opt (h : Heap) (p q : option ptr) :
  (forall a, p = Some a -> is_Some (toks h !! a)) ->
  exists h', match p with Some a => set_previous h a q | None => Ok h end = Ok h' /\
             (forall x, nbrs h' x =
                        if decide (p = Some x) then (fun a => (q, a.2)) <$> nbrs h x
                        else nbrs h x) /\
             same_but_neighbours h h'.
Proof.
  intros Hl. destruct p as [a|].
  - destruct (set_previous_nbrs h a q (Hl a eq_refl)) as (h' & R & E & SB).
    exists h'. split; [exact R|]. split; [|exact SB].
    intros x. rewrite E. destruct (decide (x = a)) as [->|].
    + now rewrite decide_True.
    + now rewrite decide_False by congruence.
  - exists h. split; [reflexivity|]. split; [|apply same_but_neighbours_refl].
    intros x. now rewrite decide_False.
Qed.

Lemma chain_size (h : Heap) (l : list ptr) (p q : option ptr) :
  NoDup l -> chain h p l q = true -> length l <= size (toks h).
Proof.
  intros Hnd Hc. rewrite <- size_dom.
  rewrite <- (size_list_to_set (C := gset ptr) l) by exact Hnd.
  apply subseteq_size. intros x Hx. apply elem_of_list_to_set in Hx.
  apply elem_of_dom. eapply chain_live; eassumption.
Qed.

Lemma last_from_chain (h : Heap) :
  forall (l : list ptr) (x : ptr) (p : option ptr) (fuel : nat),
    chain h p (x :: l) None = true -> length l <= fuel ->
    exists z, last (x :: l) = Some z /\ last_from fuel h x = Ok z.
Proof.
  induction l as [|y l IH]; intros x p fuel Hc Hf;
    apply chain_cons in Hc as [Hx Hc].
  - exists x. split; [reflexivity|].
    destruct fuel; simpl; rewrite (next_of_nbrs _ _ _ _ Hx); reflexivity.
  - destruct fuel as [|fuel]; [simpl in Hf; lia|].
    destruct (IH y (Some x) fuel Hc) as (z & Hz & Hr); [simpl in Hf; lia|].
    exists z. split; [exact Hz|].
    simpl. rewrite (next_of_nbrs _ _ _ _ Hx). simpl. exact Hr.
Qed.

Lemma last_or_None (l : list ptr) : last_or l None = last l.
Proof. unfold last_or. now destruct (last l). Qed.

Lemma first_or_None (l : list ptr) : first_or l None = head l.
Proof. now destruct l. Qed.

Lemma replace_on_list (h : Heap) (X S Y L1 L2 : list ptr) (s e r : ptr) :
  token_list h (X ++ S ++ Y) ->
  head S = Some s -> last S = Some e ->
  X ++ Y = L1 ++ r :: L2 ->
  (forall x, x ∈ X ++ S ++ Y -> has_impl h x) ->
  exists h' v,
    replace h r s e = Ok h' /\
    NoDup (L1 ++ S ++ L2) /\
    chain h' None (L1 ++ S ++ L2) None = true /\
    front h' = front h /\
    back h' = (if decide (Y = []) then last (L1 ++ S ++ L2) else back h) /\
    progress_of h r = Some v /\
    (forall x, payload h' x
               = if decide (x = r) then None
                 else if decide (x ∈ S ++ (if decide (Y = []) then L2 else []))
                      then with_progress v <$> payload h x
                      else payload h x) /\
    (forall x, lnk h' x = if decide (x = r) then None else lnk h x).
Proof.
  intros (Hnd & Hc & Hfr & Hbk) Hs He HL Himpl.
  (* the tokens are all different *)
  assert (Hperm : r :: L1 ++ S ++ L2 ≡ₚ X ++ S ++ Y).
  { transitivity (S ++ L1 ++ r :: L2).
    - rewrite (Permutation_app_swap_app L1 S).
      rewrite <- (Permutation_middle L1 L2 r).
      apply Permutation_middle.
    - rewrite <- HL. apply Permutation_app_swap_app. }
  assert (Hnd' : NoDup (r :: L1 ++ S ++ L2)) by now rewrite Hperm.
  apply NoDup_cons in Hnd' as [Hr Hnd'].
  pose proof Hnd as Hnd0.
  apply NoDup_app in Hnd0 as (HndX & HXSY & HndSY).
  apply NoDup_app in HndSY as (HndS & HSY & HndY).
  assert (HsS : s ∈ S) by (apply head_Some_elem_of; exact Hs).
  assert (HeS : e ∈ S) by (apply last_Some_elem_of; exact He).
  assert (HSX : forall x, x ∈ S -> x ∉ X).
  { intros x Hx Hx'. apply (HXSY x Hx'). apply elem_of_app. now left. }
  assert (HXY : forall x, x ∈ X -> x ∉ Y).
  { intros x Hx Hx'. apply (HXSY x Hx). apply elem_of_app. now right. }
  pose proof Hnd' as Hnd1.
  apply NoDup_app in Hnd1 as (HndA & HASB & HndSB).
  apply NoDup_app in HndSB as (_ & HSB & HndB).
  assert (HSA : forall x, x ∈ S -> x ∉ L1).
  { intros x Hx Hx'. apply (HASB x Hx'). apply elem_of_app. now left. }
  assert (HAB : forall x, x ∈ L1 -> x ∉ L2).
  { intros x Hx Hx'. apply (HASB x Hx). apply elem_of_app. now right. }
  assert (HrS : r ∉ S).
  { intros Hx. apply Hr. apply elem_of_app. right. apply elem_of_app. now left. }
  assert (HrA : r ∉ L1).
  { intros Hx. apply Hr. apply elem_of_app. now left. }
  assert (HrB : r ∉ L2).
  { intros Hx. apply Hr. apply elem_of_app. right. apply elem_of_app. now right. }
  assert (Hin_last : forall (l : list ptr) x, last l = Some x -> x ∈ l)
    by (intros l x; apply last_Some_elem_of).
  assert (Hin_head : forall (l : list ptr) x, head l = Some x -> x ∈ l)
    by (intros l x; apply head_Some_elem_of).
  (* the neighbours before the call *)
  apply chain_app in Hc as [HcX HcSY].
  rewrite (first_or_app_head S _ None s Hs) in HcX.
  rewrite last_or_None in HcSY.
  apply chain_app in HcSY as [HcS HcY].
  rewrite first_or_None in HcS. rewrite (last_or_last S _ e He) in HcY.
  destruct (chain_head_prev _ _ _ _ _ HcS Hs) as (ns & Hns).
  destruct (chain_last_next _ _ _ _ _ HcS He) as (pe & Hne).
  (* the range is taken out *)
  unfold replace. rewrite (previous_of_nbrs _ _ _ _ Hns). cbn [bind].
  assert (R1' : match last X with
                | Some p => let* en := next_of h e in set_next h p en
                | None => Ok h
                end
                = match last X with
                  | Some p => set_next h p (head Y)
                  | None => Ok h
                  end).
  { destruct (last X); [|reflexivity]. now rewrite (next_of_nbrs _ _ _ _ Hne). }
  rewrite R1'. clear R1'.
  destruct (set_next_opt h (last X) (head Y)) as (h1 & R1 & E1 & SB1).
  { intros a Ha. eapply chain_live; [exact HcX|]. apply Hin_last. exact Ha. }
  rewrite R1. cbn [bind].
  assert (HS1 : forall x, x ∈ S -> nbrs h1 x = nbrs h x).
  { intros x Hx. rewrite E1, decide_False; [reflexivity|].
    intros E. apply (HSX x Hx). apply Hin_last. exact E. }
  rewrite (next_of_nbrs h1 e pe (head Y)) by (rewrite HS1; assumption).
  cbn [bind].
  assert (R2' : match head Y with
                | Some p => let* sp := previous_of h1 s in set_previous h1 p sp
                | None => Ok h1
                end
                = match head Y with
                  | Some p => set_previous h1 p (last X)
                  | None => Ok h1
                  end).
  { destruct (head Y); [|reflexivity].
    rewrite (previous_of_nbrs h1 s (last X) ns) by (rewrite HS1; assumption).
    reflexivity. }
  rewrite R2'. clear R2'.
  destruct (set_previous_opt h1 (head Y) (last X)) as (h2 & R2 & E2 & SB2).
  { intros a Ha. apply Hin_head in Ha.
    assert (La : is_Some (toks h !! a)) by (eapply chain_live; eassumption).
    specialize (E1 a). destruct (decide (last X = Some a)) as [El|].
    - eapply nbrs_fmap_live; eassumption.
    - unfold nbrs in E1. destruct La as [t Ht]. rewrite Ht in E1.
      destruct (toks h1 !! a); [eauto|discriminate]. }
  rewrite R2. cbn [bind].
  assert (HS2 : forall x, x ∈ S -> nbrs h2 x = nbrs h x).
  { intros x Hx. rewrite E2, decide_False; [now apply HS1|].
    intros E. apply (HSY x Hx). apply Hin_head. exact E. }
  assert (HcX2 : chain h2 None X (head Y) = true).
  { apply (chain_new_next h h2 _ None (Some s) (head Y) HndX HcX).
    intros x Hx. rewrite E2, decide_False; [apply E1|].
    intros E. apply (HXY x Hx). apply Hin_head. exact E. }
  assert (HcY2 : chain h2 (last X) Y None = true).
  { apply (chain_new_prev h h2 _ (Some e) (last X) None HndY HcY).
    intros x Hx.
    assert (E : nbrs h1 x = nbrs h x).
    { rewrite E1, decide_False; [reflexivity|].
      intros E. apply (HXY x); [apply Hin_last; exact E|exact Hx]. }
    rewrite E2, E. reflexivity. }
  assert (Hc2 : chain h2 None (X ++ Y) None = true).
  { apply chain_app. rewrite first_or_None, last_or_None. now split. }
  rewrite HL in Hc2.
  apply chain_app in Hc2 as [HcA HcB]. simpl in HcA.
  apply chain_cons in HcB as [H2r HcB].
  rewrite last_or_None, first_or_None in H2r.
  (* the range is put in the place of replaceThis *)
  rewrite (previous_of_nbrs _ _ _ _ H2r). cbn [bind].
  destruct (set_next_opt h2 (last L1) (Some s)) as (h3 & R3 & E3 & SB3).
  { intros a Ha. eapply chain_live; [exact HcA|]. apply Hin_last. exact Ha. }
  rewrite R3. cbn [bind].
  assert (H3r : nbrs h3 r = Some (last L1, head L2)).
  { rewrite E3, decide_False; [exact H2r|].
    intros E. apply HrA. apply Hin_last. exact E. }
  rewrite (next_of_nbrs _ _ _ _ H3r). cbn [bind].
  assert (Live : forall (ha hb : Heap) (x : ptr),
             (exists f, nbrs hb x = f <$> nbrs ha x) \/ nbrs hb x = nbrs ha x ->
             is_Some (toks ha !! x) -> is_Some (toks hb !! x)).
  { intros ha hb x [[f E]|E] Hx.
    - eapply nbrs_fmap_live; eassumption.
    - unfold nbrs in E. destruct Hx as [t Ht]. rewrite Ht in E.
      destruct (toks hb !! x); [eauto|discriminate]. }
  assert (L23 : forall x, is_Some (toks h2 !! x) -> is_Some (toks h3 !! x)).
  { intros x. apply Live. specialize (E3 x).
    destruct (decide (last L1 = Some x)); eauto. }
  destruct (set_previous_opt h3 (head L2) (Some e)) as (h4 & R4 & E4 & SB4).
  { intros a Ha. apply L23. eapply chain_live; [exact HcB|].
    apply Hin_head. exact Ha. }
  rewrite R4. cbn [bind].
  assert (L34 : forall x, is_Some (toks h3 !! x) -> is_Some (toks h4 !! x)).
  { intros x. apply Live. specialize (E4 x).
    destruct (decide (head L2 = Some x)); eauto. }
  assert (H4r : nbrs h4 r = Some (last L1, head L2)).
  { rewrite E4, decide_False; [exact H3r|].
    intros E. apply HrB. apply Hin_head. exact E. }
  rewrite (previous_of_nbrs _ _ _ _ H4r). cbn [bind].
  assert (L2s : forall x, x ∈ S -> is_Some (toks h2 !! x)).
  { intros x Hx. apply (Live h h2); [right; now apply HS2|].
    eapply chain_live; [exact HcS|exact Hx]. }
  destruct (set_previous_nbrs h4 s (last L1) (L34 _ (L23 _ (L2s s HsS))))
    as (h5 & R5 & E5 & SB5).
  rewrite R5. cbn [bind].
  assert (L45 : forall x, is_Some (toks h4 !! x) -> is_Some (toks h5 !! x)).
  { intros x. apply Live. specialize (E5 x).
    destruct (decide (x = s)); eauto. }
  assert (H5r : nbrs h5 r = Some (last L1, head L2)).
  { rewrite E5, decide_False; [exact H4r|]. intros ->. exact (HrS HsS). }
  rewrite (next_of_nbrs _ _ _ _ H5r). cbn [bind].
  destruct (set_next_nbrs h5 e (head L2)
              (L45 _ (L34 _ (L23 _ (L2s e HeS)))))
    as (h6 & R6 & E6 & SB6).
  rewrite R6. cbn [bind].
  assert (SB : same_but_neighbours h h6).
  { repeat (eapply same_but_neighbours_trans; [|eassumption]).
    apply same_but_neighbours_refl. }
  (* the chain after the relinking *)
  assert (HnotS : forall x, x ∈ L1 ++ L2 -> x <> s /\ x <> e).
  { intros x Hx. split; intros ->; apply elem_of_app in Hx as [Hx|Hx].
    - exact (HSA s HsS Hx).
    - exact (HSB s HsS Hx).
    - exact (HSA e HeS Hx).
    - exact (HSB e HeS Hx). }
  assert (HcS6 : chain h6 (last L1) S (head L2) = true).
  { apply (chain_ends h h6 S (last X) (head Y) (last L1) (head L2) HndS HcS).
    intros x Hx.
    rewrite E6, E5, E4.
    rewrite (decide_False (P := head L2 = Some x))
      by (intros E; apply (HSB x Hx); apply Hin_head; exact E).
    rewrite E3.
    rewrite (decide_False (P := last L1 = Some x))
      by (intros E; apply (HSA x Hx); apply Hin_last; exact E).
    rewrite (HS2 x Hx). unfold with_ends. rewrite Hs, He.
    destruct (nbrs h x) as [[pr nx]|]; simpl;
      destruct (decide (x = s)) as [Hxs|Hxs];
      destruct (decide (x = e)) as [Hxe|Hxe]; simpl;
      repeat case_decide; try congruence; reflexivity. }
  assert (HcA6 : chain h6 None L1 (Some s) = true).
  { apply (chain_new_next h2 h6 _ None (Some r) (Some s) HndA HcA).
    intros x Hx.
    destruct (HnotS x) as [Hxs Hxe]; [apply elem_of_app; now left|].
    rewrite E6, decide_False by exact Hxe.
    rewrite E5, decide_False by exact Hxs.
    rewrite E4, decide_False; [apply E3|].
    intros E. apply (HAB x Hx). apply Hin_head. exact E. }
  assert (HcB6 : chain h6 (Some e) L2 None = true).
  { apply (chain_new_prev h2 h6 _ (Some r) (Some e) None HndB HcB).
    intros x Hx.
    destruct (HnotS x) as [Hxs Hxe]; [apply elem_of_app; now right|].
    rewrite E6, decide_False by exact Hxe.
    rewrite E5, decide_False by exact Hxs.
    assert (E : nbrs h3 x = nbrs h2 x).
    { rewrite E3, decide_False; [reflexivity|].
      intros E. apply (HAB x); [apply Hin_last; exact E|exact Hx]. }
    rewrite E4, E. reflexivity. }
  assert (HcSB6 : chain h6 (last L1) (S ++ L2) None = true).
  { apply chain_app. rewrite first_or_None. split; [exact HcS6|].
    now rewrite (last_or_last S _ e He). }
  assert (Hc6 : chain h6 None (L1 ++ S ++ L2) None = true).
  { apply chain_app. rewrite (first_or_app_head S _ None s Hs), last_or_None.
    now split. }
  (* the back of the list *)
  destruct (chain_last_next _ _ _ _ e HcS6 He) as (pe6 & H6e).
  assert (Hde : exists te, deref h6 e = Ok te).
  { apply nbrs_is_Some in H6e as [te Hte]. exists te. now apply deref_Ok. }
  destruct Hde as (te & Hde). rewrite Hde. cbn [bind].
  destruct SB as (Hp6 & Hl6 & Hf6 & Hb6).
  assert (Himpl6 : forall (hb : Heap) x,
             (forall y, payload hb y = payload h6 y) ->
             x ∈ X ++ S ++ Y -> has_impl hb x).
  { intros hb x Hhb Hx. destruct (Himpl x Hx) as (sx & ix & Hp).
    exists sx, ix. now rewrite Hhb, Hp6. }
  assert (HrXY : r ∈ X ++ S ++ Y).
  { rewrite <- Hperm. left. }
  assert (HSXY : forall x, x ∈ S ++ L2 -> x ∈ X ++ S ++ Y).
  { intros x Hx. rewrite <- Hperm. right. apply elem_of_app. now right. }
  assert (Hsz : length (S ++ L2) <= size (toks h6)).
  { etransitivity; [|exact (chain_size _ _ _ _ Hnd' Hc6)].
    rewrite (length_app L1). lia. }
  assert (Hv : exists v, progress_of h r = Some v).
  { destruct (Himpl r HrXY) as (sr & imr & Hpr).
    exists (mProgressValue imr). unfold progress_of. now rewrite Hpr. }
  destruct Hv as (v & Hv).
  assert (Hv6 : progress_of h6 r = Some v).
  { rewrite <- Hv. apply progress_of_payload. apply Hp6. }
  assert (HndSB0 : NoDup (S ++ L2)).
  { apply NoDup_app in Hnd' as (_ & _ & Hd). exact Hd. }
  destruct (decide (Y = [])) as [HY|HY].
  - (* end was the last token *)
    assert (Hbe : back h6 = Some e).
    { rewrite Hb6, Hbk. subst Y. rewrite app_nil_r.
      destruct S as [|s0 S0]; [discriminate|].
      now rewrite last_app_nonempty by discriminate. }
    rewrite Hbe. rewrite (proj2 (optptr_eqb_eq _ _) eq_refl).
    assert (HcE : chain h6 pe6 (e :: L2) None = true).
    { apply chain_cons. rewrite first_or_None. split; [|exact HcB6].
      rewrite H6e. destruct L2; reflexivity. }
    destruct (last_from_chain h6 L2 e pe6 (walk_fuel h6) HcE) as (z & Hz & Rz).
    { unfold walk_fuel. rewrite length_app in Hsz. lia. }
    rewrite Rz. cbn [bind fst snd].
    assert (Hzl : last (L1 ++ S ++ L2) = Some z).
    { destruct S as [|s0 S0] using rev_ind; [discriminate|].
      rewrite last_snoc in He. inversion He; subst s0.
      rewrite <- app_assoc. rewrite (app_assoc L1).
      rewrite last_app_nonempty by discriminate. exact Hz. }
    assert (Hzn : exists pz, nbrs h6 z = Some (pz, None)).
    { eapply chain_last_next; [exact Hc6|exact Hzl]. }
    destruct Hzn as (pz & Hzn).
    assert (Hloop : exists h7,
               progress_loop (walk_fuel (with_back (Some z) h6))
                 (with_back (Some z) h6) (Some s) z r = Ok h7 /\
               (forall x, nbrs h7 x = nbrs (with_back (Some z) h6) x) /\
               same_but_neighbours_and_progress (S ++ L2) v
                 (with_back (Some z) h6) h7).
    { rewrite <- (first_or_app_head S L2 None s Hs).
      apply (progress_loop_chain z r None v (S ++ L2) (with_back (Some z) h6)
               (walk_fuel h6) (last L1)).
      - eauto.
      - exact Hv6.
      - intros Hx. apply elem_of_app in Hx as [Hx|Hx]; contradiction.
      - exact HndSB0.
      - unfold walk_fuel. lia.
      - intros x Hx. discriminate.
      - intros x Hx. apply Himpl6; [reflexivity|]. now apply HSXY.
      - apply chain_with_back. exact HcSB6. }
    destruct Hloop as (h7 & Hloop & N7 & P7 & K7 & F7 & B7).
    rewrite Hloop. cbn [bind].
    exists (free h7 r), v. split; [reflexivity|].
    split; [exact Hnd'|]. split; [|split; [|split; [|split; [exact Hv|split]]]].
    + apply chain_free; [exact Hr|].
      eapply chain_ext; [|apply chain_with_back; exact Hc6].
      intros x _. symmetry. apply N7.
    + change (front (free h7 r)) with (front h7). rewrite F7. exact Hf6.
    + change (back (free h7 r)) with (back h7). rewrite B7.
      simpl. symmetry. exact Hzl.
    + intros x. rewrite payload_free.
      destruct (decide (r = x)) as [->|Hx]; [now rewrite decide_True|].
      rewrite decide_False by congruence. rewrite P7.
      change (payload (with_back (Some z) h6) x) with (payload h6 x).
      now rewrite Hp6.
    + intros x. rewrite lnk_free.
      destruct (decide (r = x)) as [->|Hx]; [now rewrite decide_True|].
      rewrite decide_False by congruence. rewrite K7. apply Hl6.
  - (* end was not the last token *)
    assert (Hbe : optptr_eqb (back h6) (Some e) = false).
    { destruct (optptr_eqb (back h6) (Some e)) eqn:E; [|reflexivity].
      apply optptr_eqb_eq in E. rewrite Hb6, Hbk in E.
      rewrite app_assoc, last_app_nonempty in E by exact HY.
      exfalso. apply (HSY e HeS). apply Hin_last. exact E. }
    rewrite Hbe. cbn [bind fst snd].
    assert (Hloop : exists h7,
               progress_loop (walk_fuel h6) h6 (Some s) e r = Ok h7 /\
               (forall x, nbrs h7 x = nbrs h6 x) /\
               same_but_neighbours_and_progress S v h6 h7).
    { rewrite <- (first_or_app_head S [] (head L2) s Hs). rewrite app_nil_r.
      apply (progress_loop_chain e r (head L2) v S h6 (walk_fuel h6) (last L1)).
      - eauto.
      - exact Hv6.
      - exact HrS.
      - exact HndS.
      - unfold walk_fuel. rewrite length_app in Hsz. lia.
      - intros x Hx E. apply (HSB x Hx). apply Hin_head. exact E.
      - intros x Hx. apply Himpl6; [reflexivity|]. apply HSXY.
        apply elem_of_app. now left.
      - exact HcS6. }
    destruct Hloop as (h7 & Hloop & N7 & P7 & K7 & F7 & B7).
    rewrite Hloop. cbn [bind].
    exists (free h7 r), v. split; [reflexivity|].
    split; [exact Hnd'|]. split; [|split; [|split; [|split; [exact Hv|split]]]].
    + apply chain_free; [exact Hr|].
      eapply chain_ext; [|exact Hc6]. intros x _. symmetry. apply N7.
    + change (front (free h7 r)) with (front h7). rewrite F7. exact Hf6.
    + change (back (free h7 r)) with (back h7). rewrite B7. exact Hb6.
    + intros x. rewrite payload_free.
      destruct (decide (r = x)) as [->|Hx]; [now rewrite decide_True|].
      rewrite decide_False by congruence. rewrite P7, app_nil_r.
      now rewrite Hp6.
    + intros x. rewrite lnk_free.
      destruct (decide (r = x)) as [->|Hx]; [now rewrite decide_True|].
      rewrite decide_False by congruence. rewrite K7. apply Hl6.
Qed.

Lemma replace_in_place (h : Heap) (X S Y L1 L2 : list ptr) (s e r : ptr) :
  token_list h (X ++ S ++ Y) ->
  head S = Some s -> last S = Some e ->
  X ++ Y = L1 ++ r :: L2 ->
  Forall (has_impl h) (X ++ S ++ Y) ->
  (X = [] <-> L1 = []) -> (L2 = [] -> Y = []) ->
  exists h' v,
    replace h r s e = Ok h' /\
    token_list h' (L1 ++ S ++ L2) /\
    progress_of h r = Some v /\
    (forall x, payload h' x
               = if decide (x = r) then None
                 else if decide (x ∈ S ++ (if decide (Y = []) then L2 else []))
                      then with_progress v <$> payload h x
                      else payload h x) /\
    (forall x, lnk h' x = if decide (x = r) then None else lnk h x).
Proof.
  intros Hl Hs He HL Hi HX HY.
  destruct (replace_on_list h X S Y L1 L2 s e r Hl Hs He HL)
    as (h' & v & Hrun & Hnd & Hc & Hf & Hb & Hv & Hp & Hk).
  { apply Forall_forall. exact Hi. }
  exists h', v. split; [exact Hrun|]. split; [|split; [|split]; assumption].
  destruct Hl as (_ & _ & Hfr & Hbk).
  assert (HS : S <> []) by (intros ->; discriminate).
  split; [exact Hnd|]. split; [exact Hc|]. split.
  - rewrite Hf, Hfr. destruct (decide (X = [])) as [EX|EX].
    + rewrite EX, (proj1 HX EX). simpl.
      now rewrite !head_app_nonempty by exact HS.
    + assert (EL : L1 <> []) by (intros E; apply EX, HX, E).
      rewrite (head_app_nonempty X) by exact EX.
      rewrite <- (head_app_nonempty X Y) by exact EX.
      rewrite HL. now rewrite !(head_app_nonempty L1) by exact EL.
  - rewrite Hb. destruct (decide (Y = [])) as [EY|EY]; [reflexivity|].
    assert (EL : L2 <> []) by (intros E; apply EY, HY, E).
    rewrite Hbk.
    rewrite app_assoc, (last_app_nonempty _ Y) by exact EY.
    rewrite <- (last_app_nonempty X Y) by exact EY.
    rewrite HL.
    rewrite (last_app_nonempty L1) by discriminate.
    change (r :: L2) with ([r] ++ L2).
    rewrite (last_app_nonempty [r] L2) by exact EL.
    rewrite app_assoc. now rewrite (last_app_nonempty _ L2) by exact EL.
Qed.

Lemma replace_dangling (h : Heap) (X S Y L1 L2 : list ptr) (s e r : ptr) :
  token_list h (X ++ S ++ Y) ->
  head S = Some s -> last S = Some e ->
  X ++ Y = L1 ++ r :: L2 ->
  Forall (has_impl h) (X ++ S ++ Y) ->
  exists h', replace h r s e = Ok h' /\
             payload h' r = None /\
             (L1 = [] -> X <> [] -> front h' = Some r) /\
             (L2 = [] -> Y <> [] -> back h' = Some r).
Proof.
  intros Hl Hs He HL Hi.
  destruct (replace_on_list h X S Y L1 L2 s e r Hl Hs He HL)
    as (h' & v & Hrun & Hnd & Hc & Hf & Hb & Hv & Hp & Hk).
  { apply Forall_forall. exact Hi. }
  exists h'. split; [exact Hrun|].
  destruct Hl as (_ & _ & Hfr & Hbk).
  split; [|split].
  - now rewrite Hp, decide_True.
  - intros EL EX. rewrite Hf, Hfr.
    rewrite (head_app_nonempty X) by exact EX.
    rewrite <- (head_app_nonempty X Y) by exact EX.
    now rewrite HL, EL.
  - intros EL EY. rewrite Hb, decide_False by exact EY. rewrite Hbk.
    rewrite app_assoc, (last_app_nonempty _ Y) by exact EY.
    rewrite <- (last_app_nonempty X Y) by exact EY.
    rewrite HL, EL. apply last_snoc.
Qed.

(** X24: [replace(replaceThis, start, end)] puts the tokens from [start]
    to [end] of the list, in their order, in the place of [replaceThis],
    and deletes [replaceThis]: the call returns and the list is correctly
    chained from front to back (the back is moved when [end] was the last
    token).  The tokens of the range have the [mProgressValue] of
    [replaceThis] afterwards, and when [end] was the last token so have
    the tokens that now follow the range; apart from that every token
    other than [replaceThis] keeps its text, its [mImpl] data and its
    bracket link.  This holds when [replaceThis] is neither the first nor
    the last token and the range does not start at the first token, or
    when the range is next to [replaceThis] at that end of the list. *)
Theorem replace_puts_the_range_in_the_place_of_replaceThis :
  forall (h : Heap) (X S Y L1 L2 : list ptr) (replaceThis start end_ : ptr),
    token_list h (X ++ S ++ Y) ->
    head S = Some start -> last S = Some end_ ->
    X ++ Y = L1 ++ replaceThis :: L2 ->
    Forall (has_impl h) (X ++ S ++ Y) ->
    (X = [] <-> L1 = []) -> (L2 = [] -> Y = []) ->
    exists h' v,
      replace h replaceThis start end_ = Ok h' /\
      token_list h' (L1 ++ S ++ L2) /\
      progress_of h replaceThis = Some v /\
      (forall x, payload h' x
                 = if decide (x = replaceThis) then None
                   else if decide (x ∈ S ++ (if decide (Y = []) then L2 else []))
                        then with_progress v <$> payload h x
                        else payload h x) /\
      (forall x, lnk h' x
                 = if decide (x = replaceThis) then None else lnk h x).
Proof.
  intros h X S Y L1 L2 r s e. exact (replace_in_place h X S Y L1 L2 s e r).
Qed.

Lemma replace_puts_the_range_in_the_place_of_replaceThis_witness :
  exists h', replace stream_progress 4 2 3 = Ok h' /\
             token_list h' [1; 2; 3; 5] /\
             payload h' 4 = None /\
             payload h' 5 = payload stream_progress 5 /\
             progress_of h' 2 = Some 60%Z /\ progress_of h' 3 = Some 60%Z.
Proof.
  destruct (replace_puts_the_range_in_the_place_of_replaceThis stream_progress
              [1] [2; 3] [4; 5] [1] [5] 4 2 3
              (token_listb_sound stream_progress [1; 2; 3; 4; 5] eq_refl)
              eq_refl eq_refl eq_refl
              (has_implb_sound stream_progress [1; 2; 3; 4; 5] eq_refl))
    as (h' & v & Hrun & Hl & Hv & Hp & _).
  - split; discriminate.
  - discriminate.
  - assert (Ev : v = 60%Z) by (vm_compute in Hv; congruence).
    subst v. exists h'. split; [exact Hrun|]. split; [exact Hl|].
    unfold progress_of. rewrite !Hp. repeat split.
Defined.

(** When [end] is the last token the loop runs up to the new back, so
    the token that follows the range in the new list takes the progress
    value as well: in [a b c d e], [replace(b, d, e)] leaves [a d e c],
    and [d], [e] and [c] have the progress value of [b]. *)
Example replace_at_the_back_updates_what_follows :
  exists h', replace stream_progress 2 4 5 = Ok h' /\
             token_list h' [1; 4; 5; 3] /\
             progress_of h' 4 = Some 20%Z /\ progress_of h' 5 = Some 20%Z /\
             progress_of h' 3 = Some 20%Z /\ progress_of h' 1 = Some 0%Z.
Proof.
  eexists. split; [vm_compute; reflexivity|].
  split; [apply token_listb_sound; vm_compute; reflexivity|].
  vm_compute. repeat split.
Qed.

(** X25: [replace] moves the back of the list only when [end] was the
    last token, and never the front: when [replaceThis] is the first
    token and the range is not in front of it, the front of the list
    still points at [replaceThis] after the call, and when [replaceThis]
    is the last token and the range is not at the end, the back still
    points at it, although the token has been deleted. *)
Theorem replace_of_an_end_token_leaves_front_or_back_dangling :
  forall (h : Heap) (X S Y L1 L2 : list ptr) (replaceThis start end_ : ptr),
    token_list h (X ++ S ++ Y) ->
    head S = Some start -> last S = Some end_ ->
    X ++ Y = L1 ++ replaceThis :: L2 ->
    Forall (has_impl h) (X ++ S ++ Y) ->
    exists h', replace h replaceThis start end_ = Ok h' /\
               payload h' replaceThis = None /\
               (L1 = [] -> X <> [] -> front h' = Some replaceThis) /\
               (L2 = [] -> Y <> [] -> back h' = Some replaceThis).
Proof.
  intros h X S Y L1 L2 r s e. exact (replace_dangling h X S Y L1 L2 s e r).
Qed.

Lemma replace_of_an_end_token_leaves_front_or_back_dangling_witness :
  exists h', replace stream_call 5 2 3 = Ok h' /\
             payload h' 5 = None /\ back h' = Some 5.
Proof.
  destruct (replace_of_an_end_token_leaves_front_or_back_dangling stream_call
              [1] [2; 3] [4; 5] [1; 4] [] 5 2 3
              (token_listb_sound stream_call [1; 2; 3; 4; 5] eq_refl)
              eq_refl eq_refl eq_refl
              (has_implb_sound stream_call [1; 2; 3; 4; 5] eq_refl))
    as (h' & Hrun & Hp & _ & Hb).
  exists h'. split; [exact Hrun|]. split; [exact Hp|].
  apply Hb; [reflexivity|discriminate].
Defined.

(** ** Match on patterns made of plain words *)

Lemma ascii_eqb_neq (a b : ascii) : ascii_eqb a b = false <-> a <> b.
Proof. unfold ascii_eqb. apply Ascii.eqb_neq. Qed.

Lemma ascii_eqb_sym (a b : ascii) : ascii_eqb a b = ascii_eqb b a.
Proof. unfold ascii_eqb. apply Ascii.eqb_sym. Qed.

Lemma advance_1 (c : ascii) (s : string) : advance 1 (String c s) = s.
Proof. reflexivity. Qed.

Lemma char_at_after_word (r : string) :
  after_word r -> char_at r 0 = NUL \/ char_at r 0 = " "%char.
Proof. intros [->|[r' ->]]; [now left | now right]. Qed.

Lemma next_alternative_word (w r : string) :
  str_mem "|" w = false -> after_word r ->
  next_alternative (String.append w r) = None.
Proof.
  intros Hb Hr. induction w as [|c w IH].
  - rewrite append_nil. destruct Hr as [->|[r' ->]]; reflexivity.
  - cbn [str_mem] in Hb. apply orb_false_iff in Hb as [Hc Hb].
    rewrite append_cons. cbn [next_alternative].
    destruct (ascii_eqb c " " || ascii_eqb c NUL); [reflexivity|].
    rewrite ascii_eqb_sym, Hc. now apply IH.
Qed.

Lemma chrInFirstWord_word (w r : string) (c : ascii) :
  str_mem c w = false -> after_word r ->
  chrInFirstWord (String.append w r) c = false.
Proof.
  intros Hb Hr. induction w as [|d w IH].
  - rewrite append_nil. destruct Hr as [->|[r' ->]]; reflexivity.
  - cbn [str_mem] in Hb. apply orb_false_iff in Hb as [Hc Hb].
    rewrite append_cons. cbn [chrInFirstWord].
    destruct (ascii_eqb d " " || ascii_eqb d NUL); [reflexivity|].
    rewrite ascii_eqb_sym, Hc. now apply IH.
Qed.

(** Comparing the rest [s2] of the text of a token with the rest [w2] of
    a plain word. *)
Lemma multiCompare_loop_word (P : Predicates) (t : Token) (varid : Z) (r : string) :
  after_word r ->
  forall (w2 s2 pre : string) (fuel : nat),
    mStr t = String.append pre s2 ->
    clean_text s2 = true ->
    str_mem " " w2 = false -> str_mem NUL w2 = false -> str_mem "|" w2 = false ->
    String.length pre <> 0 ->
    String.length w2 < fuel ->
    multiCompare_loop P fuel t (String.length pre) (String.append w2 r) varid
    = Ok (if str_eqb s2 w2 then 1%Z else (-1)%Z).
Proof.
  intros Hr. induction w2 as [|d w2 IH]; intros s2 pre fuel Ht Hs Hsp Hn Hb Hnp Hf.
  - destruct fuel as [|fuel]; [simpl in Hf; lia|].
    rewrite append_nil. cbn [multiCompare_loop].
    assert (Enp : (String.length pre =? 0) = false) by now apply Nat.eqb_neq.
    rewrite Enp. cbn [andb].
    assert (Ec : char_at (mStr t) (String.length pre) = char_at s2 0).
    { rewrite Ht. rewrite <- (Nat.add_0_r (String.length pre)) at 1.
      apply char_at_append_r. }
    rewrite Ec.
    assert (Hbar : ascii_eqb (char_at r 0) "|" = false).
    { apply ascii_eqb_neq. destruct (char_at_after_word r Hr) as [-> | ->]; discriminate. }
    rewrite Hbar.
    assert (Hend : ascii_eqb (char_at r 0) " " || ascii_eqb (char_at r 0) NUL = true).
    { destruct (char_at_after_word r Hr) as [-> | ->]; reflexivity. }
    destruct s2 as [|c s2].
    + cbn [char_at]. destruct (ascii_eqb NUL (char_at r 0)) eqn:E.
      * reflexivity.
      * rewrite Hend. reflexivity.
    + unfold clean_text in Hs. cbn [str_mem] in Hs.
      apply andb_true_iff in Hs as [Hs1 Hs2].
      apply negb_true_iff, orb_false_iff in Hs1 as [Hc1 _].
      apply negb_true_iff, orb_false_iff in Hs2 as [Hc2 _].
      cbn [char_at].
      assert (E : ascii_eqb c (char_at r 0) = false).
      { apply ascii_eqb_neq. apply ascii_eqb_neq in Hc1, Hc2.
        destruct (char_at_after_word r Hr) as [-> | ->]; congruence. }
      rewrite E, Hend.
      rewrite (ascii_eqb_sym c NUL), Hc2. reflexivity.
  - destruct fuel as [|fuel]; [simpl in Hf; lia|].
    cbn [str_mem] in Hsp, Hn, Hb.
    apply orb_false_iff in Hsp as [Hd1 Hsp].
    apply orb_false_iff in Hn as [Hd2 Hn].
    apply orb_false_iff in Hb as [Hd3 Hb].
    rewrite append_cons. cbn [multiCompare_loop].
    assert (Enp : (String.length pre =? 0) = false) by now apply Nat.eqb_neq.
    rewrite Enp. cbn [andb char_at].
    assert (Ec : char_at (mStr t) (String.length pre) = char_at s2 0).
    { rewrite Ht. rewrite <- (Nat.add_0_r (String.length pre)) at 1.
      apply char_at_append_r. }
    rewrite Ec. rewrite (ascii_eqb_sym d "|"), Hd3.
    rewrite advance_1.
    assert (Hend : ascii_eqb d " " || ascii_eqb d NUL = false).
    { rewrite (ascii_eqb_sym d " "), Hd1, (ascii_eqb_sym d NUL), Hd2. reflexivity. }
    destruct s2 as [|c s2].
    + cbn [char_at]. rewrite Hd2, Hend.
      rewrite (next_alternative_word w2 r Hb Hr). reflexivity.
    + unfold clean_text in Hs. cbn [str_mem] in Hs.
      apply andb_true_iff in Hs as [Hs1 Hs2].
      apply negb_true_iff, orb_false_iff in Hs1 as [Hc1 Hs1].
      apply negb_true_iff, orb_false_iff in Hs2 as [Hc2 Hs2].
      cbn [char_at]. unfold str_eqb. cbn [String.eqb].
      fold (ascii_eqb c d). destruct (ascii_eqb c d) eqn:E.
      * rewrite (ascii_eqb_sym c NUL), Hc2.
        assert (El : S (String.length pre)
                     = String.length (String.append pre (String c EmptyString))).
        { rewrite length_append. simpl. lia. }
        rewrite El. apply (IH s2 (String.append pre (String c EmptyString)) fuel).
        -- rewrite Ht, append_assoc. reflexivity.
        -- unfold clean_text. now rewrite Hs1, Hs2.
        -- exact Hsp.
        -- exact Hn.
        -- exact Hb.
        -- rewrite <- El. discriminate.
        -- simpl in Hf. lia.
      * rewrite Hend. rewrite (next_alternative_word w2 r Hb Hr). reflexivity.
Qed.

Lemma plain_word_inv (w : string) :
  plain_word w = true ->
  is_word w = true /\ str_mem "|" w = false /\
  (ascii_eqb (char_at w 0) "%" = true -> size_is 1 w = true) /\
  (ascii_eqb (char_at w 0) "[" = true -> str_mem "]" w = false) /\
  (ascii_eqb (char_at w 0) "!" = true -> ascii_eqb (char_at w 1) "!" = false).
Proof.
  unfold plain_word. rewrite !andb_true_iff, !negb_true_iff.
  intros [[[[H1 H2] H3] H4] H5]. split; [exact H1|]. split; [exact H2|].
  repeat split; intros E; rewrite E in *; simpl in *.
  - now apply negb_false_iff in H3.
  - exact H4.
  - exact H5.
Qed.

(** [multiCompare] of the text of a token with a plain word of the
    pattern: 1 when they are equal, and -1 when they are not. *)
Lemma multiCompareImpl_word (P : Predicates) (t : Token) (varid : Z) (w r : string) :
  plain_word w = true -> clean_text (mStr t) = true -> after_word r ->
  multiCompareImpl P t (String.append w r) varid
  = Ok (if str_eqb (mStr t) w then 1%Z else (-1)%Z).
Proof.
  intros Hw Hs Hr.
  destruct (plain_word_inv w Hw) as (Hiw & Hb & Hpc & _ & _).
  destruct (is_word_inv w Hiw) as (Hl & Hsp & Hn).
  destruct w as [|d w]; [simpl in Hl; lia|].
  cbn [str_mem] in Hsp, Hn, Hb.
  apply orb_false_iff in Hsp as [Hd1 Hsp].
  apply orb_false_iff in Hn as [Hd2 Hn].
  apply orb_false_iff in Hb as [Hd3 Hb].
  unfold multiCompareImpl. rewrite append_cons.
  cbn [multiCompare_loop Nat.eqb andb char_at].
  assert (Epc : ascii_eqb d "%"
                && negb (ascii_eqb (char_at (String.append w r) 0) "|")
                && negb (ascii_eqb (char_at (String.append w r) 0) NUL)
                && negb (ascii_eqb (char_at (String.append w r) 0) " ") = false).
  { destruct (ascii_eqb d "%") eqn:E; [|reflexivity].
    specialize (Hpc E). unfold size_is in Hpc. apply Nat.eqb_eq in Hpc.
    destruct w; [|discriminate]. rewrite append_nil.
    destruct (char_at_after_word r Hr) as [-> | ->]; reflexivity. }
  rewrite Epc. rewrite (ascii_eqb_sym d "|"), Hd3. rewrite advance_1.
  assert (Hend : ascii_eqb d " " || ascii_eqb d NUL = false).
  { rewrite (ascii_eqb_sym d " "), Hd1, (ascii_eqb_sym d NUL), Hd2. reflexivity. }
  destruct (mStr t) as [|c s2] eqn:Ht.
  - cbn [char_at]. rewrite Hd2, Hend.
    rewrite (next_alternative_word w r Hb Hr). reflexivity.
  - unfold clean_text in Hs. cbn [str_mem] in Hs.
    apply andb_true_iff in Hs as [Hs1 Hs2].
    apply negb_true_iff, orb_false_iff in Hs1 as [Hc1 Hs1].
    apply negb_true_iff, orb_false_iff in Hs2 as [Hc2 Hs2].
    cbn [char_at]. unfold str_eqb. cbn [String.eqb].
    fold (ascii_eqb c d). destruct (ascii_eqb c d) eqn:E.
    + rewrite (ascii_eqb_sym c NUL), Hc2.
      apply (multiCompare_loop_word P t varid r Hr w s2 (String c EmptyString)).
      * exact Ht.
      * unfold clean_text. now rewrite Hs1, Hs2.
      * exact Hsp.
      * exact Hn.
      * exact Hb.
      * discriminate.
      * cbn [String.length]. rewrite length_append. lia.
    + rewrite Hend. rewrite (next_alternative_word w r Hb Hr). reflexivity.
Qed.

Lemma join_words_after_word (ws : list string) :
  after_word (match ws with
              | [] => EmptyString
              | _ :: _ => String " " (join_words ws)
              end).
Proof. destruct ws; [now left | right; eauto]. Qed.

Lemma skip_spaces_join_words (ws : list string) :
  forallb plain_word ws = true -> skip_spaces (join_words ws) = join_words ws.
Proof.
  destruct ws as [|w ws]; [reflexivity|]. intros Hw.
  cbn [forallb] in Hw. apply andb_true_iff in Hw as [Hw _].
  destruct (plain_word_inv w Hw) as (Hiw & _).
  destruct (is_word_inv w Hiw) as (Hl & Hsp & _).
  rewrite join_words_cons. destruct w as [|d w]; [simpl in Hl; lia|].
  cbn [str_mem] in Hsp. apply orb_false_iff in Hsp as [Hd1 _].
  rewrite append_cons. cbn [skip_spaces].
  now rewrite (ascii_eqb_sym d " "), Hd1.
Qed.

Lemma join_words_length (ws : list string) :
  forallb plain_word ws = true -> length ws <= String.length (join_words ws).
Proof.
  induction ws as [|w ws IH]; intros Hw; [simpl; lia|].
  cbn [forallb] in Hw. apply andb_true_iff in Hw as [Hw Hws].
  destruct (plain_word_inv w Hw) as (Hiw & _).
  destruct (is_word_inv w Hiw) as (Hl & _).
  rewrite join_words_cons, length_append. specialize (IH Hws).
  destruct ws as [|w2 ws]; simpl in *; lia.
Qed.

Lemma Match_loop_words (P : Predicates) (h : Heap) (varid : Z) :
  clean_texts h ->
  forall (ws : list string) (fuel : nat) (tok : option ptr) (p0 : string),
    forallb plain_word ws = true ->
    skip_spaces p0 = join_words ws ->
    length ws < fuel ->
    Match_loop P h fuel tok p0 varid = texts_from h tok ws.
Proof.
  intros Hclean. induction ws as [|w ws IH]; intros fuel tok p0 Hw Hp Hf;
    (destruct fuel as [|fuel]; [simpl in Hf; lia|]).
  - cbn [Match_loop]. rewrite Hp. reflexivity.
  - cbn [Match_loop]. rewrite Hp.
    pose proof Hw as Hw0.
    cbn [forallb] in Hw. apply andb_true_iff in Hw as [Hw Hws].
    destruct (plain_word_inv w Hw) as (Hiw & Hb & Hpc & Hbr & Hneg).
    destruct (is_word_inv w Hiw) as (Hl & Hsp & Hn).
    rewrite join_words_cons.
    set (r := match ws with
              | [] => EmptyString
              | _ :: _ => String " " (join_words ws)
              end).
    assert (Hr : after_word r) by apply join_words_after_word.
    assert (E0 : char_at (String.append w r) 0 = char_at w 0).
    { apply char_at_append_l. exact Hl. }
    assert (Enul : ascii_eqb (char_at (String.append w r) 0) NUL = false).
    { rewrite E0. apply ascii_eqb_neq. now apply str_mem_false_char. }
    rewrite Enul.
    assert (Eneg : is_negation (String.append w r) = false).
    { unfold is_negation. rewrite E0.
      destruct (ascii_eqb (char_at w 0) "!") eqn:E; [|reflexivity].
      specialize (Hneg eq_refl). cbn [andb].
      destruct (Nat.eq_dec (String.length w) 1) as [El|El].
      - replace 1 with (String.length w + 0) at 1 by lia.
        rewrite char_at_append_r.
        destruct (char_at_after_word r Hr) as [-> | ->]; reflexivity.
      - rewrite char_at_append_l by lia. rewrite Hneg. reflexivity. }
    destruct tok as [a|].
    + cbn [texts_from]. destruct (deref h a) as [t| | |] eqn:Hd; try reflexivity.
      cbn [bind].
      assert (Ebr : ascii_eqb (char_at (String.append w r) 0) "["
                    && chrInFirstWord (String.append w r) "]" = false).
      { rewrite E0. destruct (ascii_eqb (char_at w 0) "[") eqn:E; [|reflexivity].
        cbn [andb]. apply chrInFirstWord_word; [now apply Hbr | exact Hr]. }
      rewrite Ebr, Eneg.
      apply deref_Ok in Hd.
      rewrite (multiCompareImpl_word P t varid w r Hw (Hclean a t Hd) Hr).
      cbn [bind]. destruct (str_eqb (mStr t) w); [|reflexivity].
      cbn [Z.eqb Pos.eqb]. subst r. destruct ws as [|w2 ws].
      * rewrite append_nil_r, (strchr_word_end w Hsp). reflexivity.
      * rewrite (strchr_word_space w _ Hsp Hn).
        apply IH.
        -- exact Hws.
        -- cbn [skip_spaces]. change (ascii_eqb " " " ") with true. cbn iota.
           now apply skip_spaces_join_words.
        -- simpl in Hf. simpl. lia.
    + rewrite Eneg. reflexivity.
Qed.

Lemma Match_on_words (P : Predicates) (h : Heap) (tok : option ptr)
    (ws : list string) (varid : Z) :
  clean_texts h -> forallb plain_word ws = true ->
  Match P h tok (join_words ws) varid = texts_from h tok ws.
Proof.
  intros Hclean Hw. unfold Match.
  destruct (ascii_eqb (char_at (join_words ws) 0) NUL) eqn:E.
  - destruct ws as [|w ws]; [reflexivity|]. exfalso.
    cbn [forallb] in Hw. apply andb_true_iff in Hw as [Hw _].
    destruct (plain_word_inv w Hw) as (Hiw & _).
    destruct (is_word_inv w Hiw) as (Hl & _ & Hn).
    rewrite join_words_cons, char_at_append_l in E by exact Hl.
    apply ascii_eqb_eq in E. revert E. now apply str_mem_false_char.
  - apply (Match_loop_words P h varid Hclean ws).
    + exact Hw.
    + now apply skip_spaces_join_words.
    + pose proof (join_words_length ws Hw). lia.
Qed.

Lemma clean_textsb_sound (h : Heap) : clean_textsb h = true -> clean_texts h.
Proof.
  unfold clean_textsb, clean_texts. rewrite forallb_forall. intros H a t Ha.
  apply (H (a, t)). apply list_elem_of_In. now apply elem_of_map_to_list.
Qed.

Lemma plain_words_are_words (ws : list string) :
  forallb plain_word ws = true -> forallb is_word ws = true.
Proof.
  rewrite !forallb_forall. intros H w Hw.
  now destruct (plain_word_inv w (H w Hw)).
Qed.

(** X27: for a pattern made of plain words separated by single spaces
    (no bar, no [%] command, no set in square brackets, no negation),
    and tokens whose texts have no space and no NUL in them, [Match]
    compares the texts of the tokens from [tok] on with the words, one
    after the other, whatever [varid] is; on a token it returns what
    [simpleMatch] returns for the pattern. *)
Theorem Match_on_plain_words_compares_the_texts :
  forall (P : Predicates) (h : Heap) (tok : option ptr) (ws : list string)
         (varid : Z),
    clean_texts h -> forallb plain_word ws = true ->
    Match P h tok (join_words ws) varid = texts_from h tok ws /\
    (forall a, tok = Some a ->
               Match P h tok (join_words ws) varid
               = simpleMatch h tok (join_words ws)
                   (String.length (join_words ws))).
Proof.
  intros P h tok ws varid Hc Hw. split.
  - now apply Match_on_words.
  - intros a ->. rewrite (Match_on_words P h (Some a) ws varid Hc Hw).
    symmetry. apply simpleMatch_compares_the_texts_word_by_word'.
    now apply plain_words_are_words.
Qed.

Lemma Match_on_plain_words_compares_the_texts_witness :
  Match kind_predicates stream_x_eq_42 (Some 1) "x = 42" 0 = Ok true /\
  Match kind_predicates stream_x_eq_42 (Some 1) "x = 43" 0 = Ok false.
Proof.
  split.
  - exact (eq_trans (proj1 (Match_on_plain_words_compares_the_texts
                              kind_predicates stream_x_eq_42 (Some 1)
                              ["x"; "="; "42"]%string 0
                              (clean_textsb_sound stream_x_eq_42 eq_refl) eq_refl))
                    eq_refl).
  - exact (eq_trans (proj1 (Match_on_plain_words_compares_the_texts
                              kind_predicates stream_x_eq_42 (Some 1)
                              ["x"; "="; "43"]%string 0
                              (clean_textsb_sound stream_x_eq_42 eq_refl) eq_refl))
                    eq_refl).
Defined.

(** ** Prefix operators *)

(** Once [tokafter] is at the token itself or before it, the loop finds
    nothing new: it walks behind [tokbefore]. *)
Lemma isUnaryPreOp_loop_behind (h : Heap) (op : ptr) :
  forall (n : nat) (L : list ptr) (c a : ptr) (q : option ptr),
    chain h None (L ++ [c; a]) q = true -> a <> op -> c <> op ->
    isUnaryPreOp_loop n h (Some op) (last L) (Some a) = Ok false.
Proof.
  induction n as [|n IH]; intros L c a q Hc Ha Hcop; [reflexivity|].
  destruct L as [|b L _] using rev_ind; [reflexivity|].
  rewrite last_snoc. cbn [isUnaryPreOp_loop].
  destruct (optptr_eqb (Some b) (Some op)) eqn:Eb; [reflexivity|].
  assert (Hbop : b <> op).
  { intros ->. rewrite (proj2 (optptr_eqb_eq _ _) eq_refl) in Eb. discriminate. }
  assert (Ea : optptr_eqb (Some a) (Some op) = false).
  { destruct (optptr_eqb (Some a) (Some op)) eqn:E; [|reflexivity].
    apply optptr_eqb_eq in E. congruence. }
  rewrite Ea.
  assert (Hc1 : chain h None (L ++ [b; c]) (Some a) = true).
  { replace ((L ++ [b]) ++ [c; a]) with ((L ++ [b; c]) ++ [a]) in Hc
      by (rewrite <- !app_assoc; reflexivity).
    apply chain_app in Hc as [Hc _]. exact Hc. }
  rewrite <- app_assoc in Hc. apply chain_app in Hc as [_ Hc].
  apply chain_cons in Hc as [Hb Hc].
  apply chain_cons in Hc as [_ Hc].
  apply chain_cons in Hc as [Haa _].
  rewrite last_or_None in Hb.
  apply nbrs_Some in Hb as (tb & Htb & Hpb & _).
  apply nbrs_Some in Haa as (ta & Hta & Hpa & _).
  unfold deref at 1. rewrite Htb. cbn [bind nonnull].
  unfold deref at 1. rewrite Hta. cbn [bind].
  rewrite Hpb, Hpa.
  exact (IH L b c (Some a) Hc1 Hcop Hbop).
Qed.

Lemma isUnaryPreOp_on_list (h : Heap) (l1 l2 : list ptr) (this op : ptr)
    (t : Token) (i : TokenImpl) :
  token_list h (l1 ++ this :: l2) ->
  toks h !! this = Some t -> mImpl t = Some i ->
  mAstOperand1 i = Some op -> mAstOperand2 i = None ->
  mTokType t = eIncDecOp -> op <> this ->
  isUnaryPreOp h this =
  if decide (l1 = []) then Ok false
  else if decide (last l1 = Some op) then Ok false
  else if decide (head l2 = Some op) then Ok true
  else if decide (l2 = []) then Undefined
  else Ok false.
Proof.
  intros Hl Ht Hi Ho1 Ho2 Hk Hop.
  destruct (token_list_next h l1 this l2 Hl) as (t1 & Ht1 & Hnx).
  destruct (token_list_previous h l1 this l2 Hl) as (t2 & Ht2 & Hpr).
  assert (t1 = t) by congruence. assert (t2 = t) by congruence. subst t1 t2.
  destruct Hl as (Hnd & Hc & _).
  unfold isUnaryPreOp, deref. rewrite Ht. cbn [bind].
  unfold impl. rewrite Hi. cbn [bind]. rewrite Ho1, Ho2, Hk.
  cbn [TokType_eqb negb]. rewrite Hpr, Hnx.
  destruct l1 as [|b l1 _] using rev_ind; [reflexivity|].
  rewrite decide_False by (now destruct l1).
  rewrite last_snoc. cbn [isUnaryPreOp_loop].
  destruct (decide (Some b = Some op)) as [E|E].
  { rewrite (proj2 (optptr_eqb_eq _ _) E). reflexivity. }
  assert (Eb : optptr_eqb (Some b) (Some op) = false).
  { destruct (optptr_eqb (Some b) (Some op)) eqn:E'; [|reflexivity].
    apply optptr_eqb_eq in E'. contradiction. }
  rewrite Eb.
  destruct (decide (head l2 = Some op)) as [E2|E2].
  { rewrite (proj2 (optptr_eqb_eq _ _) E2). reflexivity. }
  assert (En : optptr_eqb (head l2) (Some op) = false).
  { destruct (optptr_eqb (head l2) (Some op)) eqn:E'; [|reflexivity].
    apply optptr_eqb_eq in E'. contradiction. }
  rewrite En.
  assert (Hc' := Hc).
  rewrite <- app_assoc in Hc'. apply chain_app in Hc' as [_ Hc'].
  apply chain_cons in Hc' as [Hb Hc'].
  rewrite last_or_None in Hb.
  apply nbrs_Some in Hb as (tb & Htb & Hpb & _).
  unfold deref at 1. rewrite Htb. cbn [bind].
  destruct l2 as [|n l2]; [reflexivity|].
  rewrite decide_False by discriminate.
  cbn [head nonnull bind].
  apply chain_cons in Hc' as [_ Hc'].
  apply chain_cons in Hc' as [Hn _].
  apply nbrs_Some in Hn as (tn & Htn & Hpn & _).
  unfold deref at 1. rewrite Htn. cbn [bind]. rewrite Hpb, Hpn.
  apply (isUnaryPreOp_loop_behind h op 8 l1 b this (Some n)).
  - replace ((l1 ++ [b]) ++ this :: n :: l2)
      with ((l1 ++ [b; this]) ++ n :: l2) in Hc
      by (rewrite <- !app_assoc; reflexivity).
    apply chain_app in Hc as [Hc _]. exact Hc.
  - congruence.
  - congruence.
Qed.

(** X28: for an increment or decrement token with a first operand and no
    second one, [isUnaryPreOp] says "prefix" exactly when the operand is
    the very next token and the token is not the first of the list: the
    pointer that is meant to go forward from the token goes backward, so
    an operand further to the right is never found; when the token is the
    first of the list the answer is false whatever follows; and when it
    is the last of the list and the operand is not the token before it,
    the null successor is dereferenced. *)
Theorem isUnaryPreOp_only_looks_at_the_next_token :
  forall (h : Heap) (l1 l2 : list ptr) (this op : ptr) (t : Token) (i : TokenImpl),
    token_list h (l1 ++ this :: l2) ->
    toks h !! this = Some t -> mImpl t = Some i ->
    mAstOperand1 i = Some op -> mAstOperand2 i = None ->
    mTokType t = eIncDecOp -> op <> this ->
    isUnaryPreOp h this =
    if decide (l1 = []) then Ok false
    else if decide (last l1 = Some op) then Ok false
    else if decide (head l2 = Some op) then Ok true
    else if decide (l2 = []) then Undefined
    else Ok false.
Proof. exact isUnaryPreOp_on_list. Qed.

Lemma isUnaryPreOp_only_looks_at_the_next_token_witness :
  isUnaryPreOp stream_x_eq_inc_y 3 = Ok true /\
  isUnaryPreOp stream_inc_y 3 = Ok false.
Proof.
  split.
  - exact (eq_trans (isUnaryPreOp_only_looks_at_the_next_token
                       stream_x_eq_inc_y [1; 2] [4; 5] 3 4
                       (incdec_token (Some 2) (Some 4) (Some 4))
                       (mkImpl 0 0 (Some 4) None None None 0)
                       (token_listb_sound stream_x_eq_inc_y [1; 2; 3; 4; 5] eq_refl)
                       eq_refl eq_refl eq_refl eq_refl eq_refl
                       ltac:(discriminate))
                    eq_refl).
  - exact (eq_trans (isUnaryPreOp_only_looks_at_the_next_token
                       stream_inc_y [] [4; 5] 3 4
                       (incdec_token None (Some 4) (Some 4))
                       (mkImpl 0 0 (Some 4) None None None 0)
                       (token_listb_sound stream_inc_y [3; 4; 5] eq_refl)
                       eq_refl eq_refl eq_refl eq_refl eq_refl
                       ltac:(discriminate))
                    eq_refl).
Defined.

(** ** Facts that removeContradictions leaves alone *)

Lemma filter_all {A : Type} (f : A -> bool) (l : list A) :
  forallb f l = true -> List.filter f l = l.
Proof.
  induction l as [|a l IH]; [reflexivity|]. simpl.
  intros H. apply andb_true_iff in H as [Ha Hl]. rewrite Ha. f_equal. now apply IH.
Qed.

Lemma removeOverlaps_loop_no_overlaps (V : ValueOps) :
  forall (fuel : nat) (done rest : list Value),
    no_overlaps V done rest = true ->
    removeOverlaps_loop V fuel done rest = done ++ rest.
Proof.
  induction fuel as [|fuel IH]; intros done rest H; [reflexivity|].
  destruct rest as [|x rest]; [reflexivity|].
  cbn [no_overlaps] in H. apply andb_true_iff in H as [Hx H].
  cbn [removeOverlaps_loop]. destruct (isNonValue V x).
  - rewrite (IH _ _ H). now rewrite <- app_assoc.
  - cbn [orb] in Hx. rewrite forallb_app in Hx.
    apply andb_true_iff in Hx as [Hd Hr].
    rewrite (filter_all _ _ Hd), (filter_all _ _ Hr).
    rewrite (IH _ _ H). now rewrite <- app_assoc.
Qed.

Lemma mergeAdjacent_loop_points (V : ValueOps) (values : list Value) :
  forallb (point_fact V) values = true ->
  forall (fuel xi : nat), mergeAdjacent_loop V fuel values xi = values.
Proof.
  intros Hp. induction fuel as [|fuel IH]; intros xi; [reflexivity|].
  cbn [mergeAdjacent_loop].
  destruct (values !! xi) as [x|] eqn:Hx; [|reflexivity].
  rewrite forallb_forall in Hp.
  assert (Hpx : point_fact V x = true).
  { apply Hp. apply list_elem_of_In. eapply list_elem_of_lookup_2. exact Hx. }
  unfold point_fact in Hpx. destruct (isNonValue V x); [apply IH|].
  cbn [orb] in Hpx. rewrite Hpx. apply IH.
Qed.

Lemma removeContradiction_pair_possible (V : ValueOps) (values : list Value)
    (i j : nat) (result : bool) :
  forallb (fun v => negb (isImpossible v)) values = true ->
  removeContradiction_pair V i j values result = Running values result.
Proof.
  intros Hp. unfold removeContradiction_pair.
  destruct (values !! i) as [x|] eqn:Hx; [|reflexivity].
  destruct (values !! j) as [y|] eqn:Hy; [|reflexivity].
  rewrite forallb_forall in Hp.
  assert (Hix : isImpossible x = false).
  { apply negb_true_iff. apply Hp. apply list_elem_of_In.
    eapply list_elem_of_lookup_2. exact Hx. }
  assert (Hiy : isImpossible y = false).
  { apply negb_true_iff. apply Hp. apply list_elem_of_In.
    eapply list_elem_of_lookup_2. exact Hy. }
  rewrite Hix, Hiy. cbn [Bool.eqb].
  destruct (isNonValue V y); [reflexivity|].
  destruct (value_eqb V x y); [reflexivity|].
  destruct (negb (ValueType_eqb (valueType x) (valueType y))); reflexivity.
Qed.

Lemma removeContradiction_inner_possible (V : ValueOps) (values : list Value)
    (i : nat) (result : bool) :
  forallb (fun v => negb (isImpossible v)) values = true ->
  forall js, removeContradiction_inner V i js values result = Running values result.
Proof.
  intros Hp. induction js as [|j js IH]; [reflexivity|].
  cbn [removeContradiction_inner].
  now rewrite removeContradiction_pair_possible.
Qed.

Lemma removeContradiction_outer_possible (V : ValueOps) (values : list Value)
    (n : nat) (result : bool) :
  forallb (fun v => negb (isImpossible v)) values = true ->
  forall is_, removeContradiction_outer V is_ n values result = (values, result).
Proof.
  intros Hp. induction is_ as [|i is_ IH]; [reflexivity|].
  cbn [removeContradiction_outer].
  destruct (values !! i) as [x|]; [|reflexivity].
  destruct (isNonValue V x); [exact IH|].
  now rewrite removeContradiction_inner_possible.
Qed.

Lemma removeContradictions_fixed (V : ValueOps) (values : list Value) :
  forallb (point_fact V) values = true ->
  forallb (fun v => negb (isImpossible v)) values = true ->
  no_overlaps V [] values = true ->
  removeContradictions V values = values.
Proof.
  intros Hpt Hp Hno.
  assert (Ho : removeOverlaps V values = values).
  { unfold removeOverlaps. rewrite (removeOverlaps_loop_no_overlaps V _ _ _ Hno).
    cbn [app]. unfold mergeAdjacent. now apply mergeAdjacent_loop_points. }
  unfold removeContradictions. rewrite Ho.
  cbn [removeContradictions_rounds]. unfold removeContradiction.
  rewrite (removeContradiction_outer_possible V values _ false Hp).
  reflexivity.
Qed.

(** X29: a list of facts that are points, none of them impossible, and
    no two of which have the same kind, confidence and an equal value, is
    left as it is by [removeContradictions]: nothing is merged, nothing
    is dropped, and the order is kept. *)
Theorem removeContradictions_leaves_distinct_possible_points :
  forall (V : ValueOps) (values : list Value),
    forallb (point_fact V) values = true ->
    forallb (fun v => negb (isImpossible v)) values = true ->
    no_overlaps V [] values = true ->
    removeContradictions V values = values.
Proof. exact removeContradictions_fixed. Qed.

Lemma removeContradictions_leaves_distinct_possible_points_witness :
  removeContradictions (vf_ops (fact_stream None)) ten_facts = ten_facts.
Proof.
  apply (removeContradictions_leaves_distinct_possible_points
           (vf_ops (fact_stream None)) ten_facts); reflexivity.
Defined.

(** ** A new possible fact is appended *)

Lemma stored_kind (n : Z) (v : Value) :
  isKnown (stored n v) = isKnown v /\ isImpossible (stored n v) = isImpossible v.
Proof. unfold stored. destruct (varId v =? 0)%Z; split; reflexivity. Qed.

Lemma any_of_no_known (V : ValueOps) (h : Heap) (value : Value) (l : list Value) :
  forallb (fun x => negb (isKnown x) && negb (isImpossible x)) l = true ->
  any_of (fun x => if isKnown x
                   then let* same := sameValueType h x value in
                        Ok (same && negb (equalValue V x value))
                   else Ok false) l = Ok false.
Proof.
  induction l as [|x l IH]; [reflexivity|]. cbn [forallb any_of].
  intros H. apply andb_true_iff in H as [Hx Hl].
  apply andb_true_iff in Hx as [Hk _]. apply negb_true_iff in Hk.
  rewrite Hk. cbn [bind]. now apply IH.
Qed.

Lemma scan_existing_Absent (V : ValueOps) (h : Heap) (n : Z) (value : Value)
    (l : list Value) :
  isImpossible value = false ->
  forallb (fun x => negb (isKnown x) && negb (isImpossible x)) l = true ->
  forallb (fun x => negb (ValueType_eqb (valueType x) (valueType value)
                          && equalValue V x value)) l = true ->
  scan_existing V h n value l = Ok Absent.
Proof.
  intros Hv. induction l as [|x l IH]; [reflexivity|]. cbn [forallb].
  intros H1 H2. apply andb_true_iff in H1 as [Hx H1].
  apply andb_true_iff in H2 as [Hx2 H2].
  apply andb_true_iff in Hx as [_ Hi]. apply negb_true_iff in Hi.
  cbn [scan_existing]. rewrite (IH H1 H2). cbn [bind].
  destruct (ValueType_eqb (valueType x) (valueType value)); [|reflexivity].
  cbn [negb andb] in *. rewrite Hi, Hv. cbn [Bool.eqb negb].
  apply negb_true_iff in Hx2. rewrite Hx2. reflexivity.
Qed.

Lemma addValue_members_appends (V : ValueOps) (h : Heap) (n : Z)
    (l : list Value) (value : Value) :
  length l < 10 ->
  isKnown value = false -> isImpossible value = false ->
  forallb (fun x => negb (isKnown x) && negb (isImpossible x)) l = true ->
  forallb (fun x => negb (ValueType_eqb (valueType x) (valueType value)
                          && equalValue V x value)) l = true ->
  forallb (point_fact V) (l ++ [stored n value]) = true ->
  no_overlaps V [] (l ++ [stored n value]) = true ->
  addValue_members V h n (Some l) value = Ok (true, Some (l ++ [stored n value])).
Proof.
  intros Hlen Hk Hi Hl Hnew Hpt Hno. unfold addValue_members.
  rewrite Hk. cbn [bind negb].
  rewrite (any_of_no_known V h value l Hl). cbn [bind].
  assert (E10 : (10 <=? length l) = false) by (apply Nat.leb_gt; exact Hlen).
  rewrite E10.
  rewrite (scan_existing_Absent V h n value l Hi Hl Hnew). cbn [bind].
  destruct (stored_kind n value) as [Ek Ei]. rewrite Ek, Hk. cbn [andb].
  rewrite removeContradictions_fixed; [reflexivity|exact Hpt| |exact Hno].
  rewrite forallb_app. cbn [forallb]. rewrite Ei, Hi. cbn [negb andb].
  rewrite andb_true_r. rewrite forallb_forall in Hl. apply forallb_forall.
  intros x Hx. specialize (Hl x Hx). now apply andb_true_iff in Hl as [_ Hl].
Qed.

(** X30: on a token with fewer than ten facts, none of them known or
    impossible, [addValue] of a fact that is neither known nor impossible
    and whose value is not among the facts of its kind returns true and
    appends the fact at the end of the list (with the variable id of the
    token when it came without one), provided the facts, the new one
    included, are points (or no values) no two of which have the same
    kind, confidence and an equal value: the facts that were there are
    kept, in their order, and no other token changes. *)
Theorem addValue_appends_a_new_possible_point :
  forall (V : ValueOps) (h : Heap) (this : ptr) (t : Token) (i : TokenImpl)
         (l : list Value) (value : Value),
    toks h !! this = Some t -> mImpl t = Some i -> mValues i = Some l ->
    length l < 10 ->
    isKnown value = false -> isImpossible value = false ->
    forallb (fun x => negb (isKnown x) && negb (isImpossible x)) l = true ->
    forallb (fun x => negb (ValueType_eqb (valueType x) (valueType value)
                            && equalValue V x value)) l = true ->
    forallb (point_fact V) (l ++ [stored (mVarId i) value]) = true ->
    no_overlaps V [] (l ++ [stored (mVarId i) value]) = true ->
    exists h',
      addValue V h this value = Ok (true, h') /\
      facts h' this = Some (l ++ [stored (mVarId i) value]) /\
      forall x, x <> this -> toks h' !! x = toks h !! x.
Proof.
  intros V h this t i l value Ht Hi Hm Hlen Hk Him Hl Hnew Hpt Hno.
  unfold addValue. rewrite (deref_live h this t Ht). cbn [bind].
  unfold impl. rewrite Hi. cbn [bind]. rewrite Hm.
  rewrite (addValue_members_appends V h (mVarId i) l value
             Hlen Hk Him Hl Hnew Hpt Hno).
  cbn [bind]. eexists. split; [reflexivity|]. split.
  - unfold facts. rewrite lookup_store, decide_True by reflexivity. reflexivity.
  - intros x Hx. rewrite lookup_store. now rewrite decide_False by congruence.
Qed.

Lemma addValue_appends_a_new_possible_point_witness :
  exists h',
    addValue (vf_ops (fact_stream (Some [int_fact Possible Point 1])))
      (fact_stream (Some [int_fact Possible Point 1])) 1
      (int_fact Possible Point 5) = Ok (true, h') /\
    facts h' 1 = Some [int_fact Possible Point 1;
                       with_varId 1 (int_fact Possible Point 5)].
Proof.
  destruct (addValue_appends_a_new_possible_point
              (vf_ops (fact_stream (Some [int_fact Possible Point 1])))
              (fact_stream (Some [int_fact Possible Point 1])) 1
              (fact_token (Some [int_fact Possible Point 1]))
              (mkImpl 1 0 None None None (Some [int_fact Possible Point 1]) 0)
              [int_fact Possible Point 1] (int_fact Possible Point 5)
              eq_refl eq_refl eq_refl ltac:(simpl; lia)
              eq_refl eq_refl eq_refl eq_refl eq_refl eq_refl)
    as (h' & Hrun & Hf & _).
  exists h'. split; [exact Hrun | exact Hf].
Defined.
(** ** Match from a token to the end of the stream *)

(** The loop of [Token::Match] does not depend on the fuel, once there is
    more of it than pattern left. *)
Lemma Match_loop_fuel (P : Predicates) (h : Heap) (varid : Z) :
  forall (f1 f2 : nat) (tok : option ptr) (p0 : string),
    String.length p0 < f1 -> String.length p0 < f2 ->
    Match_loop P h f1 tok p0 varid = Match_loop P h f2 tok p0 varid.
Proof.
  induction f1 as [|f1 IH]; intros f2 tok p0 H1 H2; [lia|].
  destruct f2 as [|f2]; [lia|]. cbn [Match_loop].
  pose proof (skip_spaces_length p0) as Hsp.
  set (p := skip_spaces p0) in *.
  destruct (ascii_eqb (char_at p 0) NUL) eqn:Enul; [reflexivity|].
  assert (Espace : ascii_eqb (char_at p 0) " " = false).
  { subst p. clear. induction p0 as [|c p0 IH]; [reflexivity|].
    cbn [skip_spaces].
    destruct (ascii_eqb c " ") eqn:E; [exact IH | cbn [char_at]; exact E]. }
  pose proof (skip_word_strict p Enul Espace) as Hword.
  assert (Hstep : forall (q : string) (t : Token),
             String.length q <= String.length p ->
             ascii_eqb (char_at q 0) " " = false \/ String.length q < String.length p ->
             match strchr q " " with
             | Some p' => Match_loop P h f1 (mNext t) p' varid
             | None => Ok true
             end
             = match strchr q " " with
               | Some p' => Match_loop P h f2 (mNext t) p' varid
               | None => Ok true
               end).
  { intros q t Hq Hs. destruct (strchr q " ") as [p'|] eqn:Ec; [|reflexivity].
    apply IH; destruct Hs as [Hs|Hs];
      try (apply (strchr_strict " " q p' Ec) in Hs; lia);
      apply strchr_length in Ec; lia. }
  destruct tok as [a|].
  - destruct (deref h a) as [t| | |] eqn:Hd; cbn [bind]; try reflexivity.
    destruct (ascii_eqb (char_at p 0) "[" && chrInFirstWord p "]").
    + destruct (negb (String.length (mStr t) =? 1)); [reflexivity|].
      pose proof (bracket_scan_length (char_at (mStr t) 0) (advance 1 p) 0) as Hb.
      destruct (bracket_scan (advance 1 p) (char_at (mStr t) 0) 0)
        as [[chrFound count] temp]. cbn [fst snd] in Hb.
      rewrite length_advance in Hb.
      assert (Hp : 0 < String.length p).
      { destruct p; [discriminate | cbn [String.length]; lia]. }
      destruct (negb (if (1 <? count) && ascii_eqb (char_at (mStr t) 0) "]"
                      then true else chrFound)); [reflexivity|].
      apply Hstep; [lia | right; lia].
    + destruct (is_negation p) eqn:Eneg.
      * destruct (firstWordEquals (advance 2 p) (mStr t)); [reflexivity|].
        assert (Hp : 0 < String.length p).
        { destruct p; [discriminate | cbn [String.length]; lia]. }
        apply Hstep; rewrite length_advance; [lia | right; lia].
      * destruct (multiCompareImpl P t p varid) as [res| | |]; cbn [bind];
          try reflexivity.
        destruct (res =? 0)%Z; [apply IH; lia|].
        destruct (res =? -1)%Z; [reflexivity|].
        apply Hstep; [lia | now left].
  - destruct (is_negation p); [apply IH; lia | reflexivity].
Qed.

(** In the middle of a pattern the loop is in the state of [Match] on the
    rest of the pattern. *)
Lemma Match_loop_is_Match (P : Predicates) (h : Heap) (varid : Z)
    (fuel : nat) (tok : option ptr) (p : string) :
  String.length p < fuel ->
  Match_loop P h fuel tok p varid = Match P h tok p varid.
Proof.
  intros Hf. unfold Match.
  destruct (ascii_eqb (char_at p 0) NUL) eqn:E0.
  - destruct fuel as [|fuel]; [lia|]. cbn [Match_loop].
    rewrite (skip_spaces_at_NUL p E0). now rewrite E0.
  - apply Match_loop_fuel; lia.
Qed.


(** What [Match] does at the end of a word of the pattern: it is done
    when the pattern ends there, and goes to the next token otherwise. *)
Lemma advance_token_after_word (P : Predicates) (h : Heap) (varid : Z)
    (tok' : option ptr) (w r : string) (fuel : nat) :
  str_mem " " w = false -> str_mem NUL w = false -> after_word r ->
  String.length r < fuel ->
  match strchr (String.append w r) " " with
  | Some p' => Match_loop P h fuel tok' p' varid
  | None => Ok true
  end = Match P h tok' r varid.
Proof.
  intros Hsp Hn [->|[r' ->]] Hf.
  - rewrite append_nil_r, (strchr_word_end w Hsp). reflexivity.
  - rewrite (strchr_word_space w r' Hsp Hn). now apply Match_loop_is_Match.
Qed.







Lemma multiCompareImpl_varid_word (P : Predicates) (t : Token) (i : TokenImpl)
    (r : string) (varid : Z) :
  varid <> 0%Z -> mImpl t = Some i -> after_word r ->
  multiCompareImpl P t (String.append "%varid%" r) varid
  = Ok (if (mVarId i =? varid)%Z then 1%Z else (-1)%Z).
Proof.
  intros Hv Hi Hr. unfold multiCompareImpl.
  pose proof (multiCompare_loop_percent P
                (String.length (String.append "%varid%" r)) t
                (String.append "arid%" r) varid) as E.
  change (String.append "%v" (String.append "arid%" r))
    with (String.append "%varid%" r) in E.
  rewrite E. rewrite (multiComparePercent_varid P t i r varid Hv Hi).
  destruct (mVarId i =? varid)%Z; [reflexivity|].
  unfold percent_result, percent_no_match.
  destruct Hr as [->|[r' ->]]; reflexivity.
Qed.

(** The wildcard [%varid%] of the pattern against a token, with a
    binding other than 0: the match goes on at the next token when the
    variable id of the token is the binding, and fails otherwise. *)
Lemma Match_varid_step (P : Predicates) (h : Heap) (varid : Z) (a : ptr)
    (t : Token) (i : TokenImpl) (r : string) :
  toks h !! a = Some t -> mImpl t = Some i -> varid <> 0%Z -> after_word r ->
  Match P h (Some a) (String.append "%varid%" r) varid
  = if (mVarId i =? varid)%Z then Match P h (mNext t) r varid else Ok false.
Proof.
  intros Ha Hi Hv Hr.
  unfold Match at 1.
  change (char_at (String.append "%varid%" r) 0) with "%"%char.
  change (ascii_eqb "%" NUL) with false. cbv iota.
  cbn [Match_loop].
  change (skip_spaces (String.append "%varid%" r))
    with (String.append "%varid%" r).
  change (char_at (String.append "%varid%" r) 0) with "%"%char.
  change (ascii_eqb "%" NUL) with false. cbv iota.
  rewrite (deref_live h a t Ha). cbn [bind].
  change (ascii_eqb "%" "[") with false. cbn [andb].
  change (is_negation (String.append "%varid%" r)) with false. cbv iota.
  rewrite (multiCompareImpl_varid_word P t i r varid Hv Hi Hr). cbn [bind].
  destruct (mVarId i =? varid)%Z; [|reflexivity].
  cbn [Z.eqb Pos.eqb].
  apply advance_token_after_word; try assumption; try reflexivity.
  rewrite length_append. cbn [String.length]. lia.
Qed.


(** C5: on a present token the wildcard [%varid%] with the binding 0
    throws the internal error, whatever follows it in the pattern, and is
    no match failure.  With a binding other than 0 the wildcard matches
    exactly the tokens whose variable id is the binding, whatever follows
    it in the pattern; when it ends a word of the pattern, [multiCompare]
    answers 1 for these tokens and -1 for the others, and [Match] goes on
    with the next token and the rest of the pattern for these tokens and
    fails for the others. *)
Theorem Match_varid_wildcard :
  forall (P : Predicates) (h : Heap) (a : ptr) (t : Token) (i : TokenImpl)
         (rest : string) (varid : Z),
    toks h !! a = Some t ->
    mImpl t = Some i ->
    multiComparePercent P t ("%varid%" ++ rest) 0 = InternalError varid_zero_message /\
    Match P h (Some a) ("%varid%" ++ rest) 0 = InternalError varid_zero_message /\
    (varid <> 0%Z ->
     multiComparePercent P t ("%varid%" ++ rest) varid
     = percent_result (mVarId i =? varid)%Z rest /\
     (after_word rest ->
      multiCompareImpl P t ("%varid%" ++ rest) varid
      = Ok (if (mVarId i =? varid)%Z then 1%Z else (-1)%Z) /\
      Match P h (Some a) ("%varid%" ++ rest) varid
      = if (mVarId i =? varid)%Z then Match P h (mNext t) rest varid
        else Ok false) /\
     Match P h (Some a) "%varid%" varid = Ok (mVarId i =? varid)%Z).
Proof.
  intros P h a t i rest varid Ha Hi.
  destruct (Match_varid_zero P h a t rest Ha) as [H1 H2].
  split; [exact H1|]. split; [exact H2|]. intros Hv.
  split; [exact (multiComparePercent_varid P t i rest varid Hv Hi)|].
  split.
  - intros Hr. split.
    + exact (multiCompareImpl_varid_word P t i rest varid Hv Hi Hr).
    + exact (Match_varid_step P h varid a t i rest Ha Hi Hv Hr).
  - pose proof (Match_varid_step P h varid a t i EmptyString Ha Hi Hv
                  (or_introl eq_refl)) as E.
    change (String.append "%varid%" "") with "%varid%"%string in E.
    rewrite E. now destruct (mVarId i =? varid)%Z.
Qed.

Lemma Match_varid_wildcard_witness :
  Match kind_predicates stream_x_eq_42 (Some 1) "%varid% = %num%" 0
  = InternalError varid_zero_message /\
  Match kind_predicates stream_x_eq_42 (Some 1) "%varid% = %num%" 7
  = Match kind_predicates stream_x_eq_42 (Some 2) " = %num%" 7 /\
  Match kind_predicates stream_x_eq_42 (Some 1) "%varid% = %num%" 8 = Ok false /\
  Match kind_predicates stream_x_eq_42 (Some 1) "%varid%" 7 = Ok true /\
  Match kind_predicates stream_x_eq_42 (Some 1) "%varid%" 8 = Ok false.
Proof.
  pose proof (Match_varid_wildcard kind_predicates stream_x_eq_42 1
                (plain_token "x" eVariable 7 None (Some 2)) (plain_impl 7)
                " = %num%" 7 eq_refl eq_refl) as [_ [H0 H7]].
  pose proof (Match_varid_wildcard kind_predicates stream_x_eq_42 1
                (plain_token "x" eVariable 7 None (Some 2)) (plain_impl 7)
                " = %num%" 8 eq_refl eq_refl) as [_ [_ H8]].
  destruct (H7 ltac:(discriminate)) as (_ & H7r & H7w).
  destruct (H8 ltac:(discriminate)) as (_ & H8r & H8w).
  split; [exact H0|].
  split; [exact (proj2 (H7r (or_intror (ex_intro _ "= %num%"%string eq_refl))))|].
  split; [exact (proj2 (H8r (or_intror (ex_intro _ "= %num%"%string eq_refl))))|].
  split; [exact H7w | exact H8w].
Defined.



(** ** Deleting tokens keeps the bracket links symmetric *)

Lemma deleted_partner_cleared (h h' : Heap) (a b : ptr) (ta : Token) :
  links_symmetric h -> links_symmetric h' -> links_kept_or_cleared h h' ->
  toks h !! a = Some ta -> mLink ta = Some b ->
  toks h' !! a = None -> is_Some (toks h' !! b) ->
  lnk h' b = Some None.
Proof.
  intros Hs Hs' Hk Ha Hl Hgone [tb' Hb].
  destruct (Hs a b ta Ha Hl) as (tb & Hb0 & Hlb).
  destruct (Hk b (mLink tb')) as (l & Hl0 & Hcase).
  { unfold lnk. now rewrite Hb. }
  unfold lnk in Hl0. rewrite Hb0 in Hl0. simpl in Hl0.
  unfold lnk. rewrite Hb. simpl. f_equal.
  destruct Hcase as [E|E]; [|exact E].
  assert (El : mLink tb' = Some a) by congruence.
  destruct (Hs' b a tb' Hb El) as (ta' & Ha' & _). congruence.
Qed.

(** What is left of the bracket links once the tokens at [gone] have been
    deleted: the links are symmetric, the deleted tokens are not there any
    more, the partner of a deleted token, when it remains, has its link
    cleared, and the link of no token refers to a deleted one. *)
Lemma delete_leaves_no_dangling_link (h h' : Heap) (gone : list ptr) :
  links_symmetric h -> links_symmetric h' -> links_kept_or_cleared h h' ->
  (forall x, payload h' x = if decide (x ∈ gone) then None else payload h x) ->
  (forall x, x ∈ gone -> toks h' !! x = None) /\
  (forall (a b : ptr) (ta : Token),
      toks h !! a = Some ta -> mLink ta = Some b ->
      a ∈ gone -> b ∉ gone -> lnk h' b = Some None) /\
  (forall (b a : ptr) (tb' : Token),
      toks h' !! b = Some tb' -> mLink tb' = Some a ->
      is_Some (toks h' !! a) /\ a ∉ gone).
Proof.
  intros Hs Hs' Hk Hp.
  assert (Hgone : forall x, x ∈ gone -> toks h' !! x = None).
  { intros x Hx. apply payload_None. now rewrite Hp, decide_True. }
  split; [exact Hgone|]. split.
  - intros a b ta Ha Hl Hag Hbg.
    apply (deleted_partner_cleared h h' a b ta Hs Hs' Hk Ha Hl (Hgone a Hag)).
    destruct (Hs a b ta Ha Hl) as (tb & Hb & _).
    destruct (toks h' !! b) as [tb'|] eqn:Hb'; [eauto|].
    apply payload_None in Hb'. rewrite Hp, decide_False in Hb' by exact Hbg.
    apply payload_None in Hb'. congruence.
  - intros b a tb' Hb Hl.
    destruct (Hs' b a tb' Hb Hl) as (ta' & Ha' & _).
    split; [eauto|]. intros Hag. rewrite (Hgone a Hag) in Ha'. discriminate.
Qed.

(** C8: [deleteNext] and [deletePrevious] keep the bracket links
    symmetric.  Whenever one of them returns, the links are symmetric
    again and the partner of a deleted token, when it remains, has its
    link cleared.  On a well-formed list both return: the [count] tokens
    after (before) [this] are deleted, the links of their partners that
    remain are cleared, and the bracket link of no remaining token refers
    to a deleted token. *)
Theorem delete_keeps_links_symmetric :
  forall (O : Oracles) (h : Heap) (this : ptr) (count : nat),
    links_symmetric h ->
    (forall h' : Heap,
        deleteNext O h this count = Ok h' \/ deletePrevious O h this count = Ok h' ->
        links_symmetric h' /\
        forall (a b : ptr) (ta tb' : Token),
          toks h !! a = Some ta -> mLink ta = Some b ->
          toks h' !! a = None ->
          toks h' !! b = Some tb' -> mLink tb' = None) /\
    (forall l1 l2 : list ptr,
        token_list h (l1 ++ this :: l2) ->
        (exists h',
            deleteNext O h this count = Ok h' /\
            links_symmetric h' /\
            (forall x, x ∈ take count l2 -> toks h' !! x = None) /\
            (forall (a b : ptr) (ta : Token),
                toks h !! a = Some ta -> mLink ta = Some b ->
                a ∈ take count l2 -> b ∉ take count l2 ->
                lnk h' b = Some None) /\
            (forall (b a : ptr) (tb' : Token),
                toks h' !! b = Some tb' -> mLink tb' = Some a ->
                is_Some (toks h' !! a) /\ a ∉ take count l2)) /\
        (exists h',
            deletePrevious O h this count = Ok h' /\
            links_symmetric h' /\
            (forall x, x ∈ drop (length l1 - count) l1 -> toks h' !! x = None) /\
            (forall (a b : ptr) (ta : Token),
                toks h !! a = Some ta -> mLink ta = Some b ->
                a ∈ drop (length l1 - count) l1 ->
                b ∉ drop (length l1 - count) l1 ->
                lnk h' b = Some None) /\
            (forall (b a : ptr) (tb' : Token),
                toks h' !! b = Some tb' -> mLink tb' = Some a ->
                is_Some (toks h' !! a) /\ a ∉ drop (length l1 - count) l1))).
Proof.
  intros O h this count Hs. split.
  - intros h' Hrun. exact (delete_links_invariant O h this count h' Hs Hrun).
  - intros l1 l2 Hl. split.
    + destruct (deleteNext_on_list O h l1 this l2 count Hl Hs)
        as (h' & Hrun & _ & Hs' & Hp).
      exists h'. split; [exact Hrun|]. split; [exact Hs'|].
      apply (delete_leaves_no_dangling_link h h' _ Hs Hs'); [|exact Hp].
      exact (proj2 (deleteNext_links O h this count h' Hrun Hs)).
    + destruct (deletePrevious_on_list O h l1 this l2 count Hl Hs)
        as (h' & Hrun & _ & Hs' & Hp).
      exists h'. split; [exact Hrun|]. split; [exact Hs'|].
      apply (delete_leaves_no_dangling_link h h' _ Hs Hs'); [|exact Hp].
      exact (proj2 (deletePrevious_links O h this count h' Hrun Hs)).
Qed.

Lemma delete_keeps_links_symmetric_witness :
  (exists h',
      deleteNext example_oracles stream_call 1 1 = Ok h' /\
      links_symmetric h' /\ toks h' !! 2 = None /\ lnk h' 4 = Some None) /\
  (exists h',
      deletePrevious example_oracles stream_call 5 1 = Ok h' /\
      links_symmetric h' /\ toks h' !! 4 = None /\ lnk h' 2 = Some None).
Proof.
  split.
  - destruct (delete_keeps_links_symmetric example_oracles stream_call 1 1
                (links_symmetricb_sound stream_call eq_refl)) as [_ Hlist].
    destruct (Hlist [] [2; 3; 4; 5]
                (token_listb_sound stream_call [1; 2; 3; 4; 5] eq_refl))
      as [(h' & Hrun & Hs & Hgone & Hpartner & _) _].
    exists h'. split; [exact Hrun|]. split; [exact Hs|]. split.
    + apply Hgone. left.
    + apply (Hpartner 2 4 (linked_token "(" eExtendedOp (Some 1) (Some 3) (Some 4)));
        [reflexivity | reflexivity | left |].
      intros H. apply list_elem_of_singleton in H. discriminate.
  - destruct (delete_keeps_links_symmetric example_oracles stream_call 5 1
                (links_symmetricb_sound stream_call eq_refl)) as [_ Hlist].
    destruct (Hlist [1; 2; 3; 4] []
                (token_listb_sound stream_call [1; 2; 3; 4; 5] eq_refl))
      as [_ (h' & Hrun & Hs & Hgone & Hpartner & _)].
    exists h'. split; [exact Hrun|]. split; [exact Hs|]. split.
    + apply Hgone. left.
    + apply (Hpartner 4 2 (linked_token ")" eExtendedOp (Some 3) (Some 5) (Some 2)));
        [reflexivity | reflexivity | left |].
      intros H. apply list_elem_of_singleton in H. discriminate.
Defined.


(** ** Classification is stable *)

#[local] Arguments str_eqb : simpl never.
#[local] Arguments size_is : simpl never.
#[local] Arguments isalpha : simpl never.
#[local] Arguments str_mem : simpl never.
#[local] Arguments set_contains : simpl never.
#[local] Arguments classify_operator : simpl never.
#[local] Arguments char_at : simpl never.
#[local] Arguments isStandardType : simpl never.
#[local] Arguments String.length : simpl never.
#[local] Arguments Nat.ltb : simpl never.
#[local] Arguments Z.eqb : simpl never.
#[local] Arguments TokType_eqb : simpl never.

Lemma classify_operator_fields (t t' : Token) :
  mStr t' = mStr t -> mLink t' = mLink t ->
  classify_operator t' = classify_operator t.
Proof. unfold classify_operator, has_link. now intros -> ->. Qed.

Lemma update_property_info_again (O : Oracles) (t0 t1 : Token) :
  update_property_info O t0 = Ok t1 -> update_property_info O t1 = Ok t1.
Proof.
  destruct t0 as [s k [f1 f2 f3] n p l i c].
  unfold update_property_info, update_property_isStandardType.
  unfold impl, set_isStandardType, set_fIsControlFlowKeyword, set_isLong,
    tokType, with_mFlags, with_mTokType.
  simpl. intros H.
  repeat match type of H with
         | context [if ?c then _ else _] => destruct c eqn:?; simpl in H
         | context [match ?c with Some _ => _ | None => _ end] =>
             destruct c eqn:?; simpl in H
         end;
    try discriminate.
  all: try (injection H as <-; simpl).
  all: repeat match goal with
              | E : ?c = _ |- context [?c] => rewrite E; simpl
              end.
  all: reflexivity.
Qed.

Lemma update_property_info_keeps_text (O : Oracles) (t0 t1 : Token) :
  update_property_info O t0 = Ok t1 -> mStr t1 = mStr t0.
Proof.
  destruct t0 as [s k [f1 f2 f3] n p l i c].
  unfold update_property_info, update_property_isStandardType.
  unfold impl, set_isStandardType, set_fIsControlFlowKeyword, set_isLong,
    tokType, with_mFlags, with_mTokType.
  simpl. intros H.
  repeat match type of H with
         | context [if ?c then _ else _] => destruct c eqn:?; simpl in H
         | context [match ?c with Some _ => _ | None => _ end] =>
             destruct c eqn:?; simpl in H
         end;
    try discriminate.
  all: injection H as <-; reflexivity.
Qed.

(** The classification resets the two flags it computes and stores the
    kind in every branch, so what these were before does not matter. *)
Lemma update_property_info_ignores_kind (O : Oracles) (t0 : Token)
    (k : TokType) (c s : bool) :
  update_property_info O
    (with_mTokType k (with_mFlags (mkFlags c s (fIsLong (mFlags t0))) t0))
  = update_property_info O t0.
Proof.
  unfold update_property_info.
  assert (E : set_isStandardType false
                (set_fIsControlFlowKeyword false
                   (with_mTokType k
                      (with_mFlags (mkFlags c s (fIsLong (mFlags t0))) t0)))
              = with_mTokType k
                  (set_isStandardType false (set_fIsControlFlowKeyword false t0))).
  { destruct t0 as [str k0 [f1 f2 f3] n p l i cpp]. reflexivity. }
  rewrite E.
  generalize (set_isStandardType false (set_fIsControlFlowKeyword false t0)).
  intros T. destruct T as [str k0 [f1 f2 f3] n p l i cpp].
  cbv zeta.
  unfold update_property_isStandardType, impl, set_isLong, tokType,
    set_isStandardType, set_fIsControlFlowKeyword, with_mFlags, with_mTokType.
  cbn [mStr mTokType mFlags mNext mPrevious mLink mImpl mIsCpp
         fIsControlFlowKeyword fIsStandardType fIsLong].
  rewrite (classify_operator_fields (mkToken str k0 (mkFlags f1 f2 f3) n p l i cpp)
             (mkToken str k (mkFlags f1 f2 f3) n p l i cpp) eq_refl eq_refl).
  reflexivity.
Qed.

(** X26: the classification is stable: when [update_property_info]
    returns, the token has the text it had, and classifying the token
    again returns the very same token (the same kind and flags).  The
    outcome of the classification does not depend on the kind, the
    control-flow-keyword flag and the standard-type flag the token had
    before the call. *)
Theorem update_property_info_is_idempotent :
  forall (O : Oracles) (t0 t1 : Token),
    update_property_info O t0 = Ok t1 ->
    mStr t1 = mStr t0 /\ update_property_info O t1 = Ok t1 /\
    (forall (k : TokType) (c s : bool),
        update_property_info O
          (with_mTokType k (with_mFlags (mkFlags c s (fIsLong (mFlags t0))) t0))
        = Ok t1).
Proof.
  intros O t0 t1 H. split; [|split].
  - exact (update_property_info_keeps_text O t0 t1 H).
  - exact (update_property_info_again O t0 t1 H).
  - intros k c s. rewrite update_property_info_ignores_kind. exact H.
Qed.

Lemma update_property_info_is_idempotent_witness :
  update_property_info example_oracles int_token = Ok int_token_classified /\
  update_property_info example_oracles int_token_classified
  = Ok int_token_classified /\
  update_property_info example_oracles
    (with_mTokType eNumber (with_mFlags (mkFlags true false false) int_token))
  = Ok int_token_classified.
Proof.
  split; [reflexivity|].
  destruct (update_property_info_is_idempotent example_oracles
              int_token int_token_classified eq_refl) as (_ & H2 & H3).
  split; [exact H2 | exact (H3 eNumber true false)].
Defined.
